(** * sistema_agendamento: booking service, LRU+TTL cache and JSON storage

    A shallow embedding of
      - [src/core/cache.py]        (class [CacheManager]),
      - [src/storage/json_storage.py] (class [JSONStorage]),
      - [src/core/models.py]       (classes [Paciente], [Medico], [Consulta]),
      - [src/core/agendamento.py]  (class [AgendamentoService]),
    followed by the properties of the specification that concern them.

    Conventions of the embedding.
      - Python [str] is [string]; a Python [dict] used as a map is a [gmap];
        [collections.OrderedDict] is an association list whose order is the
        dictionary order (oldest entry first).
      - [time.time()] is a reading of the wall clock; clock readings and the
        time-to-live are integers counted in one common unit (floating-point
        rounding is not represented).
      - A method that mutates [self] takes the object and returns the new one.
      - A read or a write of a file may fail: the methods of the storage take,
        for each of the two, whether the operating system carries it out, and
        the service draws both from its environment. *)

From Stdlib Require Import Ascii String.
From stdpp Require Import gmap strings list fin_maps sorting pretty.

Open Scope Z_scope.

(** ** [collections.OrderedDict] with [str] keys *)

Module OrderedDict.
Section Defs.
Context {V : Type}.

Definition t := list (string * V).

(** [key in d] *)
Fixpoint contains (key : string) (d : list (string * V)) : bool :=
  match d with
  | [] => false
  | (k, _) :: d' => if decide (k = key) then true else contains key d'
  end.

(** [d.get(key)] / [d[key]] when present *)
Fixpoint getitem (key : string) (d : list (string * V)) : option V :=
  match d with
  | [] => None
  | (k, v) :: d' => if decide (k = key) then Some v else getitem key d'
  end.

(** [d.pop(key, None)]: the entry of [key] leaves, the others keep their order *)
Fixpoint pop (key : string) (d : list (string * V)) : list (string * V) :=
  match d with
  | [] => []
  | (k, v) :: d' => if decide (k = key) then pop key d' else (k, v) :: pop key d'
  end.

(** [d.move_to_end(key)]; Python raises [KeyError] for a missing key, and
    the cache only calls it under a membership test, where this is the
    whole behaviour. *)
Definition move_to_end (key : string) (d : list (string * V)) : list (string * V) :=
  match getitem key d with
  | Some v => pop key d ++ [(key, v)]
  | None => d
  end.

(** [d[key] = value]: in place for a key already there, appended otherwise *)
Fixpoint setitem (key : string) (value : V) (d : list (string * V)) : list (string * V) :=
  match d with
  | [] => [(key, value)]
  | (k, v) :: d' =>
      if decide (k = key) then (k, value) :: d' else (k, v) :: setitem key value d'
  end.

(** [list(d.keys())] *)
Definition keys (d : list (string * V)) : list string := d.*1.

(** [next(iter(d))] *)
Definition first_key (d : list (string * V)) : option string :=
  match d with
  | [] => None
  | (k, _) :: _ => Some k
  end.
End Defs.
End OrderedDict.

(** [pattern in k] on Python strings: [pattern] occurs in [k] as a substring *)
Fixpoint str_in (pattern k : string) : bool :=
  if String.prefix pattern k then true
  else match k with
       | EmptyString => false
       | String _ k' => str_in pattern k'
       end.

(** ** [src/core/cache.py] *)

Module Cache.
Section Defs.
Context {V : Type}.

(** The attributes of a [CacheManager] (the lock apart). *)
Record CacheManager := mkCache {
  max_size : Z;
  ttl_seconds : Z;
  cache : list (string * V);
  timestamps : gmap string Z;
  hits : nat;
  misses : nat;
  evictions : nat
}.

(** [CacheManager.__init__] *)
Definition init (max_size ttl_seconds : Z) : CacheManager :=
  {| max_size := max_size; ttl_seconds := ttl_seconds;
     cache := []; timestamps := ∅;
     hits := 0; misses := 0; evictions := 0 |}.

(** [CacheManager._is_expired]; [agora] is what [time.time()] returns *)
Definition _is_expired (agora : Z) (key : string) (c : CacheManager) : bool :=
  match timestamps c !! key with
  | None => true
  | Some t => bool_decide (agora - t > ttl_seconds c)
  end.

(** [CacheManager._remove] *)
Definition _remove (key : string) (c : CacheManager) : CacheManager :=
  {| max_size := max_size c; ttl_seconds := ttl_seconds c;
     cache := OrderedDict.pop key (cache c);
     timestamps := delete key (timestamps c);
     hits := hits c; misses := misses c; evictions := evictions c |}.

Definition add_miss (c : CacheManager) : CacheManager :=
  {| max_size := max_size c; ttl_seconds := ttl_seconds c;
     cache := cache c; timestamps := timestamps c;
     hits := hits c; misses := S (misses c); evictions := evictions c |}.

(** [CacheManager._evict_oldest] *)
Definition _evict_oldest (c : CacheManager) : CacheManager :=
  match OrderedDict.first_key (cache c) with
  | None => c
  | Some oldest_key =>
      let c' := _remove oldest_key c in
      {| max_size := max_size c'; ttl_seconds := ttl_seconds c';
         cache := cache c'; timestamps := timestamps c';
         hits := hits c'; misses := misses c'; evictions := S (evictions c') |}
  end.

(** [CacheManager.get]: the returned value ([None] is Python's [None]) and
    the cache afterwards *)
Definition get (agora : Z) (key : string) (c : CacheManager) : option V * CacheManager :=
  if negb (OrderedDict.contains key (cache c)) then (None, add_miss c)
  else if _is_expired agora key c then (None, add_miss (_remove key c))
  else
    let moved := OrderedDict.move_to_end key (cache c) in
    (OrderedDict.getitem key moved,
     {| max_size := max_size c; ttl_seconds := ttl_seconds c;
        cache := moved; timestamps := timestamps c;
        hits := S (hits c); misses := misses c; evictions := evictions c |}).

(** [CacheManager.set] *)
Definition set (agora : Z) (key : string) (value : V) (c : CacheManager) : CacheManager :=
  if OrderedDict.contains key (cache c) then
    {| max_size := max_size c; ttl_seconds := ttl_seconds c;
       cache := OrderedDict.setitem key value (OrderedDict.move_to_end key (cache c));
       timestamps := <[key := agora]> (timestamps c);
       hits := hits c; misses := misses c; evictions := evictions c |}
  else
    let c1 := if bool_decide (Z.of_nat (length (cache c)) >= max_size c)
              then _evict_oldest c else c in
    {| max_size := max_size c1; ttl_seconds := ttl_seconds c1;
       cache := OrderedDict.setitem key value (cache c1);
       timestamps := <[key := agora]> (timestamps c1);
       hits := hits c1; misses := misses c1; evictions := evictions c1 |}.

(** [CacheManager.delete] *)
Definition delete (key : string) (c : CacheManager) : bool * CacheManager :=
  if OrderedDict.contains key (cache c) then (true, _remove key c)
  else (false, c).

(** [CacheManager.clear] *)
Definition clear (c : CacheManager) : CacheManager :=
  {| max_size := max_size c; ttl_seconds := ttl_seconds c;
     cache := []; timestamps := ∅;
     hits := hits c; misses := misses c; evictions := evictions c |}.

(** [CacheManager.invalidate_pattern] *)
Definition invalidate_pattern (pattern : string) (c : CacheManager) : nat * CacheManager :=
  let keys_to_remove :=
    List.filter (fun k => str_in pattern k) (OrderedDict.keys (cache c)) in
  (length keys_to_remove, foldl (fun c' key => _remove key c') c keys_to_remove).

(** Size of the cache, [len(self.cache)] *)
Definition size (c : CacheManager) : nat := length (cache c).

(** Operations of a client of the cache; each carries the clock reading
    its call observes. *)
Inductive op :=
  | OpSet (agora : Z) (key : string) (value : V)
  | OpGet (agora : Z) (key : string)
  | OpDelete (key : string)
  | OpClear
  | OpInvalidate (pattern : string).

Definition exec (o : op) (c : CacheManager) : CacheManager :=
  match o with
  | OpSet agora key value => set agora key value c
  | OpGet agora key => (get agora key c).2
  | OpDelete key => (delete key c).2
  | OpClear => clear c
  | OpInvalidate pattern => (invalidate_pattern pattern c).2
  end.

Definition run (ops : list op) (c : CacheManager) : CacheManager :=
  foldl (fun c' o => exec o c') c ops.

(** The list [[k for k in self.cache.keys() if self._is_expired(k)]] of
    [cleanup_expired]: every test reads the clock, and [relogio i] is what
    [time.time()] returns in the test of the key at position [i]. *)
Fixpoint expired_keys (relogio : nat → Z) (i : nat) (ks : list string)
    (c : CacheManager) : list string :=
  match ks with
  | [] => []
  | k :: ks' =>
      if _is_expired (relogio i) k c
      then k :: expired_keys relogio (S i) ks' c
      else expired_keys relogio (S i) ks' c
  end.

(** [CacheManager.cleanup_expired] *)
Definition cleanup_expired (relogio : nat → Z) (c : CacheManager) : nat * CacheManager :=
  let expired := expired_keys relogio 0 (OrderedDict.keys (cache c)) c in
  (length expired, foldl (fun c' key => _remove key c') c expired).

(** The caches a client reaches from [CacheManager(max_size, ttl_seconds)]
    by the calls of [op] and by [cleanup_expired]. *)
Inductive atingivel (max_size ttl_seconds : Z) : CacheManager → Prop :=
| ating_init : atingivel max_size ttl_seconds (init max_size ttl_seconds)
| ating_exec o c :
    atingivel max_size ttl_seconds c → atingivel max_size ttl_seconds (exec o c)
| ating_cleanup relogio c :
    atingivel max_size ttl_seconds c →
    atingivel max_size ttl_seconds (cleanup_expired relogio c).2.
End Defs.
Arguments CacheManager : clear implicits.
Arguments op : clear implicits.
End Cache.

(** ** [src/storage/json_storage.py] *)

(** [os.path.join(a, b)] on a POSIX system *)
Fixpoint ends_with_slash (a : string) : bool :=
  match a with
  | EmptyString => false
  | String c EmptyString => bool_decide (c = "/"%char)
  | String _ a' => ends_with_slash a'
  end.

Definition os_path_join (a b : string) : string :=
  match b with
  | String "/"%char _ => b
  | _ => if bool_decide (a = EmptyString) || ends_with_slash a
         then a +:+ b else a +:+ "/" +:+ b
  end.

Module JSONStorage.
Section Defs.
(** The records of a collection with [item.get('id')] on them, the text of
    a file, and the codec of the [json] module: [json_dump data] is the
    text [json.dump] writes ([None] when it raises), [json_load text] the
    list [json.load] reads from it ([None] for [JSONDecodeError]). *)
Context {R texto : Type} (get_id : R → option string).
Context (json_dump : list R → option texto) (json_load : texto → option (list R)).

(** A [JSONStorage] together with the directory tree it works on:
    [disco] maps a path to the text of the file there. *)
Record t := mk {
    base_dir : string;
    disco : gmap string texto
  }.

Definition com_disco (st : t) (d : gmap string texto) : t :=
  {| base_dir := base_dir st; disco := d |}.

(** [JSONStorage.__init__] over a directory without files *)
Definition init (base_dir : string) : t := {| base_dir := base_dir; disco := ∅ |}.

(** [JSONStorage._get_filepath] *)
Definition _get_filepath (st : t) (entity_type : string) : string :=
  os_path_join (base_dir st) (entity_type +:+ ".json").

(** [os.replace(src, dst)] / [os.rename(src, dst)] *)
Definition os_replace (src dst : string) (d : gmap string texto) : gmap string texto :=
  match d !! src with
  | Some c => <[dst := c]> (delete src d)
  | None => d
  end.

(** [JSONStorage.salvar]. [escrita_ok] tells whether the operating system
    carries out the writes of this call ([open], [flush], [fsync], rename);
    when one of them or [json.dump] raises, the handler removes the
    temporary file and the call returns [False]. *)
Definition salvar (escrita_ok : bool) (entity_type : string) (data : list R) (st : t)
  : bool * t :=
  let filepath := _get_filepath st entity_type in
  let temp_filepath := filepath +:+ ".tmp" in
  match json_dump data with
  | Some text =>
      if escrita_ok then
        let escrito := <[temp_filepath := text]> (disco st) in
        (true, com_disco st (os_replace temp_filepath filepath escrito))
      else
        (false, com_disco st (delete temp_filepath (disco st)))
  | None => (false, com_disco st (delete temp_filepath (disco st)))
  end.

(** [JSONStorage.carregar]: a collection without a file is empty.
    [leitura_ok] tells whether the operating system carries out the read of
    this call ([open] and the reads of [json.load]); when one of them
    raises, or when the text is not JSON, the handlers return the empty
    list. *)
Definition carregar (leitura_ok : bool) (entity_type : string) (st : t) : list R :=
  match disco st !! _get_filepath st entity_type with
  | None => []
  | Some text =>
      if leitura_ok then
        match json_load text with
        | Some data => data
        | None => []
        end
      else []
  end.

(** [JSONStorage.adicionar]: the read of [carregar], then the write of
    [salvar] *)
Definition adicionar (leitura_ok escrita_ok : bool) (entity_type : string) (item : R)
    (st : t) : bool * t :=
  let dados := carregar leitura_ok entity_type st in
  salvar escrita_ok entity_type (dados ++ [item]) st.

Definition tem_id (item_id : string) (item : R) : bool :=
  bool_decide (get_id item = Some item_id).

(** The loop of [JSONStorage.atualizar]: the first record whose id is
    [item_id] is replaced; [None] when the loop ends without a match. *)
Fixpoint substituir (item_id : string) (novo_item : R) (dados : list R) : option (list R) :=
  match dados with
  | [] => None
  | item :: resto =>
      if tem_id item_id item then Some (novo_item :: resto)
      else cons item <$> substituir item_id novo_item resto
  end.

(** [JSONStorage.atualizar] *)
Definition atualizar (leitura_ok escrita_ok : bool) (entity_type item_id : string)
    (novo_item : R) (st : t) : bool * t :=
  match substituir item_id novo_item (carregar leitura_ok entity_type st) with
  | Some dados => salvar escrita_ok entity_type dados st
  | None => (false, st)
  end.

(** [JSONStorage.remover] *)
Definition remover (leitura_ok escrita_ok : bool) (entity_type item_id : string) (st : t)
  : bool * t :=
  let dados := carregar leitura_ok entity_type st in
  let dados_filtrados := List.filter (fun item => negb (tem_id item_id item)) dados in
  if bool_decide (length dados_filtrados < length dados)%nat
  then salvar escrita_ok entity_type dados_filtrados st
  else (false, st).

(** [JSONStorage.buscar_por_id] *)
Definition buscar_por_id (leitura_ok : bool) (entity_type item_id : string) (st : t)
  : option R :=
  List.find (tem_id item_id) (carregar leitura_ok entity_type st).

(** [JSONStorage.contar] *)
Definition contar (leitura_ok : bool) (entity_type : string) (st : t) : nat :=
  length (carregar leitura_ok entity_type st).
End Defs.
Arguments t : clear implicits.
End JSONStorage.

(** ** [src/core/models.py] *)

Module Paciente.
Record t := mk {
    id : string;
    nome : string;
    cpf : string;
    telefone : string;
    email : string;
    data_cadastro : string
  }.
End Paciente.

(** [l.remove(x)] on a Python list that holds [x]: the first occurrence
    leaves. *)
Fixpoint list_remove (x : string) (l : list string) : list string :=
  match l with
  | [] => []
  | y :: l' => if decide (y = x) then l' else y :: list_remove x l'
  end.

Module Medico.
Record t := mk {
    id : string;
    nome : string;
    crm : string;
    especialidade : string;
    horarios_disponiveis : list string;
    data_cadastro : string
  }.

Definition com_horarios (m : t) (horarios : list string) : t :=
  {| id := id m; nome := nome m; crm := crm m; especialidade := especialidade m;
     horarios_disponiveis := horarios; data_cadastro := data_cadastro m |}.

(** [Medico.adicionar_horario] *)
Definition adicionar_horario (horario : string) (m : t) : bool * t :=
  if bool_decide (horario ∈ horarios_disponiveis m) then (false, m)
  else (true, com_horarios m (horarios_disponiveis m ++ [horario])).

(** [Medico.remover_horario] *)
Definition remover_horario (horario : string) (m : t) : bool * t :=
  if bool_decide (horario ∈ horarios_disponiveis m)
  then (true, com_horarios m (list_remove horario (horarios_disponiveis m)))
  else (false, m).
End Medico.

Module Consulta.
Definition STATUS_AGENDADA : string := "agendada".
Definition STATUS_CONFIRMADA : string := "confirmada".
Definition STATUS_REALIZADA : string := "realizada".
Definition STATUS_CANCELADA : string := "cancelada".

Record t := mk {
    id : string;
    paciente_id : string;
    medico_id : string;
    data : string;
    hora : string;
    observacoes : string;
    status : string;
    data_criacao : string;
    data_atualizacao : string
  }.

(** [novo_status in [STATUS_AGENDADA, STATUS_CONFIRMADA, STATUS_REALIZADA,
    STATUS_CANCELADA]] *)
Definition status_valido (novo_status : string) : bool :=
  bool_decide (novo_status ∈
    [STATUS_AGENDADA; STATUS_CONFIRMADA; STATUS_REALIZADA; STATUS_CANCELADA]).

(** [Consulta.atualizar_status]; [agora] is [datetime.now().isoformat()] *)
Definition atualizar_status (agora novo_status : string) (c : t) : bool * t :=
  if status_valido novo_status then
    (true, {| id := id c; paciente_id := paciente_id c; medico_id := medico_id c;
              data := data c; hora := hora c; observacoes := observacoes c;
              status := novo_status;
              data_criacao := data_criacao c; data_atualizacao := agora |})
  else (false, c).
End Consulta.

(** The dictionaries the three [to_dict] methods build, by their set of keys:
    a record of the [pacientes], [medicos] or [consultas] collection. *)
Inductive registro :=
| RPaciente (p : Paciente.t)
| RMedico (m : Medico.t)
| RConsulta (c : Consulta.t).

(** [item.get('id')]: all three shapes carry the key ['id'] *)
Definition registro_id (r : registro) : option string :=
  match r with
  | RPaciente p => Some (Paciente.id p)
  | RMedico m => Some (Medico.id m)
  | RConsulta c => Some (Consulta.id c)
  end.

(** What the service puts in the cache: one record, or a whole collection. *)
Inductive valor :=
| VReg (r : registro)
| VLista (l : list registro).

(** What a file of the service holds: the text [json.dump] wrote for a list
    of records, which [json.load] reads back as that list, or text that is
    not JSON. *)
Inductive conteudo :=
| Json (dados : list registro)
| Corrompido.

Definition json_dump (data : list registro) : option conteudo := Some (Json data).

Definition json_load (text : conteudo) : option (list registro) :=
  match text with
  | Json data => Some data
  | Corrompido => None
  end.

(** [if cached:] on the result of [cache_manager.get]: the branch is taken
    with the cached value unless that is [None] or an empty list. *)
Definition verdadeiro (cached : option valor) : option valor :=
  match cached with
  | None => None
  | Some (VReg r) => Some (VReg r)
  | Some (VLista []) => None
  | Some (VLista (r :: l)) => Some (VLista (r :: l))
  end.

(** ** The environment of the service, and the monad of its methods *)

(** What the process reads from outside: the [n]-th reading of the
    environment gives [time.time()], [datetime.now().isoformat()], the first
    eight characters of [str(uuid.uuid4())], and whether the operating system
    carries out a file write; [leitura_ok n] tells whether the operating
    system carries out the [n]-th read of a file of the storage. *)
Record Ambiente := mkAmbiente {
  relogio : nat → Z;
  agora_iso : nat → string;
  uuid8 : nat → string;
  escrita_ok : nat → bool;
  leitura_ok : nat → bool
}.

(** The process state a method of [AgendamentoService] works on: its
    [storage] (with the files), the module-level [cache_manager], the
    number of readings of the environment made so far, and the number of
    reads of a file of the storage made so far. *)
Record Estado := mkEstado {
  storage : JSONStorage.t conteudo;
  cache_manager : Cache.CacheManager valor;
  tique : nat;
  leituras : nat
}.

(** A method body: it may raise (no result) and leaves a state. *)
Definition M (A : Type) : Type := Estado → option A * Estado.

Definition ret {A} (a : A) : M A := fun s => (Some a, s).

Definition bind {A B} (m : M A) (k : A → M B) : M B :=
  fun s => match m s with
           | (Some a, s') => k a s'
           | (None, s') => (None, s')
           end.

(** [raise] *)
Definition levantar {A} : M A := fun s => (None, s).

(** [try: corpo except Exception: tratador] *)
Definition tentar {A} (corpo tratador : M A) : M A :=
  fun s => match corpo s with
           | (Some a, s') => (Some a, s')
           | (None, s') => tratador s'
           end.

Notation "'seja' x ':=' c1 'em' c2" := (bind c1 (fun x => c2))
  (at level 10, x pattern, c1 at level 100, c2 at level 200,
   format "'[' 'seja'  x  :=  c1  'em' ']' '//' c2").
Notation "c1 ';;;' c2" := (bind c1 (fun _ => c2))
  (at level 100, c2 at level 200, right associativity).

(** [[f(x) for x in xs]] for an [f] that may raise *)
Fixpoint para_cada {A B} (f : A → M B) (xs : list A) : M (list B) :=
  match xs with
  | [] => ret []
  | x :: xs' => seja y := f x em seja ys := para_cada f xs' em ret (y :: ys)
  end.

Section Servico.
Variable amb : Ambiente.

Definition avancar (s : Estado) : Estado :=
  {| storage := storage s; cache_manager := cache_manager s;
     tique := S (tique s); leituras := leituras s |}.

(** One reading of the environment. *)
Definition ler {A} (f : Ambiente → nat → A) : M A :=
  fun s => (Some (f amb (tique s)), avancar s).

Definition avancar_leitura (s : Estado) : Estado :=
  {| storage := storage s; cache_manager := cache_manager s;
     tique := tique s; leituras := S (leituras s) |}.

(** One read of a file of the storage: whether it is carried out. *)
Definition ler_arquivo : M bool :=
  fun s => (Some (leitura_ok amb (leituras s)), avancar_leitura s).

(** *** Calls on the module-level [cache_manager] *)

Definition com_cache (s : Estado) (c : Cache.CacheManager valor) : Estado :=
  {| storage := storage s; cache_manager := c; tique := tique s; leituras := leituras s |}.

Definition cache_get (key : string) : M (option valor) :=
  seja agora := ler relogio em
  fun s => let r := Cache.get agora key (cache_manager s) in (Some r.1, com_cache s r.2).

Definition cache_set (key : string) (value : valor) : M unit :=
  seja agora := ler relogio em
  fun s => (Some tt, com_cache s (Cache.set agora key value (cache_manager s))).

Definition cache_delete (key : string) : M bool :=
  fun s => let r := Cache.delete key (cache_manager s) in (Some r.1, com_cache s r.2).

Definition cache_invalidate_pattern (pattern : string) : M nat :=
  fun s => let r := Cache.invalidate_pattern pattern (cache_manager s) in
           (Some r.1, com_cache s r.2).

Definition cache_clear : M unit :=
  fun s => (Some tt, com_cache s (Cache.clear (cache_manager s))).

(** *** Calls on [self.storage] *)

Definition com_storage (s : Estado) (st : JSONStorage.t conteudo) : Estado :=
  {| storage := st; cache_manager := cache_manager s; tique := tique s;
     leituras := leituras s |}.

Definition storage_carregar (entity_type : string) : M (list registro) :=
  seja lido := ler_arquivo em
  fun s => (Some (JSONStorage.carregar json_load lido entity_type (storage s)), s).

Definition storage_buscar_por_id (entity_type item_id : string) : M (option registro) :=
  seja lido := ler_arquivo em
  fun s =>
    (Some (JSONStorage.buscar_por_id registro_id json_load lido entity_type item_id
             (storage s)),
     s).

Definition storage_adicionar (entity_type : string) (item : registro) : M bool :=
  seja lido := ler_arquivo em
  seja ok := ler escrita_ok em
  fun s =>
    let r := JSONStorage.adicionar json_dump json_load lido ok entity_type item (storage s) in
    (Some r.1, com_storage s r.2).

Definition storage_atualizar (entity_type item_id : string) (novo_item : registro) : M bool :=
  seja lido := ler_arquivo em
  seja ok := ler escrita_ok em
  fun s =>
    let r := JSONStorage.atualizar registro_id json_dump json_load lido ok entity_type
               item_id novo_item (storage s) in
    (Some r.1, com_storage s r.2).

Definition storage_remover (entity_type item_id : string) : M bool :=
  seja lido := ler_arquivo em
  seja ok := ler escrita_ok em
  fun s =>
    let r := JSONStorage.remover registro_id json_dump json_load lido ok entity_type item_id
               (storage s) in
    (Some r.1, com_storage s r.2).

(** *** Constructors and [from_dict] of the models *)

(** [id or f"{prefixo}{str(uuid.uuid4())[:8]}"]: a missing or empty [id]
    draws a fresh one. *)
Definition id_ou_novo (prefixo : string) (id : option string) : M string :=
  match id with
  | Some (String c i) => ret (String c i)
  | _ => seja u := ler uuid8 em ret (prefixo +:+ u)
  end.

(** [Paciente(nome, cpf, telefone, email, id)] *)
Definition Paciente_novo (nome cpf telefone email : string) (id : option string)
  : M Paciente.t :=
  seja id' := id_ou_novo "P" id em
  seja agora := ler agora_iso em
  ret (Paciente.mk id' nome cpf telefone email agora).

(** [Medico(nome, crm, especialidade, horarios_disponiveis, id)] *)
Definition Medico_novo (nome crm especialidade : string) (horarios : list string)
    (id : option string) : M Medico.t :=
  seja id' := id_ou_novo "M" id em
  seja agora := ler agora_iso em
  ret (Medico.mk id' nome crm especialidade horarios agora).

(** [Consulta(paciente_id, medico_id, data, hora, observacoes, id)] *)
Definition Consulta_novo (paciente_id medico_id data hora observacoes : string)
    (id : option string) : M Consulta.t :=
  seja id' := id_ou_novo "C" id em
  seja criacao := ler agora_iso em
  seja atualizacao := ler agora_iso em
  ret (Consulta.mk id' paciente_id medico_id data hora observacoes
         Consulta.STATUS_AGENDADA criacao atualizacao).

(** [Paciente.from_dict]: a dictionary without the keys of a patient
    raises [KeyError]; the attributes are those of the dictionary. *)
Definition Paciente_from_dict (d : registro) : M Paciente.t :=
  match d with
  | RPaciente p =>
      seja id' := id_ou_novo "P" (Some (Paciente.id p)) em
      ret (Paciente.mk id' (Paciente.nome p) (Paciente.cpf p) (Paciente.telefone p)
             (Paciente.email p) (Paciente.data_cadastro p))
  | _ => levantar
  end.

(** [Medico.from_dict] *)
Definition Medico_from_dict (d : registro) : M Medico.t :=
  match d with
  | RMedico m =>
      seja id' := id_ou_novo "M" (Some (Medico.id m)) em
      ret (Medico.mk id' (Medico.nome m) (Medico.crm m) (Medico.especialidade m)
             (Medico.horarios_disponiveis m) (Medico.data_cadastro m))
  | _ => levantar
  end.

(** [Consulta.from_dict] *)
Definition Consulta_from_dict (d : registro) : M Consulta.t :=
  match d with
  | RConsulta c =>
      seja id' := id_ou_novo "C" (Some (Consulta.id c)) em
      ret (Consulta.mk id' (Consulta.paciente_id c) (Consulta.medico_id c)
             (Consulta.data c) (Consulta.hora c) (Consulta.observacoes c)
             (Consulta.status c) (Consulta.data_criacao c) (Consulta.data_atualizacao c))
  | _ => levantar
  end.

(** [[X.from_dict(d) for d in cached]] on a value of the cache: iterating
    a dictionary yields its keys, on which [from_dict] raises. *)
Definition lista_from_dict {A} (from_dict : registro → M A) (cached : valor) : M (list A) :=
  match cached with
  | VLista l => para_cada from_dict l
  | VReg _ => levantar
  end.

(** [X.from_dict(cached)] on a value of the cache: a list has no string
    keys, and [from_dict] raises. *)
Definition valor_from_dict {A} (from_dict : registro → M A) (cached : valor) : M A :=
  match cached with
  | VReg r => from_dict r
  | VLista _ => levantar
  end.

(** *** [src/core/agendamento.py]: class [AgendamentoService] *)

(** The messages of the result tuples. *)
Inductive mensagem :=
  | CpfJaCadastrado            (* "CPF já cadastrado" *)
  | PacienteCadastrado         (* "Paciente cadastrado com sucesso" *)
  | ErroSalvarPaciente         (* "Erro ao salvar paciente" *)
  | PacienteNaoEncontrado      (* "Paciente não encontrado" *)
  | PacienteAtualizado         (* "Paciente atualizado com sucesso" *)
  | ErroAtualizarPaciente      (* "Erro ao atualizar paciente" *)
  | PacientePossuiConsultas    (* "Paciente possui consultas ativas" *)
  | PacienteRemovido           (* "Paciente removido com sucesso" *)
  | ErroRemoverPaciente        (* "Erro ao remover paciente" *)
  | CrmJaCadastrado            (* "CRM já cadastrado" *)
  | MedicoCadastrado           (* "Médico cadastrado com sucesso" *)
  | ErroSalvarMedico           (* "Erro ao salvar médico" *)
  | MedicoNaoEncontrado        (* "Médico não encontrado" *)
  | HorarioNaoDisponivel       (* "Horário não disponível para este médico" *)
  | HorarioOcupado             (* "Horário já ocupado para este médico" *)
  | HorarioDisponivel          (* "Horário disponível" *)
  | ConsultaAgendada           (* "Consulta agendada com sucesso" *)
  | ErroSalvarConsulta         (* "Erro ao salvar consulta" *)
  | ConsultaNaoEncontrada      (* "Consulta não encontrada" *)
  | StatusAtualizado (novo_status : string)  (* f"Status atualizado para {novo_status}" *)
  | StatusInvalido             (* "Status inválido" *)
  | Erro.                      (* f"Erro: {str(e)}" *)

(** [listar_pacientes] *)
Definition listar_pacientes : M (list Paciente.t) :=
  seja cached := cache_get "pacientes:all" em
  match verdadeiro cached with
  | Some v => lista_from_dict Paciente_from_dict v
  | None =>
      seja dados := storage_carregar "pacientes" em
      seja pacientes := para_cada Paciente_from_dict dados em
      cache_set "pacientes:all" (VLista dados) ;;;
      ret pacientes
  end.

(** [buscar_paciente] *)
Definition buscar_paciente (paciente_id : string) : M (option Paciente.t) :=
  seja cached := cache_get ("paciente:" +:+ paciente_id) em
  match verdadeiro cached with
  | Some v => seja p := valor_from_dict Paciente_from_dict v em ret (Some p)
  | None =>
      seja dados := storage_buscar_por_id "pacientes" paciente_id em
      match dados with
      | Some d =>
          cache_set ("paciente:" +:+ paciente_id) (VReg d) ;;;
          seja p := Paciente_from_dict d em ret (Some p)
      | None => ret None
      end
  end.

(** [criar_paciente] *)
Definition criar_paciente (nome cpf telefone email : string)
  : M (bool * mensagem * option Paciente.t) :=
  tentar
    (seja pacientes := listar_pacientes em
     if existsb (fun p => bool_decide (Paciente.cpf p = cpf)) pacientes
     then ret (false, CpfJaCadastrado, None)
     else
       seja paciente := Paciente_novo nome cpf telefone email None em
       seja ok := storage_adicionar "pacientes" (RPaciente paciente) em
       if ok then
         cache_invalidate_pattern "pacientes" ;;;
         ret (true, PacienteCadastrado, Some paciente)
       else ret (false, ErroSalvarPaciente, None))
    (ret (false, Erro, None)).

(** [atualizar_paciente] *)
Definition atualizar_paciente (paciente_id nome cpf telefone email : string)
  : M (bool * mensagem) :=
  tentar
    (seja achado := buscar_paciente paciente_id em
     match achado with
     | None => ret (false, PacienteNaoEncontrado)
     | Some paciente =>
         let paciente :=
           Paciente.mk (Paciente.id paciente) nome cpf telefone email
             (Paciente.data_cadastro paciente) in
         seja ok := storage_atualizar "pacientes" paciente_id (RPaciente paciente) em
         if ok then
           cache_delete ("paciente:" +:+ paciente_id) ;;;
           cache_invalidate_pattern "pacientes" ;;;
           ret (true, PacienteAtualizado)
         else ret (false, ErroAtualizarPaciente)
     end)
    (ret (false, Erro)).

(** [listar_consultas] *)
Definition listar_consultas : M (list Consulta.t) :=
  seja cached := cache_get "consultas:all" em
  match verdadeiro cached with
  | Some v => lista_from_dict Consulta_from_dict v
  | None =>
      seja dados := storage_carregar "consultas" em
      seja consultas := para_cada Consulta_from_dict dados em
      cache_set "consultas:all" (VLista dados) ;;;
      ret consultas
  end.

(** [listar_consultas_paciente] *)
Definition listar_consultas_paciente (paciente_id : string) : M (list Consulta.t) :=
  seja consultas := listar_consultas em
  ret (List.filter (fun c => bool_decide (Consulta.paciente_id c = paciente_id)) consultas).

(** [listar_consultas_medico] *)
Definition listar_consultas_medico (medico_id : string) : M (list Consulta.t) :=
  seja consultas := listar_consultas em
  ret (List.filter (fun c => bool_decide (Consulta.medico_id c = medico_id)) consultas).

(** [c.status not in [Consulta.STATUS_CANCELADA, Consulta.STATUS_REALIZADA]] *)
Definition consulta_ativa (c : Consulta.t) : bool :=
  negb (bool_decide (Consulta.status c ∈
          [Consulta.STATUS_CANCELADA; Consulta.STATUS_REALIZADA])).

(** [remover_paciente] *)
Definition remover_paciente (paciente_id : string) : M (bool * mensagem) :=
  tentar
    (seja consultas := listar_consultas_paciente paciente_id em
     let consultas_ativas := List.filter consulta_ativa consultas in
     match consultas_ativas with
     | _ :: _ => ret (false, PacientePossuiConsultas)
     | [] =>
         seja ok := storage_remover "pacientes" paciente_id em
         if ok then
           cache_delete ("paciente:" +:+ paciente_id) ;;;
           cache_invalidate_pattern "pacientes" ;;;
           ret (true, PacienteRemovido)
         else ret (false, ErroRemoverPaciente)
     end)
    (ret (false, Erro)).

(** [listar_medicos] *)
Definition listar_medicos : M (list Medico.t) :=
  seja cached := cache_get "medicos:all" em
  match verdadeiro cached with
  | Some v => lista_from_dict Medico_from_dict v
  | None =>
      seja dados := storage_carregar "medicos" em
      seja medicos := para_cada Medico_from_dict dados em
      cache_set "medicos:all" (VLista dados) ;;;
      ret medicos
  end.

(** [criar_medico] *)
Definition criar_medico (nome crm especialidade : string) (horarios : list string)
  : M (bool * mensagem * option Medico.t) :=
  tentar
    (seja medicos := listar_medicos em
     if existsb (fun m => bool_decide (Medico.crm m = crm)) medicos
     then ret (false, CrmJaCadastrado, None)
     else
       seja medico := Medico_novo nome crm especialidade horarios None em
       seja ok := storage_adicionar "medicos" (RMedico medico) em
       if ok then
         cache_invalidate_pattern "medicos" ;;;
         ret (true, MedicoCadastrado, Some medico)
       else ret (false, ErroSalvarMedico, None))
    (ret (false, Erro, None)).

(** [buscar_medico] *)
Definition buscar_medico (medico_id : string) : M (option Medico.t) :=
  seja cached := cache_get ("medico:" +:+ medico_id) em
  match verdadeiro cached with
  | Some v => seja m := valor_from_dict Medico_from_dict v em ret (Some m)
  | None =>
      seja dados := storage_buscar_por_id "medicos" medico_id em
      match dados with
      | Some d =>
          cache_set ("medico:" +:+ medico_id) (VReg d) ;;;
          seja m := Medico_from_dict d em ret (Some m)
      | None => ret None
      end
  end.

(** The loop of [verificar_conflito] over the listed appointments:
    [True] as soon as a non-cancelled appointment other than [consulta_id]
    has the same doctor, date and time. *)
Fixpoint tem_conflito (medico_id data hora : string) (consulta_id : option string)
    (consultas : list Consulta.t) : bool :=
  match consultas with
  | [] => false
  | consulta :: resto =>
      if match consulta_id with
         | Some (String c i) => bool_decide (Consulta.id consulta = String c i)
         | _ => false
         end
      then tem_conflito medico_id data hora consulta_id resto
      else if bool_decide (Consulta.status consulta = Consulta.STATUS_CANCELADA)
      then tem_conflito medico_id data hora consulta_id resto
      else if bool_decide (Consulta.medico_id consulta = medico_id)
              && bool_decide (Consulta.data consulta = data)
              && bool_decide (Consulta.hora consulta = hora)
      then true
      else tem_conflito medico_id data hora consulta_id resto
  end.

(** [verificar_conflito] *)
Definition verificar_conflito (medico_id data hora : string) (consulta_id : option string)
  : M (bool * mensagem) :=
  seja consultas := listar_consultas em
  if tem_conflito medico_id data hora consulta_id consultas
  then ret (true, HorarioOcupado)
  else ret (false, HorarioDisponivel).

(** [agendar_consulta]; the body runs with [self.agendamento_lock] held. *)
Definition agendar_consulta (paciente_id medico_id data hora observacoes : string)
  : M (bool * mensagem * option Consulta.t) :=
  tentar
    (seja paciente := buscar_paciente paciente_id em
     match paciente with
     | None => ret (false, PacienteNaoEncontrado, None)
     | Some _ =>
         seja medico := buscar_medico medico_id em
         match medico with
         | None => ret (false, MedicoNaoEncontrado, None)
         | Some medico =>
             if negb (bool_decide (hora ∈ Medico.horarios_disponiveis medico))
             then ret (false, HorarioNaoDisponivel, None)
             else
               seja conflito := verificar_conflito medico_id data hora None em
               if conflito.1 then ret (false, conflito.2, None)
               else
                 seja consulta :=
                   Consulta_novo paciente_id medico_id data hora observacoes None em
                 seja ok := storage_adicionar "consultas" (RConsulta consulta) em
                 if ok then
                   cache_invalidate_pattern "consultas" ;;;
                   ret (true, ConsultaAgendada, Some consulta)
                 else ret (false, ErroSalvarConsulta, None)
         end
     end)
    (ret (false, Erro, None)).

(** [buscar_consulta] *)
Definition buscar_consulta (consulta_id : string) : M (option Consulta.t) :=
  seja dados := storage_buscar_por_id "consultas" consulta_id em
  match dados with
  | Some d => seja c := Consulta_from_dict d em ret (Some c)
  | None => ret None
  end.

(** [atualizar_status_consulta] *)
Definition atualizar_status_consulta (consulta_id novo_status : string)
  : M (bool * mensagem) :=
  tentar
    (seja achada := buscar_consulta consulta_id em
     match achada with
     | None => ret (false, ConsultaNaoEncontrada)
     | Some consulta =>
         seja agora := ler agora_iso em
         let r := Consulta.atualizar_status agora novo_status consulta in
         if r.1 then
           seja ok := storage_atualizar "consultas" consulta_id (RConsulta r.2) em
           if ok then
             cache_invalidate_pattern "consultas" ;;;
             ret (true, StatusAtualizado novo_status)
           else ret (false, StatusInvalido)
         else ret (false, StatusInvalido)
     end)
    (ret (false, Erro)).

(** [cancelar_consulta] *)
Definition cancelar_consulta (consulta_id : string) : M (bool * mensagem) :=
  atualizar_status_consulta consulta_id Consulta.STATUS_CANCELADA.

(** *** Sequences of calls on the service *)

(** A call on the service (or on the cache it shares, as the web layer's
    [/api/cache/clear] does), with its arguments. *)
Inductive chamada :=
  | CriarPaciente (nome cpf telefone email : string)
  | ListarPacientes
  | BuscarPaciente (paciente_id : string)
  | AtualizarPaciente (paciente_id nome cpf telefone email : string)
  | RemoverPaciente (paciente_id : string)
  | CriarMedico (nome crm especialidade : string) (horarios : list string)
  | ListarMedicos
  | BuscarMedico (medico_id : string)
  | VerificarConflito (medico_id data hora : string) (consulta_id : option string)
  | AgendarConsulta (paciente_id medico_id data hora observacoes : string)
  | ListarConsultas
  | ListarConsultasPaciente (paciente_id : string)
  | ListarConsultasMedico (medico_id : string)
  | BuscarConsulta (consulta_id : string)
  | AtualizarStatusConsulta (consulta_id novo_status : string)
  | CancelarConsulta (consulta_id : string)
  | CacheClear.

(** The state a call leaves, whatever it returns or raises. *)
Definition depois {A} (m : M A) (s : Estado) : Estado := (m s).2.

Definition executar (ch : chamada) (s : Estado) : Estado :=
  match ch with
  | CriarPaciente nome cpf telefone email => depois (criar_paciente nome cpf telefone email) s
  | ListarPacientes => depois listar_pacientes s
  | BuscarPaciente paciente_id => depois (buscar_paciente paciente_id) s
  | AtualizarPaciente paciente_id nome cpf telefone email =>
      depois (atualizar_paciente paciente_id nome cpf telefone email) s
  | RemoverPaciente paciente_id => depois (remover_paciente paciente_id) s
  | CriarMedico nome crm especialidade horarios =>
      depois (criar_medico nome crm especialidade horarios) s
  | ListarMedicos => depois listar_medicos s
  | BuscarMedico medico_id => depois (buscar_medico medico_id) s
  | VerificarConflito medico_id data hora consulta_id =>
      depois (verificar_conflito medico_id data hora consulta_id) s
  | AgendarConsulta paciente_id medico_id data hora observacoes =>
      depois (agendar_consulta paciente_id medico_id data hora observacoes) s
  | ListarConsultas => depois listar_consultas s
  | ListarConsultasPaciente paciente_id => depois (listar_consultas_paciente paciente_id) s
  | ListarConsultasMedico medico_id => depois (listar_consultas_medico medico_id) s
  | BuscarConsulta consulta_id => depois (buscar_consulta consulta_id) s
  | AtualizarStatusConsulta consulta_id novo_status =>
      depois (atualizar_status_consulta consulta_id novo_status) s
  | CancelarConsulta consulta_id => depois (cancelar_consulta consulta_id) s
  | CacheClear => depois cache_clear s
  end.

Definition executar_todas (chs : list chamada) (s : Estado) : Estado :=
  foldl (fun s' ch => executar ch s') s chs.
End Servico.

(** The process at start: a storage directory without files, and the
    module-level [cache_manager = CacheManager(max_size=100, ttl_seconds=300)]. *)
Definition estado_inicial (base_dir : string) : Estado :=
  {| storage := JSONStorage.init base_dir;
     cache_manager := Cache.init 100 300;
     tique := 0;
     leituras := 0 |}.

(** States the service reaches from the start, under some environment. *)
Definition alcancavel (amb : Ambiente) (base_dir : string) (s : Estado) : Prop :=
  ∃ chs, s = executar_todas amb chs (estado_inicial base_dir).

(** The records of the three collections, as stored: what a read that is
    carried out finds in their files. *)
Definition pacientes_de (s : Estado) : list registro :=
  JSONStorage.carregar json_load true "pacientes" (storage s).
Definition medicos_de (s : Estado) : list registro :=
  JSONStorage.carregar json_load true "medicos" (storage s).
Definition consultas_de (s : Estado) : list registro :=
  JSONStorage.carregar json_load true "consultas" (storage s).

(** ** Threads that run a critical section under [agendamento_lock] *)

(** The body of a [with self.agendamento_lock:] block inside
    [try ... except Exception], cut into atomic steps: [Sair a] leaves the
    block and returns [a]; [Passo m k exc] runs the method call [m] and goes
    on with [k] on its result, or, when [m] raises, leaves the block (the
    lock is released) and returns [exc] from the handler. *)
Inductive secao (A : Type) : Type :=
| Sair (a : A)
| Passo {X : Type} (m : M X) (k : X → secao A) (exc : A).
Arguments Sair {A} a.
Arguments Passo {A X} m k exc.

(** The block run from beginning to end by one thread alone. *)
Fixpoint correr {A} (p : secao A) (s : Estado) : A * Estado :=
  match p with
  | Sair a => (a, s)
  | Passo m k exc =>
      match m s with
      | (Some x, s') => correr (k x) s'
      | (None, s') => (exc, s')
      end
  end.

(** A thread that calls a method whose body is such a block: it waits for
    the lock, is inside the block, or has returned. *)
Inductive fio (A : Type) : Type :=
| Esperando (corpo : secao A)
| Dentro (p : secao A)
| Terminou (r : A).
Arguments Esperando {A} corpo.
Arguments Dentro {A} p.
Arguments Terminou {A} r.

(** Two threads, the process state they share, and the lock
    ([threading.Lock]: held or free). *)
Record Sistema (A : Type) := mkSistema {
  compartilhado : Estado;
  trancado : bool;
  fio1 : fio A;
  fio2 : fio A
}.
Arguments mkSistema {A}.
Arguments compartilhado {A}.
Arguments trancado {A}.
Arguments fio1 {A}.
Arguments fio2 {A}.

(** One step of a thread: [acquire] succeeds only on a free lock (a thread
    that finds it held stays where it is); inside the block one atomic step
    runs on the shared state; leaving the block, normally or by an
    exception, releases the lock. *)
Definition passo_fio {A} (f : fio A) (s : Estado) (l : bool) : fio A * Estado * bool :=
  match f with
  | Esperando corpo => if l then (f, s, l) else (Dentro corpo, s, true)
  | Dentro (Sair a) => (Terminou a, s, false)
  | Dentro (Passo m k exc) =>
      match m s with
      | (Some x, s') => (Dentro (k x), s', l)
      | (None, s') => (Terminou exc, s', false)
      end
  | Terminou r => (f, s, l)
  end.

(** The scheduler gives the next step to thread 1 ([true]) or 2 ([false]). *)
Definition escalonar {A} (sis : Sistema A) (primeiro : bool) : Sistema A :=
  if primeiro then
    let r := passo_fio (fio1 sis) (compartilhado sis) (trancado sis) in
    mkSistema r.1.2 r.2 r.1.1 (fio2 sis)
  else
    let r := passo_fio (fio2 sis) (compartilhado sis) (trancado sis) in
    mkSistema r.1.2 r.2 (fio1 sis) r.1.1.

(** An interleaving is the list of the scheduler's choices. *)
Definition executar_agenda {A} (agenda : list bool) (sis : Sistema A) : Sistema A :=
  foldl escalonar sis agenda.

Definition sistema_inicial {A} (s : Estado) (c1 c2 : secao A) : Sistema A :=
  mkSistema s false (Esperando c1) (Esperando c2).

Section AgendarSecao.
Variable amb : Ambiente.

(** The block of [agendar_consulta], one step per call on the service, the
    storage or the cache. *)
Definition agendar_secao (paciente_id medico_id data hora observacoes : string)
  : secao (bool * mensagem * option Consulta.t) :=
  let erro := (false, Erro, None) in
  Passo (buscar_paciente amb paciente_id) (fun paciente =>
    match paciente with
    | None => Sair (false, PacienteNaoEncontrado, None)
    | Some _ =>
  Passo (buscar_medico amb medico_id) (fun medico =>
    match medico with
    | None => Sair (false, MedicoNaoEncontrado, None)
    | Some medico =>
        if negb (bool_decide (hora ∈ Medico.horarios_disponiveis medico))
        then Sair (false, HorarioNaoDisponivel, None)
        else
  Passo (verificar_conflito amb medico_id data hora None) (fun conflito =>
    if conflito.1 then Sair (false, conflito.2, None)
    else
  Passo (Consulta_novo amb paciente_id medico_id data hora observacoes None) (fun consulta =>
  Passo (storage_adicionar amb "consultas" (RConsulta consulta)) (fun ok =>
    if ok then
  Passo (cache_invalidate_pattern "consultas") (fun _ =>
    Sair (true, ConsultaAgendada, Some consulta)) erro
    else Sair (false, ErroSalvarConsulta, None)) erro) erro) erro
    end) erro
    end) erro.
End AgendarSecao.

(** * Notions of the specification *)

(** ** Specification-side notions for the cache *)

Module LRU.
Section Defs.
Context {V : Type}.

(** A call touches a key when it is a [set] of the key, or a [get] of the
    key that hits (the key is stored and not expired). *)
Definition tocada (o : Cache.op V) (c : Cache.CacheManager V) : option string :=
  match o with
  | Cache.OpSet _ key _ => Some key
  | Cache.OpGet agora key =>
      if OrderedDict.contains key (Cache.cache c) && negb (Cache._is_expired agora key c)
      then Some key else None
  | _ => None
  end.

(** A history: the cache so far, the number of calls made, and for every
    key the index of the last call that touched it. *)
Definition historia : Type := Cache.CacheManager V * nat * gmap string nat.

Definition registrar (h : historia) (o : Cache.op V) : historia :=
  let '(c, n, tq) := h in
  (Cache.exec o c, S n,
   match tocada o c with
   | Some key => <[key := n]> tq
   | None => tq
   end).

Definition historia_de (ops : list (Cache.op V)) (c0 : Cache.CacheManager V) : historia :=
  foldl registrar (c0, 0%nat, ∅) ops.

(** [ultimo_toque ops c0 k]: the index in [ops] of the last call that
    touched [k], when the calls [ops] are made on [c0]. *)
Definition ultimo_toque (ops : list (Cache.op V)) (c0 : Cache.CacheManager V)
    (k : string) : option nat :=
  (historia_de ops c0).2 !! k.

(** [k] was touched strictly before [k'] *)
Definition antes (tq : gmap string nat) (k k' : string) : Prop :=
  ∃ t t', tq !! k = Some t ∧ tq !! k' = Some t' ∧ (t < t')%nat.

(** [vitima] is the least recently used of the stored keys *)
Definition menos_recente (ops : list (Cache.op V)) (c0 : Cache.CacheManager V)
    (vitima : string) : Prop :=
  let c := Cache.run ops c0 in
  vitima ∈ OrderedDict.keys (Cache.cache c) ∧
  ∀ k, k ∈ OrderedDict.keys (Cache.cache c) → k ≠ vitima →
       antes (historia_de ops c0).2 vitima k.
End Defs.
End LRU.

(** The timestamp of [key] is the one of its last [set] at [t0], or gone. *)
Definition carimbo_de (key : string) (t0 : Z) (m : gmap string Z) : Prop :=
  m !! key = None ∨ m !! key = Some t0.

(** A call that is not a [set] of [key] *)
Definition nao_define {V} (key : string) (o : Cache.op V) : Prop :=
  match o with
  | Cache.OpSet _ k _ => k ≠ key
  | _ => True
  end.

(** The dictionary order is the order of last touch: every stored key was
    touched, before call [n], and strictly earlier than the keys after it. *)
Definition ordem (ks : list string) (n : nat) (tq : gmap string nat) : Prop :=
  StronglySorted (LRU.antes tq) ks
  ∧ Forall (λ k, ∃ t, tq !! k = Some t ∧ (t < n)%nat) ks.

(** The dictionary and the timestamps hold the same keys, each once. *)
Definition sincronizado {V} (c : Cache.CacheManager V) : Prop :=
  NoDup (OrderedDict.keys (Cache.cache c))
  ∧ ∀ k, k ∈ OrderedDict.keys (Cache.cache c) ↔ is_Some (Cache.timestamps c !! k).

(** A call of [get] *)
Definition e_get {V} (o : Cache.op V) : bool :=
  match o with
  | Cache.OpGet _ _ => true
  | _ => false
  end.

(** [pattern] occurs in [k] *)
Definition ocorre (pattern k : string) : Prop := ∃ a b, k = a +:+ pattern +:+ b.

(** The last character of a string. *)
Fixpoint ultimo (s : string) : option ascii :=
  match s with
  | EmptyString => None
  | String c EmptyString => Some c
  | String _ s' => ultimo s'
  end.


(** A sequence of records is valid when the text [json.dump] writes for it
    is read back by [json.load] as the same sequence. *)
Definition valido {R texto} (json_dump : list R → option texto)
  (json_load : texto → option (list R)) (data : list R) : Prop :=
  ∀ text, json_dump data = Some text → json_load text = Some data.

(** A record of the [pacientes] collection as the patient it describes: the
    dictionary a [Paciente.to_dict] built (its id is never empty). *)
Definition como_paciente (r : registro) : option Paciente.t :=
  match r with
  | RPaciente p => if decide (Paciente.id p = "") then None else Some p
  | _ => None
  end.

Definition como_medico (r : registro) : option Medico.t :=
  match r with
  | RMedico m => if decide (Medico.id m = "") then None else Some m
  | _ => None
  end.

Definition como_consulta (r : registro) : option Consulta.t :=
  match r with
  | RConsulta c => if decide (Consulta.id c = "") then None else Some c
  | _ => None
  end.

(** The patients, doctors and appointments a state stores. *)
Definition pacientes (s : Estado) : list Paciente.t := omap como_paciente (pacientes_de s).

Definition medicos (s : Estado) : list Medico.t := omap como_medico (medicos_de s).

Definition consultas (s : Estado) : list Consulta.t := omap como_consulta (consultas_de s).

(** Every stored record has the shape of its collection. *)
Definition tipado (s : Estado) : Prop :=
  Forall (λ r, is_Some (como_paciente r)) (pacientes_de s)
  ∧ Forall (λ r, is_Some (como_medico r)) (medicos_de s)
  ∧ Forall (λ r, is_Some (como_consulta r)) (consultas_de s).

(** The record stored under [item_id]: what [storage.buscar_por_id] finds
    when its read is carried out *)
Definition registro_de (entity_type item_id : string) (s : Estado) : option registro :=
  JSONStorage.buscar_por_id registro_id json_load true entity_type item_id (storage s).

(** What a cache entry under [key] must hold to agree with the storage. *)
Definition valor_esperado (s : Estado) (key : string) (v : valor) : Prop :=
  (key = "pacientes:all" → v = VLista (pacientes_de s))
  ∧ (key = "medicos:all" → v = VLista (medicos_de s))
  ∧ (key = "consultas:all" → v = VLista (consultas_de s))
  ∧ (∀ id, key = "paciente:" +:+ id →
       ∃ r, v = VReg r ∧ registro_de "pacientes" id s = Some r)
  ∧ (∀ id, key = "medico:" +:+ id →
       ∃ r, v = VReg r ∧ registro_de "medicos" id s = Some r).

(** The entries of the cache *)
Definition entradas (s : Estado) : list (string * valor) := Cache.cache (cache_manager s).

(** The cache agrees with the storage. *)
Definition coerente (s : Estado) : Prop :=
  ∀ key v, OrderedDict.getitem key (entradas s) = Some v → valor_esperado s key v.

Definition invariante (s : Estado) : Prop := tipado s ∧ coerente s.

(** A live appointment holds the slot [(medico_id, data, hora)]. *)
Definition ocupa (medico_id data hora : string) (c : Consulta.t) : Prop :=
  Consulta.status c ≠ Consulta.STATUS_CANCELADA
  ∧ Consulta.medico_id c = medico_id
  ∧ Consulta.data c = data
  ∧ Consulta.hora c = hora.

Definition horario_ocupado (s : Estado) (medico_id data hora : string) : Prop :=
  ∃ c, c ∈ consultas s ∧ ocupa medico_id data hora c.

(** At most one live appointment per slot: two stored appointments (at
    different positions of the collection) that hold the same slot do not
    exist. *)
Definition sem_conflitos (s : Estado) : Prop :=
  ∀ i j c1 c2,
    consultas s !! i = Some c1 → consultas s !! j = Some c2 → i ≠ j →
    Consulta.status c1 ≠ Consulta.STATUS_CANCELADA →
    Consulta.status c2 ≠ Consulta.STATUS_CANCELADA →
    ¬ (Consulta.medico_id c1 = Consulta.medico_id c2
       ∧ Consulta.data c1 = Consulta.data c2
       ∧ Consulta.hora c1 = Consulta.hora c2).

(** Pairwise distinct business keys. *)
Definition cpfs_distintos (s : Estado) : Prop := NoDup (Paciente.cpf <$> pacientes s).

Definition crms_distintos (s : Estado) : Prop := NoDup (Medico.crm <$> medicos s).

(** The environment carries out every read of a file of the storage. *)
Class LeiturasOk (amb : Ambiente) : Prop :=
  leituras_ok : ∀ n, leitura_ok amb n = true.

(** The environment carries out every write of a file of the storage. *)
Class EscritasOk (amb : Ambiente) : Prop :=
  escritas_ok : ∀ n, escrita_ok amb n = true.

(** The postcondition a method establishes from a state: [Q] holds of what
    it returns ([None] when it raises) and of the state it leaves. *)
Definition wp {A} (m : M A) (Q : option A → Estado → Prop) (s : Estado) : Prop :=
  Q (m s).1 (m s).2.

(** A method body never takes back a reading of the environment. *)
Definition monotono {A} (m : M A) : Prop := ∀ s, (tique s ≤ tique (m s).2)%nat.

(** The three collections of the service. *)
Definition colecao (e : string) : Prop :=
  e = "pacientes" ∨ e = "medicos" ∨ e = "consultas".

Definition prefixo (base : string) : string :=
  if bool_decide (base = EmptyString) || ends_with_slash base then base else base +:+ "/".

(** [d'] holds no entry that [d] does not hold. *)
Definition sub_entradas (d' d : list (string * valor)) : Prop :=
  ∀ k v, OrderedDict.getitem k d' = Some v → OrderedDict.getitem k d = Some v.

(** The records of collection [e] in the storage of a state. *)
Definition dados (e : string) (s : Estado) : list registro :=
  JSONStorage.carregar json_load true e (storage s).

(** The state after a write of collection [e]: the cache is as before, the
    other collections are as before, and [e] holds [novo]. *)
Definition escrito (e : string) (novo : list registro) (s s' : Estado) : Prop :=
  entradas s' = entradas s
  ∧ dados e s' = novo
  ∧ ∀ e', colecao e' → e' ≠ e → dados e' s' = dados e' s.

(** [f] rebuilds from a well-formed record the entity [como] sees in it,
    without raising and without reading the environment. *)
Definition decodifica {A} (f : registro → M A) (como : registro → option A) : Prop :=
  ∀ r a s, como r = Some a → f r s = (Some a, s).

(** The body shared by [listar_pacientes], [listar_medicos] and
    [listar_consultas]. *)
Definition listar_gen {A} (amb : Ambiente) (key e : string) (from_dict : registro → M A)
  : M (list A) :=
  seja cached := cache_get amb key em
  match verdadeiro cached with
  | Some v => lista_from_dict from_dict v
  | None =>
      seja dados := storage_carregar amb e em
      seja xs := para_cada from_dict dados em
      cache_set amb key (VLista dados) ;;;
      ret xs
  end.

(** The body shared by [buscar_paciente] and [buscar_medico]. *)
Definition buscar_gen {A} (amb : Ambiente) (key e item_id : string)
    (from_dict : registro → M A) : M (option A) :=
  seja cached := cache_get amb key em
  match verdadeiro cached with
  | Some v => seja p := valor_from_dict from_dict v em ret (Some p)
  | None =>
      seja dados := storage_buscar_por_id amb e item_id em
      match dados with
      | Some d =>
          cache_set amb key (VReg d) ;;;
          seja p := from_dict d em ret (Some p)
      | None => ret None
      end
  end.

(** The three collections hold the same records in [s'] as in [s]. *)
Definition mesmos_dados (s s' : Estado) : Prop := ∀ e, colecao e → dados e s' = dados e s.

(** The patient, doctor and appointment stored under an id. *)
Definition paciente_de (s : Estado) (paciente_id : string) : option Paciente.t :=
  registro_de "pacientes" paciente_id s ≫= como_paciente.

Definition medico_de (s : Estado) (medico_id : string) : option Medico.t :=
  registro_de "medicos" medico_id s ≫= como_medico.

Definition consulta_de (s : Estado) (consulta_id : string) : option Consulta.t :=
  registro_de "consultas" consulta_id s ≫= como_consulta.

(** What [agendar_consulta] returns from state [s], and the state [s'] it
    leaves: the rejection of the first check that fails, in the order of
    the checks; otherwise the new appointment, appended when the write of the
    storage succeeds. That write is the call's last reading of the
    environment, [n + 3], after the three of the constructor of [Consulta]. *)
Definition agendar_spec (amb : Ambiente) (s : Estado)
    (paciente_id medico_id data hora observacoes : string)
    (r : bool * mensagem * option Consulta.t) (s' : Estado) : Prop :=
  match paciente_de s paciente_id with
  | None => r = (false, PacienteNaoEncontrado, None) ∧ mesmos_dados s s'
  | Some _ =>
      match medico_de s medico_id with
      | None => r = (false, MedicoNaoEncontrado, None) ∧ mesmos_dados s s'
      | Some medico =>
          if bool_decide (hora ∈ Medico.horarios_disponiveis medico) then
            if tem_conflito medico_id data hora None (consultas s) then
              r = (false, HorarioOcupado, None) ∧ mesmos_dados s s'
            else
              ∃ n,
                let c := Consulta.mk ("C" +:+ uuid8 amb n) paciente_id medico_id data hora
                           observacoes Consulta.STATUS_AGENDADA
                           (agora_iso amb (S n)) (agora_iso amb (S (S n))) in
                (tique s ≤ n)%nat ∧ tique s' = S (S (S (S n))) ∧
                if escrita_ok amb (S (S (S n))) then
                  r = (true, ConsultaAgendada, Some c)
                  ∧ dados "consultas" s' = dados "consultas" s ++ [RConsulta c]
                  ∧ dados "pacientes" s' = dados "pacientes" s
                  ∧ dados "medicos" s' = dados "medicos" s
                else
                  r = (false, ErroSalvarConsulta, None) ∧ mesmos_dados s s'
          else r = (false, HorarioNaoDisponivel, None) ∧ mesmos_dados s s'
      end
  end.

(** The appointments of a patient that are neither cancelled nor done. *)
Definition consultas_ativas (s : Estado) (paciente_id : string) : list Consulta.t :=
  List.filter consulta_ativa
    (List.filter (fun c => bool_decide (Consulta.paciente_id c = paciente_id)) (consultas s)).

(** The records of the patients other than [paciente_id]. *)
Definition sem_paciente (s : Estado) (paciente_id : string) : list registro :=
  List.filter (fun item => negb (JSONStorage.tem_id registro_id paciente_id item))
    (dados "pacientes" s).

(** What [remover_paciente] returns from [s] and the state [s'] it leaves;
    the write of the storage is the call's last reading [n] of the
    environment. *)
Definition remover_spec (amb : Ambiente) (s : Estado) (paciente_id : string)
    (r : bool * mensagem) (s' : Estado) : Prop :=
  match consultas_ativas s paciente_id with
  | _ :: _ => r = (false, PacientePossuiConsultas) ∧ mesmos_dados s s'
  | [] =>
      if bool_decide (length (sem_paciente s paciente_id) < length (dados "pacientes" s))%nat
      then
        ∃ n,
          (tique s ≤ n)%nat ∧ tique s' = S n ∧
          if escrita_ok amb n then
            r = (true, PacienteRemovido)
            ∧ dados "pacientes" s' = sem_paciente s paciente_id
            ∧ dados "medicos" s' = dados "medicos" s
            ∧ dados "consultas" s' = dados "consultas" s
          else r = (false, ErroRemoverPaciente) ∧ mesmos_dados s s'
      else r = (false, ErroRemoverPaciente) ∧ mesmos_dados s s'
  end.

(** What one call does to the doctors: nothing, or one doctor with a new
    crm is appended. *)
Definition passo_medicos (s s' : Estado) : Prop :=
  dados "medicos" s' = dados "medicos" s
  ∨ ∃ m, (Medico.crm m ∉ Medico.crm <$> medicos s) ∧ Medico.id m ≠ ""
         ∧ dados "medicos" s' = dados "medicos" s ++ [RMedico m].

(** The reading of the environment at which a call that leaves the state
    [s'] wrote the storage: [agendar_consulta] and [remover_paciente] write
    at most once, and the write is the last reading of the environment they
    make. *)
Definition leitura_da_escrita (s' : Estado) : nat := pred (tique s').

(** What the specification says of the call of [agendar_consulta] from
    state [s]: [chamada.1] is what the call returns, [chamada.2] the state it
    leaves. *)
Definition agendar_correto (amb : Ambiente) (s : Estado)
    (paciente_id medico_id data hora observacoes : string) : Prop :=
  let chamada := agendar_consulta amb paciente_id medico_id data hora observacoes s in
  (* 1. the patient does not exist *)
  (paciente_de s paciente_id = None →
     chamada.1 = Some (false, PacienteNaoEncontrado, None) ∧ mesmos_dados s chamada.2)
  (* 2. the patient exists, the doctor does not *)
  ∧ (is_Some (paciente_de s paciente_id) → medico_de s medico_id = None →
       chamada.1 = Some (false, MedicoNaoEncontrado, None) ∧ mesmos_dados s chamada.2)
  (* 3. both exist, the time is not one of the doctor's *)
  ∧ (∀ medico, is_Some (paciente_de s paciente_id) →
       medico_de s medico_id = Some medico →
       hora ∉ Medico.horarios_disponiveis medico →
       chamada.1 = Some (false, HorarioNaoDisponivel, None) ∧ mesmos_dados s chamada.2)
  (* 4. the slot is held by a live appointment *)
  ∧ (∀ medico, is_Some (paciente_de s paciente_id) →
       medico_de s medico_id = Some medico →
       hora ∈ Medico.horarios_disponiveis medico →
       horario_ocupado s medico_id data hora →
       chamada.1 = Some (false, HorarioOcupado, None) ∧ mesmos_dados s chamada.2)
  (* 5. all four hold: the call makes its write, which succeeds or fails *)
  ∧ (∀ medico, is_Some (paciente_de s paciente_id) →
       medico_de s medico_id = Some medico →
       hora ∈ Medico.horarios_disponiveis medico →
       ¬ horario_ocupado s medico_id data hora →
       (tique s ≤ leitura_da_escrita chamada.2 < tique chamada.2)%nat ∧
       if escrita_ok amb (leitura_da_escrita chamada.2) then
         ∃ c, chamada.1 = Some (true, ConsultaAgendada, Some c)
              ∧ Consulta.status c = Consulta.STATUS_AGENDADA
              ∧ Consulta.paciente_id c = paciente_id
              ∧ Consulta.medico_id c = medico_id
              ∧ Consulta.data c = data
              ∧ Consulta.hora c = hora
              ∧ Consulta.observacoes c = observacoes
              ∧ consultas_de chamada.2 = consultas_de s ++ [RConsulta c]
              ∧ pacientes_de chamada.2 = pacientes_de s
              ∧ medicos_de chamada.2 = medicos_de s
       else chamada.1 = Some (false, ErroSalvarConsulta, None) ∧ mesmos_dados s chamada.2).

(** The patient has an appointment that is neither cancelled nor done. *)
Definition tem_consulta_ativa (s : Estado) (paciente_id : string) : Prop :=
  ∃ c, c ∈ consultas s
       ∧ Consulta.paciente_id c = paciente_id
       ∧ Consulta.status c ≠ Consulta.STATUS_CANCELADA
       ∧ Consulta.status c ≠ Consulta.STATUS_REALIZADA.

(** What holds of the call of [remover_paciente] from [s]: [chamada.1] is
    what the call returns, [chamada.2] the state it leaves. *)
Definition remover_correto (amb : Ambiente) (s : Estado) (paciente_id : string) : Prop :=
  let chamada := remover_paciente amb paciente_id s in
  (tem_consulta_ativa s paciente_id →
     chamada.1 = Some (false, PacientePossuiConsultas) ∧ mesmos_dados s chamada.2)
  ∧ (is_Some (paciente_de s paciente_id) → ¬ tem_consulta_ativa s paciente_id →
       (tique s ≤ leitura_da_escrita chamada.2 < tique chamada.2)%nat ∧
       if escrita_ok amb (leitura_da_escrita chamada.2) then
         chamada.1 = Some (true, PacienteRemovido)
         ∧ paciente_de chamada.2 paciente_id = None
         ∧ pacientes_de chamada.2 = sem_paciente s paciente_id
         ∧ medicos_de chamada.2 = medicos_de s
         ∧ consultas_de chamada.2 = consultas_de s
       else chamada.1 = Some (false, ErroRemoverPaciente) ∧ mesmos_dados s chamada.2).

(** The configurations two threads reach from [sistema_inicial s0 c1 c2]:
    nobody has started; one thread is inside its block, and finishing the
    block from here gives what the whole block gives from the state at which
    it took the lock; one thread has returned; and so on for the other. *)
Inductive fase {A} (s0 : Estado) (c1 c2 : secao A) : Sistema A → Prop :=
| FaseInicio :
  fase s0 c1 c2 (mkSistema s0 false (Esperando c1) (Esperando c2))
| FasePrimeiroDentro1 p s :
  correr p s = correr c1 s0 →
  fase s0 c1 c2 (mkSistema s true (Dentro p) (Esperando c2))
| FasePrimeiroDentro2 p s :
  correr p s = correr c2 s0 →
  fase s0 c1 c2 (mkSistema s true (Esperando c1) (Dentro p))
| FasePrimeiroFim1 r s :
  correr c1 s0 = (r, s) →
  fase s0 c1 c2 (mkSistema s false (Terminou r) (Esperando c2))
| FasePrimeiroFim2 r s :
  correr c2 s0 = (r, s) →
  fase s0 c1 c2 (mkSistema s false (Esperando c1) (Terminou r))
| FaseSegundoDentro2 r1 s1 p s :
  correr c1 s0 = (r1, s1) → correr p s = correr c2 s1 →
  fase s0 c1 c2 (mkSistema s true (Terminou r1) (Dentro p))
| FaseSegundoDentro1 r2 s2 p s :
  correr c2 s0 = (r2, s2) → correr p s = correr c1 s2 →
  fase s0 c1 c2 (mkSistema s true (Dentro p) (Terminou r2))
| FaseAmbos12 r1 s1 r2 s :
  correr c1 s0 = (r1, s1) → correr c2 s1 = (r2, s) →
  fase s0 c1 c2 (mkSistema s false (Terminou r1) (Terminou r2))
| FaseAmbos21 r1 r2 s2 s :
  correr c2 s0 = (r2, s2) → correr c1 s2 = (r1, s) →
  fase s0 c1 c2 (mkSistema s false (Terminou r1) (Terminou r2)).

(** A call that books, and a call refused for the conflict. *)
Definition sucesso (r : bool * mensagem * option Consulta.t) : Prop :=
  ∃ c, r = (true, ConsultaAgendada, Some c).

Definition conflito (r : bool * mensagem * option Consulta.t) : Prop :=
  r = (false, HorarioOcupado, None).

(** A call whose write of the appointment failed. *)
Definition falha (r : bool * mensagem * option Consulta.t) : Prop :=
  r = (false, ErroSalvarConsulta, None).

(** ** What the other methods that write do *)

(** What [criar_paciente] returns from state [s], and the state [s'] it
    leaves: the rejection of a cpf that a stored patient has; otherwise the
    new patient, whose id and registration date are the readings [n] and
    [n + 1] of the environment, appended when the write of the storage
    succeeds.  That write is the call's last reading of the environment,
    [n + 2]. *)
Definition criar_paciente_spec (amb : Ambiente) (s : Estado)
    (nome cpf telefone email : string)
    (r : bool * mensagem * option Paciente.t) (s' : Estado) : Prop :=
  if bool_decide (cpf ∈ Paciente.cpf <$> pacientes s) then
    r = (false, CpfJaCadastrado, None) ∧ mesmos_dados s s'
  else
    ∃ n,
      let p := Paciente.mk ("P" +:+ uuid8 amb n) nome cpf telefone email
                 (agora_iso amb (S n)) in
      (tique s ≤ n)%nat ∧ tique s' = S (S (S n)) ∧
      if escrita_ok amb (S (S n)) then
        r = (true, PacienteCadastrado, Some p)
        ∧ dados "pacientes" s' = dados "pacientes" s ++ [RPaciente p]
        ∧ dados "medicos" s' = dados "medicos" s
        ∧ dados "consultas" s' = dados "consultas" s
      else r = (false, ErroSalvarPaciente, None) ∧ mesmos_dados s s'.

(** The same for [criar_medico] and the crm. *)
Definition criar_medico_spec (amb : Ambiente) (s : Estado)
    (nome crm especialidade : string) (horarios : list string)
    (r : bool * mensagem * option Medico.t) (s' : Estado) : Prop :=
  if bool_decide (crm ∈ Medico.crm <$> medicos s) then
    r = (false, CrmJaCadastrado, None) ∧ mesmos_dados s s'
  else
    ∃ n,
      let m := Medico.mk ("M" +:+ uuid8 amb n) nome crm especialidade horarios
                 (agora_iso amb (S n)) in
      (tique s ≤ n)%nat ∧ tique s' = S (S (S n)) ∧
      if escrita_ok amb (S (S n)) then
        r = (true, MedicoCadastrado, Some m)
        ∧ dados "medicos" s' = dados "medicos" s ++ [RMedico m]
        ∧ dados "pacientes" s' = dados "pacientes" s
        ∧ dados "consultas" s' = dados "consultas" s
      else r = (false, ErroSalvarMedico, None) ∧ mesmos_dados s s'.

(** The collection [e] of [s'] is the one of [s] with the first record
    under [item_id], which is [antigo], replaced by [novo]. *)
Definition substituido (e item_id : string) (antigo novo : registro) (s s' : Estado) : Prop :=
  ∃ l1 l2,
    dados e s = l1 ++ antigo :: l2
    ∧ Forall (λ x, registro_id x ≠ Some item_id) l1
    ∧ dados e s' = l1 ++ novo :: l2.

(** What [atualizar_paciente] returns from [s] and the state [s'] it
    leaves; the write of the storage is the call's last reading [n] of the
    environment. *)
Definition atualizar_paciente_spec (amb : Ambiente) (s : Estado)
    (paciente_id nome cpf telefone email : string)
    (r : bool * mensagem) (s' : Estado) : Prop :=
  match paciente_de s paciente_id with
  | None => r = (false, PacienteNaoEncontrado) ∧ mesmos_dados s s'
  | Some p =>
      let p' := Paciente.mk (Paciente.id p) nome cpf telefone email
                  (Paciente.data_cadastro p) in
      ∃ n,
        (tique s ≤ n)%nat ∧ tique s' = S n ∧
        if escrita_ok amb n then
          r = (true, PacienteAtualizado)
          ∧ Paciente.id p = paciente_id
          ∧ substituido "pacientes" paciente_id (RPaciente p) (RPaciente p') s s'
          ∧ dados "medicos" s' = dados "medicos" s
          ∧ dados "consultas" s' = dados "consultas" s
        else r = (false, ErroAtualizarPaciente) ∧ mesmos_dados s s'
  end.

(** What [atualizar_status_consulta] returns from [s] and the state [s'] it
    leaves: the new timestamp is the reading [tique s] of the environment,
    and the write of the storage is the next one. *)
Definition atualizar_status_spec (amb : Ambiente) (s : Estado)
    (consulta_id novo_status : string) (r : bool * mensagem) (s' : Estado) : Prop :=
  match consulta_de s consulta_id with
  | None => r = (false, ConsultaNaoEncontrada) ∧ mesmos_dados s s'
  | Some c =>
      if Consulta.status_valido novo_status then
        let c' := (Consulta.atualizar_status (agora_iso amb (tique s)) novo_status c).2 in
        tique s' = S (S (tique s)) ∧
        if escrita_ok amb (S (tique s)) then
          r = (true, StatusAtualizado novo_status)
          ∧ Consulta.id c = consulta_id
          ∧ substituido "consultas" consulta_id (RConsulta c) (RConsulta c') s s'
          ∧ dados "pacientes" s' = dados "pacientes" s
          ∧ dados "medicos" s' = dados "medicos" s
        else r = (false, StatusInvalido) ∧ mesmos_dados s s'
      else r = (false, StatusInvalido) ∧ mesmos_dados s s'
  end.

(** What a call does to the stored data. *)
Definition efeito (amb : Ambiente) (ch : chamada) (s s' : Estado) : Prop :=
  match ch with
  | CriarPaciente nome cpf telefone email =>
      ∃ r, criar_paciente_spec amb s nome cpf telefone email r s'
  | AtualizarPaciente paciente_id nome cpf telefone email =>
      ∃ r, atualizar_paciente_spec amb s paciente_id nome cpf telefone email r s'
  | RemoverPaciente paciente_id => ∃ r, remover_spec amb s paciente_id r s'
  | CriarMedico nome crm especialidade horarios =>
      ∃ r, criar_medico_spec amb s nome crm especialidade horarios r s'
  | AgendarConsulta paciente_id medico_id data hora observacoes =>
      ∃ r, agendar_spec amb s paciente_id medico_id data hora observacoes r s'
  | AtualizarStatusConsulta consulta_id novo_status =>
      ∃ r, atualizar_status_spec amb s consulta_id novo_status r s'
  | CancelarConsulta consulta_id =>
      ∃ r, atualizar_status_spec amb s consulta_id Consulta.STATUS_CANCELADA r s'
  | _ => mesmos_dados s s'
  end.

(** The appointment [verificar_conflito] skips: the one whose id is the
    [consulta_id] given, when one is given and is not the empty string. *)
Definition ignorada (consulta_id : option string) (c : Consulta.t) : Prop :=
  ∃ id, consulta_id = Some id ∧ id ≠ "" ∧ Consulta.id c = id.

(** Calls other than [atualizar_status_consulta] ([cancelar_consulta] is
    one of them). *)
Definition sem_mudar_status (ch : chamada) : Prop :=
  match ch with
  | AtualizarStatusConsulta _ _ => False
  | _ => True
  end.

(** Calls other than [atualizar_paciente]. *)
Definition sem_atualizar_paciente (ch : chamada) : Prop :=
  match ch with
  | AtualizarPaciente _ _ _ _ _ => False
  | _ => True
  end.

(** Every stored appointment is with a stored doctor, at one of the
    doctor's times. *)
Definition medicos_integros (s : Estado) : Prop :=
  ∀ c, c ∈ consultas s →
    ∃ m, medico_de s (Consulta.medico_id c) = Some m
         ∧ Consulta.hora c ∈ Medico.horarios_disponiveis m.

(** ** Concrete environments, calls and states *)

(** An environment in which every read and every write succeeds: the clock
    advances by one unit per reading, and the [n]-th reading of [uuid4] gives
    the eight characters ["0000"] followed by [1000 + n]. *)
Definition amb_exemplo : Ambiente :=
  {| relogio := fun n => Z.of_nat n;
     agora_iso := fun _ => "2025-11-20T10:00:00";
     uuid8 := fun n => "0000" +:+ pretty (1000 + n)%nat;
     escrita_ok := fun _ => true;
     leitura_ok := fun _ => true |}.

(** The same environment with a disk that refuses writes from the fifth
    reading on. *)
Definition amb_disco_cheio : Ambiente :=
  {| relogio := relogio amb_exemplo;
     agora_iso := agora_iso amb_exemplo;
     uuid8 := uuid8 amb_exemplo;
     escrita_ok := fun n => bool_decide (n < 5)%nat;
     leitura_ok := leitura_ok amb_exemplo |}.

(** Two patients and a doctor who receives at 09:00. *)
Definition cadastro : list chamada :=
  [CriarPaciente "Ana" "111.111.111-11" "(85) 1" "ana@test.com";
   CriarPaciente "Bia" "222.222.222-22" "(85) 2" "bia@test.com";
   CriarMedico "Dr. Teste" "12345-CE" "Clinico" ["09:00"]].

Definition estado_cadastro : Estado :=
  executar_todas amb_exemplo cadastro (estado_inicial "/dados").

(** Ana books the slot and cancels, Bia books the same slot, and Ana's
    cancelled appointment is set back to ['agendada']. *)
Definition reativacao : list chamada :=
  cadastro ++
  [AgendarConsulta "P00001002" "M00001012" "2025-11-25" "09:00" "";
   CancelarConsulta "C00001021";
   AgendarConsulta "P00001007" "M00001012" "2025-11-25" "09:00" "";
   AtualizarStatusConsulta "C00001021" "agendada"].

Definition estado_reativacao : Estado :=
  executar_todas amb_exemplo reativacao (estado_inicial "/dados").

(** Bia's record is updated with the cpf of Ana. *)
Definition troca_de_cpf : list chamada :=
  cadastro ++
  [AtualizarPaciente "P00001007" "Bia" "111.111.111-11" "(85) 2" "bia@test.com"].

Definition estado_troca_de_cpf : Estado :=
  executar_todas amb_exemplo troca_de_cpf (estado_inicial "/dados").

(** One patient, stored before the disk fills up. *)
Definition estado_disco_cheio : Estado :=
  executar_todas amb_disco_cheio
    [CriarPaciente "Ana" "111.111.111-11" "(85) 1" "ana@test.com"]
    (estado_inicial "/dados").

(** The two appointments the storage holds after [reativacao]. *)
Definition consulta_ana : Consulta.t :=
  Consulta.mk "C00001021" "P00001002" "M00001012" "2025-11-25" "09:00" ""
    "agendada" "2025-11-20T10:00:00" "2025-11-20T10:00:00".

Definition consulta_bia : Consulta.t :=
  Consulta.mk "C00001032" "P00001007" "M00001012" "2025-11-25" "09:00" ""
    "agendada" "2025-11-20T10:00:00" "2025-11-20T10:00:00".

(** The state after Ana's booking of the 09:00 slot. *)
Definition estado_agendado : Estado :=
  executar_todas amb_exemplo
    (cadastro ++ [AgendarConsulta "P00001002" "M00001012" "2025-11-25" "09:00" ""])
    (estado_inicial "/dados").

(** A cache of capacity 2: ["a"] is the older entry by timestamp, but the
    [get] that hit made it the most recently used. *)
Definition ops_lru : list (Cache.op string) :=
  [Cache.OpSet 0 "a" "1"; Cache.OpSet 1 "b" "2"; Cache.OpGet 2 "a"].

(** The environment [amb_exemplo] with a disk that refuses every write
    after the three of [cadastro]. *)
Definition amb_sem_disco : Ambiente :=
  {| relogio := relogio amb_exemplo;
     agora_iso := agora_iso amb_exemplo;
     uuid8 := uuid8 amb_exemplo;
     escrita_ok := fun n => bool_decide (n < 15)%nat;
     leitura_ok := leitura_ok amb_exemplo |}.

Definition estado_sem_disco : Estado :=
  executar_todas amb_sem_disco cadastro (estado_inicial "/dados").

(** The scheduler alternates between the two threads, [n] turns each. *)
Definition alternada (n : nat) : list bool := concat (replicate n [true; false]).

(** Ana and Bia ask for the same slot from two threads. *)
Definition corrida (amb : Ambiente) (s : Estado) (agenda : list bool)
  : Sistema (bool * mensagem * option Consulta.t) :=
  executar_agenda agenda
    (sistema_inicial s
       (agendar_secao amb "P00001002" "M00001012" "2025-11-25" "09:00" "Paciente 1")
       (agendar_secao amb "P00001007" "M00001012" "2025-11-25" "09:00" "Paciente 2")).

(** The doctor of [cadastro]. *)
Definition medico_teste : Medico.t :=
  Medico.mk "M00001012" "Dr. Teste" "12345-CE" "Clinico" ["09:00"] "2025-11-20T10:00:00".

(** The cache of [ops_lru], whose two entries were written at times 0 and 1. *)
Definition cache_exemplo : Cache.CacheManager string := Cache.run ops_lru (Cache.init 2 5).

(** A storage whose [consultas] collection holds the two appointments. *)
Definition storage_exemplo : JSONStorage.t conteudo :=
  (JSONStorage.salvar json_dump true "consultas"
     [RConsulta consulta_ana; RConsulta consulta_bia] (JSONStorage.init "/dados")).2.

(** Ana's appointment, confirmed. *)
Definition consulta_confirmada : Consulta.t :=
  Consulta.mk "C00001021" "P00001002" "M00001012" "2025-11-25" "09:00" ""
    "confirmada" "2025-11-20T10:00:00" "2025-11-20T11:00:00".

(** A clock that does not move. *)
Definition relogio_parado (t : Z) : nat → Z := fun _ => t.

(** Bia, as [cadastro] stores her. *)
Definition paciente_bia : Paciente.t :=
  Paciente.mk "P00001007" "Bia" "222.222.222-22" "(85) 2" "bia@test.com"
    "2025-11-20T10:00:00".

(** Ana books the 09:00 slot, cancels, and Bia books the same slot. *)
Definition remarcacao : list chamada :=
  cadastro ++
  [AgendarConsulta "P00001002" "M00001012" "2025-11-25" "09:00" "";
   CancelarConsulta "C00001021";
   AgendarConsulta "P00001007" "M00001012" "2025-11-25" "09:00" ""].

(** The environment [amb_exemplo] with one read of the storage that fails:
    the read number [k], counted from 0. *)
Definition amb_leitura_falha (k : nat) : Ambiente :=
  {| relogio := relogio amb_exemplo;
     agora_iso := agora_iso amb_exemplo;
     uuid8 := uuid8 amb_exemplo;
     escrita_ok := escrita_ok amb_exemplo;
     leitura_ok := fun n => bool_decide (n ≠ k) |}.

(** The states after [cadastro], and after Ana's booking of the 09:00 slot,
    under an environment. *)
Definition estado_cadastro_em (amb : Ambiente) : Estado :=
  executar_todas amb cadastro (estado_inicial "/dados").

Definition estado_agendado_em (amb : Ambiente) : Estado :=
  executar_todas amb
    (cadastro ++ [AgendarConsulta "P00001002" "M00001012" "2025-11-25" "09:00" ""])
    (estado_inicial "/dados").

(** Bia's appointment for the next day. *)
Definition consulta_seguinte : Consulta.t :=
  Consulta.mk "C00001030" "P00001007" "M00001012" "2025-11-26" "09:00" ""
    "agendada" "2025-11-20T10:00:00" "2025-11-20T10:00:00".

(** The appointments of the two threads of [corrida]. *)
Definition consulta_fio1 : Consulta.t :=
  Consulta.mk "C00001021" "P00001002" "M00001012" "2025-11-25" "09:00" "Paciente 1"
    "agendada" "2025-11-20T10:00:00" "2025-11-20T10:00:00".

Definition consulta_fio2 : Consulta.t :=
  Consulta.mk "C00001030" "P00001007" "M00001012" "2025-11-25" "09:00" "Paciente 2"
    "agendada" "2025-11-20T10:00:00" "2025-11-20T10:00:00".

(** * Properties *)

(** ** Ordered dictionaries *)

Section OrderedDictFacts.
Context {V : Type}.
Implicit Types (d : list (string * V)) (k key : string) (v : V).

Lemma od_contains_elem_of key d :
  OrderedDict.contains key d = true ↔ key ∈ OrderedDict.keys d.
Proof.
  unfold OrderedDict.keys. induction d as [|[k v] d IH]; simpl.
  - split; [done | intros H; inversion H].
  - destruct (decide (k = key)) as [->|Hne].
    + split; [intros _; left | done].
    + rewrite IH. split; [by right | ].
      intros H. apply elem_of_cons in H as [?|?]; [congruence | done].
Qed.

Lemma od_contains_false key d :
  OrderedDict.contains key d = false ↔ key ∉ OrderedDict.keys d.
Proof.
  rewrite <- od_contains_elem_of. destruct (OrderedDict.contains key d); split; congruence.
Qed.

Lemma od_getitem_contains key d :
  is_Some (OrderedDict.getitem key d) ↔ OrderedDict.contains key d = true.
Proof.
  induction d as [|[k v] d IH]; simpl.
  - split; [intros [? ?]; done | done].
  - destruct (decide (k = key)); [split; eauto | done].
Qed.

Lemma od_pop_filter key d :
  OrderedDict.pop key d = filter (λ kv, kv.1 ≠ key) d.
Proof.
  induction d as [|[k v] d IH]; simpl; [done|].
  rewrite filter_cons. simpl.
  destruct (decide (k = key)) as [->|Hne].
  - rewrite decide_False by (intros H; done). done.
  - rewrite decide_True by done. by rewrite IH.
Qed.

Lemma od_keys_pop key d :
  OrderedDict.keys (OrderedDict.pop key d) = filter (λ k, k ≠ key) (OrderedDict.keys d).
Proof.
  unfold OrderedDict.keys. induction d as [|[k v] d IH]; simpl; [done|].
  rewrite filter_cons. destruct (decide (k = key)) as [->|Hne].
  - rewrite decide_False by (intros H; done). done.
  - rewrite decide_True by done. simpl. f_equal. exact IH.
Qed.

Lemma od_pop_not_elem key d : key ∉ OrderedDict.keys (OrderedDict.pop key d).
Proof. rewrite od_keys_pop. intros H. apply list_elem_of_filter in H as [H _]. done. Qed.

Lemma od_pop_absent key d :
  key ∉ OrderedDict.keys d → OrderedDict.pop key d = d.
Proof.
  unfold OrderedDict.keys. induction d as [|[k v] d IH]; simpl; [done|].
  intros H. apply not_elem_of_cons in H as [Hne H].
  rewrite decide_False by done. by rewrite IH.
Qed.

Lemma od_length_pop key d :
  (length (OrderedDict.pop key d) ≤ length d)%nat.
Proof. rewrite od_pop_filter. apply length_filter. Qed.

Lemma od_length_pop_lt key d :
  key ∈ OrderedDict.keys d → (length (OrderedDict.pop key d) < length d)%nat.
Proof.
  unfold OrderedDict.keys. intros H. apply list_elem_of_fmap in H as [[k v] [-> H]].
  rewrite od_pop_filter. eapply length_filter_lt; [done|]. simpl. tauto.
Qed.

Lemma od_setitem_absent key v d :
  key ∉ OrderedDict.keys d → OrderedDict.setitem key v d = d ++ [(key, v)].
Proof.
  unfold OrderedDict.keys. induction d as [|[k v'] d IH]; simpl; [done|].
  intros H. apply not_elem_of_cons in H as [Hne H].
  rewrite decide_False by done. by rewrite IH.
Qed.

Lemma od_keys_setitem_present key v d :
  key ∈ OrderedDict.keys d →
  OrderedDict.keys (OrderedDict.setitem key v d) = OrderedDict.keys d.
Proof.
  unfold OrderedDict.keys. induction d as [|[k v'] d IH]; simpl.
  - intros H; inversion H.
  - intros H. destruct (decide (k = key)) as [->|Hne]; [done|].
    simpl. f_equal. apply IH. apply elem_of_cons in H as [?|?]; [congruence|done].
Qed.

Lemma od_keys_move_to_end key d :
  key ∈ OrderedDict.keys d →
  OrderedDict.keys (OrderedDict.move_to_end key d)
  = filter (λ k, k ≠ key) (OrderedDict.keys d) ++ [key].
Proof.
  intros H. unfold OrderedDict.move_to_end.
  apply od_contains_elem_of, od_getitem_contains in H as [v ->].
  unfold OrderedDict.keys. rewrite fmap_app. simpl.
  f_equal. apply od_keys_pop.
Qed.

Lemma od_getitem_move_to_end key d v :
  OrderedDict.getitem key d = Some v →
  OrderedDict.getitem key (OrderedDict.move_to_end key d) = Some v.
Proof.
  intros H. unfold OrderedDict.move_to_end. rewrite H.
  pose proof (od_pop_not_elem key d) as Hn. revert Hn.
  generalize (OrderedDict.pop key d). intros l. unfold OrderedDict.keys.
  induction l as [|[k v'] l IH]; simpl.
  - intros _. by rewrite decide_True.
  - intros Hn. apply not_elem_of_cons in Hn as [Hne Hn].
    rewrite decide_False by done. by apply IH.
Qed.
End OrderedDictFacts.

(** ** The cache: expiry and explicit deletion *)

Section CacheFacts.
Context {V : Type}.
Implicit Types (c : Cache.CacheManager V) (k key : string) (o : Cache.op V).

Lemma od_getitem_pop_ne key k (d : list (string * V)) :
  k ≠ key → OrderedDict.getitem k (OrderedDict.pop key d) = OrderedDict.getitem k d.
Proof.
  intros Hne. induction d as [|[k' v] d IH]; simpl; [done|].
  destruct (decide (k' = key)) as [->|Hk'].
  - rewrite decide_False by done. done.
  - simpl. destruct (decide (k' = k)); done.
Qed.

Lemma carimbo_delete key t0 k m :
  carimbo_de key t0 m → carimbo_de key t0 (delete k m).
Proof.
  unfold carimbo_de. intros H. destruct (decide (k = key)) as [->|Hne].
  - left. apply lookup_delete_eq.
  - by rewrite lookup_delete_ne.
Qed.

Lemma carimbo_insert_ne key t0 k a m :
  k ≠ key → carimbo_de key t0 m → carimbo_de key t0 (<[k := a]> m).
Proof. unfold carimbo_de. intros Hne H. by rewrite lookup_insert_ne. Qed.

Lemma carimbo_remove_all key t0 c (ks : list string) :
  carimbo_de key t0 (Cache.timestamps c) →
  carimbo_de key t0 (Cache.timestamps (foldl (fun c' k => Cache._remove k c') c ks)).
Proof.
  revert c. induction ks as [|k ks IH]; intros c H; simpl; [done|].
  apply IH. simpl. by apply carimbo_delete.
Qed.

Lemma ttl_remove_all c (ks : list string) :
  Cache.ttl_seconds (foldl (fun c' k => Cache._remove k c') c ks) = Cache.ttl_seconds c.
Proof. revert c. induction ks as [|k ks IH]; intros c; simpl; [done|]. by rewrite IH. Qed.

Lemma exec_ttl o c : Cache.ttl_seconds (Cache.exec o c) = Cache.ttl_seconds c.
Proof.
  destruct o as [agora k v|agora k|k| |pat]; simpl.
  - unfold Cache.set. destruct (OrderedDict.contains k (Cache.cache c)); [done|].
    case_bool_decide; [|done]. unfold Cache._evict_oldest.
    destruct (OrderedDict.first_key (Cache.cache c)); done.
  - unfold Cache.get. destruct (negb _); [done|]. destruct (Cache._is_expired _ _ _); done.
  - unfold Cache.delete. destruct (OrderedDict.contains _ _); done.
  - done.
  - apply ttl_remove_all.
Qed.

Lemma exec_carimbo key t0 o c :
  nao_define key o →
  carimbo_de key t0 (Cache.timestamps c) →
  carimbo_de key t0 (Cache.timestamps (Cache.exec o c)).
Proof.
  intros Hno H. destruct o as [agora k v|agora k|k| |pat]; simpl in *.
  - unfold Cache.set. destruct (OrderedDict.contains k (Cache.cache c)); simpl.
    + by apply carimbo_insert_ne.
    + apply carimbo_insert_ne; [done|]. case_bool_decide; [|done].
      unfold Cache._evict_oldest.
      destruct (OrderedDict.first_key (Cache.cache c)); simpl; [|done].
      by apply carimbo_delete.
  - unfold Cache.get. destruct (negb _); [done|].
    destruct (Cache._is_expired _ _ _); simpl; [|done]. by apply carimbo_delete.
  - unfold Cache.delete. destruct (OrderedDict.contains _ _); simpl; [|done].
    by apply carimbo_delete.
  - left. apply lookup_empty.
  - by apply carimbo_remove_all.
Qed.

Lemma run_carimbo key t0 (ops : list (Cache.op V)) c :
  Forall (nao_define key) ops →
  carimbo_de key t0 (Cache.timestamps c) →
  carimbo_de key t0 (Cache.timestamps (Cache.run ops c))
  ∧ Cache.ttl_seconds (Cache.run ops c) = Cache.ttl_seconds c.
Proof.
  unfold Cache.run. intros Hops. revert c.
  induction Hops as [|o ops Ho _ IH]; intros c H; simpl; [done|].
  destruct (IH (Cache.exec o c)) as [H1 H2]; [by apply exec_carimbo|].
  split; [done|]. by rewrite H2, exec_ttl.
Qed.

Lemma set_ttl agora key (value : V) c :
  Cache.ttl_seconds (Cache.set agora key value c) = Cache.ttl_seconds c.
Proof. exact (exec_ttl (Cache.OpSet agora key value) c). Qed.

Lemma set_timestamp agora key (value : V) c :
  Cache.timestamps (Cache.set agora key value c) !! key = Some agora.
Proof.
  unfold Cache.set. destruct (OrderedDict.contains _ _); simpl; apply lookup_insert_eq.
Qed.

(** C5. Once more than the time-to-live has passed since the last [set] of
    a key at [t0], [get] of that key misses and the key is no longer
    stored, whatever calls other than a [set] of the key were made in
    between (in particular any number of [get]s of the key, which promote
    it but leave its timestamp alone). *)
Theorem get_misses_after_ttl c (t0 : Z) key (value : V) (ops : list (Cache.op V)) (agora : Z) :
  Forall (nao_define key) ops →
  agora - t0 > Cache.ttl_seconds c →
  let c2 := Cache.run ops (Cache.set t0 key value c) in
  (Cache.get agora key c2).1 = None
  ∧ key ∉ OrderedDict.keys (Cache.cache (Cache.get agora key c2).2).
Proof.
  intros Hops Hage c2.
  destruct (run_carimbo key t0 ops (Cache.set t0 key value c) Hops) as [Hts Httl].
  { right. apply set_timestamp. }
  fold c2 in Hts, Httl. rewrite set_ttl in Httl.
  unfold Cache.get.
  destruct (OrderedDict.contains key (Cache.cache c2)) eqn:Hin; simpl.
  - assert (Cache._is_expired agora key c2 = true) as ->.
    { unfold Cache._is_expired. destruct Hts as [->| ->]; [done|].
      apply bool_decide_eq_true. lia. }
    simpl. split; [done|]. apply od_pop_not_elem.
  - split; [done|]. by apply od_contains_false.
Qed.

(** C9. [delete] of a stored key returns [True] and removes exactly that
    entry, without looking at its age; [delete] of a key that is not
    stored returns [False] and leaves the cache as it was; and there are
    states in which [delete] returns [True] for a key on which [get]
    misses (an entry older than the time-to-live). *)
Theorem delete_does_not_consult_expiry (v : V) :
  (∀ c key, key ∈ OrderedDict.keys (Cache.cache c) →
     (Cache.delete key c).1 = true
     ∧ (key ∉ OrderedDict.keys (Cache.cache (Cache.delete key c).2))
     ∧ (Cache.timestamps (Cache.delete key c).2) !! key = None
     ∧ ∀ k, k ≠ key →
         OrderedDict.getitem k (Cache.cache (Cache.delete key c).2)
         = OrderedDict.getitem k (Cache.cache c))
  ∧ (∀ c key, key ∉ OrderedDict.keys (Cache.cache c) → Cache.delete key c = (false, c))
  ∧ (∃ c agora key,
       key ∈ OrderedDict.keys (Cache.cache c)
       ∧ (Cache.delete key c).1 = true
       ∧ (Cache.get agora key c).1 = None).
Proof.
  split; [|split].
  - intros c key Hin. unfold Cache.delete.
    apply od_contains_elem_of in Hin as ->. simpl.
    split; [done|]. split; [apply od_pop_not_elem|].
    split; [apply lookup_delete_eq|]. intros k Hk. by apply od_getitem_pop_ne.
  - intros c key Hin. unfold Cache.delete. by apply od_contains_false in Hin as ->.
  - exists (Cache.set 0 "k" v (Cache.init 100 300)), 301, "k".
    split; [|split]; [|reflexivity..].
    apply od_contains_elem_of. reflexivity.
Qed.
End CacheFacts.

(** ** The cache: capacity and least-recently-used eviction *)

Section LRUFacts.
Context {V : Type}.
Implicit Types (c : Cache.CacheManager V) (k key : string) (o : Cache.op V)
  (tq : gmap string nat) (ks : list string).

Lemma antes_irrefl tq k : ¬ LRU.antes tq k k.
Proof. intros (t & t' & H1 & H2 & Hlt). rewrite H1 in H2. injection H2 as <-. lia. Qed.

Lemma StronglySorted_filter_keep {A} (R : relation A) (P : A → Prop)
    `{∀ x, Decision (P x)} (l : list A) :
  StronglySorted R l → StronglySorted R (filter P l).
Proof.
  induction 1 as [|a l Hs IH Hall]; [constructor|].
  rewrite filter_cons. destruct (decide (P a)); [|done].
  constructor; [done|]. apply Forall_forall. intros x Hx.
  apply list_elem_of_filter in Hx as [_ Hx]. rewrite Forall_forall in Hall. auto.
Qed.

Lemma StronglySorted_change {A} (R R' : relation A) (l : list A) :
  (∀ x y, x ∈ l → y ∈ l → R x y → R' x y) →
  StronglySorted R l → StronglySorted R' l.
Proof.
  intros Himp Hs. induction Hs as [|a l Hs IH Hall]; [constructor|].
  constructor.
  - apply IH. intros x y Hx Hy. apply Himp; by right.
  - apply Forall_forall. intros x Hx. rewrite Forall_forall in Hall.
    apply Himp; [left | by right | auto].
Qed.

Lemma ordem_nil n tq : ordem [] n tq.
Proof. split; constructor. Qed.

Lemma ordem_step ks n tq : ordem ks n tq → ordem ks (S n) tq.
Proof.
  intros [Hs Hall]. split; [done|].
  eapply Forall_impl; [exact Hall|]. intros k (t & Ht & Hlt). exists t. split; [done|lia].
Qed.

Lemma ordem_filter ks n tq (P : string → Prop) `{∀ x, Decision (P x)} :
  ordem ks n tq → ordem (filter P ks) n tq.
Proof.
  intros [Hs Hall]. split; [by apply StronglySorted_filter_keep|].
  apply Forall_forall. intros x Hx. apply list_elem_of_filter in Hx as [_ Hx].
  rewrite Forall_forall in Hall. auto.
Qed.

(** Touching [k] at call [n] moves it to the end of the order. *)
Lemma ordem_touch ks n tq k :
  ordem ks n tq → ordem (filter (λ k', k' ≠ k) ks ++ [k]) (S n) (<[k := n]> tq).
Proof.
  intros Hord. apply (ordem_filter _ _ _ (λ k', k' ≠ k)) in Hord as [Hs Hall].
  set (ks' := filter (λ k', k' ≠ k) ks) in *.
  assert (∀ x, x ∈ ks' → x ≠ k) as Hne.
  { intros x Hx. apply list_elem_of_filter in Hx as [Hx _]. done. }
  rewrite Forall_forall in Hall.
  split.
  - apply StronglySorted_app_2.
    + intros x1 x2 Hx1 Hx2. apply list_elem_of_singleton in Hx2 as ->.
      destruct (Hall x1 Hx1) as (t & Ht & Hlt).
      exists t, n. rewrite lookup_insert_ne by (apply not_eq_sym; auto).
      rewrite lookup_insert_eq. done.
    + eapply StronglySorted_change; [|exact Hs].
      intros x y Hx Hy (t & t' & H1 & H2 & Hlt). exists t, t'.
      rewrite !lookup_insert_ne by (apply not_eq_sym; auto). done.
    + repeat constructor.
  - apply Forall_app. split.
    + apply Forall_forall. intros x Hx. destruct (Hall x Hx) as (t & Ht & Hlt).
      exists t. rewrite lookup_insert_ne by (apply not_eq_sym; auto). split; [done|lia].
    + constructor; [|constructor]. exists n. rewrite lookup_insert_eq. split; [done|lia].
Qed.

Lemma filter_ne_absent ks k : k ∉ ks → filter (λ k', k' ≠ k) ks = ks.
Proof.
  intros Hk. induction ks as [|x ks IH]; [done|].
  apply not_elem_of_cons in Hk as [Hne Hk].
  rewrite filter_cons, decide_True by (apply not_eq_sym; done). by rewrite IH.
Qed.

Lemma ordem_NoDup ks n tq : ordem ks n tq → NoDup ks.
Proof.
  intros [Hs _]. induction Hs as [|a l Hs IH Hall]; constructor; [|done].
  intros Ha. rewrite Forall_forall in Hall. by apply (antes_irrefl tq a), Hall.
Qed.

Lemma keys_remove_all c (rem : list string) :
  ∃ P (HP : ∀ x, Decision (P x)),
    OrderedDict.keys (Cache.cache (foldl (fun c' k => Cache._remove k c') c rem))
    = filter P (OrderedDict.keys (Cache.cache c))
    ∧ Cache.max_size (foldl (fun c' k => Cache._remove k c') c rem) = Cache.max_size c.
Proof.
  revert c. induction rem as [|k rem IH]; intros c; simpl.
  - exists (λ _, True), _. split; [|done].
    induction (OrderedDict.keys (Cache.cache c)) as [|x l IHl]; [done|].
    rewrite filter_cons, decide_True by done. by rewrite <- IHl.
  - destruct (IH (Cache._remove k c)) as (P & HP & Hk & Hm). simpl in *.
    exists (λ x, P x ∧ x ≠ k), _. split; [|done].
    rewrite Hk, od_keys_pop.
    induction (OrderedDict.keys (Cache.cache c)) as [|x l IHl]; [done|].
    rewrite !filter_cons. destruct (decide (x ≠ k)).
    + rewrite filter_cons. destruct (decide (P x)).
      * rewrite decide_True by done. by rewrite IHl.
      * rewrite decide_False by tauto. done.
    + rewrite decide_False by tauto. done.
Qed.

Lemma filter_True_id ks : filter (λ _ : string, True) ks = ks.
Proof.
  induction ks as [|x l IH]; [done|]. by rewrite filter_cons, decide_True, IH.
Qed.

(** What a call does to the list of stored keys: a call that touches [k]
    puts [k] last and keeps the order of the keys that stay; any other call
    only takes keys out. *)
Lemma exec_keys o c :
  let ks := OrderedDict.keys (Cache.cache c) in
  let ks' := OrderedDict.keys (Cache.cache (Cache.exec o c)) in
  ∃ P (HP : ∀ x, Decision (P x)),
    match LRU.tocada o c with
    | Some k => ks' = filter (λ k', k' ≠ k) (filter P ks) ++ [k]
    | None => ks' = filter P ks
    end.
Proof.
  destruct o as [agora k v|agora k|k| |pat]; simpl.
  - unfold Cache.set.
    destruct (OrderedDict.contains k (Cache.cache c)) eqn:Hin; simpl.
    + exists (λ _, True), _. rewrite filter_True_id.
      apply od_contains_elem_of in Hin.
      pose proof (od_keys_move_to_end k _ Hin) as Hmv.
      rewrite od_keys_setitem_present; [done|].
      rewrite Hmv. apply elem_of_app. right. by left.
    + apply od_contains_false in Hin.
      assert (∀ c1 P (HP : ∀ x, Decision (P x)),
        OrderedDict.keys (Cache.cache c1) = filter P (OrderedDict.keys (Cache.cache c)) →
        OrderedDict.keys (OrderedDict.setitem k v (Cache.cache c1))
        = filter (λ k', k' ≠ k) (filter P (OrderedDict.keys (Cache.cache c))) ++ [k]) as Hgen.
      { intros c1 P HP Hk.
        assert (k ∉ OrderedDict.keys (Cache.cache c1)) as Hk1.
        { rewrite Hk. intros Hx. by apply list_elem_of_filter in Hx as [_ Hx]. }
        rewrite od_setitem_absent by done.
        unfold OrderedDict.keys at 1. rewrite fmap_app. simpl. f_equal.
        fold (OrderedDict.keys (Cache.cache c1)).
        rewrite <- Hk. symmetry. by apply filter_ne_absent. }
      case_bool_decide as Hcap.
      * unfold Cache._evict_oldest.
        destruct (OrderedDict.first_key (Cache.cache c)) as [k0|] eqn:Hk0.
        -- exists (λ k', k' ≠ k0), _. apply Hgen. simpl. apply od_keys_pop.
        -- exists (λ _, True), _. apply Hgen. by rewrite filter_True_id.
      * exists (λ _, True), _. apply Hgen. by rewrite filter_True_id.
  - unfold Cache.get.
    destruct (OrderedDict.contains k (Cache.cache c)) eqn:Hin; simpl.
    + destruct (Cache._is_expired agora k c); simpl.
      * exists (λ k', k' ≠ k), _. apply od_keys_pop.
      * exists (λ _, True), _. rewrite filter_True_id.
        apply od_keys_move_to_end. by apply od_contains_elem_of.
    + exists (λ _, True), _. by rewrite filter_True_id.
  - unfold Cache.delete. destruct (OrderedDict.contains k (Cache.cache c)); simpl.
    + exists (λ k', k' ≠ k), _. apply od_keys_pop.
    + exists (λ _, True), _. by rewrite filter_True_id.
  - exists (λ _, False), _. simpl.
    induction (OrderedDict.keys (Cache.cache c)) as [|x l IHl]; [done|].
    rewrite filter_cons, decide_False by tauto. done.
  - destruct (keys_remove_all c
      (List.filter (λ k, str_in pat k) (OrderedDict.keys (Cache.cache c))))
      as (P & HP & Hk & _).
    exists P, HP. exact Hk.
Qed.

Lemma od_length_setitem_present key (v : V) (d : list (string * V)) :
  key ∈ OrderedDict.keys d → length (OrderedDict.setitem key v d) = length d.
Proof.
  intros H. apply od_keys_setitem_present with (v := v) in H.
  apply (f_equal length) in H. unfold OrderedDict.keys in H.
  by rewrite !length_fmap in H.
Qed.

Lemma length_remove_all c (rem : list string) :
  (length (Cache.cache (foldl (fun c' k => Cache._remove k c') c rem))
   ≤ length (Cache.cache c))%nat.
Proof.
  revert c. induction rem as [|k rem IH]; intros c; simpl; [done|].
  etrans; [apply IH|]. simpl. apply od_length_pop.
Qed.

Lemma exec_max_size o c : Cache.max_size (Cache.exec o c) = Cache.max_size c.
Proof.
  destruct o as [agora k v|agora k|k| |pat]; simpl.
  - unfold Cache.set. destruct (OrderedDict.contains k (Cache.cache c)); [done|].
    case_bool_decide; [|done]. unfold Cache._evict_oldest.
    destruct (OrderedDict.first_key (Cache.cache c)); done.
  - unfold Cache.get. destruct (negb _); [done|]. destruct (Cache._is_expired _ _ _); done.
  - unfold Cache.delete. destruct (OrderedDict.contains _ _); done.
  - done.
  - by destruct (keys_remove_all c
      (List.filter (λ k, str_in pat k) (OrderedDict.keys (Cache.cache c))))
      as (P & HP & _ & ->).
Qed.

(** A call never lets the cache grow beyond its capacity. *)
Lemma exec_size o c :
  1 ≤ Cache.max_size c →
  Z.of_nat (Cache.size c) ≤ Cache.max_size c →
  Z.of_nat (Cache.size (Cache.exec o c)) ≤ Cache.max_size c.
Proof.
  unfold Cache.size. intros HN Hsz.
  destruct o as [agora k v|agora k|k| |pat]; simpl.
  - unfold Cache.set.
    destruct (OrderedDict.contains k (Cache.cache c)) eqn:Hin; simpl.
    + apply od_contains_elem_of in Hin.
      rewrite od_length_setitem_present.
      2:{ rewrite (od_keys_move_to_end k _ Hin). apply elem_of_app. right. by left. }
      pose proof (od_length_pop_lt k _ Hin) as Hlt.
      apply od_contains_elem_of, od_getitem_contains in Hin as [v0 Hv0].
      unfold OrderedDict.move_to_end. rewrite Hv0, length_app. simpl. lia.
    + apply od_contains_false in Hin. case_bool_decide as Hcap.
      * unfold Cache._evict_oldest.
        destruct (Cache.cache c) as [|[k0 v0] d] eqn:Hc; simpl in *; [lia|].
        rewrite Hc. simpl. rewrite decide_True by done.
        assert (k ∉ OrderedDict.keys (OrderedDict.pop k0 d)) as Hk.
        { rewrite od_keys_pop. intros Hx. apply list_elem_of_filter in Hx as [_ Hx].
          apply Hin. by right. }
        rewrite od_setitem_absent, length_app by done. simpl.
        pose proof (od_length_pop k0 d). lia.
      * rewrite od_setitem_absent, length_app by done. simpl. lia.
  - unfold Cache.get.
    destruct (OrderedDict.contains k (Cache.cache c)) eqn:Hin; simpl; [|done].
    destruct (Cache._is_expired agora k c); simpl.
    + pose proof (od_length_pop k (Cache.cache c)). lia.
    + apply od_contains_elem_of in Hin.
      pose proof (od_length_pop_lt k _ Hin) as Hlt.
      apply od_contains_elem_of, od_getitem_contains in Hin as [v0 Hv0].
      unfold OrderedDict.move_to_end. rewrite Hv0, length_app. simpl. lia.
  - unfold Cache.delete. destruct (OrderedDict.contains k (Cache.cache c)); simpl; [|done].
    pose proof (od_length_pop k (Cache.cache c)). lia.
  - lia.
  - pose proof (length_remove_all c
      (List.filter (λ k, str_in pat k) (OrderedDict.keys (Cache.cache c)))). lia.
Qed.

Lemma historia_run (ops : list (Cache.op V)) c n tq :
  (foldl LRU.registrar (c, n, tq) ops).1.1 = Cache.run ops c.
Proof.
  unfold Cache.run. revert c n tq.
  induction ops as [|o ops IH]; intros c n tq; simpl; [done|]. apply IH.
Qed.

Lemma registrar_ordem o c n tq :
  ordem (OrderedDict.keys (Cache.cache c)) n tq →
  let h := LRU.registrar (c, n, tq) o in
  ordem (OrderedDict.keys (Cache.cache h.1.1)) h.1.2 h.2.
Proof.
  intros Hord. simpl. destruct (exec_keys o c) as (P & HP & Hks).
  destruct (LRU.tocada o c) as [k|]; rewrite Hks.
  - by apply ordem_touch, ordem_filter.
  - by apply ordem_step, ordem_filter.
Qed.

Lemma historia_ordem (ops : list (Cache.op V)) c n tq :
  ordem (OrderedDict.keys (Cache.cache c)) n tq →
  let h := foldl LRU.registrar (c, n, tq) ops in
  ordem (OrderedDict.keys (Cache.cache h.1.1)) h.1.2 h.2.
Proof.
  revert c n tq. induction ops as [|o ops IH]; intros c n tq Hord; [done|].
  pose proof (registrar_ordem o c n tq Hord) as Hstep.
  simpl in Hstep |- *. by apply IH.
Qed.

Lemma run_size (ops : list (Cache.op V)) c :
  1 ≤ Cache.max_size c →
  Z.of_nat (Cache.size c) ≤ Cache.max_size c →
  Cache.max_size (Cache.run ops c) = Cache.max_size c
  ∧ Z.of_nat (Cache.size (Cache.run ops c)) ≤ Cache.max_size c.
Proof.
  unfold Cache.run. revert c. induction ops as [|o ops IH]; intros c HN Hsz; [done|].
  simpl. pose proof (exec_size o c HN Hsz) as Hsz'.
  pose proof (exec_max_size o c) as Hm.
  destruct (IH (Cache.exec o c)) as [H1 H2]; [lia..|]. split; [lia|lia].
Qed.

(** C4. On a cache of capacity [N ≥ 1], after any sequence of calls from
    the empty cache the number of stored entries is at most [N]; and a
    [set] of a key that is not stored, made when the cache is full, evicts
    exactly one entry, the least recently used one: the stored key whose
    last touch (a [set], or a [get] that hit) is the oldest.  The victim is
    found from the order of touches alone, whatever the clock readings and
    timestamps are. *)
Theorem lru_capacity_and_victim (N T : Z) (ops : list (Cache.op V)) :
  1 ≤ N →
  let c := Cache.run ops (Cache.init N T) in
  Z.of_nat (Cache.size c) ≤ N
  ∧ ∀ agora key (value : V),
      key ∉ OrderedDict.keys (Cache.cache c) →
      Z.of_nat (Cache.size c) >= N →
      ∃ vitima,
        LRU.menos_recente ops (Cache.init N T) vitima
        ∧ Cache.cache (Cache.set agora key value c)
          = OrderedDict.pop vitima (Cache.cache c) ++ [(key, value)]
        ∧ Cache.size (Cache.set agora key value c) = Cache.size c
        ∧ Cache.evictions (Cache.set agora key value c) = S (Cache.evictions c).
Proof.
  intros HN c.
  destruct (run_size ops (Cache.init N T)) as [Hmax Hsz];
    [done | unfold Cache.size; simpl; lia |].
  fold c in Hmax, Hsz. simpl in Hmax, Hsz.
  split; [lia|]. intros agora key value Hkey Hcap.
  pose proof (historia_ordem ops (Cache.init N T) 0%nat ∅ (ordem_nil _ _)) as Hord.
  simpl in Hord. fold (LRU.historia_de ops (Cache.init N T)) in Hord.
  assert ((LRU.historia_de ops (Cache.init N T)).1.1 = c) as Hc by apply historia_run.
  rewrite Hc in Hord.
  unfold Cache.size in *.
  destruct (Cache.cache c) as [|[k0 v0] d] eqn:Hd; [simpl in Hcap; lia|].
  exists k0.
  pose proof (ordem_NoDup _ _ _ Hord) as Hnd. simpl in Hnd.
  apply NoDup_cons in Hnd as [Hk0 Hnd].
  assert (OrderedDict.pop k0 d = d) as Hpop by (by apply od_pop_absent).
  assert (key ∉ OrderedDict.keys d) as Hkd.
  { intros Hx. apply Hkey. simpl. by right. }
  assert (Cache.set agora key value c
          = {| Cache.max_size := Cache.max_size c; Cache.ttl_seconds := Cache.ttl_seconds c;
               Cache.cache := d ++ [(key, value)];
               Cache.timestamps := <[key := agora]> (delete k0 (Cache.timestamps c));
               Cache.hits := Cache.hits c; Cache.misses := Cache.misses c;
               Cache.evictions := S (Cache.evictions c) |}) as Hset.
  { unfold Cache.set.
    assert (OrderedDict.contains key (Cache.cache c) = false) as ->.
    { apply od_contains_false. by rewrite Hd. }
    rewrite bool_decide_eq_true_2 by (rewrite Hd, Hmax; lia).
    unfold Cache._evict_oldest, Cache._remove. rewrite Hd. simpl.
    rewrite decide_True by done. rewrite Hpop.
    by rewrite od_setitem_absent. }
  split; [|split; [|split]].
  - unfold LRU.menos_recente. fold c. rewrite Hd. simpl. split; [by left|].
    intros k Hk Hne. apply elem_of_cons in Hk as [?|Hk]; [done|].
    destruct Hord as [Hs _]. apply StronglySorted_inv in Hs as [_ Hall].
    rewrite Forall_forall in Hall. by apply Hall.
  - rewrite Hset. simpl. rewrite decide_True by done. by rewrite Hpop.
  - rewrite Hset. simpl. rewrite length_app. simpl. lia.
  - by rewrite Hset.
Qed.
End LRUFacts.

(** ** The storage: save and load *)

Section StorageFacts.
Context {R texto : Type}.
Context (json_dump : list R → option texto) (json_load : texto → option (list R)).
Implicit Types (st : JSONStorage.t texto) (data : list R) (entity_type : string).

Lemma salvar_base_dir ok entity_type data st :
  JSONStorage.base_dir (JSONStorage.salvar json_dump ok entity_type data st).2
  = JSONStorage.base_dir st.
Proof. unfold JSONStorage.salvar. destruct (json_dump data); by destruct ok. Qed.

(** C6, as the code has it. After a [salvar] that returns [True], whatever
    the directory held before, the file of the collection holds the text
    [json.dump] wrote for the sequence.  A [carregar] of the same collection
    whose read is carried out gives back the sequence that was saved, in
    the same order, for every collection name and every sequence (the empty
    one included) that [json.load] reads back from that text; a [carregar]
    whose read fails gives the empty sequence. *)
Theorem salvar_carregar_roundtrip ok entity_type data st :
  (JSONStorage.salvar json_dump ok entity_type data st).1 = true →
  let st' := (JSONStorage.salvar json_dump ok entity_type data st).2 in
  (∃ text, json_dump data = Some text
     ∧ JSONStorage.disco st' !! JSONStorage._get_filepath st' entity_type = Some text)
  ∧ (valido json_dump json_load data →
       JSONStorage.carregar json_load true entity_type st' = data)
  ∧ JSONStorage.carregar json_load false entity_type st' = [].
Proof.
  unfold JSONStorage.salvar.
  destruct (json_dump data) as [text|] eqn:Hdump; [|done].
  destruct ok; [|done]. intros _.
  unfold JSONStorage.carregar, JSONStorage._get_filepath, JSONStorage.os_replace. simpl.
  rewrite !lookup_insert_eq. split; [by exists text|].
  split; [|done]. intros Hval. by rewrite (Hval text).
Qed.
End StorageFacts.

(** ** The service: notions used to state its properties *)

(** ** The files of the three collections *)

Lemma str_app_assoc (a b c : string) : (a +:+ b) +:+ c = a +:+ (b +:+ c).
Proof.
  induction a as [|x a IH]; [done|].
  change (String x ((a +:+ b) +:+ c) = String x (a +:+ (b +:+ c))). by rewrite IH.
Qed.

Lemma caminho_colecao base e :
  colecao e → os_path_join base (e +:+ ".json") = prefixo base +:+ (e +:+ ".json").
Proof.
  intros [->|[->| ->]]; unfold os_path_join, prefixo; simpl;
    destruct (bool_decide (base = EmptyString) || ends_with_slash base);
    by rewrite ?str_app_assoc.
Qed.

Section ArquivosFacts.
Implicit Types (st : JSONStorage.t conteudo) (e : string) (X : list registro).

Abbreviation car := (JSONStorage.carregar json_load true).
Abbreviation salvar := (JSONStorage.salvar json_dump).

Lemma caminho_ne e e' st :
  colecao e → colecao e' → e ≠ e' →
  JSONStorage._get_filepath st e ≠ JSONStorage._get_filepath st e'.
Proof.
  intros He He' Hne. unfold JSONStorage._get_filepath.
  rewrite !caminho_colecao by done. intros Heq. apply String.app_inj in Heq.
  destruct He as [->|[->| ->]], He' as [->|[->| ->]]; done.
Qed.

Lemma caminho_tmp_ne e e' st :
  colecao e → colecao e' →
  JSONStorage._get_filepath st e +:+ ".tmp" ≠ JSONStorage._get_filepath st e'.
Proof.
  intros He He'. unfold JSONStorage._get_filepath.
  rewrite !caminho_colecao by done. rewrite str_app_assoc.
  intros Heq. apply String.app_inj in Heq.
  destruct He as [->|[->| ->]], He' as [->|[->| ->]]; done.
Qed.

Lemma salvar_resultado ok e X st : (salvar ok e X st).1 = ok.
Proof. unfold JSONStorage.salvar. simpl. by destruct ok. Qed.

Lemma salvar_car_mesmo e X st : car e (salvar true e X st).2 = X.
Proof.
  unfold JSONStorage.salvar, JSONStorage.carregar, JSONStorage._get_filepath,
    JSONStorage.os_replace.
  simpl. by rewrite !lookup_insert_eq.
Qed.

Lemma salvar_falha_car e e' X st :
  colecao e → colecao e' → car e' (salvar false e X st).2 = car e' st.
Proof.
  intros He He'. unfold JSONStorage.carregar, JSONStorage.salvar. simpl.
  change (JSONStorage._get_filepath (JSONStorage.com_disco st _) e')
    with (JSONStorage._get_filepath st e').
  rewrite lookup_delete_ne by (by apply caminho_tmp_ne). done.
Qed.

Lemma salvar_car_outro ok e e' X st :
  colecao e → colecao e' → e ≠ e' → car e' (salvar ok e X st).2 = car e' st.
Proof.
  intros He He' Hne. destruct ok; [|by apply salvar_falha_car].
  unfold JSONStorage.carregar, JSONStorage.salvar, JSONStorage.os_replace. simpl.
  change (JSONStorage._get_filepath (JSONStorage.com_disco st _) e')
    with (JSONStorage._get_filepath st e').
  rewrite lookup_insert_eq.
  rewrite lookup_insert_ne by (by apply caminho_ne).
  rewrite lookup_delete_ne by (by apply caminho_tmp_ne).
  rewrite lookup_insert_ne by (by apply caminho_tmp_ne). done.
Qed.
End ArquivosFacts.

(** ** What the calls on the cache do to its entries *)

Section EntradasFacts.
Context {V : Type}.
Implicit Types (c : Cache.CacheManager V) (d : list (string * V)) (k key : string) (v : V).

Lemma od_getitem_pop_eq key d : OrderedDict.getitem key (OrderedDict.pop key d) = None.
Proof.
  induction d as [|[k' v'] d IH]; simpl; [done|].
  destruct (decide (k' = key)); [done|]. simpl. by rewrite decide_False.
Qed.

Lemma od_getitem_app k key v d :
  OrderedDict.getitem k (d ++ [(key, v)])
  = match OrderedDict.getitem k d with
    | Some x => Some x
    | None => if decide (key = k) then Some v else None
    end.
Proof.
  induction d as [|[k' v'] d IH]; simpl; [done|].
  destruct (decide (k' = k)); done.
Qed.

Lemma od_getitem_setitem k key v d :
  OrderedDict.getitem k (OrderedDict.setitem key v d)
  = if decide (key = k) then Some v else OrderedDict.getitem k d.
Proof.
  induction d as [|[k' v'] d IH]; simpl; [done|].
  destruct (decide (k' = key)) as [->|Hne]; simpl.
  - destruct (decide (key = k)); done.
  - destruct (decide (k' = k)) as [->|Hne'].
    + by rewrite decide_False by (by apply not_eq_sym).
    + done.
Qed.

Lemma od_getitem_move k key d :
  OrderedDict.getitem k (OrderedDict.move_to_end key d) = OrderedDict.getitem k d.
Proof.
  unfold OrderedDict.move_to_end.
  destruct (OrderedDict.getitem key d) as [v|] eqn:Hv; [|done].
  rewrite od_getitem_app. destruct (decide (key = k)) as [->|Hne].
  - by rewrite od_getitem_pop_eq, Hv.
  - rewrite od_getitem_pop_ne by (by apply not_eq_sym).
    by destruct (OrderedDict.getitem k d).
Qed.

Lemma get_entradas agora key c k v :
  OrderedDict.getitem k (Cache.cache (Cache.get agora key c).2) = Some v →
  OrderedDict.getitem k (Cache.cache c) = Some v.
Proof.
  unfold Cache.get. destruct (negb _); [done|].
  destruct (Cache._is_expired agora key c); simpl.
  - destruct (decide (k = key)) as [->|Hne].
    + by rewrite od_getitem_pop_eq.
    + by rewrite od_getitem_pop_ne.
  - by rewrite od_getitem_move.
Qed.

Lemma get_valor agora key c v :
  (Cache.get agora key c).1 = Some v → OrderedDict.getitem key (Cache.cache c) = Some v.
Proof.
  unfold Cache.get. destruct (negb _); [done|].
  destruct (Cache._is_expired agora key c); simpl; [done|].
  by rewrite od_getitem_move.
Qed.

Lemma evict_entradas c k v :
  OrderedDict.getitem k (Cache.cache (Cache._evict_oldest c)) = Some v →
  OrderedDict.getitem k (Cache.cache c) = Some v.
Proof.
  unfold Cache._evict_oldest.
  destruct (OrderedDict.first_key (Cache.cache c)) as [k0|]; simpl; [|done].
  destruct (decide (k = k0)) as [->|Hne].
  - by rewrite od_getitem_pop_eq.
  - by rewrite od_getitem_pop_ne.
Qed.

Lemma set_entradas agora key value c k v :
  OrderedDict.getitem k (Cache.cache (Cache.set agora key value c)) = Some v →
  (k = key ∧ v = value) ∨ (k ≠ key ∧ OrderedDict.getitem k (Cache.cache c) = Some v).
Proof.
  unfold Cache.set. destruct (OrderedDict.contains key (Cache.cache c)); simpl;
    rewrite od_getitem_setitem; destruct (decide (key = k)) as [->|Hne];
    try (intros [= ->]; by left); intros H; right; (split; [by apply not_eq_sym|]).
  - by rewrite od_getitem_move in H.
  - case_bool_decide; [by apply evict_entradas|done].
Qed.

Lemma delete_entradas key c k v :
  OrderedDict.getitem k (Cache.cache (Cache.delete key c).2) = Some v →
  OrderedDict.getitem k (Cache.cache c) = Some v
  ∧ (OrderedDict.getitem key (Cache.cache (Cache.delete key c).2) = None).
Proof.
  unfold Cache.delete.
  destruct (OrderedDict.contains key (Cache.cache c)) eqn:Hin; simpl.
  - rewrite od_getitem_pop_eq. destruct (decide (k = key)) as [->|Hne].
    + by rewrite od_getitem_pop_eq.
    + by rewrite od_getitem_pop_ne.
  - intros H. split; [done|].
    destruct (OrderedDict.getitem key (Cache.cache c)) eqn:Hg; [|done].
    assert (is_Some (OrderedDict.getitem key (Cache.cache c))) as Hs by eauto.
    apply od_getitem_contains in Hs. congruence.
Qed.

Lemma remove_all_entradas (rem : list string) c k v :
  OrderedDict.getitem k (Cache.cache (foldl (fun c' x => Cache._remove x c') c rem)) = Some v →
  (k ∉ rem) ∧ OrderedDict.getitem k (Cache.cache c) = Some v.
Proof.
  revert c. induction rem as [|x rem IH]; intros c; simpl.
  - intros H. split; [apply not_elem_of_nil | done].
  - intros H. apply IH in H as [Hk H]. simpl in H.
    destruct (decide (k = x)) as [->|Hne].
    + by rewrite od_getitem_pop_eq in H.
    + rewrite od_getitem_pop_ne in H by done. split; [|done].
      apply not_elem_of_cons. done.
Qed.

Lemma invalidate_entradas pattern c k v :
  OrderedDict.getitem k (Cache.cache (Cache.invalidate_pattern pattern c).2) = Some v →
  str_in pattern k = false ∧ OrderedDict.getitem k (Cache.cache c) = Some v.
Proof.
  unfold Cache.invalidate_pattern. simpl. intros H.
  apply remove_all_entradas in H as [Hk H]. split; [|done].
  destruct (str_in pattern k) eqn:Hp; [|done]. exfalso. apply Hk.
  apply list_elem_of_In, filter_In. split; [|done].
  apply list_elem_of_In, od_contains_elem_of, od_getitem_contains. eauto.
Qed.
End EntradasFacts.

(** ** The service: rules for the postconditions of method bodies *)

Section WpFacts.
Variable amb : Ambiente.

Lemma wp_ret {A} (a : A) Q s : Q (Some a) s → wp (ret a) Q s.
Proof. done. Qed.

Lemma wp_levantar {A} (Q : option A → Estado → Prop) s : Q None s → wp levantar Q s.
Proof. done. Qed.

Lemma wp_bind {A B} (m : M A) (k : A → M B) Q s :
  wp m (λ r s', match r with Some a => wp (k a) Q s' | None => Q None s' end) s →
  wp (bind m k) Q s.
Proof. unfold wp, bind. by destruct (m s) as [[a|] s']. Qed.

Lemma wp_tentar {A} (corpo tratador : M A) Q s :
  wp corpo (λ r s', match r with Some a => Q (Some a) s' | None => wp tratador Q s' end) s →
  wp (tentar corpo tratador) Q s.
Proof. unfold wp, tentar. by destruct (corpo s) as [[a|] s']. Qed.

Lemma wp_mono {A} (m : M A) (Q Q' : option A → Estado → Prop) s :
  wp m Q s → (∀ r s', Q r s' → Q' r s') → wp m Q' s.
Proof. unfold wp. auto. Qed.

Lemma wp_ler {A} (f : Ambiente → nat → A) Q s :
  Q (Some (f amb (tique s))) (avancar s) → wp (ler amb f) Q s.
Proof. done. Qed.

Lemma wp_cache_get key Q s :
  (∀ r s', storage s' = storage s →
           sub_entradas (entradas s') (entradas s) →
           (∀ v, r = Some v → OrderedDict.getitem key (entradas s) = Some v) →
           Q (Some r) s') →
  wp (cache_get amb key) Q s.
Proof.
  intros H. unfold cache_get. apply wp_bind, wp_ler. unfold wp. simpl.
  apply H; [done| |].
  - intros k v. apply get_entradas.
  - intros v. apply get_valor.
Qed.

Lemma wp_cache_set key value Q s :
  (∀ s', storage s' = storage s →
         (∀ k v, OrderedDict.getitem k (entradas s') = Some v →
                 (k = key ∧ v = value) ∨ OrderedDict.getitem k (entradas s) = Some v) →
         Q (Some tt) s') →
  wp (cache_set amb key value) Q s.
Proof.
  intros H. unfold cache_set. apply wp_bind, wp_ler. unfold wp. simpl.
  apply H; [done|]. intros k v Hk. apply set_entradas in Hk. tauto.
Qed.

Lemma wp_cache_delete key Q s :
  (∀ b s', storage s' = storage s →
           sub_entradas (entradas s') (entradas s) →
           OrderedDict.getitem key (entradas s') = None →
           tique s' = tique s →
           Q (Some b) s') →
  wp (cache_delete key) Q s.
Proof.
  intros H. unfold wp, cache_delete. simpl. apply H; [done| | |done].
  - intros k v Hk. by apply delete_entradas in Hk as [Hk _].
  - unfold entradas. simpl. unfold Cache.delete.
    destruct (OrderedDict.contains key _) eqn:Hin; simpl.
    + apply od_getitem_pop_eq.
    + destruct (OrderedDict.getitem key _) eqn:Hg; [|done].
      assert (is_Some (OrderedDict.getitem key (Cache.cache (cache_manager s)))) as Hs by eauto.
      apply od_getitem_contains in Hs. congruence.
Qed.

Lemma wp_cache_invalidate_pattern pattern Q s :
  (∀ n s', storage s' = storage s →
           sub_entradas (entradas s') (entradas s) →
           (∀ k v, OrderedDict.getitem k (entradas s') = Some v → str_in pattern k = false) →
           tique s' = tique s →
           Q (Some n) s') →
  wp (cache_invalidate_pattern pattern) Q s.
Proof.
  intros H. unfold wp, cache_invalidate_pattern. simpl. apply H; [done| | |done].
  - intros k v Hk. by apply invalidate_entradas in Hk as [_ Hk].
  - intros k v Hk. by apply invalidate_entradas in Hk as [Hk _].
Qed.

Lemma wp_ler_arquivo Q s :
  Q (Some (leitura_ok amb (leituras s))) (avancar_leitura s) → wp (ler_arquivo amb) Q s.
Proof. done. Qed.

(** A read of the storage that is carried out gives the stored records, and
    touches neither the files nor the cache. *)
Context `{!LeiturasOk amb}.

Lemma wp_storage_carregar e Q s :
  (∀ s', storage s' = storage s → entradas s' = entradas s → tique s' = tique s →
         Q (Some (dados e s)) s') →
  wp (storage_carregar amb e) Q s.
Proof.
  intros H. unfold storage_carregar. apply wp_bind, wp_ler_arquivo. rewrite leituras_ok.
  unfold wp. simpl. by apply H.
Qed.

Lemma wp_storage_buscar_por_id e item_id Q s :
  (∀ s', storage s' = storage s → entradas s' = entradas s → tique s' = tique s →
         Q (Some (registro_de e item_id s)) s') →
  wp (storage_buscar_por_id amb e item_id) Q s.
Proof.
  intros H. unfold storage_buscar_por_id. apply wp_bind, wp_ler_arquivo. rewrite leituras_ok.
  unfold wp. simpl. by apply H.
Qed.
End WpFacts.

Section StorageWpFacts.
Variable amb : Ambiente.
Context `{!LeiturasOk amb}.

Lemma salvar_escrito e X s :
  colecao e →
  let ok := escrita_ok amb (tique s) in
  let r := JSONStorage.salvar json_dump ok e X (storage s) in
  r.1 = ok
  ∧ escrito e (if ok then X else dados e s) s (com_storage (avancar (avancar_leitura s)) r.2).
Proof.
  intros He ok r. split; [apply salvar_resultado|].
  split; [done|]. split.
  - unfold dados, r. simpl. destruct ok.
    + apply salvar_car_mesmo.
    + by apply salvar_falha_car.
  - intros e' He' Hne. unfold dados, r. simpl. by apply salvar_car_outro.
Qed.

Lemma escrito_refl e s s' :
  storage s' = storage s → entradas s' = entradas s → escrito e (dados e s) s s'.
Proof. intros Hst He. unfold escrito, dados. by rewrite Hst. Qed.

(** The three writes of the storage, when the read they begin with is
    carried out; each makes one reading of the environment, for its write. *)
Lemma wp_storage_adicionar e item Q s :
  colecao e →
  (∀ s', escrito e (if escrita_ok amb (tique s) then dados e s ++ [item] else dados e s) s s' →
         tique s' = S (tique s) →
         Q (Some (escrita_ok amb (tique s))) s') →
  wp (storage_adicionar amb e item) Q s.
Proof.
  intros He H. unfold storage_adicionar. apply wp_bind, wp_ler_arquivo. rewrite leituras_ok.
  apply wp_bind, wp_ler. unfold wp. simpl.
  unfold JSONStorage.adicionar.
  destruct (salvar_escrito e (dados e s ++ [item]) s He) as [Hok Hesc].
  simpl in Hok, Hesc. unfold dados in Hok at 1. rewrite Hok. by apply H.
Qed.

Lemma wp_storage_atualizar e item_id novo_item Q s :
  colecao e →
  (∀ s', match JSONStorage.substituir registro_id item_id novo_item (dados e s) with
         | Some l =>
             escrito e (if escrita_ok amb (tique s) then l else dados e s) s s'
             → tique s' = S (tique s)
             → Q (Some (escrita_ok amb (tique s))) s'
         | None => escrito e (dados e s) s s' → tique s' = S (tique s) → Q (Some false) s'
         end) →
  wp (storage_atualizar amb e item_id novo_item) Q s.
Proof.
  intros He H. unfold storage_atualizar. apply wp_bind, wp_ler_arquivo. rewrite leituras_ok.
  apply wp_bind, wp_ler. unfold wp. simpl.
  unfold JSONStorage.atualizar.
  change (JSONStorage.carregar json_load true e (storage s)) with (dados e s).
  specialize (H (com_storage (avancar (avancar_leitura s))
    (JSONStorage.atualizar registro_id json_dump json_load true (escrita_ok amb (tique s))
       e item_id novo_item (storage s)).2)).
  unfold JSONStorage.atualizar in H.
  change (JSONStorage.carregar json_load true e (storage s)) with (dados e s) in H.
  destruct (JSONStorage.substituir registro_id item_id novo_item (dados e s)) as [l|].
  - destruct (salvar_escrito e l s He) as [Hok Hesc]. simpl in Hok, Hesc.
    rewrite Hok. by apply H.
  - simpl in *. apply H; [|done]. by apply escrito_refl.
Qed.

Lemma wp_storage_remover e item_id Q s :
  colecao e →
  (∀ s',
     let filtrados :=
       List.filter (fun item => negb (JSONStorage.tem_id registro_id item_id item)) (dados e s) in
     if bool_decide (length filtrados < length (dados e s))%nat
     then escrito e (if escrita_ok amb (tique s) then filtrados else dados e s) s s'
          → tique s' = S (tique s)
          → Q (Some (escrita_ok amb (tique s))) s'
     else escrito e (dados e s) s s' → tique s' = S (tique s) → Q (Some false) s') →
  wp (storage_remover amb e item_id) Q s.
Proof.
  intros He H. unfold storage_remover. apply wp_bind, wp_ler_arquivo. rewrite leituras_ok.
  apply wp_bind, wp_ler. unfold wp. simpl.
  specialize (H (com_storage (avancar (avancar_leitura s))
    (JSONStorage.remover registro_id json_dump json_load true (escrita_ok amb (tique s))
       e item_id (storage s)).2)).
  unfold JSONStorage.remover in *.
  change (JSONStorage.carregar json_load true e (storage s)) with (dados e s) in *.
  simpl in H. case_bool_decide.
  - destruct (salvar_escrito e
      (List.filter (fun item => negb (JSONStorage.tem_id registro_id item_id item)) (dados e s))
      s He) as [Hok Hesc].
    simpl in Hok, Hesc. rewrite Hok. by apply H.
  - simpl. apply H; [|done]. by apply escrito_refl.
Qed.
End StorageWpFacts.

(** ** The service: the invariant of reachable states *)

Section InvarianteFacts.
Implicit Types (s : Estado) (e key : string) (v : valor).

Lemma colecao_pacientes : colecao "pacientes". Proof. by left. Qed.
Lemma colecao_medicos : colecao "medicos". Proof. right. by left. Qed.
Lemma colecao_consultas : colecao "consultas". Proof. right. by right. Qed.

(** [registro_de] is a search in the records of the collection. *)
Lemma registro_de_dados e item_id s :
  registro_de e item_id s = List.find (JSONStorage.tem_id registro_id item_id) (dados e s).
Proof. done. Qed.

Lemma chave_paciente_ne id :
  "paciente:" +:+ id ≠ "pacientes:all" ∧ "paciente:" +:+ id ≠ "medicos:all"
  ∧ "paciente:" +:+ id ≠ "consultas:all" ∧ ∀ id', "paciente:" +:+ id ≠ "medico:" +:+ id'.
Proof. repeat split; done. Qed.

Lemma chave_medico_ne id :
  "medico:" +:+ id ≠ "pacientes:all" ∧ "medico:" +:+ id ≠ "medicos:all"
  ∧ "medico:" +:+ id ≠ "consultas:all".
Proof. repeat split; done. Qed.

Lemma chave_paciente_inj id id' : "paciente:" +:+ id = "paciente:" +:+ id' → id = id'.
Proof. apply String.app_inj. Qed.

Lemma chave_medico_inj id id' : "medico:" +:+ id = "medico:" +:+ id' → id = id'.
Proof. apply String.app_inj. Qed.

(** A state with the same storage whose cache only holds entries of the old
    cache, or entries that agree with the storage, satisfies the invariant. *)
Lemma invariante_mesmo_storage s s' :
  storage s' = storage s →
  (∀ k v, OrderedDict.getitem k (entradas s') = Some v →
          OrderedDict.getitem k (entradas s) = Some v ∨ valor_esperado s k v) →
  invariante s → invariante s'.
Proof.
  intros Hst Hent [Htip Hcoe].
  assert (∀ k v, valor_esperado s k v → valor_esperado s' k v) as Hval.
  { intros k v. unfold valor_esperado, pacientes_de, medicos_de, consultas_de, registro_de.
    by rewrite Hst. }
  split.
  - unfold tipado, pacientes_de, medicos_de, consultas_de in *. by rewrite Hst.
  - intros k v Hk. apply Hval. destruct (Hent k v Hk) as [Hold|Hnew]; [by apply Hcoe|done].
Qed.

Lemma invariante_sub s s' :
  storage s' = storage s → sub_entradas (entradas s') (entradas s) →
  invariante s → invariante s'.
Proof.
  intros Hst Hsub. apply invariante_mesmo_storage; [done|]. intros k v Hk. left. by apply Hsub.
Qed.

Lemma valor_esperado_transporta s s' k v :
  valor_esperado s k v →
  (k = "pacientes:all" → dados "pacientes" s' = dados "pacientes" s) →
  (k = "medicos:all" → dados "medicos" s' = dados "medicos" s) →
  (k = "consultas:all" → dados "consultas" s' = dados "consultas" s) →
  (∀ id r, k = "paciente:" +:+ id →
     registro_de "pacientes" id s = Some r → registro_de "pacientes" id s' = Some r) →
  (∀ id r, k = "medico:" +:+ id →
     registro_de "medicos" id s = Some r → registro_de "medicos" id s' = Some r) →
  valor_esperado s' k v.
Proof.
  intros (H1 & H2 & H3 & H4 & H5) Hp Hm Hc Hrp Hrm.
  unfold valor_esperado, pacientes_de, medicos_de, consultas_de.
  fold (dados "pacientes" s') (dados "medicos" s') (dados "consultas" s').
  split; [|split; [|split; [|split]]].
  - intros Hk. rewrite (Hp Hk). by apply H1.
  - intros Hk. rewrite (Hm Hk). by apply H2.
  - intros Hk. rewrite (Hc Hk). by apply H3.
  - intros id Hk. destruct (H4 id Hk) as (r & -> & Hr). exists r. split; [done|]. by eapply Hrp.
  - intros id Hk. destruct (H5 id Hk) as (r & -> & Hr). exists r. split; [done|]. by eapply Hrm.
Qed.

(** After a write of collection [e] followed by the invalidation of the
    cache pattern [e]: the invariant holds again when the new records have
    the shape of the collection and every record still cached by id is
    still the one found by that id. *)
Lemma invariante_apos_escrita e novo s s0 s' :
  colecao e →
  invariante s →
  escrito e novo s s0 →
  storage s' = storage s0 → sub_entradas (entradas s') (entradas s0) →
  (∀ k v, OrderedDict.getitem k (entradas s') = Some v → str_in e k = false) →
  (e = "pacientes" → Forall (λ r, is_Some (como_paciente r)) novo) →
  (e = "medicos" → Forall (λ r, is_Some (como_medico r)) novo) →
  (e = "consultas" → Forall (λ r, is_Some (como_consulta r)) novo) →
  (e = "pacientes" → ∀ id r,
     is_Some (OrderedDict.getitem ("paciente:" +:+ id) (entradas s')) →
     List.find (JSONStorage.tem_id registro_id id) (dados e s) = Some r →
     List.find (JSONStorage.tem_id registro_id id) novo = Some r) →
  (e = "medicos" → ∀ id r,
     is_Some (OrderedDict.getitem ("medico:" +:+ id) (entradas s')) →
     List.find (JSONStorage.tem_id registro_id id) (dados e s) = Some r →
     List.find (JSONStorage.tem_id registro_id id) novo = Some r) →
  invariante s'.
Proof.
  intros He [(Hp & Hm & Hc) Hcoe] (Hent & Hnovo & Houtros) Hst Hsub Hinv Htp Htm Htc
    Hfindp Hfindm.
  assert (∀ e', dados e' s' = dados e' s0) as Hd.
  { intros e'. unfold dados. by rewrite Hst. }
  assert (∀ e', colecao e' → e' ≠ e → dados e' s' = dados e' s) as Hd'.
  { intros e' He' Hne. rewrite Hd. by apply Houtros. }
  assert (dados e s' = novo) as Hde by (by rewrite Hd).
  split.
  - unfold tipado. change (pacientes_de s') with (dados "pacientes" s').
    change (medicos_de s') with (dados "medicos" s').
    change (consultas_de s') with (dados "consultas" s').
    destruct He as [->|[->| ->]]; rewrite Hde;
      repeat match goal with
      | |- context [dados ?x s'] =>
          rewrite (Hd' x) by (done || (by left) || (right; by left) || (right; by right))
      end; auto.
  - intros k v Hk. pose proof (Hinv k v Hk) as Hpat.
    pose proof Hk as Hk'. apply Hsub in Hk'. rewrite Hent in Hk'.
    apply (valor_esperado_transporta s s' k v (Hcoe k v Hk')).
    + intros ->. destruct He as [->|[->| ->]]; [done|by apply Hd'; [left|]..].
    + intros ->. destruct He as [->|[->| ->]];
        [by apply Hd'; [right; left|] | done | by apply Hd'; [right; left|]].
    + intros ->. destruct He as [->|[->| ->]];
        [by apply Hd'; [right; right|].. | done].
    + intros id r -> Hr. rewrite registro_de_dados in *.
      destruct He as [->|[->| ->]].
      * rewrite Hde. apply Hfindp; [done| |done]. eauto.
      * rewrite Hd' by (done || by left). done.
      * rewrite Hd' by (done || by left). done.
    + intros id r -> Hr. rewrite registro_de_dados in *.
      destruct He as [->|[->| ->]].
      * rewrite Hd' by (done || (right; by left)). done.
      * rewrite Hde. apply Hfindm; [done| |done]. eauto.
      * rewrite Hd' by (done || (right; by left)). done.
Qed.
End InvarianteFacts.

(** ** The service: reading through the cache *)

Section LeituraFacts.
Variable amb : Ambiente.
Context `{!LeiturasOk amb}.
Implicit Types (s : Estado) (e key : string) (v : valor).

Lemma Paciente_from_dict_decodifica : decodifica (Paciente_from_dict amb) como_paciente.
Proof.
  intros [p| |] a s; simpl; [|done..]. destruct (decide _) as [|Hne]; [done|].
  intros [= <-]. destruct p as [id ? ? ? ? ?]. simpl in *. by destruct id.
Qed.

Lemma Medico_from_dict_decodifica : decodifica (Medico_from_dict amb) como_medico.
Proof.
  intros [|m|] a s; simpl; [done| |done]. destruct (decide _) as [|Hne]; [done|].
  intros [= <-]. destruct m as [id ? ? ? ? ?]. simpl in *. by destruct id.
Qed.

Lemma Consulta_from_dict_decodifica : decodifica (Consulta_from_dict amb) como_consulta.
Proof.
  intros [| |c] a s; simpl; [done..|]. destruct (decide _) as [|Hne]; [done|].
  intros [= <-]. destruct c as [id ? ? ? ? ? ? ? ?]. simpl in *. by destruct id.
Qed.

Lemma para_cada_decodifica {A} (f : registro → M A) como (l : list registro) s :
  decodifica f como →
  Forall (λ r, is_Some (como r)) l →
  para_cada f l s = (Some (omap como l), s).
Proof.
  intros Hf Hl. induction Hl as [|r l [a Ha] _ IH]; [done|].
  simpl. unfold bind. rewrite (Hf r a s Ha), IH, Ha. done.
Qed.

Lemma wp_para_cada {A} (f : registro → M A) como (l : list registro) Q s :
  decodifica f como →
  Forall (λ r, is_Some (como r)) l →
  Q (Some (omap como l)) s → wp (para_cada f l) Q s.
Proof. intros Hf Hl HQ. unfold wp. by rewrite (para_cada_decodifica f como l s Hf Hl). Qed.

Lemma listar_pacientes_gen :
  listar_pacientes amb = listar_gen amb "pacientes:all" "pacientes" (Paciente_from_dict amb).
Proof. done. Qed.

Lemma listar_medicos_gen :
  listar_medicos amb = listar_gen amb "medicos:all" "medicos" (Medico_from_dict amb).
Proof. done. Qed.

Lemma listar_consultas_gen :
  listar_consultas amb = listar_gen amb "consultas:all" "consultas" (Consulta_from_dict amb).
Proof. done. Qed.

Lemma wp_listar_gen {A} key e (f : registro → M A) como Q s :
  decodifica f como →
  Forall (λ r, is_Some (como r)) (dados e s) →
  (∀ v, OrderedDict.getitem key (entradas s) = Some v → v = VLista (dados e s)) →
  (∀ s', storage s' = storage s →
         (∀ k v, OrderedDict.getitem k (entradas s') = Some v →
                 OrderedDict.getitem k (entradas s) = Some v
                 ∨ (k = key ∧ v = VLista (dados e s))) →
         Q (Some (omap como (dados e s))) s') →
  wp (listar_gen amb key e f) Q s.
Proof.
  intros Hf Htip Hcache HQ. unfold listar_gen.
  apply wp_bind, wp_cache_get. intros r s1 Hst Hsub Hval.
  assert (dados e s1 = dados e s) as Hd by (unfold dados; by rewrite Hst).
  assert (wp (seja dados := storage_carregar amb e em
              seja xs := para_cada f dados em
              cache_set amb key (VLista dados) ;;; ret xs) Q s1) as Hmiss.
  { apply wp_bind, wp_storage_carregar; [done|]. intros s1' Hst1 Hent1 _. rewrite Hd.
    apply wp_bind, (wp_para_cada f como); [done..|].
    apply wp_bind, wp_cache_set. intros s2 Hst2 Hent2. apply wp_ret.
    apply HQ; [congruence|]. intros k v Hk.
    destruct (Hent2 k v Hk) as [?|Hold]; [by right|]. left. apply Hsub. by rewrite <- Hent1. }
  destruct r as [v|]; [|exact Hmiss].
  rewrite (Hcache v (Hval v eq_refl)). simpl.
  destruct (dados e s) as [|r0 l] eqn:Hl; [exact Hmiss|].
  change (wp (para_cada f (r0 :: l)) Q s1).
  apply (wp_para_cada f como); [done..|].
  apply HQ; [done|]. intros k v' Hk. left. by apply Hsub.
Qed.

Lemma buscar_paciente_gen paciente_id :
  buscar_paciente amb paciente_id
  = buscar_gen amb ("paciente:" +:+ paciente_id) "pacientes" paciente_id (Paciente_from_dict amb).
Proof. done. Qed.

Lemma buscar_medico_gen medico_id :
  buscar_medico amb medico_id
  = buscar_gen amb ("medico:" +:+ medico_id) "medicos" medico_id (Medico_from_dict amb).
Proof. done. Qed.

Lemma find_elem_of {A} (p : A → bool) (l : list A) x : List.find p l = Some x → x ∈ l.
Proof. intros H. apply find_some in H as [H _]. by apply list_elem_of_In. Qed.

Lemma wp_buscar_gen {A} key e item_id (f : registro → M A) como Q s :
  decodifica f como →
  Forall (λ r, is_Some (como r)) (dados e s) →
  (∀ v, OrderedDict.getitem key (entradas s) = Some v →
        ∃ r, v = VReg r ∧ registro_de e item_id s = Some r) →
  (∀ s', storage s' = storage s →
         (∀ k v, OrderedDict.getitem k (entradas s') = Some v →
                 OrderedDict.getitem k (entradas s) = Some v
                 ∨ (k = key ∧ ∃ r, v = VReg r ∧ registro_de e item_id s = Some r)) →
         Q (Some (registro_de e item_id s ≫= como)) s') →
  wp (buscar_gen amb key e item_id f) Q s.
Proof.
  intros Hf Htip Hcache HQ. unfold buscar_gen.
  apply wp_bind, wp_cache_get. intros r s1 Hst Hsub Hval.
  assert (registro_de e item_id s1 = registro_de e item_id s) as Hd
    by (unfold registro_de; by rewrite Hst).
  assert (∀ r0, registro_de e item_id s = Some r0 → ∃ a, como r0 = Some a) as Hcomo.
  { intros r0 Hr0. rewrite registro_de_dados in Hr0. apply find_elem_of in Hr0.
    rewrite Forall_forall in Htip. by apply Htip. }
  destruct r as [v|].
  - destruct (Hcache v (Hval v eq_refl)) as (r0 & -> & Hr0). simpl.
    destruct (Hcomo r0 Hr0) as [a Ha].
    apply wp_bind. unfold wp at 1. rewrite (Hf r0 a s1 Ha). simpl. apply wp_ret.
    rewrite Hr0 in HQ. simpl in HQ. rewrite Ha in HQ.
    apply HQ; [done|]. intros k v' Hk. left. by apply Hsub.
  - simpl. apply wp_bind, wp_storage_buscar_por_id; [done|]. intros s1' Hst1 Hent1 _. rewrite Hd.
    destruct (registro_de e item_id s) as [r0|] eqn:Hr0.
    + destruct (Hcomo r0 eq_refl) as [a Ha].
      apply wp_bind, wp_cache_set. intros s2 Hst2 Hent2.
      apply wp_bind. unfold wp at 1. rewrite (Hf r0 a s2 Ha). simpl. apply wp_ret.
      simpl in HQ. rewrite Ha in HQ. apply HQ; [congruence|].
      intros k v' Hk. destruct (Hent2 k v' Hk) as [[-> ->]|Hold].
      * right. eauto.
      * left. apply Hsub. by rewrite <- Hent1.
    + apply wp_ret. apply HQ; [congruence|]. intros k v' Hk. left. apply Hsub.
      by rewrite <- Hent1.
Qed.
End LeituraFacts.

(** ** The service: what each method does in a state of the invariant *)

Section MetodosFacts.
Variable amb : Ambiente.
Context `{!LeiturasOk amb}.
Implicit Types (s : Estado) (e key : string) (v : valor).

Lemma mesmos_dados_refl s s' : storage s' = storage s → mesmos_dados s s'.
Proof. intros H e _. unfold dados. by rewrite H. Qed.

Lemma mesmos_dados_trans s s1 s2 :
  mesmos_dados s s1 → mesmos_dados s1 s2 → mesmos_dados s s2.
Proof. intros H1 H2 e He. by rewrite H2, H1. Qed.

Lemma escrito_mesmos_dados e s s' :
  colecao e → escrito e (dados e s) s s' → mesmos_dados s s'.
Proof.
  intros He (_ & Hd & Ho) e' He'. destruct (decide (e' = e)) as [->|Hne]; [done|]. by apply Ho.
Qed.

Lemma invariante_mesmos_dados s s' :
  mesmos_dados s s' →
  (∀ k v, OrderedDict.getitem k (entradas s') = Some v →
          OrderedDict.getitem k (entradas s) = Some v ∨ valor_esperado s k v) →
  invariante s → invariante s'.
Proof.
  intros Hd Hent [Htip Hcoe].
  assert (∀ k v, valor_esperado s k v → valor_esperado s' k v) as Hval.
  { intros k v Hv. apply (valor_esperado_transporta s s' k v Hv).
    - intros _. apply Hd, colecao_pacientes.
    - intros _. apply Hd, colecao_medicos.
    - intros _. apply Hd, colecao_consultas.
    - intros id r _. rewrite !registro_de_dados. by rewrite (Hd _ colecao_pacientes).
    - intros id r _. rewrite !registro_de_dados. by rewrite (Hd _ colecao_medicos). }
  split.
  - unfold tipado. change (pacientes_de s') with (dados "pacientes" s').
    change (medicos_de s') with (dados "medicos" s').
    change (consultas_de s') with (dados "consultas" s').
    rewrite (Hd _ colecao_pacientes), (Hd _ colecao_medicos), (Hd _ colecao_consultas).
    exact Htip.
  - intros k v Hk. apply Hval. destruct (Hent k v Hk) as [Hold|Hnew]; [by apply Hcoe|done].
Qed.

Lemma invariante_escrito_igual e s s' :
  colecao e → escrito e (dados e s) s s' → invariante s → invariante s'.
Proof.
  intros He Hesc. apply invariante_mesmos_dados; [by eapply escrito_mesmos_dados|].
  intros k v Hk. left. destruct Hesc as (Hent & _). by rewrite <- Hent.
Qed.

Lemma esperado_lista s e :
  colecao e → valor_esperado s (e +:+ ":all") (VLista (dados e s)).
Proof. intros [->|[->| ->]]; repeat split; done. Qed.

Lemma esperado_paciente s id r :
  registro_de "pacientes" id s = Some r → valor_esperado s ("paciente:" +:+ id) (VReg r).
Proof.
  intros Hr. repeat split; try done.
  intros id' Hid. apply chave_paciente_inj in Hid as <-. eauto.
Qed.

Lemma esperado_medico s id r :
  registro_de "medicos" id s = Some r → valor_esperado s ("medico:" +:+ id) (VReg r).
Proof.
  intros Hr. repeat split; try done.
  intros id' Hid. apply chave_medico_inj in Hid as <-. eauto.
Qed.

Lemma wp_listar_pacientes Q s :
  invariante s →
  (∀ s', storage s' = storage s → invariante s' → Q (Some (pacientes s)) s') →
  wp (listar_pacientes amb) Q s.
Proof.
  intros Hinv HQ. rewrite listar_pacientes_gen.
  apply (wp_listar_gen amb _ _ _ como_paciente); [apply Paciente_from_dict_decodifica|..].
  - apply Hinv.
  - intros v Hv. by apply Hinv in Hv as (H1 & _); apply H1.
  - intros s' Hst Hent. apply HQ; [done|].
    apply (invariante_mesmo_storage s); [done| |done].
    intros k v Hk. destruct (Hent k v Hk) as [?|[-> ->]]; [by left|right].
    apply (esperado_lista s "pacientes" colecao_pacientes).
Qed.

Lemma wp_listar_medicos Q s :
  invariante s →
  (∀ s', storage s' = storage s → invariante s' → Q (Some (medicos s)) s') →
  wp (listar_medicos amb) Q s.
Proof.
  intros Hinv HQ. rewrite listar_medicos_gen.
  apply (wp_listar_gen amb _ _ _ como_medico); [apply Medico_from_dict_decodifica|..].
  - apply Hinv.
  - intros v Hv. by apply Hinv in Hv as (_ & H2 & _); apply H2.
  - intros s' Hst Hent. apply HQ; [done|].
    apply (invariante_mesmo_storage s); [done| |done].
    intros k v Hk. destruct (Hent k v Hk) as [?|[-> ->]]; [by left|right].
    apply (esperado_lista s "medicos" colecao_medicos).
Qed.

Lemma wp_listar_consultas Q s :
  invariante s →
  (∀ s', storage s' = storage s → invariante s' → Q (Some (consultas s)) s') →
  wp (listar_consultas amb) Q s.
Proof.
  intros Hinv HQ. rewrite listar_consultas_gen.
  apply (wp_listar_gen amb _ _ _ como_consulta); [apply Consulta_from_dict_decodifica|..].
  - apply Hinv.
  - intros v Hv. by apply Hinv in Hv as (_ & _ & H3 & _); apply H3.
  - intros s' Hst Hent. apply HQ; [done|].
    apply (invariante_mesmo_storage s); [done| |done].
    intros k v Hk. destruct (Hent k v Hk) as [?|[-> ->]]; [by left|right].
    apply (esperado_lista s "consultas" colecao_consultas).
Qed.

Lemma wp_buscar_paciente paciente_id Q s :
  invariante s →
  (∀ s', storage s' = storage s → invariante s' →
         Q (Some (paciente_de s paciente_id)) s') →
  wp (buscar_paciente amb paciente_id) Q s.
Proof.
  intros Hinv HQ. rewrite buscar_paciente_gen.
  apply (wp_buscar_gen amb _ _ _ _ como_paciente); [apply Paciente_from_dict_decodifica|..].
  - apply Hinv.
  - intros v Hv. apply Hinv in Hv as (_ & _ & _ & H4 & _). by apply H4.
  - intros s' Hst Hent. apply HQ; [done|].
    apply (invariante_mesmo_storage s); [done| |done].
    intros k v Hk. destruct (Hent k v Hk) as [?|[-> (r & -> & Hr)]]; [by left|right].
    by apply esperado_paciente.
Qed.

Lemma wp_buscar_medico medico_id Q s :
  invariante s →
  (∀ s', storage s' = storage s → invariante s' →
         Q (Some (medico_de s medico_id)) s') →
  wp (buscar_medico amb medico_id) Q s.
Proof.
  intros Hinv HQ. rewrite buscar_medico_gen.
  apply (wp_buscar_gen amb _ _ _ _ como_medico); [apply Medico_from_dict_decodifica|..].
  - apply Hinv.
  - intros v Hv. apply Hinv in Hv as (_ & _ & _ & _ & H5). by apply H5.
  - intros s' Hst Hent. apply HQ; [done|].
    apply (invariante_mesmo_storage s); [done| |done].
    intros k v Hk. destruct (Hent k v Hk) as [?|[-> (r & -> & Hr)]]; [by left|right].
    by apply esperado_medico.
Qed.

Lemma wp_buscar_consulta consulta_id Q s :
  invariante s →
  (∀ s', storage s' = storage s → entradas s' = entradas s → tique s' = tique s →
         Q (Some (consulta_de s consulta_id)) s') →
  wp (buscar_consulta amb consulta_id) Q s.
Proof.
  intros Hinv HQ. unfold buscar_consulta.
  apply wp_bind, wp_storage_buscar_por_id; [done|]. intros s1 Hst1 Hent1 Htq1.
  specialize (HQ s1 Hst1 Hent1 Htq1). unfold consulta_de in HQ.
  destruct (registro_de "consultas" consulta_id s) as [r|] eqn:Hr; [|by apply wp_ret].
  assert (∃ c, como_consulta r = Some c) as [c Hc].
  { rewrite registro_de_dados in Hr. apply find_elem_of in Hr.
    destruct Hinv as [(_ & _ & Ht) _]. rewrite Forall_forall in Ht. by apply Ht. }
  apply wp_bind. unfold wp at 1. rewrite (Consulta_from_dict_decodifica amb r c s1 Hc).
  simpl in *. rewrite Hc in HQ. by apply wp_ret.
Qed.
End MetodosFacts.

(** ** The service: methods that write *)

Section EscritaFacts.
Variable amb : Ambiente.
Implicit Types (s : Estado) (e key : string) (v : valor).

Lemma find_app_Some {A} (p : A → bool) (l l' : list A) x :
  List.find p l = Some x → List.find p (l ++ l') = Some x.
Proof. induction l as [|y l IH]; simpl; [done|]. destruct (p y); auto. Qed.

Lemma find_substituir item_id id novo_item (l l' : list registro) r :
  registro_id novo_item = Some item_id →
  id ≠ item_id →
  JSONStorage.substituir registro_id item_id novo_item l = Some l' →
  List.find (JSONStorage.tem_id registro_id id) l = Some r →
  List.find (JSONStorage.tem_id registro_id id) l' = Some r.
Proof.
  intros Hnovo Hne. revert l'. induction l as [|x l IH]; intros l'; simpl; [done|].
  destruct (JSONStorage.tem_id registro_id item_id x) eqn:Hx.
  - intros [= <-]. simpl.
    assert (JSONStorage.tem_id registro_id id x = false) as ->.
    { unfold JSONStorage.tem_id in *. apply bool_decide_eq_true in Hx.
      apply bool_decide_eq_false. congruence. }
    assert (JSONStorage.tem_id registro_id id novo_item = false) as ->; [|done].
    unfold JSONStorage.tem_id. apply bool_decide_eq_false. congruence.
  - destruct (JSONStorage.substituir registro_id item_id novo_item l) as [l0|]; [|done].
    simpl. intros [= <-]. simpl.
    destruct (JSONStorage.tem_id registro_id id x); [done|]. by apply IH.
Qed.

Lemma find_filter_outro item_id id (l : list registro) r :
  id ≠ item_id →
  List.find (JSONStorage.tem_id registro_id id) l = Some r →
  List.find (JSONStorage.tem_id registro_id id)
    (List.filter (fun item => negb (JSONStorage.tem_id registro_id item_id item)) l) = Some r.
Proof.
  intros Hne. induction l as [|x l IH]; simpl; [done|].
  destruct (JSONStorage.tem_id registro_id id x) eqn:Hx.
  - intros [= <-].
    assert (JSONStorage.tem_id registro_id item_id x = false) as ->.
    { unfold JSONStorage.tem_id in *. apply bool_decide_eq_true in Hx.
      apply bool_decide_eq_false. congruence. }
    simpl. by rewrite Hx.
  - intros Hr. destruct (negb _); [|by apply IH]. simpl. rewrite Hx. by apply IH.
Qed.

Lemma substituir_Forall (P : registro → Prop) item_id novo_item (l l' : list registro) :
  P novo_item → Forall P l →
  JSONStorage.substituir registro_id item_id novo_item l = Some l' → Forall P l'.
Proof.
  intros Hn Hl. revert l'. induction Hl as [|x l Hx Hl IH]; intros l'; simpl; [done|].
  destruct (JSONStorage.tem_id registro_id item_id x).
  - intros [= <-]. by constructor.
  - destruct (JSONStorage.substituir registro_id item_id novo_item l) as [l0|]; [|done].
    simpl. intros [= <-]. constructor; [done|]. by apply IH.
Qed.

Lemma filter_Forall {A} (P : A → Prop) (p : A → bool) (l : list A) :
  Forall P l → Forall P (List.filter p l).
Proof.
  induction 1 as [|x l Hx Hl IH]; simpl; [constructor|]. destruct (p x); [by constructor|done].
Qed.

(** The environment readings of the three constructors leave storage and
    cache alone. *)
Lemma wp_Paciente_novo nome cpf telefone email Q s :
  (∀ s', storage s' = storage s → entradas s' = entradas s →
         tique s' = S (S (tique s)) →
         Q (Some (Paciente.mk ("P" +:+ uuid8 amb (tique s)) nome cpf telefone email
                    (agora_iso amb (S (tique s))))) s') →
  wp (Paciente_novo amb nome cpf telefone email None) Q s.
Proof. intros H. unfold wp. simpl. by apply H. Qed.

Lemma wp_Medico_novo nome crm especialidade horarios Q s :
  (∀ s', storage s' = storage s → entradas s' = entradas s →
         tique s' = S (S (tique s)) →
         Q (Some (Medico.mk ("M" +:+ uuid8 amb (tique s)) nome crm especialidade horarios
                    (agora_iso amb (S (tique s))))) s') →
  wp (Medico_novo amb nome crm especialidade horarios None) Q s.
Proof. intros H. unfold wp. simpl. by apply H. Qed.

Lemma wp_Consulta_novo paciente_id medico_id data hora observacoes Q s :
  (∀ s', storage s' = storage s → entradas s' = entradas s →
         tique s' = S (S (S (tique s))) →
         Q (Some (Consulta.mk ("C" +:+ uuid8 amb (tique s)) paciente_id medico_id data hora
                    observacoes Consulta.STATUS_AGENDADA
                    (agora_iso amb (S (tique s))) (agora_iso amb (S (S (tique s)))))) s') →
  wp (Consulta_novo amb paciente_id medico_id data hora observacoes None) Q s.
Proof. intros H. unfold wp. simpl. by apply H. Qed.

Lemma invariante_ext s s' :
  storage s' = storage s → entradas s' = entradas s → invariante s → invariante s'.
Proof.
  intros Hst Hent. apply invariante_sub; [done|]. intros k v. by rewrite Hent.
Qed.

(** [tem_conflito] without an appointment to skip finds the live
    appointments on the slot. *)
Lemma tem_conflito_ocupa medico_id data hora (cs : list Consulta.t) :
  tem_conflito medico_id data hora None cs = true
  ↔ ∃ c, c ∈ cs ∧ ocupa medico_id data hora c.
Proof.
  unfold ocupa. induction cs as [|c cs IH]; simpl.
  - split; [done|]. intros (c & Hc & _). inversion Hc.
  - case_bool_decide as Hst; simpl.
    + rewrite IH. split; intros (c' & Hc' & Hoc).
      * exists c'. split; [by right|done].
      * apply elem_of_cons in Hc' as [->|Hc']; [tauto|]. eauto.
    + destruct (bool_decide (Consulta.medico_id c = medico_id)
                && bool_decide (Consulta.data c = data)
                && bool_decide (Consulta.hora c = hora)) eqn:Hm.
      * split; [|done]. intros _. exists c. split; [by left|].
        apply andb_true_iff in Hm as [Hm H3]. apply andb_true_iff in Hm as [H1 H2].
        apply bool_decide_eq_true in H1, H2, H3. done.
      * rewrite IH. split; intros (c' & Hc' & Hoc).
        -- exists c'. split; [by right|done].
        -- apply elem_of_cons in Hc' as [->|Hc']; [|eauto].
           destruct Hoc as (_ & H1 & H2 & H3).
           rewrite !bool_decide_eq_true_2 in Hm by done. done.
Qed.
End EscritaFacts.

(** ** The service: the count of the readings of the environment *)

Section MonotonoFacts.
Variable amb : Ambiente.

Lemma monotono_ret {A} (a : A) : monotono (ret a).
Proof. by intros s. Qed.

Lemma monotono_levantar {A} : monotono (@levantar A).
Proof. by intros s. Qed.

Lemma monotono_bind {A B} (m : M A) (k : A → M B) :
  monotono m → (∀ a, monotono (k a)) → monotono (bind m k).
Proof.
  intros Hm Hk s. unfold bind. specialize (Hm s).
  destruct (m s) as [[a|] s1]; simpl in *; [|done]. specialize (Hk a s1). lia.
Qed.

Lemma monotono_tentar {A} (corpo tratador : M A) :
  monotono corpo → monotono tratador → monotono (tentar corpo tratador).
Proof.
  intros Hc Ht s. unfold tentar. specialize (Hc s).
  destruct (corpo s) as [[a|] s1]; simpl in *; [done|]. specialize (Ht s1). lia.
Qed.

Lemma monotono_para_cada {A B} (f : A → M B) (xs : list A) :
  (∀ x, monotono (f x)) → monotono (para_cada f xs).
Proof.
  intros Hf. induction xs as [|x xs IH]; simpl; [apply monotono_ret|].
  apply monotono_bind; [done|]. intros y. apply monotono_bind; [done|]. intros ys.
  apply monotono_ret.
Qed.

Lemma monotono_cache_get key : monotono (cache_get amb key).
Proof. intros s. simpl. lia. Qed.

Lemma monotono_cache_set key value : monotono (cache_set amb key value).
Proof. intros s. simpl. lia. Qed.

Lemma monotono_storage_carregar e : monotono (storage_carregar amb e).
Proof. by intros s. Qed.

Lemma monotono_storage_buscar_por_id e item_id : monotono (storage_buscar_por_id amb e item_id).
Proof. by intros s. Qed.

Lemma monotono_id_ou_novo prefixo id : monotono (id_ou_novo amb prefixo id).
Proof. intros s. destruct id as [[|c i]|]; simpl; lia. Qed.

Lemma monotono_Paciente_from_dict d : monotono (Paciente_from_dict amb d).
Proof.
  destruct d as [p| |]; try apply monotono_levantar.
  apply monotono_bind; [apply monotono_id_ou_novo|]. intros id'. apply monotono_ret.
Qed.

Lemma monotono_Medico_from_dict d : monotono (Medico_from_dict amb d).
Proof.
  destruct d as [|m|]; try apply monotono_levantar.
  apply monotono_bind; [apply monotono_id_ou_novo|]. intros id'. apply monotono_ret.
Qed.

Lemma monotono_Consulta_from_dict d : monotono (Consulta_from_dict amb d).
Proof.
  destruct d as [| |c]; try apply monotono_levantar.
  apply monotono_bind; [apply monotono_id_ou_novo|]. intros id'. apply monotono_ret.
Qed.

Lemma monotono_listar_gen {A} key e (f : registro → M A) :
  (∀ d, monotono (f d)) → monotono (listar_gen amb key e f).
Proof.
  intros Hf. apply monotono_bind; [apply monotono_cache_get|]. intros cached.
  destruct (verdadeiro cached) as [[r|l]|].
  - apply monotono_levantar.
  - by apply monotono_para_cada.
  - apply monotono_bind; [apply monotono_storage_carregar|]. intros dados.
    apply monotono_bind; [by apply monotono_para_cada|]. intros xs.
    apply monotono_bind; [apply monotono_cache_set|]. intros _. apply monotono_ret.
Qed.

Lemma monotono_buscar_gen {A} key e item_id (f : registro → M A) :
  (∀ d, monotono (f d)) → monotono (buscar_gen amb key e item_id f).
Proof.
  intros Hf. apply monotono_bind; [apply monotono_cache_get|]. intros cached.
  destruct (verdadeiro cached) as [[r|l]|].
  - apply monotono_bind; [apply Hf|]. intros p. apply monotono_ret.
  - apply monotono_bind; [apply monotono_levantar|]. intros p. apply monotono_ret.
  - apply monotono_bind; [apply monotono_storage_buscar_por_id|]. intros [d|].
    + apply monotono_bind; [apply monotono_cache_set|]. intros _.
      apply monotono_bind; [apply Hf|]. intros p. apply monotono_ret.
    + apply monotono_ret.
Qed.

Lemma monotono_buscar_paciente paciente_id : monotono (buscar_paciente amb paciente_id).
Proof. apply (monotono_buscar_gen _ "pacientes"), monotono_Paciente_from_dict. Qed.

Lemma monotono_buscar_medico medico_id : monotono (buscar_medico amb medico_id).
Proof. apply (monotono_buscar_gen _ "medicos"), monotono_Medico_from_dict. Qed.

Lemma monotono_listar_consultas : monotono (listar_consultas amb).
Proof. apply (monotono_listar_gen "consultas:all" "consultas"), monotono_Consulta_from_dict. Qed.

Lemma monotono_verificar_conflito medico_id data hora consulta_id :
  monotono (verificar_conflito amb medico_id data hora consulta_id).
Proof.
  apply monotono_bind; [apply monotono_listar_consultas|]. intros consultas.
  destruct (tem_conflito _ _ _ _ _); apply monotono_ret.
Qed.

(** What a method establishes may use that it takes back no reading. *)
Lemma wp_monotono {A} (m : M A) Q s :
  monotono m → wp m (λ r s', (tique s ≤ tique s')%nat → Q r s') s → wp m Q s.
Proof. unfold wp. intros Hm H. apply H, Hm. Qed.
End MonotonoFacts.

(** *** [agendar_consulta] *)

Section AgendarFacts.
Variable amb : Ambiente.
Context `{!LeiturasOk amb}.
Implicit Types (s : Estado).

Lemma consultas_mesmo_storage s s' : storage s' = storage s → consultas s' = consultas s.
Proof. intros H. unfold consultas, consultas_de. by rewrite H. Qed.

Lemma medico_de_mesmo_storage s s' id : storage s' = storage s → medico_de s' id = medico_de s id.
Proof. intros H. unfold medico_de, registro_de. by rewrite H. Qed.

Lemma paciente_de_mesmo_storage s s' id :
  storage s' = storage s → paciente_de s' id = paciente_de s id.
Proof. intros H. unfold paciente_de, registro_de. by rewrite H. Qed.

Lemma dados_mesmo_storage s s' e : storage s' = storage s → dados e s' = dados e s.
Proof. intros H. unfold dados. by rewrite H. Qed.

Lemma wp_verificar_conflito medico_id data hora consulta_id Q s :
  invariante s →
  (∀ s', storage s' = storage s → invariante s' →
         Q (Some (if tem_conflito medico_id data hora consulta_id (consultas s)
                  then (true, HorarioOcupado) else (false, HorarioDisponivel))) s') →
  wp (verificar_conflito amb medico_id data hora consulta_id) Q s.
Proof.
  intros Hinv HQ. unfold verificar_conflito.
  apply wp_bind, wp_listar_consultas; [done..|]. intros s1 Hst Hinv1.
  specialize (HQ s1 Hst Hinv1).
  destruct (tem_conflito medico_id data hora consulta_id (consultas s)); by apply wp_ret.
Qed.

Lemma wp_agendar_consulta paciente_id medico_id data hora observacoes Q s :
  invariante s →
  (∀ r s', invariante s' →
           agendar_spec amb s paciente_id medico_id data hora observacoes r s' →
           Q (Some r) s') →
  wp (agendar_consulta amb paciente_id medico_id data hora observacoes) Q s.
Proof.
  intros Hinv HQ. unfold agendar_consulta. apply wp_tentar.
  apply wp_bind, wp_monotono; [apply monotono_buscar_paciente|].
  apply wp_buscar_paciente; [done..|]. intros s1 Hst1 Hinv1 Htq1.
  unfold agendar_spec in HQ.
  destruct (paciente_de s paciente_id) as [p|].
  2:{ apply wp_ret, HQ; [done|]. split; [done|]. by apply mesmos_dados_refl. }
  apply wp_bind, wp_monotono; [apply monotono_buscar_medico|].
  apply wp_buscar_medico; [done..|]. intros s2 Hst2 Hinv2 Htq2.
  rewrite (medico_de_mesmo_storage s s1) by done.
  assert (storage s2 = storage s) as Hst2' by congruence.
  destruct (medico_de s medico_id) as [medico|].
  2:{ apply wp_ret, HQ; [done|]. split; [done|]. by apply mesmos_dados_refl. }
  destruct (bool_decide (hora ∈ Medico.horarios_disponiveis medico)); simpl.
  2:{ apply wp_ret, HQ; [done|]. split; [done|]. by apply mesmos_dados_refl. }
  apply wp_bind, wp_monotono; [apply monotono_verificar_conflito|].
  apply wp_verificar_conflito; [done..|]. intros s3 Hst3 Hinv3 Htq3.
  rewrite (consultas_mesmo_storage s s2) by done.
  assert (storage s3 = storage s) as Hst3' by congruence.
  destruct (tem_conflito medico_id data hora None (consultas s)); simpl.
  { apply wp_ret, HQ; [done|]. split; [done|]. by apply mesmos_dados_refl. }
  apply wp_bind, wp_Consulta_novo. intros s4 Hst4 Hent4 Htq4.
  assert (invariante s4) as Hinv4 by (by apply (invariante_ext s3)).
  assert (storage s4 = storage s) as Hst4' by congruence.
  apply wp_bind, wp_storage_adicionar; [done|apply colecao_consultas|]. intros s5 Hesc Htq5.
  rewrite Htq4 in *. set (n := tique s3) in *.
  set (c := Consulta.mk ("C" +:+ uuid8 amb n) paciente_id medico_id data hora observacoes
              Consulta.STATUS_AGENDADA (agora_iso amb (S n)) (agora_iso amb (S (S n)))) in *.
  assert (tique s ≤ n)%nat as Hn by lia.
  destruct (escrita_ok amb (S (S (S n)))) eqn:Hok.
  - apply wp_bind, wp_cache_invalidate_pattern. intros k s6 Hst6 Hsub6 Hpat6 Htq6.
    apply wp_ret, HQ.
    + apply (invariante_apos_escrita "consultas"
               (dados "consultas" s4 ++ [RConsulta c]) s4 s5 s6); try done.
      * apply colecao_consultas.
      * intros _. apply Forall_app. split; [apply Hinv4|]. by repeat constructor.
    + exists n. fold c. rewrite Hok. destruct Hesc as (_ & Hc & Ho).
      split; [done|]. split; [congruence|].
      split; [done|]. rewrite !(dados_mesmo_storage s5 s6) by done.
      rewrite Hc, Ho, Ho by (done || apply colecao_pacientes || apply colecao_medicos).
      by rewrite !(dados_mesmo_storage s s4).
  - apply wp_ret, HQ.
    + by apply (invariante_escrito_igual "consultas" s4 s5); [apply colecao_consultas|..].
    + exists n. fold c. rewrite Hok. split; [done|]. split; [done|]. split; [done|].
      apply (mesmos_dados_trans s s4 s5); [by apply mesmos_dados_refl|].
      by apply (escrito_mesmos_dados "consultas"); [apply colecao_consultas|].
Qed.
End AgendarFacts.

(** *** [remover_paciente] *)

Section PacienteFacts.
Variable amb : Ambiente.
Context `{!LeiturasOk amb}.
Implicit Types (s : Estado).

Lemma wp_remover_paciente paciente_id Q s :
  invariante s →
  (∀ r s', invariante s' → remover_spec amb s paciente_id r s' → Q (Some r) s') →
  wp (remover_paciente amb paciente_id) Q s.
Proof.
  intros Hinv HQ. unfold remover_paciente, listar_consultas_paciente. apply wp_tentar.
  apply wp_bind, wp_bind, wp_monotono; [apply monotono_listar_consultas|].
  apply wp_listar_consultas; [done..|]. intros s1 Hst1 Hinv1 Htq1.
  apply wp_ret. unfold remover_spec, consultas_ativas in HQ.
  destruct (List.filter consulta_ativa _) as [|c0 cs].
  2:{ apply wp_ret, HQ; [done|]. split; [done|]. by apply mesmos_dados_refl. }
  apply wp_bind, wp_storage_remover; [done|apply colecao_pacientes|]. intros s2. simpl.
  rewrite (dados_mesmo_storage s s1) by done. fold (sem_paciente s paciente_id).
  case_bool_decide as Hlen.
  - intros Hesc Htq2. destruct (escrita_ok amb (tique s1)) eqn:Hok.
    + apply wp_bind, wp_cache_delete. intros b s3 Hst3 Hsub3 Hdel3 Htq3.
      apply wp_bind, wp_cache_invalidate_pattern. intros k s4 Hst4 Hsub4 Hpat4 Htq4.
      apply wp_ret, HQ.
      * apply (invariante_apos_escrita "pacientes" (sem_paciente s paciente_id) s1 s2 s4);
          try done.
        -- apply colecao_pacientes.
        -- congruence.
        -- intros k' v' Hk'. by apply Hsub3, Hsub4.
        -- intros _. apply filter_Forall. rewrite <- (dados_mesmo_storage s s1) by done.
           apply Hinv1.
        -- intros _ id r [v' Hv'] Hr. rewrite (dados_mesmo_storage s s1) in Hr by done.
           apply find_filter_outro; [|done]. intros ->.
           apply Hsub4 in Hv'. congruence.
      * exists (tique s1). rewrite Hok. destruct Hesc as (_ & Hd & Ho).
        split; [done|]. split; [congruence|]. split; [done|].
        rewrite !(dados_mesmo_storage s3 s4), !(dados_mesmo_storage s2 s3) by done.
        rewrite Hd, Ho, Ho by (done || apply colecao_medicos || apply colecao_consultas).
        by rewrite !(dados_mesmo_storage s s1).
    + apply wp_ret, HQ.
      * rewrite <- (dados_mesmo_storage s s1) in Hesc by done.
        by apply (invariante_escrito_igual "pacientes" s1 s2); [apply colecao_pacientes|..].
      * exists (tique s1). rewrite Hok. split; [done|]. split; [done|]. split; [done|].
        apply (mesmos_dados_trans s s1 s2); [by apply mesmos_dados_refl|].
        apply (escrito_mesmos_dados "pacientes"); [apply colecao_pacientes|].
        by rewrite (dados_mesmo_storage s s1).
  - intros Hesc _. apply wp_ret, HQ.
    + rewrite <- (dados_mesmo_storage s s1) in Hesc by done.
      by apply (invariante_escrito_igual "pacientes" s1 s2); [apply colecao_pacientes|..].
    + split; [done|].
      apply (mesmos_dados_trans s s1 s2); [by apply mesmos_dados_refl|].
      apply (escrito_mesmos_dados "pacientes"); [apply colecao_pacientes|].
      by rewrite (dados_mesmo_storage s s1).
Qed.
End PacienteFacts.

(** *** The other methods that write *)

Section OutrosFacts.
Variable amb : Ambiente.
Context `{!LeiturasOk amb}.
Implicit Types (s : Estado).

Lemma como_paciente_RPaciente r p :
  como_paciente r = Some p → r = RPaciente p ∧ Paciente.id p ≠ "".
Proof. destruct r as [p'| |]; simpl; [|done..]. destruct (decide _); [done|]. by intros [= <-]. Qed.

Lemma como_medico_RMedico r m : como_medico r = Some m → r = RMedico m ∧ Medico.id m ≠ "".
Proof.
  destruct r as [|m'|]; simpl; [done| |done]. destruct (decide _); [done|]. by intros [= <-].
Qed.

Lemma como_consulta_RConsulta r c :
  como_consulta r = Some c → r = RConsulta c ∧ Consulta.id c ≠ "".
Proof. destruct r as [| |c']; simpl; [done..|]. destruct (decide _); [done|]. by intros [= <-]. Qed.

Lemma registro_de_id e item_id s r :
  registro_de e item_id s = Some r → registro_id r = Some item_id.
Proof.
  rewrite registro_de_dados. intros H. apply find_some in H as [_ H].
  unfold JSONStorage.tem_id in H. by apply bool_decide_eq_true in H.
Qed.

Lemma wp_criar_paciente nome cpf telefone email Q s :
  invariante s →
  (∀ r s', invariante s' →
     dados "medicos" s' = dados "medicos" s →
     dados "consultas" s' = dados "consultas" s →
     (dados "pacientes" s' = dados "pacientes" s
      ∨ ∃ p, Paciente.cpf p = cpf ∧ (cpf ∉ Paciente.cpf <$> pacientes s)
             ∧ Paciente.id p ≠ ""
             ∧ dados "pacientes" s' = dados "pacientes" s ++ [RPaciente p]) →
     Q (Some r) s') →
  wp (criar_paciente amb nome cpf telefone email) Q s.
Proof.
  intros Hinv HQ. unfold criar_paciente. apply wp_tentar.
  apply wp_bind, wp_listar_pacientes; [done..|]. intros s1 Hst1 Hinv1.
  destruct (existsb _ (pacientes s)) eqn:Hex.
  { apply wp_ret, HQ; [done|by apply dados_mesmo_storage..|]. left.
    by apply dados_mesmo_storage. }
  apply wp_bind, wp_Paciente_novo. intros s2 Hst2 Hent2 _.
  set (p := Paciente.mk ("P" +:+ uuid8 amb (tique s1)) nome cpf telefone email
              (agora_iso amb (S (tique s1)))).
  assert (invariante s2) as Hinv2 by (by apply (invariante_ext s1)).
  assert (storage s2 = storage s) as Hst2' by congruence.
  apply wp_bind, wp_storage_adicionar; [done|apply colecao_pacientes|]. intros s3 Hesc _.
  destruct (escrita_ok amb (tique s2)).
  - apply wp_bind, wp_cache_invalidate_pattern. intros k s4 Hst4 Hsub4 Hpat4 _.
    destruct Hesc as (Hent3 & Hd3 & Ho3).
    apply wp_ret, HQ.
    + apply (invariante_apos_escrita "pacientes"
               (dados "pacientes" s2 ++ [RPaciente p]) s2 s3 s4); try done.
      * apply colecao_pacientes.
      * intros _. apply Forall_app. split; [apply Hinv2|]. by repeat constructor.
      * intros _ id r _. apply find_app_Some.
    + rewrite (dados_mesmo_storage s3 s4), Ho3 by (done || apply colecao_medicos).
      by apply dados_mesmo_storage.
    + rewrite (dados_mesmo_storage s3 s4), Ho3 by (done || apply colecao_consultas).
      by apply dados_mesmo_storage.
    + right. exists p. split; [done|]. split; [|split; [done|]].
      * intros Hin. apply list_elem_of_fmap in Hin as (p' & Hcpf & Hp').
        assert (existsb (λ p0, bool_decide (Paciente.cpf p0 = cpf)) (pacientes s) = true)
          as Hex'; [|congruence].
        apply existsb_exists. exists p'. split; [by apply list_elem_of_In|].
        by apply bool_decide_eq_true.
      * rewrite (dados_mesmo_storage s3 s4), Hd3 by done.
        by rewrite (dados_mesmo_storage s s2).
  - assert (mesmos_dados s2 s3) as Hm
      by (by apply (escrito_mesmos_dados "pacientes"); [apply colecao_pacientes|]).
    apply wp_ret, HQ.
    + by apply (invariante_escrito_igual "pacientes" s2 s3); [apply colecao_pacientes|..].
    + rewrite (Hm _ colecao_medicos). by apply dados_mesmo_storage.
    + rewrite (Hm _ colecao_consultas). by apply dados_mesmo_storage.
    + left. rewrite (Hm _ colecao_pacientes). by apply dados_mesmo_storage.
Qed.

Lemma wp_criar_medico nome crm especialidade horarios Q s :
  invariante s →
  (∀ r s', invariante s' →
     dados "pacientes" s' = dados "pacientes" s →
     dados "consultas" s' = dados "consultas" s →
     (dados "medicos" s' = dados "medicos" s
      ∨ ∃ m, Medico.crm m = crm ∧ (crm ∉ Medico.crm <$> medicos s)
             ∧ Medico.id m ≠ ""
             ∧ dados "medicos" s' = dados "medicos" s ++ [RMedico m]) →
     Q (Some r) s') →
  wp (criar_medico amb nome crm especialidade horarios) Q s.
Proof.
  intros Hinv HQ. unfold criar_medico. apply wp_tentar.
  apply wp_bind, wp_listar_medicos; [done..|]. intros s1 Hst1 Hinv1.
  destruct (existsb _ (medicos s)) eqn:Hex.
  { apply wp_ret, HQ; [done|by apply dados_mesmo_storage..|]. left.
    by apply dados_mesmo_storage. }
  apply wp_bind, wp_Medico_novo. intros s2 Hst2 Hent2 _.
  set (m := Medico.mk ("M" +:+ uuid8 amb (tique s1)) nome crm especialidade horarios
              (agora_iso amb (S (tique s1)))).
  assert (invariante s2) as Hinv2 by (by apply (invariante_ext s1)).
  assert (storage s2 = storage s) as Hst2' by congruence.
  apply wp_bind, wp_storage_adicionar; [done|apply colecao_medicos|]. intros s3 Hesc _.
  destruct (escrita_ok amb (tique s2)).
  - apply wp_bind, wp_cache_invalidate_pattern. intros k s4 Hst4 Hsub4 Hpat4 _.
    destruct Hesc as (Hent3 & Hd3 & Ho3).
    apply wp_ret, HQ.
    + apply (invariante_apos_escrita "medicos"
               (dados "medicos" s2 ++ [RMedico m]) s2 s3 s4); try done.
      * apply colecao_medicos.
      * intros _. apply Forall_app. split; [apply Hinv2|]. by repeat constructor.
      * intros _ id r _. apply find_app_Some.
    + rewrite (dados_mesmo_storage s3 s4), Ho3 by (done || apply colecao_pacientes).
      by apply dados_mesmo_storage.
    + rewrite (dados_mesmo_storage s3 s4), Ho3 by (done || apply colecao_consultas).
      by apply dados_mesmo_storage.
    + right. exists m. split; [done|]. split; [|split; [done|]].
      * intros Hin. apply list_elem_of_fmap in Hin as (m' & Hcrm & Hm').
        assert (existsb (λ m0, bool_decide (Medico.crm m0 = crm)) (medicos s) = true)
          as Hex'; [|congruence].
        apply existsb_exists. exists m'. split; [by apply list_elem_of_In|].
        by apply bool_decide_eq_true.
      * rewrite (dados_mesmo_storage s3 s4), Hd3 by done.
        by rewrite (dados_mesmo_storage s s2).
  - assert (mesmos_dados s2 s3) as Hm
      by (by apply (escrito_mesmos_dados "medicos"); [apply colecao_medicos|]).
    apply wp_ret, HQ.
    + by apply (invariante_escrito_igual "medicos" s2 s3); [apply colecao_medicos|..].
    + rewrite (Hm _ colecao_pacientes). by apply dados_mesmo_storage.
    + rewrite (Hm _ colecao_consultas). by apply dados_mesmo_storage.
    + left. rewrite (Hm _ colecao_medicos). by apply dados_mesmo_storage.
Qed.

Lemma wp_atualizar_paciente paciente_id nome cpf telefone email Q s :
  invariante s →
  (∀ r s', invariante s' →
     dados "medicos" s' = dados "medicos" s →
     dados "consultas" s' = dados "consultas" s →
     Q (Some r) s') →
  wp (atualizar_paciente amb paciente_id nome cpf telefone email) Q s.
Proof.
  intros Hinv HQ. unfold atualizar_paciente. apply wp_tentar.
  apply wp_bind, wp_buscar_paciente; [done..|]. intros s1 Hst1 Hinv1.
  destruct (paciente_de s paciente_id) as [paciente|] eqn:Hpac.
  2:{ apply wp_ret, HQ; [done|by apply dados_mesmo_storage..]. }
  unfold paciente_de in Hpac.
  destruct (registro_de "pacientes" paciente_id s) as [r0|] eqn:Hr0; [|done].
  simpl in Hpac. apply como_paciente_RPaciente in Hpac as [-> Hid].
  apply registro_de_id in Hr0. simpl in Hr0. injection Hr0 as Hpid.
  set (p' := Paciente.mk (Paciente.id paciente) nome cpf telefone email
               (Paciente.data_cadastro paciente)).
  apply wp_bind, wp_storage_atualizar; [done|apply colecao_pacientes|]. intros s2.
  destruct (JSONStorage.substituir registro_id paciente_id (RPaciente p')
              (dados "pacientes" s1)) as [l|] eqn:Hsub.
  - intros Hesc _. destruct (escrita_ok amb (tique s1)).
    + apply wp_bind, wp_cache_delete. intros b s3 Hst3 Hsub3 Hdel3 _.
      apply wp_bind, wp_cache_invalidate_pattern. intros k s4 Hst4 Hsub4 Hpat4 _.
      destruct Hesc as (Hent2 & Hd2 & Ho2).
      apply wp_ret, HQ.
      * apply (invariante_apos_escrita "pacientes" l s1 s2 s4); try done.
        -- apply colecao_pacientes.
        -- congruence.
        -- intros k' v' Hk'. by apply Hsub3, Hsub4.
        -- intros _. apply (substituir_Forall _ paciente_id (RPaciente p') (dados "pacientes" s1));
             [|apply Hinv1|done].
           simpl. by rewrite decide_False.
        -- intros _ id r [v' Hv'] Hr.
           apply (find_substituir paciente_id id (RPaciente p') (dados "pacientes" s1)); try done.
           ++ simpl. by rewrite Hpid.
           ++ intros ->. apply Hsub4 in Hv'. congruence.
      * rewrite (dados_mesmo_storage s3 s4), (dados_mesmo_storage s2 s3), Ho2
          by (done || apply colecao_medicos).
        by apply dados_mesmo_storage.
      * rewrite (dados_mesmo_storage s3 s4), (dados_mesmo_storage s2 s3), Ho2
          by (done || apply colecao_consultas).
        by apply dados_mesmo_storage.
    + assert (mesmos_dados s1 s2) as Hm
        by (by apply (escrito_mesmos_dados "pacientes"); [apply colecao_pacientes|]).
      apply wp_ret, HQ.
      * by apply (invariante_escrito_igual "pacientes" s1 s2); [apply colecao_pacientes|..].
      * rewrite (Hm _ colecao_medicos). by apply dados_mesmo_storage.
      * rewrite (Hm _ colecao_consultas). by apply dados_mesmo_storage.
  - intros Hesc _.
    assert (mesmos_dados s1 s2) as Hm
      by (by apply (escrito_mesmos_dados "pacientes"); [apply colecao_pacientes|]).
    apply wp_ret, HQ.
    + by apply (invariante_escrito_igual "pacientes" s1 s2); [apply colecao_pacientes|..].
    + rewrite (Hm _ colecao_medicos). by apply dados_mesmo_storage.
    + rewrite (Hm _ colecao_consultas). by apply dados_mesmo_storage.
Qed.

Lemma wp_atualizar_status_consulta consulta_id novo_status Q s :
  invariante s →
  (∀ r s', invariante s' →
     dados "pacientes" s' = dados "pacientes" s →
     dados "medicos" s' = dados "medicos" s →
     Q (Some r) s') →
  wp (atualizar_status_consulta amb consulta_id novo_status) Q s.
Proof.
  intros Hinv HQ. unfold atualizar_status_consulta. apply wp_tentar.
  apply wp_bind, wp_buscar_consulta; [done..|]. intros s0 Hst0 Hent0 _.
  assert (invariante s0) as Hinv0 by (by apply (invariante_ext s)).
  destruct (consulta_de s consulta_id) as [consulta|] eqn:Hcon.
  2:{ apply wp_ret, HQ; [done|by apply dados_mesmo_storage..]. }
  unfold consulta_de in Hcon.
  destruct (registro_de "consultas" consulta_id s) as [r0|] eqn:Hr0; [|done].
  simpl in Hcon. apply como_consulta_RConsulta in Hcon as [-> Hid].
  apply wp_bind, wp_ler.
  set (s1 := avancar s0).
  assert (invariante s1) as Hinv1 by (by apply (invariante_ext s0)).
  assert (∀ e, dados e s1 = dados e s) as Hd1 by (intros e; by apply dados_mesmo_storage).
  set (r := Consulta.atualizar_status (agora_iso amb (tique s0)) novo_status consulta).
  assert (Consulta.id r.2 = Consulta.id consulta) as Hidr.
  { unfold r, Consulta.atualizar_status. by destruct (Consulta.status_valido novo_status). }
  destruct r.1.
  2:{ by apply wp_ret, HQ. }
  apply wp_bind, wp_storage_atualizar; [done|apply colecao_consultas|]. intros s2.
  destruct (JSONStorage.substituir registro_id consulta_id (RConsulta r.2)
              (dados "consultas" s1)) as [l|] eqn:Hsub.
  - intros Hesc _. destruct (escrita_ok amb (tique s1)).
    + apply wp_bind, wp_cache_invalidate_pattern. intros k s4 Hst4 Hsub4 Hpat4 _.
      destruct Hesc as (Hent2 & Hd2 & Ho2).
      apply wp_ret, HQ.
      * apply (invariante_apos_escrita "consultas" l s1 s2 s4); try done.
        -- apply colecao_consultas.
        -- intros _. apply (substituir_Forall _ consulta_id (RConsulta r.2) (dados "consultas" s1));
             [|apply Hinv1|done].
           simpl. rewrite Hidr. by rewrite decide_False.
      * by rewrite (dados_mesmo_storage s2 s4), Ho2, Hd1 by (done || apply colecao_pacientes).
      * by rewrite (dados_mesmo_storage s2 s4), Ho2, Hd1 by (done || apply colecao_medicos).
    + assert (mesmos_dados s1 s2) as Hm
        by (by apply (escrito_mesmos_dados "consultas"); [apply colecao_consultas|]).
      apply wp_ret, HQ.
      * by apply (invariante_escrito_igual "consultas" s1 s2); [apply colecao_consultas|..].
      * by rewrite (Hm _ colecao_pacientes).
      * by rewrite (Hm _ colecao_medicos).
  - intros Hesc _.
    assert (mesmos_dados s1 s2) as Hm
      by (by apply (escrito_mesmos_dados "consultas"); [apply colecao_consultas|]).
    apply wp_ret, HQ.
    + by apply (invariante_escrito_igual "consultas" s1 s2); [apply colecao_consultas|..].
    + by rewrite (Hm _ colecao_pacientes).
    + by rewrite (Hm _ colecao_medicos).
Qed.
End OutrosFacts.

(** ** Reachable states satisfy the invariant *)

Section AlcancavelFacts.
Variable amb : Ambiente.
Context `{!LeiturasOk amb}.
Implicit Types (s : Estado).

Lemma invariante_inicial base_dir : invariante (estado_inicial base_dir).
Proof.
  split.
  - repeat split; constructor.
  - intros k v Hk. done.
Qed.

(** A call that leaves the storage as it is keeps the doctors. *)
Lemma passo_leitura s s' :
  storage s' = storage s → invariante s' → invariante s' ∧ passo_medicos s s'.
Proof. intros Hst Hinv'. split; [done|]. left. by apply dados_mesmo_storage. Qed.

Lemma executar_passo ch s :
  invariante s →
  invariante (executar amb ch s) ∧ passo_medicos s (executar amb ch s).
Proof.
  intros Hinv. set (P := λ s', invariante s' ∧ passo_medicos s s').
  change (P (executar amb ch s)).
  destruct ch; unfold executar, depois.
  - apply (wp_criar_paciente amb _ _ _ _ (λ _, P)); [done|].
    intros r s' Hinv' Hm _ _. unfold P, passo_medicos; split; [done|by left].
  - apply (wp_listar_pacientes amb (λ _, P)); [done|].
    intros s' Hst Hinv'. unfold P. by apply passo_leitura.
  - apply (wp_buscar_paciente amb _ (λ _, P)); [done|].
    intros s' Hst Hinv'. unfold P. by apply passo_leitura.
  - apply (wp_atualizar_paciente amb _ _ _ _ _ (λ _, P)); [done|].
    intros r s' Hinv' Hm _. unfold P, passo_medicos; split; [done|by left].
  - apply (wp_remover_paciente amb _ (λ _, P)); [done|].
    intros r s' Hinv' Hspec. unfold P, passo_medicos; split; [done|]. left.
    unfold remover_spec in Hspec.
    destruct (consultas_ativas s paciente_id); [|by apply Hspec, colecao_medicos].
    case_bool_decide; [|by apply Hspec, colecao_medicos].
    destruct Hspec as (n & _ & _ & Hspec).
    destruct (escrita_ok amb n); [apply Hspec|by apply Hspec, colecao_medicos].
  - apply (wp_criar_medico amb _ _ _ _ (λ _, P)); [done|].
    intros r s' Hinv' _ _ [Hm|(m & Hcrm & Hnew & Hid & Hm)];
      (unfold P, passo_medicos; split; [done|]); [by left|].
    right. exists m. by rewrite Hcrm.
  - apply (wp_listar_medicos amb (λ _, P)); [done|].
    intros s' Hst Hinv'. unfold P. by apply passo_leitura.
  - apply (wp_buscar_medico amb _ (λ _, P)); [done|].
    intros s' Hst Hinv'. unfold P. by apply passo_leitura.
  - apply (wp_verificar_conflito amb _ _ _ _ (λ _, P)); [done|].
    intros s' Hst Hinv'. unfold P. by apply passo_leitura.
  - apply (wp_agendar_consulta amb _ _ _ _ _ (λ _, P)); [done|].
    intros r s' Hinv' Hspec. unfold P, passo_medicos; split; [done|]. left.
    unfold agendar_spec in Hspec.
    destruct (paciente_de s paciente_id); [|by apply Hspec, colecao_medicos].
    destruct (medico_de s medico_id); [|by apply Hspec, colecao_medicos].
    case_bool_decide; [|by apply Hspec, colecao_medicos].
    destruct (tem_conflito _ _ _ _ _); [by apply Hspec, colecao_medicos|].
    destruct Hspec as (n & _ & _ & Hspec).
    destruct (escrita_ok amb _); [apply Hspec|by apply Hspec, colecao_medicos].
  - apply (wp_listar_consultas amb (λ _, P)); [done|].
    intros s' Hst Hinv'. unfold P. by apply passo_leitura.
  - unfold listar_consultas_paciente.
    apply (wp_bind _ _ (λ _, P)), (wp_listar_consultas amb); [done|].
    intros s' Hst Hinv'. apply wp_ret. unfold P. by apply passo_leitura.
  - unfold listar_consultas_medico.
    apply (wp_bind _ _ (λ _, P)), (wp_listar_consultas amb); [done|].
    intros s' Hst Hinv'. apply wp_ret. unfold P. by apply passo_leitura.
  - apply (wp_buscar_consulta amb _ (λ _, P)); [done|].
    intros s' Hst Hent _. unfold P. apply passo_leitura; [done|]. by apply (invariante_ext s).
  - apply (wp_atualizar_status_consulta amb _ _ (λ _, P)); [done|].
    intros r s' Hinv' _ Hm. unfold P, passo_medicos; split; [done|by left].
  - apply (wp_atualizar_status_consulta amb _ _ (λ _, P)); [done|].
    intros r s' Hinv' _ Hm. unfold P, passo_medicos; split; [done|by left].
  - unfold P, passo_medicos. simpl. split; [|by left].
    apply (invariante_sub s); [done| |done]. intros k v Hk. done.
Qed.

Lemma executar_todas_invariante chs s :
  invariante s → invariante (executar_todas amb chs s).
Proof.
  unfold executar_todas. revert s. induction chs as [|ch chs IH]; intros s Hinv; [done|].
  simpl. apply IH. by apply executar_passo.
Qed.

Lemma alcancavel_invariante base_dir s : alcancavel amb base_dir s → invariante s.
Proof. intros [chs ->]. apply executar_todas_invariante, invariante_inicial. Qed.
End AlcancavelFacts.

(** ** [atualizar_status_consulta] with a status that does not exist *)

Section StatusFacts.
Variable amb : Ambiente.

(** C10. [atualizar_status_consulta] with a status that is none of
    ['agendada'], ['confirmada'], ['realizada'], ['cancelada'] returns a
    failure, and writes nothing: the files of the storage (so the stored
    appointment, its status and its last-update timestamp, and the whole
    [consultas] collection) and the cache are the same before and after the
    call.  This holds in every state, reachable or not. *)
Theorem atualizar_status_invalido_nao_persiste (s : Estado) (consulta_id novo_status : string) :
  novo_status ∉ [Consulta.STATUS_AGENDADA; Consulta.STATUS_CONFIRMADA;
                 Consulta.STATUS_REALIZADA; Consulta.STATUS_CANCELADA] →
  let r := atualizar_status_consulta amb consulta_id novo_status s in
  (∃ msg, r.1 = Some (false, msg))
  ∧ storage r.2 = storage s
  ∧ cache_manager r.2 = cache_manager s
  ∧ consultas_de r.2 = consultas_de s.
Proof.
  intros Hnovo.
  assert (Consulta.status_valido novo_status = false) as Hval.
  { unfold Consulta.status_valido. by apply bool_decide_eq_false. }
  assert (∀ c agora, Consulta.atualizar_status agora novo_status c = (false, c)) as Hat.
  { intros c agora. unfold Consulta.atualizar_status. by rewrite Hval. }
  cut (let r := atualizar_status_consulta amb consulta_id novo_status s in
       (∃ msg, r.1 = Some (false, msg)) ∧ storage r.2 = storage s
       ∧ cache_manager r.2 = cache_manager s).
  { intros (H1 & H2 & H3). repeat split; try done. unfold consultas_de. by rewrite H2. }
  unfold atualizar_status_consulta, tentar, bind, buscar_consulta, bind,
    storage_buscar_por_id, bind, ler_arquivo, ler, ret. simpl.
  destruct (JSONStorage.buscar_por_id registro_id json_load (leitura_ok amb (leituras s))
              "consultas" consulta_id (storage s))
    as [[p|m|c]|]; simpl; eauto.
  unfold bind, id_ou_novo. destruct (Consulta.id c) as [|a i]; simpl; rewrite Hat; simpl; eauto.
Qed.
End StatusFacts.

(** ** [agendar_consulta]: the order of the checks, and the appointment made *)

Ltac cinco_casos :=
  split; [intros Hp | split; [intros Hp Hm | split; [intros m Hp Hm Hh
    | split; intros m Hp Hm Hh Ho]]].

Section AgendarTeorema.
Variable amb : Ambiente.
Context `{!LeiturasOk amb}.

Lemma agendar_spec_correto s paciente_id medico_id data hora observacoes :
  invariante s →
  agendar_correto amb s paciente_id medico_id data hora observacoes.
Proof.
  intros Hinv. unfold agendar_correto. cbv zeta.
  pattern (agendar_consulta amb paciente_id medico_id data hora observacoes s).1,
          (agendar_consulta amb paciente_id medico_id data hora observacoes s).2.
  match goal with
  | |- ?Q _ _ => apply (wp_agendar_consulta amb paciente_id medico_id data hora observacoes Q)
  end; [done|].
  intros r s' _ Hspec. unfold agendar_spec in Hspec.
  pose proof (tem_conflito_ocupa medico_id data hora (consultas s)) as Hoc.
  fold (horario_ocupado s medico_id data hora) in Hoc.
  destruct (paciente_de s paciente_id) as [p|].
  2:{ destruct Hspec as [-> Hd]. cinco_casos; by destruct Hp. }
  destruct (medico_de s medico_id) as [medico|].
  2:{ destruct Hspec as [-> Hd]. cinco_casos; done. }
  case_bool_decide as Hhora.
  2:{ destruct Hspec as [-> Hd]. cinco_casos; try done; injection Hm as <-; done. }
  destruct (tem_conflito medico_id data hora None (consultas s)).
  { destruct Hspec as [-> Hd]. cinco_casos; try done; injection Hm as <-; try done.
    exfalso. apply Ho. by apply Hoc. }
  destruct Hspec as (n & Hn & Htq & Hspec).
  cinco_casos; try done; injection Hm as <-; try done.
  - apply Hoc in Ho. done.
  - unfold leitura_da_escrita. rewrite Htq. simpl. split; [lia|].
    destruct (escrita_ok amb (S (S (S n)))).
    + destruct Hspec as (-> & H1' & H2' & H3'). eexists. repeat split; done.
    + by destruct Hspec as [-> Hd].
Qed.
End AgendarTeorema.

(** C3, as the code has it. In an environment that carries out every read
    of the storage, and in a reachable state, [agendar_consulta] checks, in
    this order, that the patient exists, that the doctor exists, that the
    time is one of the doctor's available times and that no live
    appointment holds the slot, and returns the rejection of the first
    check that fails, leaving the collections as they were.  When all four
    hold the call writes the storage, and this write is the last reading of
    the environment the call makes: if it succeeds, the call has appended
    exactly one appointment, with status ['agendada'] and the given
    patient, doctor, date, time and notes, and returns it with success; if
    it fails, the call returns "Erro ao salvar consulta" and the
    collections are as they were. *)
Theorem agendar_consulta_checks_in_order amb base_dir s
    paciente_id medico_id data hora observacoes :
  LeiturasOk amb →
  alcancavel amb base_dir s →
  agendar_correto amb s paciente_id medico_id data hora observacoes.
Proof.
  intros Hler Hs. apply (agendar_spec_correto amb). by apply (alcancavel_invariante amb base_dir).
Qed.

(** ** [remover_paciente]: active appointments block the removal *)

Section RemoverTeorema.
Variable amb : Ambiente.
Context `{!LeiturasOk amb}.

Lemma consultas_ativas_tem s paciente_id :
  consultas_ativas s paciente_id ≠ [] ↔ tem_consulta_ativa s paciente_id.
Proof.
  unfold consultas_ativas, tem_consulta_ativa, consulta_ativa. split.
  - intros Hne. destruct (List.filter _ _) as [|c l] eqn:Hf; [done|].
    assert (In c (c :: l)) as Hin by (by left). rewrite <- Hf in Hin.
    apply filter_In in Hin as [Hin Hat]. apply filter_In in Hin as [Hin Hp].
    exists c. apply bool_decide_eq_true in Hp. apply negb_true_iff, bool_decide_eq_false in Hat.
    split; [by apply list_elem_of_In|]. split; [done|].
    split; intros Heq; apply Hat; rewrite Heq; [left | right; left].
  - intros (c & Hin & Hp & H1 & H2) Hnil.
    assert (In c (List.filter (λ c0, negb (bool_decide (Consulta.status c0 ∈
              [Consulta.STATUS_CANCELADA; Consulta.STATUS_REALIZADA])))
              (List.filter (λ c0, bool_decide (Consulta.paciente_id c0 = paciente_id))
                 (consultas s)))) as Hc; [|by rewrite Hnil in Hc].
    apply filter_In. split.
    + apply filter_In. split; [by apply list_elem_of_In|by apply bool_decide_eq_true].
    + apply negb_true_iff, bool_decide_eq_false. intros Hs.
      apply elem_of_cons in Hs as [?|Hs]; [done|].
      apply elem_of_cons in Hs as [?|Hs]; [done|]. inversion Hs.
Qed.

Lemma find_filter_proprio item_id (l : list registro) :
  List.find (JSONStorage.tem_id registro_id item_id)
    (List.filter (fun item => negb (JSONStorage.tem_id registro_id item_id item)) l) = None.
Proof.
  induction l as [|x l IH]; simpl; [done|].
  destruct (JSONStorage.tem_id registro_id item_id x) eqn:Hx; simpl; [done|]. by rewrite Hx.
Qed.

Lemma find_filter_length item_id (l : list registro) r :
  List.find (JSONStorage.tem_id registro_id item_id) l = Some r →
  (length (List.filter (fun item => negb (JSONStorage.tem_id registro_id item_id item)) l)
   < length l)%nat.
Proof.
  induction l as [|x l IH]; simpl; [done|].
  destruct (JSONStorage.tem_id registro_id item_id x) eqn:Hx; simpl.
  - intros _. pose proof (List.filter_length_le
      (fun item => negb (JSONStorage.tem_id registro_id item_id item)) l). lia.
  - intros Hr. apply IH in Hr. lia.
Qed.

Lemma remover_spec_correto s paciente_id :
  invariante s → remover_correto amb s paciente_id.
Proof.
  intros Hinv. unfold remover_correto. cbv zeta.
  pattern (remover_paciente amb paciente_id s).1, (remover_paciente amb paciente_id s).2.
  match goal with
  | |- ?Q _ _ => apply (wp_remover_paciente amb paciente_id Q)
  end; [done|].
  intros r s' _ Hspec. unfold remover_spec in Hspec.
  pose proof (consultas_ativas_tem s paciente_id) as Hat.
  destruct (consultas_ativas s paciente_id) as [|c0 l].
  - assert (¬ tem_consulta_ativa s paciente_id) as Hnao by (intros H; by apply Hat in H).
    case_bool_decide as Hlen.
    + destruct Hspec as (n & Hn & Htq & Hspec). split; [done|].
      intros _ _. unfold leitura_da_escrita. rewrite Htq. simpl. split; [lia|].
      destruct (escrita_ok amb n); [|by destruct Hspec as [-> Hd]].
      destruct Hspec as (-> & Hp & Hm & Hc). repeat split; try done.
      unfold paciente_de. rewrite registro_de_dados, Hp. unfold sem_paciente.
      by rewrite find_filter_proprio.
    + split; [done|].
      intros [p Hp] _. exfalso. apply Hlen. unfold paciente_de in Hp.
      destruct (registro_de "pacientes" paciente_id s) as [r0|] eqn:Hr0; [|done].
      rewrite registro_de_dados in Hr0. by eapply find_filter_length.
  - destruct Hspec as [-> Hd]. split; [done|].
    intros _ Hnao. exfalso. apply Hnao, Hat. done.
Qed.
End RemoverTeorema.

(** C8, as the code has it. In an environment that carries out every read
    of the storage, and in a reachable state, [remover_paciente] returns
    the rejection "Paciente possui consultas ativas" and leaves the
    collections unchanged whenever the patient has an appointment that is
    neither cancelled nor done.  When the patient exists and has no such
    appointment the call writes the storage, and this write is the last
    reading of the environment the call makes: if it succeeds, the patient
    is removed and the call returns success; if it fails, the call returns
    "Erro ao remover paciente" and the collections are as they were. *)
Theorem remover_paciente_guarded amb base_dir s paciente_id :
  LeiturasOk amb →
  alcancavel amb base_dir s → remover_correto amb s paciente_id.
Proof.
  intros Hler Hs. apply (remover_spec_correto amb). by apply (alcancavel_invariante amb base_dir).
Qed.

(** ** The doctors' licence codes stay distinct *)

Section CrmFacts.
Variable amb : Ambiente.
Context `{!LeiturasOk amb}.

Lemma passo_medicos_crms s s' :
  passo_medicos s s' → crms_distintos s → crms_distintos s'.
Proof.
  unfold crms_distintos, medicos, medicos_de. fold (dados "medicos" s) (dados "medicos" s').
  intros [->|(m & Hcrm & Hid & ->)] Hnd; [done|].
  rewrite omap_app. simpl. rewrite decide_False by done. simpl.
  rewrite fmap_app. apply NoDup_app. split; [done|]. split.
  - intros x Hx Hx'. apply list_elem_of_singleton in Hx' as ->. done.
  - apply NoDup_singleton.
Qed.

(** The second half of C7: no sequence of calls stores two doctors with the
    same crm. *)
Lemma crms_distintos_alcancavel base_dir s :
  alcancavel amb base_dir s → crms_distintos s.
Proof.
  intros [chs ->]. unfold executar_todas.
  assert (∀ s0, invariante s0 → crms_distintos s0 →
            crms_distintos (foldl (fun s' ch => executar amb ch s') s0 chs)) as H.
  { induction chs as [|ch chs IH]; intros s0 Hinv Hnd; [done|]. simpl.
    destruct (executar_passo amb ch s0 Hinv) as [Hinv' Hp].
    apply IH; [done|]. by eapply passo_medicos_crms. }
  apply H; [apply invariante_inicial|]. apply NoDup_nil_2.
Qed.
End CrmFacts.

(** * Concrete runs *)

Lemma consultas_reativacao : consultas estado_reativacao = [consulta_ana; consulta_bia].
Proof. vm_compute. reflexivity. Qed.

(** C1 at its failing input. After the calls [reativacao] the storage holds
    two appointments with status ['agendada'] for the same doctor, date and
    time: [atualizar_status_consulta] puts a cancelled appointment back
    without the conflict check that [agendar_consulta] makes. *)
Theorem reativacao_duplica_horario :
  alcancavel amb_exemplo "/dados" estado_reativacao
  ∧ consultas estado_reativacao = [consulta_ana; consulta_bia]
  ∧ Consulta.status consulta_ana = Consulta.STATUS_AGENDADA
  ∧ Consulta.status consulta_bia = Consulta.STATUS_AGENDADA
  ∧ Consulta.medico_id consulta_ana = Consulta.medico_id consulta_bia
  ∧ Consulta.data consulta_ana = Consulta.data consulta_bia
  ∧ Consulta.hora consulta_ana = Consulta.hora consulta_bia
  ∧ ¬ sem_conflitos estado_reativacao.
Proof.
  split; [exists reativacao; reflexivity|].
  split; [exact consultas_reativacao|].
  do 5 (split; [reflexivity|]).
  intros Hsem.
  apply (Hsem 0%nat 1%nat consulta_ana consulta_bia); rewrite ?consultas_reativacao; done.
Qed.

Lemma cpfs_troca_de_cpf :
  Paciente.cpf <$> pacientes estado_troca_de_cpf = ["111.111.111-11"; "111.111.111-11"].
Proof. vm_compute. reflexivity. Qed.

(** C7 at its failing input. After the calls [troca_de_cpf] two patients
    have the same cpf: [atualizar_paciente] stores the new cpf without the
    uniqueness check that [criar_paciente] makes. *)
Theorem atualizar_paciente_duplica_cpf :
  alcancavel amb_exemplo "/dados" estado_troca_de_cpf
  ∧ Paciente.id <$> pacientes estado_troca_de_cpf = ["P00001002"; "P00001007"]
  ∧ Paciente.cpf <$> pacientes estado_troca_de_cpf = ["111.111.111-11"; "111.111.111-11"]
  ∧ ¬ cpfs_distintos estado_troca_de_cpf.
Proof.
  split; [exists troca_de_cpf; reflexivity|].
  split; [vm_compute; reflexivity|]. split; [exact cpfs_troca_de_cpf|].
  unfold cpfs_distintos. rewrite cpfs_troca_de_cpf. intros Hnd.
  apply NoDup_cons in Hnd as [Hnd _]. apply Hnd. by left.
Qed.

(** C8 as stated fails: the patient exists and has no appointment at all,
    yet [remover_paciente] returns "Erro ao remover paciente" and the
    patient stays stored, because the write of the storage fails. *)
Lemma remover_paciente_sem_escrita :
  alcancavel amb_disco_cheio "/dados" estado_disco_cheio
  ∧ is_Some (paciente_de estado_disco_cheio "P00001002")
  ∧ consultas estado_disco_cheio = []
  ∧ (remover_paciente amb_disco_cheio "P00001002" estado_disco_cheio).1
    = Some (false, ErroRemoverPaciente)
  ∧ paciente_de (remover_paciente amb_disco_cheio "P00001002" estado_disco_cheio).2
      "P00001002"
    = paciente_de estado_disco_cheio "P00001002".
Proof.
  split; [eexists; reflexivity|].
  split; [vm_compute; eauto|].
  split; [vm_compute; reflexivity|].
  split; vm_compute; reflexivity.
Qed.

(** C8 fails as well when a read fails: Ana has an appointment with status
    ['agendada'], but the read of the [consultas] file inside
    [listar_consultas] fails and gives the empty list, so [remover_paciente]
    finds no active appointment, removes Ana and returns success. *)
Lemma remover_paciente_sem_leitura :
  alcancavel (amb_leitura_falha 10) "/dados" (estado_agendado_em (amb_leitura_falha 10))
  ∧ consultas (estado_agendado_em (amb_leitura_falha 10)) = [consulta_ana]
  ∧ Consulta.paciente_id consulta_ana = "P00001002"
  ∧ consulta_ativa consulta_ana = true
  ∧ (remover_paciente (amb_leitura_falha 10) "P00001002"
       (estado_agendado_em (amb_leitura_falha 10))).1
    = Some (true, PacienteRemovido)
  ∧ paciente_de
      (remover_paciente (amb_leitura_falha 10) "P00001002"
         (estado_agendado_em (amb_leitura_falha 10))).2 "P00001002"
    = None.
Proof.
  split; [eexists; reflexivity|].
  split; [vm_compute; reflexivity|].
  split; [reflexivity|]. split; [reflexivity|].
  split; vm_compute; reflexivity.
Qed.

(** C3 as stated fails: Bia and the doctor exist, 09:00 is one of the
    doctor's times, no appointment holds the slot of the 26th, and the write
    of the storage succeeds; but the read with which [storage.adicionar]
    begins fails and gives the empty list, so the call, which returns
    success, has not appended an appointment: it has replaced the collection,
    and Ana's appointment is lost. *)
Lemma agendar_consulta_sem_leitura :
  alcancavel (amb_leitura_falha 12) "/dados" (estado_agendado_em (amb_leitura_falha 12))
  ∧ is_Some (paciente_de (estado_agendado_em (amb_leitura_falha 12)) "P00001007")
  ∧ medico_de (estado_agendado_em (amb_leitura_falha 12)) "M00001012" = Some medico_teste
  ∧ "09:00" ∈ Medico.horarios_disponiveis medico_teste
  ∧ consultas (estado_agendado_em (amb_leitura_falha 12)) = [consulta_ana]
  ∧ tem_conflito "M00001012" "2025-11-26" "09:00" None [consulta_ana] = false
  ∧ escrita_ok (amb_leitura_falha 12)
      (leitura_da_escrita
         (agendar_consulta (amb_leitura_falha 12) "P00001007" "M00001012" "2025-11-26"
            "09:00" "" (estado_agendado_em (amb_leitura_falha 12))).2)
    = true
  ∧ (agendar_consulta (amb_leitura_falha 12) "P00001007" "M00001012" "2025-11-26"
       "09:00" "" (estado_agendado_em (amb_leitura_falha 12))).1
    = Some (true, ConsultaAgendada, Some consulta_seguinte)
  ∧ consultas
      (agendar_consulta (amb_leitura_falha 12) "P00001007" "M00001012" "2025-11-26"
         "09:00" "" (estado_agendado_em (amb_leitura_falha 12))).2
    = [consulta_seguinte].
Proof.
  split; [eexists; reflexivity|].
  split; [vm_compute; eauto|].
  split; [vm_compute; reflexivity|].
  split; [by left|].
  split; [vm_compute; reflexivity|].
  split; [reflexivity|].
  split; [reflexivity|].
  split; vm_compute; reflexivity.
Qed.

(** C6 as stated fails: [salvar] returns [True] for a sequence that the
    codec reads back, and the [carregar] that follows returns the empty
    list, because its read of the file fails.  In the service:
    [storage.carregar] answers with the empty list for the [consultas] file
    that holds Ana's appointment. *)
Lemma salvar_carregar_sem_leitura :
  valido json_dump json_load [RConsulta consulta_ana]
  ∧ (JSONStorage.salvar json_dump true "consultas" [RConsulta consulta_ana]
       (JSONStorage.init "/dados")).1 = true
  ∧ JSONStorage.carregar json_load false "consultas"
      (JSONStorage.salvar json_dump true "consultas" [RConsulta consulta_ana]
         (JSONStorage.init "/dados")).2
    = []
  ∧ consultas_de (estado_agendado_em (amb_leitura_falha 10)) = [RConsulta consulta_ana]
  ∧ (storage_carregar (amb_leitura_falha 10) "consultas"
       (estado_agendado_em (amb_leitura_falha 10))).1
    = Some [].
Proof.
  split; [intros text Hd; injection Hd as <-; reflexivity|].
  split; [reflexivity|]. split; [reflexivity|].
  split; vm_compute; reflexivity.
Qed.

(** The scenario of the specification: the first booking of a slot
    succeeds, the second is refused as a conflict, and after the first is
    cancelled the slot can be booked again. *)
Example cenario_agendamento :
  let pedido := agendar_consulta amb_exemplo "P00001007" "M00001012" "2025-11-25" "09:00" "" in
  (agendar_consulta amb_exemplo "P00001002" "M00001012" "2025-11-25" "09:00" ""
     estado_cadastro).1
  = Some (true, ConsultaAgendada,
          Some (Consulta.mk "C00001021" "P00001002" "M00001012" "2025-11-25" "09:00" ""
                  "agendada" "2025-11-20T10:00:00" "2025-11-20T10:00:00"))
  ∧ (pedido estado_agendado).1 = Some (false, HorarioOcupado, None)
  ∧ (pedido (cancelar_consulta amb_exemplo "C00001021" estado_agendado).2).1
    = Some (true, ConsultaAgendada, Some consulta_bia).
Proof. repeat split; vm_compute; reflexivity. Qed.

Lemma agendar_consulta_checks_in_order_witness :
  agendar_correto amb_exemplo estado_cadastro
    "P00001002" "M00001012" "2025-11-25" "09:00" "rotina".
Proof.
  apply (agendar_consulta_checks_in_order amb_exemplo "/dados").
  - intros n. reflexivity.
  - exists cadastro. reflexivity.
Defined.

Lemma remover_paciente_guarded_witness :
  remover_correto amb_exemplo estado_agendado "P00001002".
Proof.
  apply (remover_paciente_guarded amb_exemplo "/dados").
  - intros n. reflexivity.
  - eexists. reflexivity.
Defined.

Example lru_evicts_least_recently_touched :
  OrderedDict.keys (Cache.cache (Cache.set 3 "c" "3" (Cache.run ops_lru (Cache.init 2 5))))
  = ["a"; "c"].
Proof. reflexivity. Qed.

Lemma lru_capacity_and_victim_witness :
  Z.of_nat (Cache.size (Cache.run ops_lru (Cache.init 2 5))) ≤ 2
  ∧ ∃ vitima,
      LRU.menos_recente ops_lru (Cache.init 2 5) vitima
      ∧ Cache.cache (Cache.set 3 "c" "3" (Cache.run ops_lru (Cache.init 2 5)))
        = OrderedDict.pop vitima (Cache.cache (Cache.run ops_lru (Cache.init 2 5)))
          ++ [("c", "3")]
      ∧ Cache.size (Cache.set 3 "c" "3" (Cache.run ops_lru (Cache.init 2 5)))
        = Cache.size (Cache.run ops_lru (Cache.init 2 5))
      ∧ Cache.evictions (Cache.set 3 "c" "3" (Cache.run ops_lru (Cache.init 2 5)))
        = S (Cache.evictions (Cache.run ops_lru (Cache.init 2 5))).
Proof.
  destruct (lru_capacity_and_victim 2 5 ops_lru) as [H1 H2]; [lia|].
  split; [exact H1|]. apply (H2 3 "c" "3").
  - apply od_contains_false. reflexivity.
  - vm_compute. discriminate.
Defined.

(** Two [get]s that hit within the time-to-live do not postpone the expiry. *)
Lemma get_misses_after_ttl_witness :
  let c2 := Cache.run [Cache.OpGet 1 "k"; Cache.OpGet 2 "k"]
              (Cache.set 0 "k" "v" (Cache.init 5 2)) in
  (Cache.get 3 "k" c2).1 = None
  ∧ ("k" ∉ OrderedDict.keys (Cache.cache (Cache.get 3 "k" c2).2)).
Proof.
  apply (get_misses_after_ttl (Cache.init 5 2) 0 "k" "v").
  - repeat constructor.
  - simpl. lia.
Defined.

Lemma salvar_carregar_roundtrip_witness :
  let st' := (JSONStorage.salvar json_dump true "consultas"
                [RConsulta consulta_ana; RConsulta consulta_bia]
                (JSONStorage.init "/dados")).2 in
  JSONStorage.carregar json_load true "consultas" st'
  = [RConsulta consulta_ana; RConsulta consulta_bia]
  ∧ JSONStorage.carregar json_load false "consultas" st' = [].
Proof.
  destruct (salvar_carregar_roundtrip json_dump json_load true "consultas"
              [RConsulta consulta_ana; RConsulta consulta_bia] (JSONStorage.init "/dados"))
    as (_ & Hlido & Hfalha); [reflexivity|].
  split; [|exact Hfalha]. apply Hlido.
  intros text Hd. injection Hd as <-. reflexivity.
Defined.

Lemma atualizar_status_invalido_nao_persiste_witness :
  let r := atualizar_status_consulta amb_exemplo "C00001021" "remarcada" estado_agendado in
  (∃ msg, r.1 = Some (false, msg))
  ∧ storage r.2 = storage estado_agendado
  ∧ cache_manager r.2 = cache_manager estado_agendado
  ∧ consultas_de r.2 = consultas_de estado_agendado.
Proof.
  apply (atualizar_status_invalido_nao_persiste amb_exemplo).
  intros H. repeat (apply elem_of_cons in H as [H|H]; [discriminate H|]). inversion H.
Defined.

(** * Two threads and the booking lock *)

Section AgendarSecaoFacts.
Variable amb : Ambiente.

(** Run by one thread alone, the block is the method. *)
Lemma correr_agendar_secao paciente_id medico_id data hora observacoes s :
  agendar_consulta amb paciente_id medico_id data hora observacoes s
  = (Some (correr (agendar_secao amb paciente_id medico_id data hora observacoes) s).1,
     (correr (agendar_secao amb paciente_id medico_id data hora observacoes) s).2).
Proof.
  unfold agendar_consulta, agendar_secao, tentar, bind.
  generalize (buscar_paciente amb paciente_id) (buscar_medico amb medico_id)
    (verificar_conflito amb medico_id data hora None)
    (Consulta_novo amb paciente_id medico_id data hora observacoes None)
    (storage_adicionar amb "consultas") (cache_invalidate_pattern "consultas").
  intros m1 m2 m3 m4 m5 m6. simpl.
  destruct (m1 s) as [[[p|]|] s1]; simpl; try done.
  destruct (m2 s1) as [[[m|]|] s2]; simpl; try done.
  destruct (negb (bool_decide (hora ∈ Medico.horarios_disponiveis m))); simpl; try done.
  destruct (m3 s2) as [[[b msg]|] s3]; simpl; try done.
  destruct b; simpl; try done.
  destruct (m4 s3) as [[c|] s4]; simpl; try done.
  destruct (m5 (RConsulta c) s4) as [[ok|] s5]; simpl; try done.
  destruct ok; simpl; try done.
  destruct (m6 s5) as [[k|] s6]; simpl; done.
Qed.
End AgendarSecaoFacts.

(** ** The lock serialises the two blocks *)

Section Serializacao.
Context {A : Type}.
Implicit Types (c p : secao A) (sis : Sistema A).

Lemma correr_Passo {X} (m : M X) (k : X → secao A) exc s :
  correr (Passo m k exc) s
  = match m s with
    | (Some x, s') => correr (k x) s'
    | (None, s') => (exc, s')
    end.
Proof. done. Qed.

Lemma escalonar_fase s0 c1 c2 sis b :
  fase s0 c1 c2 sis → fase s0 c1 c2 (escalonar sis b).
Proof.
  intros H. destruct H as [ |p s Hp|p s Hp|r s Hr|r s Hr|r1 s1 p s Hr Hp|r2 s2 p s Hr Hp
                          |r1 s1 r2 s H1 H2|r1 r2 s2 s H2 H1];
    destruct b; unfold escalonar; simpl;
    try (by econstructor; eauto);
    destruct p as [a|X m k exc]; simpl;
    try (by econstructor; eauto; rewrite <- Hp);
    rewrite correr_Passo in Hp; destruct (m s) as [[x|] s'];
    by econstructor; eauto; rewrite <- Hp.
Qed.

Lemma executar_agenda_fase s0 c1 c2 (agenda : list bool) :
  fase s0 c1 c2 (executar_agenda agenda (sistema_inicial s0 c1 c2)).
Proof.
  unfold executar_agenda.
  assert (∀ sis, fase s0 c1 c2 sis → fase s0 c1 c2 (foldl escalonar sis agenda)) as H.
  { induction agenda as [|b agenda IH]; intros sis Hs; [done|].
    simpl. by apply IH, escalonar_fase. }
  apply H. constructor.
Qed.

(** Whatever the interleaving, when both threads have returned their
    results are those of running the two blocks one after the other, in one
    of the two orders. *)
Lemma agenda_serializada s0 c1 c2 (agenda : list bool) r1 r2 :
  let final := executar_agenda agenda (sistema_inicial s0 c1 c2) in
  fio1 final = Terminou r1 → fio2 final = Terminou r2 →
  (∃ s1, correr c1 s0 = (r1, s1) ∧ (correr c2 s1).1 = r2)
  ∨ (∃ s2, correr c2 s0 = (r2, s2) ∧ (correr c1 s2).1 = r1).
Proof.
  intros final. pose proof (executar_agenda_fase s0 c1 c2 agenda) as H. fold final in H.
  destruct H; simpl; intros Hf1 Hf2; try done.
  - injection Hf1 as ->. injection Hf2 as ->. left. exists s1. split; [done|]. by rewrite H0.
  - injection Hf1 as ->. injection Hf2 as ->. right. exists s2. split; [done|]. by rewrite H0.
Qed.

(** *** Both calls return *)

Lemma executar_agenda_app (a1 a2 : list bool) sis :
  executar_agenda (a1 ++ a2) sis = executar_agenda a2 (executar_agenda a1 sis).
Proof. apply foldl_app. Qed.

(** A thread inside its block leaves it after finitely many turns, with the
    lock released. *)
Lemma dentro_termina1 p : ∀ s l (f2 : fio A),
  ∃ n r s', executar_agenda (replicate n true) (mkSistema s l (Dentro p) f2)
            = mkSistema s' false (Terminou r) f2.
Proof.
  induction p as [a|X m k IH exc]; intros s l f2.
  - by exists 1%nat, a, s.
  - destruct (m s) as [[x|] s'] eqn:Hm.
    + destruct (IH x s' l f2) as (n & r & s'' & Hn). exists (S n), r, s''.
      rewrite <- Hn. unfold executar_agenda. simpl. unfold escalonar at 2. simpl.
      by rewrite Hm.
    + exists 1%nat, exc, s'. unfold executar_agenda, escalonar. simpl. by rewrite Hm.
Qed.

Lemma dentro_termina2 p : ∀ s l (f1 : fio A),
  ∃ n r s', executar_agenda (replicate n false) (mkSistema s l f1 (Dentro p))
            = mkSistema s' false f1 (Terminou r).
Proof.
  induction p as [a|X m k IH exc]; intros s l f1.
  - by exists 1%nat, a, s.
  - destruct (m s) as [[x|] s'] eqn:Hm.
    + destruct (IH x s' l f1) as (n & r & s'' & Hn). exists (S n), r, s''.
      rewrite <- Hn. unfold executar_agenda. simpl. unfold escalonar at 2. simpl.
      by rewrite Hm.
    + exists 1%nat, exc, s'. unfold executar_agenda, escalonar. simpl. by rewrite Hm.
Qed.

(** A thread that waits for a free lock takes it and returns. *)
Lemma esperando_termina1 c s (f2 : fio A) :
  ∃ n r s', executar_agenda (replicate n true) (mkSistema s false (Esperando c) f2)
            = mkSistema s' false (Terminou r) f2.
Proof.
  destruct (dentro_termina1 c s true f2) as (n & r & s' & Hn).
  exists (S n), r, s'. by rewrite <- Hn.
Qed.

Lemma esperando_termina2 c s (f1 : fio A) :
  ∃ n r s', executar_agenda (replicate n false) (mkSistema s false f1 (Esperando c))
            = mkSistema s' false f1 (Terminou r).
Proof.
  destruct (dentro_termina2 c s true f1) as (n & r & s' & Hn).
  exists (S n), r, s'. by rewrite <- Hn.
Qed.

(** No configuration the two threads reach is stuck: the scheduler can
    always go on so that both calls return. *)
Lemma fase_termina s0 c1 c2 sis :
  fase s0 c1 c2 sis →
  ∃ resto r1 r2, fio1 (executar_agenda resto sis) = Terminou r1
                 ∧ fio2 (executar_agenda resto sis) = Terminou r2.
Proof.
  intros H. destruct H as [ |p s Hp|p s Hp|r s Hr|r s Hr|r1 s1 p s Hr Hp|r2 s2 p s Hr Hp
                          |r1 s1 r2 s H1 H2|r1 r2 s2 s H2 H1].
  - destruct (esperando_termina1 c1 s0 (Esperando c2)) as (n & r1 & s1 & H1).
    destruct (esperando_termina2 c2 s1 (Terminou r1)) as (k & r2 & s2 & H2).
    exists (replicate n true ++ replicate k false), r1, r2.
    by rewrite executar_agenda_app, H1, H2.
  - destruct (dentro_termina1 p s true (Esperando c2)) as (n & r1 & s1 & H1).
    destruct (esperando_termina2 c2 s1 (Terminou r1)) as (k & r2 & s2 & H2).
    exists (replicate n true ++ replicate k false), r1, r2.
    by rewrite executar_agenda_app, H1, H2.
  - destruct (dentro_termina2 p s true (Esperando c1)) as (n & r2 & s2 & H2).
    destruct (esperando_termina1 c1 s2 (Terminou r2)) as (k & r1 & s1 & H1).
    exists (replicate n false ++ replicate k true), r1, r2.
    by rewrite executar_agenda_app, H2, H1.
  - destruct (esperando_termina2 c2 s (Terminou r)) as (k & r2 & s2 & H2).
    exists (replicate k false), r, r2. by rewrite H2.
  - destruct (esperando_termina1 c1 s (Terminou r)) as (k & r1 & s1 & H1).
    exists (replicate k true), r1, r. by rewrite H1.
  - destruct (dentro_termina2 p s true (Terminou r1)) as (n & r2 & s2 & H2).
    exists (replicate n false), r1, r2. by rewrite H2.
  - destruct (dentro_termina1 p s true (Terminou r2)) as (n & r1 & s1' & H1).
    exists (replicate n true), r1, r2. by rewrite H1.
  - by exists [], r1, r2.
  - by exists [], r1, r2.
Qed.

(** Every interleaving has a continuation after which both threads have
    returned. *)
Lemma agenda_termina s0 c1 c2 (agenda : list bool) :
  ∃ resto r1 r2,
    fio1 (executar_agenda (agenda ++ resto) (sistema_inicial s0 c1 c2)) = Terminou r1
    ∧ fio2 (executar_agenda (agenda ++ resto) (sistema_inicial s0 c1 c2)) = Terminou r2.
Proof.
  destruct (fase_termina s0 c1 c2 _ (executar_agenda_fase s0 c1 c2 agenda))
    as (resto & r1 & r2 & H1 & H2).
  exists resto, r1, r2. by rewrite executar_agenda_app.
Qed.
End Serializacao.

(** ** Two concurrent calls of [agendar_consulta] for one slot *)

Section Concorrencia.
Variable amb : Ambiente.
Context `{!LeiturasOk amb}.
Implicit Types (s : Estado).

Lemma agendar_secao_spec paciente_id medico_id data hora observacoes s :
  invariante s →
  let r := correr (agendar_secao amb paciente_id medico_id data hora observacoes) s in
  invariante r.2
  ∧ agendar_spec amb s paciente_id medico_id data hora observacoes r.1 r.2.
Proof.
  intros Hinv r.
  pose proof (wp_agendar_consulta amb paciente_id medico_id data hora observacoes
    (λ o s', ∃ r0, o = Some r0 ∧ invariante s'
       ∧ agendar_spec amb s paciente_id medico_id data hora observacoes r0 s') s Hinv) as H.
  unfold wp in H. rewrite correr_agendar_secao in H. simpl in H.
  destruct H as (r0 & [= <-] & H1 & H2); [by eauto|]. done.
Qed.

Lemma consultas_app s s' c :
  Consulta.id c ≠ "" →
  dados "consultas" s' = dados "consultas" s ++ [RConsulta c] →
  consultas s' = consultas s ++ [c].
Proof.
  intros Hid Hd. unfold consultas, consultas_de. fold (dados "consultas" s) (dados "consultas" s').
  rewrite Hd, omap_app. simpl. by rewrite decide_False.
Qed.

(** A call that finds the slot free makes its write: when the write
    succeeds the call books, and the slot is held afterwards; when it fails
    the call returns the failure and the collections are as they were. *)
Lemma agendar_secao_livre paciente_id medico_id data hora observacoes medico s :
  invariante s →
  is_Some (paciente_de s paciente_id) →
  medico_de s medico_id = Some medico →
  hora ∈ Medico.horarios_disponiveis medico →
  ¬ horario_ocupado s medico_id data hora →
  let r := correr (agendar_secao amb paciente_id medico_id data hora observacoes) s in
  invariante r.2
  ∧ dados "pacientes" r.2 = dados "pacientes" s
  ∧ dados "medicos" r.2 = dados "medicos" s
  ∧ (if escrita_ok amb (leitura_da_escrita r.2)
     then sucesso r.1 ∧ horario_ocupado r.2 medico_id data hora
     else falha r.1 ∧ dados "consultas" r.2 = dados "consultas" s).
Proof.
  intros Hinv [p Hp] Hm Hh Hlivre r.
  destruct (agendar_secao_spec paciente_id medico_id data hora observacoes s Hinv)
    as [Hinv' Hspec].
  fold r in Hinv', Hspec. unfold agendar_spec in Hspec. rewrite Hp, Hm in Hspec.
  rewrite bool_decide_eq_true_2 in Hspec by done.
  destruct (tem_conflito medico_id data hora None (consultas s)) eqn:Hc.
  { exfalso. apply Hlivre. by apply tem_conflito_ocupa. }
  destruct Hspec as (n & _ & Htq & Hspec).
  unfold leitura_da_escrita. rewrite Htq. simpl.
  split; [done|]. destruct (escrita_ok amb (S (S (S n)))).
  - destruct Hspec as (Hr & Hdc & Hdp & Hdm).
    split; [done|]. split; [done|]. split; [by eexists|].
    eexists. split.
    + erewrite consultas_app; [|..|exact Hdc]; [|done].
      apply elem_of_app. right. by left.
    + by repeat split.
  - destruct Hspec as [Hr Hd].
    split; [apply Hd, colecao_pacientes|]. split; [apply Hd, colecao_medicos|].
    split; [done|]. apply Hd, colecao_consultas.
Qed.

(** A call that finds the slot held is refused. *)
Lemma agendar_secao_ocupado paciente_id medico_id data hora observacoes medico s :
  invariante s →
  is_Some (paciente_de s paciente_id) →
  medico_de s medico_id = Some medico →
  hora ∈ Medico.horarios_disponiveis medico →
  horario_ocupado s medico_id data hora →
  conflito (correr (agendar_secao amb paciente_id medico_id data hora observacoes) s).1.
Proof.
  intros Hinv [p Hp] Hm Hh Hoc.
  destruct (agendar_secao_spec paciente_id medico_id data hora observacoes s Hinv)
    as [_ Hspec].
  unfold agendar_spec in Hspec. rewrite Hp, Hm in Hspec.
  rewrite bool_decide_eq_true_2 in Hspec by done.
  apply tem_conflito_ocupa in Hoc. rewrite Hoc in Hspec. apply Hspec.
Qed.

Lemma paciente_de_dados s s' id :
  dados "pacientes" s' = dados "pacientes" s → paciente_de s' id = paciente_de s id.
Proof. intros H. unfold paciente_de. by rewrite !registro_de_dados, H. Qed.

Lemma medico_de_dados s s' id :
  dados "medicos" s' = dados "medicos" s → medico_de s' id = medico_de s id.
Proof. intros H. unfold medico_de. by rewrite !registro_de_dados, H. Qed.

Lemma horario_ocupado_dados s s' medico_id data hora :
  dados "consultas" s' = dados "consultas" s →
  horario_ocupado s' medico_id data hora → horario_ocupado s medico_id data hora.
Proof.
  intros H. unfold horario_ocupado, consultas, consultas_de.
  fold (dados "consultas" s) (dados "consultas" s'). by rewrite H.
Qed.

(** The two calls one after the other, the call of [paciente1] first. *)
Lemma agendar_em_serie paciente1 paciente2 medico_id data hora obs1 obs2 medico s :
  invariante s →
  is_Some (paciente_de s paciente1) →
  is_Some (paciente_de s paciente2) →
  medico_de s medico_id = Some medico →
  hora ∈ Medico.horarios_disponiveis medico →
  ¬ horario_ocupado s medico_id data hora →
  ∀ primeira segunda,
    correr (agendar_secao amb paciente1 medico_id data hora obs1) s = primeira →
    correr (agendar_secao amb paciente2 medico_id data hora obs2) primeira.2 = segunda →
    ((sucesso primeira.1 ∧ conflito segunda.1)
     ∨ (falha primeira.1 ∧ (sucesso segunda.1 ∨ falha segunda.1)))
    ∧ (EscritasOk amb → sucesso primeira.1 ∧ conflito segunda.1).
Proof.
  intros Hinv Hp1 Hp2 Hm Hh Hlivre primeira segunda Hprimeira Hsegunda.
  destruct (agendar_secao_livre paciente1 medico_id data hora obs1 medico s)
    as (Hinv1 & Hdp & Hdm & Hres); try done.
  rewrite Hprimeira in Hinv1, Hdp, Hdm, Hres.
  assert (is_Some (paciente_de primeira.2 paciente2)) as Hp2'
    by (by rewrite (paciente_de_dados s primeira.2)).
  assert (medico_de primeira.2 medico_id = Some medico) as Hm'
    by (by rewrite (medico_de_dados s primeira.2)).
  destruct (escrita_ok amb (leitura_da_escrita primeira.2)) eqn:Hok1.
  - destruct Hres as [Hs Hoc].
    assert (conflito segunda.1) as Hc.
    { rewrite <- Hsegunda.
      by apply (agendar_secao_ocupado paciente2 medico_id data hora obs2 medico). }
    split; [by left|done].
  - destruct Hres as [Hf Hdc]. split.
    + right. split; [done|].
      destruct (agendar_secao_livre paciente2 medico_id data hora obs2 medico primeira.2)
        as (_ & _ & _ & Hres2); try done.
      { intros Hoc. apply Hlivre. by apply (horario_ocupado_dados s primeira.2). }
      rewrite Hsegunda in Hres2.
      destruct (escrita_ok amb (leitura_da_escrita segunda.2)); [left|right]; apply Hres2.
    + intros Hesc. by rewrite escritas_ok in Hok1.
Qed.
End Concorrencia.

(** C2, as the code has it. Two threads call [agendar_consulta] for the
    same doctor, date and time, for two patients that exist; the time is one
    of the doctor's, no live appointment holds the slot, and the environment
    carries out every read of the storage.  Then every interleaving of
    their steps can be continued until both calls have returned; in every
    interleaving in which both calls have returned, either one call returns
    success and the other the conflict "Horário já ocupado para este
    médico", or one call returns the failure "Erro ao salvar consulta" and
    the other returns success or that same failure: never two successes.
    When the environment carries out every write as well, one call returns
    success and the other the conflict: never two failures either. *)
Theorem agendamentos_concorrentes amb base_dir s
    paciente1 paciente2 medico_id data hora obs1 obs2 medico :
  LeiturasOk amb →
  alcancavel amb base_dir s →
  paciente1 ≠ paciente2 →
  is_Some (paciente_de s paciente1) →
  is_Some (paciente_de s paciente2) →
  medico_de s medico_id = Some medico →
  hora ∈ Medico.horarios_disponiveis medico →
  ¬ horario_ocupado s medico_id data hora →
  let apos agenda :=
    executar_agenda agenda
      (sistema_inicial s
         (agendar_secao amb paciente1 medico_id data hora obs1)
         (agendar_secao amb paciente2 medico_id data hora obs2)) in
  (∀ agenda, ∃ resto r1 r2,
      fio1 (apos (agenda ++ resto)) = Terminou r1
      ∧ fio2 (apos (agenda ++ resto)) = Terminou r2)
  ∧ (∀ agenda r1 r2,
      fio1 (apos agenda) = Terminou r1 →
      fio2 (apos agenda) = Terminou r2 →
      ((sucesso r1 ∧ conflito r2) ∨ (conflito r1 ∧ sucesso r2)
       ∨ (falha r1 ∧ (sucesso r2 ∨ falha r2))
       ∨ (falha r2 ∧ (sucesso r1 ∨ falha r1)))
      ∧ (EscritasOk amb → (sucesso r1 ∧ conflito r2) ∨ (conflito r1 ∧ sucesso r2))).
Proof.
  intros Hler Halc _ Hp1 Hp2 Hm Hh Hlivre apos.
  split; [intros agenda; apply agenda_termina|].
  intros agenda r1 r2 Hf1 Hf2.
  pose proof (alcancavel_invariante amb base_dir s Halc) as Hinv.
  destruct (agenda_serializada s _ _ agenda r1 r2 Hf1 Hf2)
    as [(s1 & Hc1 & Hc2)|(s2 & Hc2 & Hc1)].
  - destruct (agendar_em_serie amb paciente1 paciente2 medico_id data hora obs1 obs2 medico s
                Hinv Hp1 Hp2 Hm Hh Hlivre (r1, s1) _ Hc1 eq_refl) as [Hger Hesc].
    cbn [fst snd] in Hger, Hesc. rewrite Hc2 in Hger, Hesc.
    split; [tauto|]. intros H. left. by apply Hesc.
  - destruct (agendar_em_serie amb paciente2 paciente1 medico_id data hora obs2 obs1 medico s
                Hinv Hp2 Hp1 Hm Hh Hlivre (r2, s2) _ Hc2 eq_refl) as [Hger Hesc].
    cbn [fst snd] in Hger, Hesc. rewrite Hc1 in Hger, Hesc.
    split; [tauto|]. intros H. right. split; by apply Hesc.
Qed.

(** ** Concrete interleavings *)

(** C2 as stated fails: both patients exist, the time is one of the
    doctor's and the slot is free, yet with a disk that refuses the writes
    both calls return the failure "Erro ao salvar consulta": two failures,
    and neither is the conflict. *)
Lemma agendamentos_concorrentes_sem_escrita :
  alcancavel amb_sem_disco "/dados" estado_sem_disco
  ∧ is_Some (paciente_de estado_sem_disco "P00001002")
  ∧ is_Some (paciente_de estado_sem_disco "P00001007")
  ∧ medico_de estado_sem_disco "M00001012" = Some medico_teste
  ∧ "09:00" ∈ Medico.horarios_disponiveis medico_teste
  ∧ consultas estado_sem_disco = []
  ∧ fio1 (corrida amb_sem_disco estado_sem_disco (alternada 20))
    = Terminou (false, ErroSalvarConsulta, None)
  ∧ fio2 (corrida amb_sem_disco estado_sem_disco (alternada 20))
    = Terminou (false, ErroSalvarConsulta, None).
Proof.
  split; [exists cadastro; reflexivity|].
  split; [vm_compute; eauto|]. split; [vm_compute; eauto|].
  split; [vm_compute; reflexivity|]. split; [by left|].
  split; [vm_compute; reflexivity|].
  split; vm_compute; reflexivity.
Qed.

(** C2 fails as well when a read fails: Ana's call books the slot, and the
    read of the [consultas] file inside Bia's [verificar_conflito] fails and
    gives the empty list, so Bia's call finds no conflict and books too.
    Both calls return success, and the storage holds two appointments with
    status ['agendada'] for the same doctor, date and time. *)
Lemma agendamentos_concorrentes_sem_leitura :
  alcancavel (amb_leitura_falha 11) "/dados" (estado_cadastro_em (amb_leitura_falha 11))
  ∧ consultas (estado_cadastro_em (amb_leitura_falha 11)) = []
  ∧ fio1 (corrida (amb_leitura_falha 11) (estado_cadastro_em (amb_leitura_falha 11))
            (alternada 20))
    = Terminou (true, ConsultaAgendada, Some consulta_fio1)
  ∧ fio2 (corrida (amb_leitura_falha 11) (estado_cadastro_em (amb_leitura_falha 11))
            (alternada 20))
    = Terminou (true, ConsultaAgendada, Some consulta_fio2)
  ∧ consultas
      (compartilhado
         (corrida (amb_leitura_falha 11) (estado_cadastro_em (amb_leitura_falha 11))
            (alternada 20)))
    = [consulta_fio1; consulta_fio2].
Proof.
  split; [exists cadastro; reflexivity|].
  split; [vm_compute; reflexivity|].
  split; [vm_compute; reflexivity|].
  split; vm_compute; reflexivity.
Qed.

(** With the threads taking turns, Ana's call takes the lock first and
    books; Bia's call waits for the lock and is refused. *)
Lemma agendamentos_concorrentes_witness :
  fio1 (corrida amb_exemplo estado_cadastro (alternada 20))
  = Terminou (true, ConsultaAgendada,
              Some (Consulta.mk "C00001021" "P00001002" "M00001012" "2025-11-25" "09:00"
                      "Paciente 1" "agendada" "2025-11-20T10:00:00" "2025-11-20T10:00:00"))
  ∧ fio2 (corrida amb_exemplo estado_cadastro (alternada 20))
    = Terminou (false, HorarioOcupado, None)
  ∧ ((sucesso (true, ConsultaAgendada,
               Some (Consulta.mk "C00001021" "P00001002" "M00001012" "2025-11-25" "09:00"
                       "Paciente 1" "agendada" "2025-11-20T10:00:00" "2025-11-20T10:00:00"))
      ∧ conflito (false, HorarioOcupado, None))
     ∨ (conflito (true, ConsultaAgendada,
                  Some (Consulta.mk "C00001021" "P00001002" "M00001012" "2025-11-25" "09:00"
                          "Paciente 1" "agendada" "2025-11-20T10:00:00"
                          "2025-11-20T10:00:00"))
        ∧ sucesso (false, HorarioOcupado, None))).
Proof.
  split; [vm_compute; reflexivity|]. split; [vm_compute; reflexivity|].
  refine (proj2 (proj2 (agendamentos_concorrentes amb_exemplo "/dados" estado_cadastro
                          "P00001002" "P00001007" "M00001012" "2025-11-25" "09:00"
                          "Paciente 1" "Paciente 2" medico_teste _ _ _ _ _ _ _ _)
                   (alternada 20) _ _ _ _) _).
  - intros n. reflexivity.
  - exists cadastro. reflexivity.
  - discriminate.
  - vm_compute. eauto.
  - vm_compute. eauto.
  - vm_compute. reflexivity.
  - by left.
  - intros (c & Hc & _). vm_compute in Hc. inversion Hc.
  - vm_compute. reflexivity.
  - vm_compute. reflexivity.
  - intros n. reflexivity.
Defined.

(** * Further properties of the cache, the storage and the models *)

(** ** The cache: hits, synchrony of the two dictionaries, invalidation and cleanup *)

Section CacheMore.
Context {V : Type}.
Implicit Types (c : Cache.CacheManager V) (k key : string) (o : Cache.op V)
  (d : list (string * V)).

Lemma od_contains_setitem key (v : V) d :
  OrderedDict.contains key (OrderedDict.setitem key v d) = true.
Proof.
  induction d as [|[k v'] d IH]; simpl; [by rewrite decide_True|].
  destruct (decide (k = key)) as [->|Hne]; simpl.
  - by rewrite decide_True.
  - by rewrite decide_False.
Qed.

Lemma od_getitem_setitem_eq key (v : V) d :
  OrderedDict.getitem key (OrderedDict.setitem key v d) = Some v.
Proof.
  induction d as [|[k v'] d IH]; simpl; [by rewrite decide_True|].
  destruct (decide (k = key)) as [->|Hne]; simpl.
  - by rewrite decide_True.
  - by rewrite decide_False.
Qed.

Lemma od_getitem_Some_contains key d (v : V) :
  OrderedDict.getitem key d = Some v → OrderedDict.contains key d = true.
Proof. intros H. apply od_getitem_contains. eauto. Qed.

(** X1. A value stored by [set] is what [get] returns as long as no more
    than the time-to-live has passed, whatever the cache held and whatever
    its capacity; the call counts as a hit and leaves the key in the last
    (most recently used) position. *)
Theorem set_then_get_hits c (agora agora' : Z) key (value : V) :
  agora' - agora ≤ Cache.ttl_seconds c →
  let c1 := Cache.set agora key value c in
  (Cache.get agora' key c1).1 = Some value
  ∧ Cache.hits (Cache.get agora' key c1).2 = S (Cache.hits c)
  ∧ Cache.misses (Cache.get agora' key c1).2 = Cache.misses c
  ∧ last (OrderedDict.keys (Cache.cache (Cache.get agora' key c1).2)) = Some key.
Proof.
  intros Hage c1.
  assert (OrderedDict.getitem key (Cache.cache c1) = Some value) as Hget.
  { unfold c1, Cache.set. destruct (OrderedDict.contains key (Cache.cache c)); simpl;
      apply od_getitem_setitem_eq. }
  assert (Cache.hits c1 = Cache.hits c ∧ Cache.misses c1 = Cache.misses c) as [Hh Hm].
  { unfold c1, Cache.set. destruct (OrderedDict.contains key (Cache.cache c)); [done|].
    case_bool_decide; [|done]. unfold Cache._evict_oldest.
    by destruct (OrderedDict.first_key (Cache.cache c)). }
  unfold Cache.get. rewrite (od_getitem_Some_contains _ _ _ Hget). simpl.
  assert (Cache._is_expired agora' key c1 = false) as ->.
  { unfold Cache._is_expired. unfold c1 at 1. rewrite set_timestamp.
    apply bool_decide_eq_false. unfold c1. rewrite set_ttl. lia. }
  simpl. split; [by apply od_getitem_move_to_end|].
  split; [by rewrite Hh|]. split; [done|].
  rewrite od_keys_move_to_end by (by apply od_contains_elem_of, od_getitem_Some_contains with value).
  apply last_snoc.
Qed.

(** *** The dictionary and the timestamps stay in step *)

Lemma sincronizado_ext c c' :
  Cache.cache c' = Cache.cache c → Cache.timestamps c' = Cache.timestamps c →
  sincronizado c → sincronizado c'.
Proof. unfold sincronizado. by intros -> ->. Qed.

Lemma sincronizado_init N T : sincronizado (Cache.init (V:=V) N T).
Proof.
  split; [constructor|]. intros k. simpl. rewrite lookup_empty. split.
  - intros H. inversion H.
  - intros [? ?]. done.
Qed.

Lemma sincronizado_remove key c : sincronizado c → sincronizado (Cache._remove key c).
Proof.
  intros [Hnd Hk]. split; simpl.
  - rewrite od_keys_pop. by apply NoDup_filter.
  - intros k. rewrite od_keys_pop, list_elem_of_filter, Hk.
    destruct (decide (key = k)) as [->|Hne].
    + rewrite lookup_delete_eq. split; [by intros [? _]|]. intros [? ?]. done.
    + rewrite lookup_delete_ne by done. split; [by intros [_ ?]|]. intros ?. split; [|done].
      by apply not_eq_sym.
Qed.

Lemma sincronizado_remove_all (ks : list string) c :
  sincronizado c → sincronizado (foldl (fun c' k => Cache._remove k c') c ks).
Proof.
  revert c. induction ks as [|k ks IH]; intros c H; simpl; [done|].
  by apply IH, sincronizado_remove.
Qed.

Lemma sincronizado_evict c : sincronizado c → sincronizado (Cache._evict_oldest c).
Proof.
  intros H. unfold Cache._evict_oldest.
  destruct (OrderedDict.first_key (Cache.cache c)) as [k|]; [|done].
  by apply (sincronizado_ext (Cache._remove k c)), sincronizado_remove.
Qed.

Lemma NoDup_move ks k : NoDup ks → NoDup (filter (λ k', k' ≠ k) ks ++ [k]).
Proof.
  intros Hnd. apply NoDup_app. split; [by apply NoDup_filter|]. split.
  - intros x Hx Hx'. apply list_elem_of_filter in Hx as [Hne _].
    apply list_elem_of_singleton in Hx'. done.
  - apply NoDup_singleton.
Qed.

Lemma elem_of_move ks k x : k ∈ ks → x ∈ filter (λ k', k' ≠ k) ks ++ [k] ↔ x ∈ ks.
Proof.
  intros Hk. rewrite elem_of_app, list_elem_of_filter, list_elem_of_singleton.
  destruct (decide (x = k)) as [->|Hne]; [tauto|]. tauto.
Qed.

Lemma sincronizado_set agora key (value : V) c :
  sincronizado c → sincronizado (Cache.set agora key value c).
Proof.
  intros Hs. unfold Cache.set.
  destruct (OrderedDict.contains key (Cache.cache c)) eqn:Hin.
  - apply od_contains_elem_of in Hin. destruct Hs as [Hnd Hk].
    assert (key ∈ OrderedDict.keys (OrderedDict.move_to_end key (Cache.cache c))) as Hin'.
    { rewrite od_keys_move_to_end by done. apply elem_of_app. right. by left. }
    split; simpl; rewrite od_keys_setitem_present, od_keys_move_to_end by done.
    + by apply NoDup_move.
    + intros k. rewrite elem_of_move by done. rewrite Hk.
      destruct (decide (key = k)) as [->|Hne].
      * rewrite lookup_insert_eq. split; [eauto|]. intros _. by apply Hk.
      * by rewrite lookup_insert_ne.
  - set (c1 := if bool_decide (Z.of_nat (length (Cache.cache c)) >= Cache.max_size c)
               then Cache._evict_oldest c else c).
    assert (sincronizado c1) as [Hnd Hk].
    { unfold c1. case_bool_decide; [by apply sincronizado_evict|done]. }
    assert (key ∉ OrderedDict.keys (Cache.cache c1)) as Hout.
    { apply od_contains_false in Hin. unfold c1. case_bool_decide; [|done].
      unfold Cache._evict_oldest.
      destruct (OrderedDict.first_key (Cache.cache c)) as [k0|]; [|done]. simpl.
      rewrite od_keys_pop. intros H'. apply list_elem_of_filter in H' as [_ H']. done. }
    split; simpl; rewrite od_setitem_absent by done;
      unfold OrderedDict.keys; rewrite fmap_app; simpl;
      fold (OrderedDict.keys (Cache.cache c1)).
    + apply NoDup_app. split; [done|]. split; [|apply NoDup_singleton].
      intros x Hx Hx'. apply list_elem_of_singleton in Hx' as ->. done.
    + intros k. rewrite elem_of_app, list_elem_of_singleton, Hk.
      destruct (decide (key = k)) as [->|Hne].
      * rewrite lookup_insert_eq. split; [eauto|]. intros _. by right.
      * rewrite lookup_insert_ne by done. split; [|by left].
        intros [?|?]; [done|]. by subst.
Qed.

Lemma sincronizado_get agora key c :
  sincronizado c → sincronizado (Cache.get agora key c).2.
Proof.
  intros Hs. unfold Cache.get.
  destruct (OrderedDict.contains key (Cache.cache c)) eqn:Hin; simpl; [|done].
  destruct (Cache._is_expired agora key c); simpl.
  - by apply (sincronizado_ext (Cache._remove key c)), sincronizado_remove.
  - apply od_contains_elem_of in Hin. destruct Hs as [Hnd Hk].
    split; simpl; rewrite od_keys_move_to_end by done.
    + by apply NoDup_move.
    + intros k. by rewrite elem_of_move.
Qed.

Lemma sincronizado_exec o c : sincronizado c → sincronizado (Cache.exec o c).
Proof.
  intros Hs. destruct o as [agora k v|agora k|k| |pat]; simpl.
  - by apply sincronizado_set.
  - by apply sincronizado_get.
  - unfold Cache.delete. destruct (OrderedDict.contains k (Cache.cache c)); simpl; [|done].
    by apply sincronizado_remove.
  - split; [constructor|]. intros k. simpl. rewrite lookup_empty. split.
    + intros H. inversion H.
    + intros [? ?]. done.
  - by apply sincronizado_remove_all.
Qed.

Lemma run_atingivel (N T : Z) (ops : list (Cache.op V)) c :
  Cache.atingivel N T c → Cache.atingivel N T (Cache.run ops c).
Proof.
  unfold Cache.run. revert c. induction ops as [|o ops IH]; intros c Hc; [done|].
  simpl. by apply IH, Cache.ating_exec.
Qed.

(** X2. In every cache a client reaches from [CacheManager(max_size,
    ttl_seconds)] by [get], [set], [delete], [clear], [invalidate_pattern]
    and [cleanup_expired], the dictionary and the timestamps hold the same
    keys: a stored key always has a timestamp, and no timestamp outlives
    its entry. *)
Theorem cache_and_timestamps_in_step (N T : Z) c :
  Cache.atingivel N T c → sincronizado c.
Proof.
  induction 1 as [|o c _ IH|relogio c _ IH].
  - apply sincronizado_init.
  - by apply sincronizado_exec.
  - by apply sincronizado_remove_all.
Qed.

(** *** Hits and misses *)

Lemma contadores_remove_all (ks : list string) c :
  Cache.hits (foldl (fun c' k => Cache._remove k c') c ks) = Cache.hits c
  ∧ Cache.misses (foldl (fun c' k => Cache._remove k c') c ks) = Cache.misses c
  ∧ Cache.evictions (foldl (fun c' k => Cache._remove k c') c ks) = Cache.evictions c.
Proof.
  revert c. induction ks as [|k ks IH]; intros c; simpl; [done|].
  apply (IH (Cache._remove k c)).
Qed.

Lemma exec_contadores o c :
  (Cache.hits (Cache.exec o c) + Cache.misses (Cache.exec o c)
   = Cache.hits c + Cache.misses c + (if e_get o then 1 else 0))%nat.
Proof.
  destruct o as [agora k v|agora k|k| |pat]; simpl.
  - unfold Cache.set. destruct (OrderedDict.contains k (Cache.cache c)); simpl; [lia|].
    case_bool_decide; [|lia]. unfold Cache._evict_oldest.
    destruct (OrderedDict.first_key (Cache.cache c)); simpl; lia.
  - unfold Cache.get. destruct (OrderedDict.contains k (Cache.cache c)); simpl; [|lia].
    destruct (Cache._is_expired agora k c); simpl; lia.
  - unfold Cache.delete. destruct (OrderedDict.contains k (Cache.cache c)); simpl; lia.
  - lia.
  - destruct (contadores_remove_all
                (List.filter (λ k, str_in pat k) (OrderedDict.keys (Cache.cache c))) c)
      as (-> & -> & _). lia.
Qed.

(** X3. The counters [hits] and [misses] count the calls of [get]: after
    any sequence of calls their sum has grown by the number of [get]s in
    the sequence, every [get] being a hit or a miss and no other call
    touching the two counters. *)
Theorem hits_and_misses_count_gets (ops : list (Cache.op V)) c :
  (Cache.hits (Cache.run ops c) + Cache.misses (Cache.run ops c)
   = Cache.hits c + Cache.misses c + length (List.filter e_get ops))%nat.
Proof.
  unfold Cache.run. revert c. induction ops as [|o ops IH]; intros c; simpl; [lia|].
  rewrite IH, exec_contadores. destruct (e_get o); simpl; lia.
Qed.

(** *** Invalidation by pattern and removal of expired entries *)

Lemma prefix_ocorre (p k : string) : String.prefix p k = true ↔ ∃ b, k = p +:+ b.
Proof.
  revert k. induction p as [|x p IH]; intros k.
  - split; [by exists k|]. intros _. by destruct k.
  - destruct k as [|y k]; simpl; [split; [done|by intros [b Hb]]|].
    destruct (Ascii.ascii_dec x y) as [->|Hne].
    + rewrite IH. split; intros [b Hb]; exists b.
      * by rewrite Hb.
      * by injection Hb.
    + split; [done|]. intros [b Hb]. injection Hb as Hxy _. by subst.
Qed.

Lemma str_in_eq (pattern k : string) :
  str_in pattern k
  = if String.prefix pattern k then true
    else match k with
         | EmptyString => false
         | String _ k' => str_in pattern k'
         end.
Proof. by destruct k. Qed.

Lemma str_in_ocorre (pattern k : string) : str_in pattern k = true ↔ ocorre pattern k.
Proof.
  split.
  - induction k as [|y k IH]; rewrite str_in_eq;
      destruct (String.prefix pattern _) eqn:Hp;
      try (intros _; apply prefix_ocorre in Hp as [b Hb]; by exists "", b); [done|].
    intros H. destruct (IH H) as (a & b & ->). by exists (String y a), b.
  - intros (a & b & ->). induction a as [|y a IH]; rewrite str_in_eq.
    + assert (String.prefix pattern ("" +:+ pattern +:+ b) = true) as ->; [|done].
      apply prefix_ocorre. by exists b.
    + change (String y a +:+ pattern +:+ b) with (String y (a +:+ pattern +:+ b)).
      destruct (String.prefix _ _); [done|]. exact IH.
Qed.

Lemma cache_remove_all (rem : list string) c :
  Cache.cache (foldl (fun c' k => Cache._remove k c') c rem)
  = filter (λ kv, kv.1 ∉ rem) (Cache.cache c).
Proof.
  revert c. induction rem as [|k rem IH]; intros c; simpl.
  - induction (Cache.cache c) as [|kv d IHd]; [done|].
    rewrite filter_cons, decide_True by (by apply not_elem_of_nil). by rewrite <- IHd.
  - rewrite IH. simpl. rewrite od_pop_filter, list_filter_filter.
    apply list_filter_iff. intros [k' v]. simpl. rewrite not_elem_of_cons. tauto.
Qed.

Lemma timestamps_remove_all (rem : list string) c k :
  k ∉ rem →
  Cache.timestamps (foldl (fun c' k => Cache._remove k c') c rem) !! k
  = Cache.timestamps c !! k.
Proof.
  revert c. induction rem as [|k' rem IH]; intros c Hk; simpl; [done|].
  apply not_elem_of_cons in Hk as [Hne Hk]. rewrite IH by done. simpl.
  by rewrite lookup_delete_ne.
Qed.

Lemma filter_ext_in {A} (P Q : A → Prop) `{∀ x, Decision (P x)} `{∀ x, Decision (Q x)}
    (l : list A) :
  (∀ x, x ∈ l → P x ↔ Q x) → filter P l = filter Q l.
Proof.
  induction l as [|x l IH]; intros Hl; [done|].
  rewrite !filter_cons. rewrite IH by (intros y Hy; apply Hl; by right).
  destruct (decide (P x)) as [HP|HP], (decide (Q x)) as [HQ|HQ]; try done.
  - exfalso. apply HQ, Hl; [by left|done].
  - exfalso. apply HP, Hl; [by left|done].
Qed.

Lemma filter_all {A} (P : A → Prop) `{∀ x, Decision (P x)} (l : list A) :
  (∀ x, x ∈ l → P x) → filter P l = l.
Proof.
  induction l as [|x l IH]; intros Hl; [done|].
  rewrite filter_cons, decide_True by (apply Hl; by left).
  rewrite IH; [done|]. intros y Hy. apply Hl. by right.
Qed.

Lemma elem_of_keys (d : list (string * V)) kv : kv ∈ d → kv.1 ∈ OrderedDict.keys d.
Proof. intros H. unfold OrderedDict.keys. apply list_elem_of_fmap. by exists kv. Qed.

(** X4. [invalidate_pattern] removes the entries whose key contains the
    pattern, and only those: the entries that stay keep their order, value
    and timestamp, the counters are untouched (an invalidation is not an
    eviction), and the number returned is the number of entries removed.
    When no stored key contains the pattern the call returns 0 and the
    cache is exactly as before. *)
Theorem invalidate_pattern_removes_matching (pattern : string) c :
  let r := Cache.invalidate_pattern pattern c in
  (∀ k, str_in pattern k = true ↔ ocorre pattern k)
  ∧ Cache.cache r.2 = filter (λ kv, str_in pattern kv.1 = false) (Cache.cache c)
  ∧ (r.1 + Cache.size r.2 = Cache.size c)%nat
  ∧ (∀ k, str_in pattern k = false → Cache.timestamps r.2 !! k = Cache.timestamps c !! k)
  ∧ Cache.hits r.2 = Cache.hits c
  ∧ Cache.misses r.2 = Cache.misses c
  ∧ Cache.evictions r.2 = Cache.evictions c
  ∧ ((∀ k, k ∈ OrderedDict.keys (Cache.cache c) → str_in pattern k = false) →
     r = (0%nat, c)).
Proof.
  intros r. split; [intros k; apply str_in_ocorre|].
  set (rem := List.filter (λ k, str_in pattern k) (OrderedDict.keys (Cache.cache c))).
  assert (∀ k, k ∈ rem ↔ k ∈ OrderedDict.keys (Cache.cache c) ∧ str_in pattern k = true)
    as Hrem.
  { intros k. unfold rem. rewrite list_elem_of_In, filter_In, <- list_elem_of_In. done. }
  assert (Cache.cache r.2 = filter (λ kv, str_in pattern kv.1 = false) (Cache.cache c))
    as Hcache.
  { unfold r, Cache.invalidate_pattern. simpl. fold rem. rewrite cache_remove_all.
    apply filter_ext_in. intros kv Hkv. rewrite Hrem.
    destruct (str_in pattern kv.1); split; try done.
    - intros H. exfalso. apply H. split; [by apply elem_of_keys|done].
    - by intros _ [_ ?]. }
  split; [done|]. split.
  { unfold Cache.size. rewrite Hcache. unfold r, Cache.invalidate_pattern. simpl. fold rem.
    unfold rem, OrderedDict.keys. clear. induction (Cache.cache c) as [|[k v] d IH]; [done|].
    rewrite filter_cons. simpl. destruct (str_in pattern k) eqn:Hk; simpl.
    - exact (f_equal S IH).
    - rewrite Nat.add_succ_r. exact (f_equal S IH). }
  split.
  { intros k Hk. unfold r, Cache.invalidate_pattern. simpl. fold rem.
    apply timestamps_remove_all. rewrite Hrem. intros [_ ?]. congruence. }
  destruct (contadores_remove_all rem c) as (Hh & Hm & He).
  split; [done|]. split; [done|]. split; [done|].
  intros Hnone. unfold r, Cache.invalidate_pattern. fold rem.
  assert (rem = []) as ->; [|done].
  assert (∀ ks : list string, (∀ k, k ∈ ks → str_in pattern k = false) →
            List.filter (λ k, str_in pattern k) ks = []) as Hnil.
  { induction ks as [|k ks IH]; intros Hks; [done|].
    simpl. rewrite (Hks k) by (by left). apply IH. intros k' Hk'. apply Hks. by right. }
  by apply Hnil.
Qed.

Lemma elem_of_expired_keys relogio i ks c k :
  k ∈ Cache.expired_keys relogio i ks c ↔
  ∃ j, ks !! j = Some k ∧ Cache._is_expired (relogio (i + j)%nat) k c = true.
Proof.
  revert i. induction ks as [|x ks IH]; intros i; simpl.
  - split; [intros H; inversion H|]. by intros (j & Hj & _).
  - destruct (Cache._is_expired (relogio i) x c) eqn:Hx.
    + rewrite elem_of_cons, IH. split.
      * intros [->|(j & Hj & He)].
        -- exists 0%nat. by rewrite Nat.add_0_r.
        -- exists (S j). by rewrite Nat.add_succ_r.
      * intros ([|j] & Hj & He); simpl in Hj.
        -- left. by injection Hj.
        -- right. exists j. by rewrite Nat.add_succ_r in He.
    + rewrite IH. split.
      * intros (j & Hj & He). exists (S j). by rewrite Nat.add_succ_r.
      * intros ([|j] & Hj & He); simpl in Hj.
        -- injection Hj as <-. rewrite Nat.add_0_r in He. congruence.
        -- exists j. by rewrite Nat.add_succ_r in He.
Qed.

Lemma length_expired_keys relogio i (d : list (string * V)) c :
  NoDup (OrderedDict.keys d) →
  (length (Cache.expired_keys relogio i (OrderedDict.keys d) c)
   + length (filter (λ kv, kv.1 ∉ Cache.expired_keys relogio i (OrderedDict.keys d) c) d)
   = length d)%nat.
Proof.
  revert i. induction d as [|[k v] d IH]; intros i Hnd; [done|].
  simpl in Hnd. apply NoDup_cons in Hnd as [Hk Hnd]. specialize (IH (S i) Hnd).
  assert (k ∉ Cache.expired_keys relogio (S i) (OrderedDict.keys d) c) as Hk'.
  { rewrite elem_of_expired_keys. intros (j & Hj & _). apply Hk.
    by apply list_elem_of_lookup_2 in Hj. }
  simpl. destruct (Cache._is_expired (relogio i) k c); rewrite filter_cons; simpl.
  - rewrite decide_False by (intros H; apply H; by left).
    rewrite (filter_ext_in _ (λ kv, kv.1 ∉ Cache.expired_keys relogio (S i)
                                        (OrderedDict.keys d) c)).
    + simpl. lia.
    + intros [k' v'] Hkv. simpl. rewrite not_elem_of_cons. split; [tauto|].
      intros H. split; [|done]. intros ->. apply Hk. by apply (elem_of_keys d (k, v')).
  - rewrite decide_True by done. simpl. lia.
Qed.

(** X5. [cleanup_expired] tests every stored key against the clock and
    removes the keys found expired, and only those: the entries that stay
    keep their order, value and timestamp, the number returned is the number
    of entries removed, and the counters are untouched.  When the clock
    does not move during the call, no entry that stays is expired. *)
Theorem cleanup_expired_removes_expired (relogio : nat → Z) c :
  NoDup (OrderedDict.keys (Cache.cache c)) →
  let r := Cache.cleanup_expired relogio c in
  (∀ i k, OrderedDict.keys (Cache.cache c) !! i = Some k →
     (k ∈ OrderedDict.keys (Cache.cache r.2) ↔ Cache._is_expired (relogio i) k c = false))
  ∧ sublist (Cache.cache r.2) (Cache.cache c)
  ∧ (r.1 + Cache.size r.2 = Cache.size c)%nat
  ∧ (∀ k, k ∈ OrderedDict.keys (Cache.cache r.2) →
       Cache.timestamps r.2 !! k = Cache.timestamps c !! k)
  ∧ Cache.hits r.2 = Cache.hits c
  ∧ Cache.misses r.2 = Cache.misses c
  ∧ Cache.evictions r.2 = Cache.evictions c
  ∧ (∀ agora, (∀ i, relogio i = agora) →
       ∀ k, k ∈ OrderedDict.keys (Cache.cache r.2) → Cache._is_expired agora k r.2 = false).
Proof.
  intros Hnd r.
  set (rem := Cache.expired_keys relogio 0 (OrderedDict.keys (Cache.cache c)) c).
  assert (Cache.cache r.2 = filter (λ kv, kv.1 ∉ rem) (Cache.cache c)) as Hcache.
  { unfold r, Cache.cleanup_expired. simpl. fold rem. apply cache_remove_all. }
  assert (∀ k, k ∈ OrderedDict.keys (Cache.cache r.2)
               ↔ k ∈ OrderedDict.keys (Cache.cache c) ∧ k ∉ rem) as Hkeys.
  { intros k. rewrite Hcache. unfold OrderedDict.keys. rewrite !list_elem_of_fmap. split.
    - intros ([k' v] & -> & H). apply list_elem_of_filter in H as [H1 H2]. split; [|done].
      by exists (k', v).
    - intros [([k' v] & -> & H) Hr]. exists (k', v). split; [done|].
      by apply list_elem_of_filter. }
  assert (∀ k, k ∈ OrderedDict.keys (Cache.cache r.2) →
               Cache.timestamps r.2 !! k = Cache.timestamps c !! k) as Hts.
  { intros k Hk. apply Hkeys in Hk as [_ Hk]. unfold r, Cache.cleanup_expired. simpl.
    fold rem. by apply timestamps_remove_all. }
  assert (Cache.ttl_seconds r.2 = Cache.ttl_seconds c) as Httl.
  { unfold r, Cache.cleanup_expired. simpl. apply ttl_remove_all. }
  assert (∀ i k, OrderedDict.keys (Cache.cache c) !! i = Some k →
     (k ∈ OrderedDict.keys (Cache.cache r.2) ↔ Cache._is_expired (relogio i) k c = false))
    as Hmem.
  { intros i k Hi. rewrite Hkeys. unfold rem. rewrite elem_of_expired_keys. split.
    - intros [_ Hno]. destruct (Cache._is_expired (relogio i) k c) eqn:He; [|done].
      exfalso. apply Hno. by exists i.
    - intros He. split; [by apply list_elem_of_lookup_2 in Hi|].
      intros (j & Hj & He'). simpl in He'.
      assert (i = j) as -> by (by eapply NoDup_lookup). congruence. }
  split; [done|]. split; [rewrite Hcache; apply sublist_filter|].
  split.
  { unfold Cache.size. rewrite Hcache. unfold r, Cache.cleanup_expired. simpl. fold rem.
    by apply length_expired_keys. }
  split; [done|].
  destruct (contadores_remove_all rem c) as (Hh & Hm & He).
  split; [done|]. split; [done|]. split; [done|].
  intros agora Hrel k Hk. unfold Cache._is_expired. rewrite Hts, Httl by done.
  pose proof Hk as Hk'. apply Hkeys in Hk' as [Hin _].
  apply list_elem_of_lookup_1 in Hin as [i Hi].
  apply (Hmem i k Hi) in Hk. by rewrite Hrel in Hk.
Qed.

(** *** When [set] evicts *)





(** *** A cache created with no capacity *)

Lemma set_sem_capacidade (agora : Z) key (value : V) c :
  Cache.max_size c ≤ 0 → (Cache.size c ≤ 1)%nat →
  Cache.cache (Cache.set agora key value c) = [(key, value)].
Proof.
  destruct c as [N T d ts h m e]. unfold Cache.size, Cache.set. simpl. intros HN Hsz.
  destruct d as [|[k0 v0] [|kv d]]; simpl in *; [| |lia].
  - by rewrite bool_decide_eq_true_2 by lia.
  - destruct (decide (k0 = key)) as [->|Hne]; simpl.
    + unfold OrderedDict.move_to_end. simpl. rewrite !decide_True by done. simpl.
      by rewrite decide_True.
    + rewrite bool_decide_eq_true_2 by lia. unfold Cache._evict_oldest. simpl.
      by rewrite decide_True.
Qed.

Lemma exec_size_sem_capacidade o c :
  Cache.max_size c ≤ 0 → (Cache.size c ≤ 1)%nat → (Cache.size (Cache.exec o c) ≤ 1)%nat.
Proof.
  intros HN Hsz.
  destruct o as [agora k v|agora k|k| |pat]; simpl.
  - unfold Cache.size. by rewrite set_sem_capacidade.
  - unfold Cache.size in *. unfold Cache.get.
    destruct (OrderedDict.contains k (Cache.cache c)) eqn:Hin; simpl; [|done].
    destruct (Cache._is_expired agora k c); simpl.
    + etrans; [apply od_length_pop|done].
    + apply od_contains_elem_of in Hin. unfold OrderedDict.move_to_end.
      pose proof Hin as Hg. apply od_contains_elem_of, od_getitem_contains in Hg as [v' ->].
      rewrite length_app. simpl. pose proof (od_length_pop_lt k _ Hin). lia.
  - unfold Cache.size in *. unfold Cache.delete.
    destruct (OrderedDict.contains k (Cache.cache c)); simpl; [|done].
    etrans; [apply od_length_pop|done].
  - unfold Cache.size. simpl. lia.
  - unfold Cache.size in *. etrans; [apply length_remove_all|done].
Qed.

Lemma run_size_sem_capacidade (ops : list (Cache.op V)) c :
  Cache.max_size c ≤ 0 → (Cache.size c ≤ 1)%nat →
  Cache.max_size (Cache.run ops c) = Cache.max_size c ∧ (Cache.size (Cache.run ops c) ≤ 1)%nat.
Proof.
  unfold Cache.run. revert c. induction ops as [|o ops IH]; intros c HN Hsz; [done|].
  simpl. destruct (IH (Cache.exec o c)) as [H1 H2].
  - by rewrite exec_max_size.
  - by apply exec_size_sem_capacidade.
  - split; [|done]. by rewrite H1, exec_max_size.
Qed.

(** X7. A cache created with [max_size] zero or negative is not
    disabled: it holds at most one entry, and after every [set] it holds
    exactly the entry just set. *)
Theorem cache_without_capacity_keeps_last (N T : Z) (ops : list (Cache.op V)) :
  N ≤ 0 →
  let c := Cache.run ops (Cache.init N T) in
  (Cache.size c ≤ 1)%nat
  ∧ ∀ agora key (value : V),
      Cache.cache (Cache.set agora key value c) = [(key, value)].
Proof.
  intros HN c.
  destruct (run_size_sem_capacidade ops (Cache.init N T)) as [Hmax Hsz]; [done|unfold Cache.size; simpl; lia|].
  fold c in Hmax, Hsz. split; [done|]. intros agora key value.
  apply set_sem_capacidade; [|done]. by rewrite Hmax.
Qed.
End CacheMore.

(** ** The storage: the four writes and the search by id *)

Section StorageMore.
Context {R texto : Type} (get_id : R → option string).
Context (json_dump : list R → option texto) (json_load : texto → option (list R)).
Implicit Types (st : JSONStorage.t texto) (data : list R) (e entity_type : string)
  (lido ok : bool).

Abbreviation carregar := (JSONStorage.carregar json_load).
Abbreviation salvar := (JSONStorage.salvar json_dump).
Abbreviation adicionar := (JSONStorage.adicionar json_dump json_load).
Abbreviation atualizar := (JSONStorage.atualizar get_id json_dump json_load).
Abbreviation remover := (JSONStorage.remover get_id json_dump json_load).
Abbreviation buscar_por_id := (JSONStorage.buscar_por_id get_id json_load).
Abbreviation contar := (JSONStorage.contar json_load).
Abbreviation tem_id := (JSONStorage.tem_id get_id).

Lemma str_app_cons c (a b : string) : String c a +:+ b = String c (a +:+ b).
Proof. done. Qed.



Lemma ultimo_app (a b : string) : b ≠ "" → ultimo (a +:+ b) = ultimo b.
Proof.
  intros Hb. induction a as [|c a IH]; [done|]. rewrite str_app_cons. simpl.
  destruct (a +:+ b) eqn:Hab; [|done].
  destruct a; [|done]. simpl in Hab. done.
Qed.

Lemma ultimo_os_path_join (a b : string) : b ≠ "" → ultimo (os_path_join a b) = ultimo b.
Proof.
  intros Hb. unfold os_path_join.
  assert (ultimo (if bool_decide (a = "") || ends_with_slash a
                  then a +:+ b else a +:+ "/" +:+ b) = ultimo b) as H.
  { destruct (_ || _); rewrite ?ultimo_app; done. }
  destruct b as [|c b]; [done|]. destruct (decide (c = "/"%char)) as [->|Hne]; [done|].
  destruct c as [[] [] [] [] [] [] [] []]; try exact H. done.
Qed.

(** The temporary file of a collection is the file of no collection. *)
Lemma caminho_tmp_distinto st e e' :
  JSONStorage._get_filepath st e +:+ ".tmp" ≠ JSONStorage._get_filepath st e'.
Proof.
  unfold JSONStorage._get_filepath. intros H. apply (f_equal ultimo) in H.
  rewrite ultimo_app in H by done.
  rewrite ultimo_os_path_join in H by (by destruct e').
  rewrite ultimo_app in H by done. done.
Qed.


Lemma carregar_com_disco st d lido e :
  carregar lido e (JSONStorage.com_disco st d)
  = match d !! JSONStorage._get_filepath st e with
    | None => []
    | Some text =>
        if lido then match json_load text with Some data => data | None => [] end else []
    end.
Proof. done. Qed.

(** A read that fails gives the empty list, whatever the file holds. *)
Lemma carregar_falha e st : carregar false e st = [].
Proof. unfold JSONStorage.carregar. by destruct (_ !! _). Qed.

Lemma salvar_falso ok e data st lido e' :
  (salvar ok e data st).1 = false →
  carregar lido e' (salvar ok e data st).2 = carregar lido e' st.
Proof.
  unfold JSONStorage.salvar.
  destruct (json_dump data) as [text|]; [destruct ok; [done|]|]; intros _; simpl;
    rewrite carregar_com_disco, lookup_delete_ne by apply caminho_tmp_distinto; done.
Qed.

Lemma salvar_verdadeiro ok e data st :
  valido json_dump json_load data →
  (salvar ok e data st).1 = true → carregar true e (salvar ok e data st).2 = data.
Proof.
  intros Hval. unfold JSONStorage.salvar.
  destruct (json_dump data) as [text|] eqn:Hd; [|done]. destruct ok; [|done]. intros _.
  simpl. rewrite carregar_com_disco. unfold JSONStorage.os_replace.
  rewrite lookup_insert_eq, lookup_insert_eq. by rewrite (Hval text Hd).
Qed.


(** X8. A [salvar] that fails ([json.dump] or one of the file operations
    raises, and the call returns [False]) leaves every collection as it was:
    a [carregar] of any collection gives what it gave before the call,
    whether its own read is carried out or not. *)
Theorem salvar_failure_keeps_collections ok e data st :
  (salvar ok e data st).1 = false →
  ∀ lido e', carregar lido e' (salvar ok e data st).2 = carregar lido e' st.
Proof. intros H lido e'. by apply salvar_falso. Qed.

Lemma find_snoc {A} (p : A → bool) (l : list A) (x : A) :
  List.find p (l ++ [x])
  = match List.find p l with
    | Some y => Some y
    | None => if p x then Some x else None
    end.
Proof. induction l as [|y l IH]; simpl; [done|]. by destruct (p y). Qed.

Lemma tem_id_true item_id (x : R) : tem_id item_id x = true ↔ get_id x = Some item_id.
Proof. unfold JSONStorage.tem_id. by rewrite bool_decide_eq_true. Qed.

Lemma tem_id_false item_id (x : R) : tem_id item_id x = false ↔ get_id x ≠ Some item_id.
Proof. unfold JSONStorage.tem_id. by rewrite bool_decide_eq_false. Qed.

(** X9. [adicionar] writes what its read gave, followed by the new record.
    When it returns [True] after a read that was carried out, the
    collection is the old one followed by the new record (one more for
    [contar]); when it returns [True] after a read that failed, the
    collection holds the new record alone and the records stored before
    are lost, as they are when the file did not hold valid JSON.  When it
    returns [False] every collection is as it was. *)
Theorem adicionar_appends lido ok e (item : R) st :
  (∀ data, valido json_dump json_load data) →
  let r := adicionar lido ok e item st in
  (r.1 = true → carregar true e r.2 = carregar lido e st ++ [item])
  ∧ (r.1 = true → lido = true → contar true e r.2 = S (contar true e st))
  ∧ (r.1 = true → lido = false → carregar true e r.2 = [item])
  ∧ (r.1 = false → ∀ lido' e', carregar lido' e' r.2 = carregar lido' e' st)
  ∧ (∀ text, JSONStorage.disco st !! JSONStorage._get_filepath st e = Some text →
       json_load text = None → r.1 = true → carregar true e r.2 = [item]).
Proof.
  intros Hval r. unfold r, JSONStorage.adicionar.
  split; [|split; [|split; [|split]]].
  - intros Hr. by rewrite (salvar_verdadeiro ok e _ st (Hval _) Hr).
  - intros Hr ->. unfold JSONStorage.contar.
    rewrite (salvar_verdadeiro ok e _ st (Hval _) Hr), length_app. simpl. lia.
  - intros Hr ->. rewrite (salvar_verdadeiro ok e _ st (Hval _) Hr).
    by rewrite carregar_falha.
  - intros Hr lido' e'. by apply salvar_falso.
  - intros text Htext Hload Hr. rewrite (salvar_verdadeiro ok e _ st (Hval _) Hr).
    unfold JSONStorage.carregar. rewrite Htext, Hload. by destruct lido.
Qed.

(** X10. After an [adicionar] of a record that returns [True] (its read
    carried out), [buscar_por_id] under the record's id finds it, unless a
    record with that id was already stored: [adicionar] does not look at
    ids, and [buscar_por_id] returns the first match, so the older record
    keeps answering.  Lookups under the other ids are as before. *)
Theorem buscar_por_id_after_adicionar ok e (item : R) item_id st :
  (∀ data, valido json_dump json_load data) →
  get_id item = Some item_id →
  (adicionar true ok e item st).1 = true →
  buscar_por_id true e item_id (adicionar true ok e item st).2
  = match buscar_por_id true e item_id st with
    | Some antigo => Some antigo
    | None => Some item
    end
  ∧ ∀ id', id' ≠ item_id →
      buscar_por_id true e id' (adicionar true ok e item st).2 = buscar_por_id true e id' st.
Proof.
  intros Hval Hid Hr. unfold JSONStorage.buscar_por_id.
  destruct (adicionar_appends true ok e item st Hval) as (Hap & _). rewrite (Hap Hr).
  split.
  - rewrite find_snoc. destruct (List.find _ _); [done|].
    by rewrite (proj2 (tem_id_true item_id item) Hid).
  - intros id' Hne. rewrite find_snoc. destruct (List.find _ _); [done|].
    rewrite (proj2 (tem_id_false id' item)); [done|]. rewrite Hid. congruence.
Qed.

Lemma substituir_None item_id (novo : R) (l : list R) :
  JSONStorage.substituir get_id item_id novo l = None ↔ List.find (tem_id item_id) l = None.
Proof.
  induction l as [|x l IH]; simpl; [done|].
  destruct (tem_id item_id x); [done|].
  destruct (JSONStorage.substituir get_id item_id novo l); simpl.
  - split; [done|]. intros H. apply IH in H. done.
  - split; [|done]. intros _. by apply IH.
Qed.

Lemma substituir_Some item_id (novo : R) (l l' : list R) :
  JSONStorage.substituir get_id item_id novo l = Some l' →
  ∃ l1 x l2, l = l1 ++ x :: l2
    ∧ Forall (λ y, get_id y ≠ Some item_id) l1 ∧ get_id x = Some item_id
    ∧ l' = l1 ++ novo :: l2.
Proof.
  revert l'. induction l as [|x l IH]; intros l'; simpl; [done|].
  destruct (tem_id item_id x) eqn:Hx.
  - intros [= <-]. exists [], x, l. split; [done|]. split; [constructor|].
    split; [by apply tem_id_true|done].
  - destruct (JSONStorage.substituir get_id item_id novo l) as [l0|]; [|done].
    simpl. intros [= <-]. destruct (IH l0 eq_refl) as (l1 & y & l2 & -> & Hl1 & Hy & ->).
    exists (x :: l1), y, l2. split; [done|]. split; [|done].
    constructor; [by apply tem_id_false|done].
Qed.

(** X11. [atualizar] replaces, in its place, the first record that carries
    the id, and nothing else; the new record is stored as given (its own id
    is not compared with the one asked for).  When no record carries the
    id, and whenever the read fails, the call returns [False] and writes
    nothing; when it returns [False] after a failed write every collection
    is as it was. *)
Theorem atualizar_replaces_first lido ok e item_id (novo_item : R) st :
  (∀ data, valido json_dump json_load data) →
  let r := atualizar lido ok e item_id novo_item st in
  (buscar_por_id lido e item_id st = None → r = (false, st))
  ∧ (lido = false → r = (false, st))
  ∧ (r.1 = true →
       lido = true
       ∧ ∃ l1 x l2, carregar true e st = l1 ++ x :: l2
           ∧ Forall (λ y, get_id y ≠ Some item_id) l1 ∧ get_id x = Some item_id
           ∧ carregar true e r.2 = l1 ++ novo_item :: l2)
  ∧ (r.1 = false → ∀ lido' e', carregar lido' e' r.2 = carregar lido' e' st)
  ∧ (is_Some (buscar_por_id true e item_id st) → lido = true → ok = true →
       (∀ data, is_Some (json_dump data)) → r.1 = true).
Proof.
  intros Hval r.
  assert (lido = false → r = (false, st)) as Hfalha.
  { intros ->. unfold r, JSONStorage.atualizar. by rewrite carregar_falha. }
  split; [|split; [done|]].
  { intros Hf. unfold r, JSONStorage.atualizar.
    apply substituir_None with (novo := novo_item) in Hf. by rewrite Hf. }
  destruct lido.
  2:{ rewrite (Hfalha eq_refl). simpl. split; [done|]. split; [done|]. done. }
  unfold r, JSONStorage.atualizar, JSONStorage.buscar_por_id.
  destruct (JSONStorage.substituir get_id item_id novo_item (carregar true e st)) as [l|] eqn:Hs.
  - split; [|split].
    + intros Hr. split; [done|].
      destruct (substituir_Some _ _ _ _ Hs) as (l1 & x & l2 & H1 & H2 & H3 & ->).
      exists l1, x, l2. split; [done|]. split; [done|]. split; [done|].
      by apply salvar_verdadeiro.
    + intros Hr lido' e'. by apply salvar_falso.
    + intros _ _ -> Hd. unfold JSONStorage.salvar. by destruct (Hd l) as [text ->].
  - apply substituir_None in Hs. split; [done|]. split; [done|].
    rewrite Hs. by intros [? ?].
Qed.

Lemma filter_negb_tem_id item_id (l : list R) :
  List.filter (fun item => negb (tem_id item_id item)) l
  = filter (λ y, get_id y ≠ Some item_id) l.
Proof.
  induction l as [|x l IH]; [done|]. simpl. rewrite filter_cons.
  destruct (tem_id item_id x) eqn:Hx; simpl.
  - apply tem_id_true in Hx. by rewrite decide_False by (by intros ?).
  - apply tem_id_false in Hx. by rewrite decide_True, IH.
Qed.

Lemma find_filter_ne item_id id' (l : list R) :
  id' ≠ item_id →
  List.find (tem_id id') (filter (λ y, get_id y ≠ Some item_id) l)
  = List.find (tem_id id') l.
Proof.
  intros Hne. induction l as [|x l IH]; [done|]. rewrite filter_cons. simpl.
  destruct (decide (get_id x ≠ Some item_id)) as [Hx|Hx]; simpl.
  - by rewrite IH.
  - rewrite IH. rewrite (proj2 (tem_id_false id' x)); [done|].
    intros H. apply Hx. rewrite H. congruence.
Qed.

Lemma find_filter_eq item_id (l : list R) :
  List.find (tem_id item_id) (filter (λ y, get_id y ≠ Some item_id) l) = None.
Proof.
  induction l as [|x l IH]; [done|]. rewrite filter_cons.
  destruct (decide (get_id x ≠ Some item_id)) as [Hx|Hx]; [|done]. simpl.
  by rewrite (proj2 (tem_id_false item_id x) Hx).
Qed.

Lemma length_filter_find item_id (l : list R) :
  (length (filter (λ y, get_id y ≠ Some item_id) l) < length l)%nat
  ↔ is_Some (List.find (tem_id item_id) l).
Proof.
  induction l as [|x l IH]; simpl.
  - split; [lia|by intros [? ?]].
  - rewrite filter_cons. destruct (tem_id item_id x) eqn:Hx.
    + apply tem_id_true in Hx. rewrite decide_False by (by intros ?).
      split; [eauto|]. intros _.
      pose proof (length_filter (λ y, get_id y ≠ Some item_id) l). lia.
    + apply tem_id_false in Hx. rewrite decide_True by done. simpl. rewrite <- IH. lia.
Qed.

(** X12. [remover] takes out every record that carries the id (all of
    them, where [atualizar] touches only the first), keeps the others in
    their order, and afterwards [buscar_por_id] under that id finds
    nothing.  When no record carries the id, and whenever the read fails,
    the call returns [False] and writes nothing; when the write fails every
    collection is as it was. *)
Theorem remover_takes_every_match lido ok e item_id st :
  (∀ data, valido json_dump json_load data) →
  let r := remover lido ok e item_id st in
  (buscar_por_id lido e item_id st = None → r = (false, st))
  ∧ (lido = false → r = (false, st))
  ∧ (r.1 = true →
       lido = true
       ∧ carregar true e r.2 = filter (λ y, get_id y ≠ Some item_id) (carregar true e st)
       ∧ buscar_por_id true e item_id r.2 = None
       ∧ ∀ id', id' ≠ item_id → buscar_por_id true e id' r.2 = buscar_por_id true e id' st)
  ∧ (r.1 = false → ∀ lido' e', carregar lido' e' r.2 = carregar lido' e' st)
  ∧ (is_Some (buscar_por_id true e item_id st) → lido = true → ok = true →
       (∀ data, is_Some (json_dump data)) → r.1 = true).
Proof.
  intros Hval r.
  assert (lido = false → r = (false, st)) as Hfalha.
  { intros ->. unfold r, JSONStorage.remover. by rewrite carregar_falha. }
  assert (buscar_por_id lido e item_id st = None → r = (false, st)) as Hnada.
  { intros Hf. unfold r, JSONStorage.remover. rewrite filter_negb_tem_id.
    case_bool_decide as Hlen; [|done]. apply length_filter_find in Hlen.
    unfold JSONStorage.buscar_por_id in Hf. rewrite Hf in Hlen. by destruct Hlen. }
  split; [done|]. split; [done|].
  destruct lido.
  2:{ rewrite (Hfalha eq_refl). simpl. split; [done|]. split; [done|]. done. }
  unfold r, JSONStorage.remover, JSONStorage.buscar_por_id.
  rewrite filter_negb_tem_id.
  case_bool_decide as Hlen.
  - split; [|split].
    + intros Hr. rewrite (salvar_verdadeiro ok e _ st (Hval _) Hr).
      split; [done|]. split; [done|]. split; [apply find_filter_eq|].
      intros id' Hne. by apply find_filter_ne.
    + intros Hr lido' e'. by apply salvar_falso.
    + intros _ _ -> Hd. unfold JSONStorage.salvar.
      by destruct (Hd (filter (λ y, get_id y ≠ Some item_id) (carregar true e st)))
        as [text ->].
  - split; [done|]. split; [done|].
    intros Hf. exfalso. apply Hlen. by apply length_filter_find.
Qed.

End StorageMore.

(** ** The times of a doctor *)

Section HorariosFacts.
Implicit Types (m : Medico.t) (h horario : string) (l : list string).

Lemma list_remove_snoc h l : h ∉ l → list_remove h (l ++ [h]) = l.
Proof.
  induction l as [|y l IH]; simpl; intros Hh.
  - by rewrite decide_True.
  - apply not_elem_of_cons in Hh as [Hne Hh].
    rewrite decide_False by (by apply not_eq_sym). by rewrite IH.
Qed.

Lemma elem_of_list_remove h h' l : h' ≠ h → h' ∈ list_remove h l ↔ h' ∈ l.
Proof.
  intros Hne. induction l as [|y l IH]; simpl; [done|].
  destruct (decide (y = h)) as [->|Hy].
  - rewrite elem_of_cons. split; [by right|]. by intros [?|?].
  - by rewrite !elem_of_cons, IH.
Qed.

Lemma list_remove_NoDup h l : NoDup l → NoDup (list_remove h l) ∧ h ∉ list_remove h l.
Proof.
  induction 1 as [|y l Hy Hnd [IH1 IH2]]; simpl.
  - split; [constructor|]. by apply not_elem_of_nil.
  - destruct (decide (y = h)) as [->|Hne]; [done|]. split.
    + constructor; [|done]. by rewrite elem_of_list_remove.
    + rewrite not_elem_of_cons. by split; [apply not_eq_sym|].
Qed.

Lemma com_horarios_mesmos m : Medico.com_horarios m (Medico.horarios_disponiveis m) = m.
Proof. by destruct m. Qed.

(** X14. The times of a doctor behave as a set under [adicionar_horario]
    and [remover_horario] as long as they start without repetitions: a
    time that is there is not added twice ([adicionar_horario] answers
    [False] and changes nothing), a new time goes to the end of the list,
    a removed time is gone and the other times stay, and removing a time
    just added gives the doctor back as it was. *)
Theorem horarios_behave_as_a_set m horario :
  NoDup (Medico.horarios_disponiveis m) →
  let a := Medico.adicionar_horario horario m in
  let r := Medico.remover_horario horario m in
  NoDup (Medico.horarios_disponiveis a.2)
  ∧ (horario ∈ Medico.horarios_disponiveis a.2)
  ∧ (a.1 = false ↔ horario ∈ Medico.horarios_disponiveis m)
  ∧ (a.1 = false → a.2 = m)
  ∧ (a.1 = true →
       Medico.horarios_disponiveis a.2 = Medico.horarios_disponiveis m ++ [horario]
       ∧ Medico.remover_horario horario a.2 = (true, m))
  ∧ NoDup (Medico.horarios_disponiveis r.2)
  ∧ (horario ∉ Medico.horarios_disponiveis r.2)
  ∧ (r.1 = true ↔ horario ∈ Medico.horarios_disponiveis m)
  ∧ (∀ h, h ≠ horario →
       (h ∈ Medico.horarios_disponiveis r.2 ↔ h ∈ Medico.horarios_disponiveis m)).
Proof.
  intros Hnd a r. unfold a, r, Medico.adicionar_horario, Medico.remover_horario.
  case_bool_decide as Hin; simpl.
  - split; [done|]. split; [done|]. split; [done|]. split; [done|]. split; [done|].
    destruct (list_remove_NoDup horario _ Hnd) as [H1 H2].
    split; [done|]. split; [done|]. split; [done|].
    intros h Hne. by apply elem_of_list_remove.
  - split.
    { apply NoDup_app. split; [done|]. split; [|apply NoDup_singleton].
      intros x Hx Hx'. apply list_elem_of_singleton in Hx' as ->. done. }
    split; [apply elem_of_app; right; by left|].
    split; [done|]. split; [done|]. split.
    { intros _. split; [done|].
      rewrite bool_decide_eq_true_2 by (apply elem_of_app; right; by left).
      f_equal. unfold Medico.com_horarios. simpl. rewrite list_remove_snoc by done.
      by destruct m. }
    split; [done|]. split; [done|]. split; [done|]. done.
Qed.
End HorariosFacts.

(** ** Concrete runs of the cache, of the storage and of the doctor's times *)

Lemma valido_json data : valido json_dump json_load data.
Proof. intros text [= <-]. done. Qed.

Lemma set_then_get_hits_witness :
  (Cache.get 5 "k" (Cache.set 0 "k" "v" cache_exemplo)).1 = Some "v".
Proof.
  apply (set_then_get_hits cache_exemplo 0 5 "k" "v"). vm_compute. discriminate.
Defined.

Lemma cache_and_timestamps_in_step_witness :
  sincronizado (Cache.cleanup_expired (relogio_parado 7) cache_exemplo).2.
Proof.
  apply (cache_and_timestamps_in_step 2 5).
  apply Cache.ating_cleanup, run_atingivel, Cache.ating_init.
Defined.

Lemma cleanup_expired_removes_expired_witness :
  ((Cache.cleanup_expired (relogio_parado 6) cache_exemplo).1
   + Cache.size (Cache.cleanup_expired (relogio_parado 6) cache_exemplo).2)%nat
  = Cache.size cache_exemplo.
Proof.
  refine (proj1 (proj2 (proj2
            (cleanup_expired_removes_expired (relogio_parado 6) cache_exemplo _)))).
  vm_compute. apply NoDup_cons. split; [|apply NoDup_singleton].
  intros H. apply list_elem_of_singleton in H. discriminate.
Defined.

Lemma cache_without_capacity_keeps_last_witness :
  Cache.cache (Cache.set 3 "c" "3" (Cache.run ops_lru (Cache.init 0 5))) = [("c", "3")].
Proof.
  refine (proj2 (cache_without_capacity_keeps_last 0 5 ops_lru _) 3 "c" "3"). lia.
Defined.

Lemma salvar_failure_keeps_collections_witness :
  JSONStorage.carregar json_load true "consultas"
    (JSONStorage.salvar json_dump false "consultas" [] storage_exemplo).2
  = JSONStorage.carregar json_load true "consultas" storage_exemplo.
Proof.
  apply (salvar_failure_keeps_collections json_dump json_load false "consultas" []
           storage_exemplo).
  reflexivity.
Defined.

(** After a read that fails, [adicionar] leaves the confirmed appointment
    alone in the collection that held two. *)
Lemma adicionar_appends_witness :
  JSONStorage.carregar json_load true "consultas"
    (JSONStorage.adicionar json_dump json_load false true "consultas"
       (RConsulta consulta_confirmada) storage_exemplo).2
  = [RConsulta consulta_confirmada].
Proof.
  refine (proj1 (proj2 (proj2 (adicionar_appends json_dump json_load false true "consultas"
                                 (RConsulta consulta_confirmada) storage_exemplo
                                 valido_json))) _ _); reflexivity.
Defined.

(** The older record under the id keeps answering. *)
Lemma buscar_por_id_after_adicionar_witness :
  JSONStorage.buscar_por_id registro_id json_load true "consultas" "C00001021"
    (JSONStorage.adicionar json_dump json_load true true "consultas"
       (RConsulta consulta_confirmada) storage_exemplo).2
  = Some (RConsulta consulta_ana).
Proof.
  refine (proj1 (buscar_por_id_after_adicionar registro_id json_dump json_load true
                   "consultas" (RConsulta consulta_confirmada) "C00001021" storage_exemplo
                   valido_json _ _)); reflexivity.
Defined.

Lemma atualizar_replaces_first_witness :
  (JSONStorage.atualizar registro_id json_dump json_load true true "consultas" "C00001021"
     (RConsulta consulta_confirmada) storage_exemplo).1 = true.
Proof.
  refine (proj2 (proj2 (proj2 (proj2
            (atualizar_replaces_first registro_id json_dump json_load true true
               "consultas" "C00001021" (RConsulta consulta_confirmada) storage_exemplo
               valido_json)))) _ _ _ _).
  - vm_compute. eauto.
  - reflexivity.
  - reflexivity.
  - intros data. by eexists.
Defined.

Lemma remover_takes_every_match_witness :
  (JSONStorage.remover registro_id json_dump json_load true true "consultas" "C00001021"
     storage_exemplo).1 = true.
Proof.
  refine (proj2 (proj2 (proj2 (proj2
            (remover_takes_every_match registro_id json_dump json_load true true
               "consultas" "C00001021" storage_exemplo valido_json)))) _ _ _ _).
  - vm_compute. eauto.
  - reflexivity.
  - reflexivity.
  - intros data. by eexists.
Defined.


Lemma horarios_behave_as_a_set_witness :
  Medico.remover_horario "10:00" (Medico.adicionar_horario "10:00" medico_teste).2
  = (true, medico_teste).
Proof.
  refine (proj2 (proj1 (proj2 (proj2 (proj2 (proj2
            (horarios_behave_as_a_set medico_teste "10:00" _))))) _)).
  - apply NoDup_singleton.
  - reflexivity.
Defined.

(** * Further properties of the service *)

(** ** What the other methods that write establish *)

Section EspecFacts.
Variable amb : Ambiente.
Context `{!LeiturasOk amb}.
Implicit Types (s : Estado).

Lemma existsb_cpf cpf (ps : list Paciente.t) :
  existsb (fun p => bool_decide (Paciente.cpf p = cpf)) ps
  = bool_decide (cpf ∈ Paciente.cpf <$> ps).
Proof.
  destruct (existsb _ ps) eqn:Hex; symmetry.
  - apply bool_decide_eq_true. apply existsb_exists in Hex as (p & Hp & Hcpf).
    apply bool_decide_eq_true in Hcpf. apply list_elem_of_fmap. exists p.
    split; [done|]. by apply list_elem_of_In.
  - apply bool_decide_eq_false. intros Hin.
    apply list_elem_of_fmap in Hin as (p & Hcpf & Hp).
    assert (existsb (λ p0, bool_decide (Paciente.cpf p0 = cpf)) ps = true) as Hex';
      [|congruence].
    apply existsb_exists. exists p. split; [by apply list_elem_of_In|].
    by apply bool_decide_eq_true.
Qed.

Lemma existsb_crm crm (ms : list Medico.t) :
  existsb (fun m => bool_decide (Medico.crm m = crm)) ms
  = bool_decide (crm ∈ Medico.crm <$> ms).
Proof.
  destruct (existsb _ ms) eqn:Hex; symmetry.
  - apply bool_decide_eq_true. apply existsb_exists in Hex as (m & Hm & Hcrm).
    apply bool_decide_eq_true in Hcrm. apply list_elem_of_fmap. exists m.
    split; [done|]. by apply list_elem_of_In.
  - apply bool_decide_eq_false. intros Hin.
    apply list_elem_of_fmap in Hin as (m & Hcrm & Hm).
    assert (existsb (λ m0, bool_decide (Medico.crm m0 = crm)) ms = true) as Hex';
      [|congruence].
    apply existsb_exists. exists m. split; [by apply list_elem_of_In|].
    by apply bool_decide_eq_true.
Qed.

Lemma monotono_listar_pacientes : monotono (listar_pacientes amb).
Proof. apply (monotono_listar_gen amb "pacientes:all" "pacientes"), monotono_Paciente_from_dict. Qed.

Lemma monotono_listar_medicos : monotono (listar_medicos amb).
Proof. apply (monotono_listar_gen amb "medicos:all" "medicos"), monotono_Medico_from_dict. Qed.

Lemma wp_criar_paciente_spec nome cpf telefone email Q s :
  invariante s →
  (∀ r s', invariante s' → criar_paciente_spec amb s nome cpf telefone email r s' →
           Q (Some r) s') →
  wp (criar_paciente amb nome cpf telefone email) Q s.
Proof.
  intros Hinv HQ. unfold criar_paciente. apply wp_tentar.
  apply wp_bind, wp_monotono; [apply monotono_listar_pacientes|].
  apply wp_listar_pacientes; [done..|]. intros s1 Hst1 Hinv1 Htq1.
  unfold criar_paciente_spec in HQ. rewrite existsb_cpf.
  destruct (bool_decide (cpf ∈ Paciente.cpf <$> pacientes s)).
  { apply wp_ret, HQ; [done|]. split; [done|]. by apply mesmos_dados_refl. }
  apply wp_bind, wp_Paciente_novo. intros s2 Hst2 Hent2 Htq2.
  set (n := tique s1) in *.
  set (p := Paciente.mk ("P" +:+ uuid8 amb n) nome cpf telefone email (agora_iso amb (S n))).
  assert (invariante s2) as Hinv2 by (by apply (invariante_ext s1)).
  assert (storage s2 = storage s) as Hst2' by congruence.
  apply wp_bind, wp_storage_adicionar; [done|apply colecao_pacientes|]. intros s3 Hesc Htq3.
  rewrite Htq2 in *.
  destruct (escrita_ok amb (S (S n))) eqn:Hok.
  - apply wp_bind, wp_cache_invalidate_pattern. intros k s4 Hst4 Hsub4 Hpat4 Htq4.
    destruct Hesc as (Hent3 & Hd3 & Ho3).
    apply wp_ret, HQ.
    + apply (invariante_apos_escrita "pacientes"
               (dados "pacientes" s2 ++ [RPaciente p]) s2 s3 s4); try done.
      * apply colecao_pacientes.
      * intros _. apply Forall_app. split; [apply Hinv2|]. by repeat constructor.
      * intros _ id r _. apply find_app_Some.
    + exists n. fold p. rewrite Hok. split; [done|]. split; [congruence|]. split; [done|].
      rewrite !(dados_mesmo_storage s3 s4) by done.
      rewrite Hd3, Ho3, Ho3 by (done || apply colecao_medicos || apply colecao_consultas).
      by rewrite !(dados_mesmo_storage s s2).
  - apply wp_ret, HQ.
    + by apply (invariante_escrito_igual "pacientes" s2 s3); [apply colecao_pacientes|..].
    + exists n. fold p. rewrite Hok. split; [done|]. split; [done|]. split; [done|].
      apply (mesmos_dados_trans s s2 s3); [by apply mesmos_dados_refl|].
      by apply (escrito_mesmos_dados "pacientes"); [apply colecao_pacientes|].
Qed.

Lemma wp_criar_medico_spec nome crm especialidade horarios Q s :
  invariante s →
  (∀ r s', invariante s' → criar_medico_spec amb s nome crm especialidade horarios r s' →
           Q (Some r) s') →
  wp (criar_medico amb nome crm especialidade horarios) Q s.
Proof.
  intros Hinv HQ. unfold criar_medico. apply wp_tentar.
  apply wp_bind, wp_monotono; [apply monotono_listar_medicos|].
  apply wp_listar_medicos; [done..|]. intros s1 Hst1 Hinv1 Htq1.
  unfold criar_medico_spec in HQ. rewrite existsb_crm.
  destruct (bool_decide (crm ∈ Medico.crm <$> medicos s)).
  { apply wp_ret, HQ; [done|]. split; [done|]. by apply mesmos_dados_refl. }
  apply wp_bind, wp_Medico_novo. intros s2 Hst2 Hent2 Htq2.
  set (n := tique s1) in *.
  set (m := Medico.mk ("M" +:+ uuid8 amb n) nome crm especialidade horarios
              (agora_iso amb (S n))).
  assert (invariante s2) as Hinv2 by (by apply (invariante_ext s1)).
  assert (storage s2 = storage s) as Hst2' by congruence.
  apply wp_bind, wp_storage_adicionar; [done|apply colecao_medicos|]. intros s3 Hesc Htq3.
  rewrite Htq2 in *.
  destruct (escrita_ok amb (S (S n))) eqn:Hok.
  - apply wp_bind, wp_cache_invalidate_pattern. intros k s4 Hst4 Hsub4 Hpat4 Htq4.
    destruct Hesc as (Hent3 & Hd3 & Ho3).
    apply wp_ret, HQ.
    + apply (invariante_apos_escrita "medicos"
               (dados "medicos" s2 ++ [RMedico m]) s2 s3 s4); try done.
      * apply colecao_medicos.
      * intros _. apply Forall_app. split; [apply Hinv2|]. by repeat constructor.
      * intros _ id r _. apply find_app_Some.
    + exists n. fold m. rewrite Hok. split; [done|]. split; [congruence|]. split; [done|].
      rewrite !(dados_mesmo_storage s3 s4) by done.
      rewrite Hd3, Ho3, Ho3 by (done || apply colecao_pacientes || apply colecao_consultas).
      by rewrite !(dados_mesmo_storage s s2).
  - apply wp_ret, HQ.
    + by apply (invariante_escrito_igual "medicos" s2 s3); [apply colecao_medicos|..].
    + exists n. fold m. rewrite Hok. split; [done|]. split; [done|]. split; [done|].
      apply (mesmos_dados_trans s s2 s3); [by apply mesmos_dados_refl|].
      by apply (escrito_mesmos_dados "medicos"); [apply colecao_medicos|].
Qed.

Lemma substituir_find item_id (novo : registro) (l : list registro) r0 :
  List.find (JSONStorage.tem_id registro_id item_id) l = Some r0 →
  ∃ l1 l2, l = l1 ++ r0 :: l2
    ∧ Forall (λ x, registro_id x ≠ Some item_id) l1
    ∧ JSONStorage.substituir registro_id item_id novo l = Some (l1 ++ novo :: l2).
Proof.
  induction l as [|x l IH]; simpl; [done|].
  destruct (JSONStorage.tem_id registro_id item_id x) eqn:Hx.
  - intros [= <-]. exists [], l. split; [done|]. split; [constructor|done].
  - intros Hf. destruct (IH Hf) as (l1 & l2 & -> & Hl1 & ->).
    exists (x :: l1), l2. split; [done|]. split; [|done].
    constructor; [|done]. unfold JSONStorage.tem_id in Hx.
    by apply bool_decide_eq_false in Hx.
Qed.

Lemma wp_atualizar_paciente_spec paciente_id nome cpf telefone email Q s :
  invariante s →
  (∀ r s', invariante s' →
     atualizar_paciente_spec amb s paciente_id nome cpf telefone email r s' →
     Q (Some r) s') →
  wp (atualizar_paciente amb paciente_id nome cpf telefone email) Q s.
Proof.
  intros Hinv HQ. unfold atualizar_paciente. apply wp_tentar.
  apply wp_bind, wp_monotono; [apply monotono_buscar_paciente|].
  apply wp_buscar_paciente; [done..|]. intros s1 Hst1 Hinv1 Htq1.
  unfold atualizar_paciente_spec in HQ.
  destruct (paciente_de s paciente_id) as [paciente|] eqn:Hpac.
  2:{ apply wp_ret, HQ; [done|]. split; [done|]. by apply mesmos_dados_refl. }
  unfold paciente_de in Hpac.
  destruct (registro_de "pacientes" paciente_id s) as [r0|] eqn:Hr0; [|done].
  simpl in Hpac. apply como_paciente_RPaciente in Hpac as [-> Hid].
  pose proof (registro_de_id _ _ _ _ Hr0) as Hpid. simpl in Hpid. injection Hpid as Hpid.
  set (p' := Paciente.mk (Paciente.id paciente) nome cpf telefone email
               (Paciente.data_cadastro paciente)) in *.
  rewrite registro_de_dados in Hr0.
  destruct (substituir_find paciente_id (RPaciente p') _ _ Hr0) as (l1 & l2 & Hl & Hl1 & Hsub).
  apply wp_bind, wp_storage_atualizar; [done|apply colecao_pacientes|]. intros s2.
  rewrite (dados_mesmo_storage s s1), Hsub by done.
  intros Hesc Htq2. destruct (escrita_ok amb (tique s1)) eqn:Hok.
  - apply wp_bind, wp_cache_delete. intros b s3 Hst3 Hsub3 Hdel3 Htq3.
    apply wp_bind, wp_cache_invalidate_pattern. intros k s4 Hst4 Hsub4 Hpat4 Htq4.
    destruct Hesc as (Hent2 & Hd2 & Ho2).
    apply wp_ret, HQ.
    + apply (invariante_apos_escrita "pacientes" (l1 ++ RPaciente p' :: l2) s1 s2 s4);
        try done.
      * apply colecao_pacientes.
      * congruence.
      * intros k' v' Hk'. by apply Hsub3, Hsub4.
      * intros _. apply (substituir_Forall _ paciente_id (RPaciente p') (dados "pacientes" s));
          [|apply Hinv|done].
        simpl. by rewrite decide_False.
      * intros _ id r [v' Hv'] Hr. rewrite (dados_mesmo_storage s s1) in Hr by done.
        apply (find_substituir paciente_id id (RPaciente p') (dados "pacientes" s)); try done.
        -- simpl. by rewrite Hpid.
        -- intros ->. apply Hsub4 in Hv'. congruence.
    + exists (tique s1). rewrite Hok. split; [done|]. split; [congruence|].
      split; [done|]. split; [done|].
      split; [exists l1, l2; split; [done|]; split; [done|]|].
      * by rewrite (dados_mesmo_storage s3 s4), (dados_mesmo_storage s2 s3).
      * rewrite !(dados_mesmo_storage s3 s4), !(dados_mesmo_storage s2 s3) by done.
        rewrite !Ho2 by (done || apply colecao_medicos || apply colecao_consultas).
        by rewrite !(dados_mesmo_storage s s1).
  - apply wp_ret, HQ.
    + rewrite <- (dados_mesmo_storage s s1) in Hesc by done.
      by apply (invariante_escrito_igual "pacientes" s1 s2); [apply colecao_pacientes|..].
    + exists (tique s1). rewrite Hok. split; [done|]. split; [done|]. split; [done|].
      apply (mesmos_dados_trans s s1 s2); [by apply mesmos_dados_refl|].
      apply (escrito_mesmos_dados "pacientes"); [apply colecao_pacientes|].
      by rewrite (dados_mesmo_storage s s1).
Qed.

Lemma wp_atualizar_status_spec consulta_id novo_status Q s :
  invariante s →
  (∀ r s', invariante s' → atualizar_status_spec amb s consulta_id novo_status r s' →
           Q (Some r) s') →
  wp (atualizar_status_consulta amb consulta_id novo_status) Q s.
Proof.
  intros Hinv HQ. unfold atualizar_status_consulta. apply wp_tentar.
  apply wp_bind, wp_buscar_consulta; [done..|]. intros s0 Hst0 Hent0 Htq0.
  assert (invariante s0) as Hinv0 by (by apply (invariante_ext s)).
  unfold atualizar_status_spec in HQ.
  destruct (consulta_de s consulta_id) as [consulta|] eqn:Hcon.
  2:{ apply wp_ret, HQ; [done|]. split; [done|]. by apply mesmos_dados_refl. }
  unfold consulta_de in Hcon.
  destruct (registro_de "consultas" consulta_id s) as [r0|] eqn:Hr0; [|done].
  simpl in Hcon. apply como_consulta_RConsulta in Hcon as [-> Hid].
  pose proof (registro_de_id _ _ _ _ Hr0) as Hcid. simpl in Hcid. injection Hcid as Hcid.
  apply wp_bind, wp_ler. rewrite Htq0.
  set (s1 := avancar s0).
  assert (storage s1 = storage s) as Hst1 by done.
  assert (invariante s1) as Hinv1 by (by apply (invariante_ext s0)).
  set (r := Consulta.atualizar_status (agora_iso amb (tique s)) novo_status consulta) in *.
  assert (Consulta.id r.2 = Consulta.id consulta) as Hidr.
  { unfold r, Consulta.atualizar_status. by destruct (Consulta.status_valido novo_status). }
  assert (r.1 = Consulta.status_valido novo_status) as Hr1.
  { unfold r, Consulta.atualizar_status. by destruct (Consulta.status_valido novo_status). }
  rewrite Hr1. destruct (Consulta.status_valido novo_status).
  2:{ apply wp_ret, HQ; [done|]. split; [done|]. by apply mesmos_dados_refl. }
  rewrite registro_de_dados in Hr0.
  destruct (substituir_find consulta_id (RConsulta r.2) _ _ Hr0) as (l1 & l2 & Hl & Hl1 & Hsub).
  apply wp_bind, wp_storage_atualizar; [done|apply colecao_consultas|]. intros s2.
  rewrite (dados_mesmo_storage s s1), Hsub by done.
  assert (tique s1 = S (tique s)) as -> by (unfold s1; simpl; congruence).
  intros Hesc Htq2. destruct (escrita_ok amb (S (tique s))) eqn:Hok.
  - apply wp_bind, wp_cache_invalidate_pattern. intros k s4 Hst4 Hsub4 Hpat4 Htq4.
    destruct Hesc as (Hent2 & Hd2 & Ho2).
    apply wp_ret, HQ.
    + apply (invariante_apos_escrita "consultas" (l1 ++ RConsulta r.2 :: l2) s1 s2 s4);
        try done.
      * apply colecao_consultas.
      * intros _. apply (substituir_Forall _ consulta_id (RConsulta r.2) (dados "consultas" s));
          [|apply Hinv|done].
        simpl. rewrite Hidr. by rewrite decide_False.
    + split; [congruence|]. split; [done|]. split; [done|].
      split; [exists l1, l2; split; [done|]; split; [done|]|].
      * by rewrite (dados_mesmo_storage s2 s4).
      * rewrite !(dados_mesmo_storage s2 s4) by done.
        rewrite !Ho2 by (done || apply colecao_pacientes || apply colecao_medicos).
        by rewrite !(dados_mesmo_storage s s1).
  - apply wp_ret, HQ.
    + rewrite <- (dados_mesmo_storage s s1) in Hesc by done.
      by apply (invariante_escrito_igual "consultas" s1 s2); [apply colecao_consultas|..].
    + split; [done|]. split; [done|].
      apply (mesmos_dados_trans s s1 s2); [by apply mesmos_dados_refl|].
      apply (escrito_mesmos_dados "consultas"); [apply colecao_consultas|].
      by rewrite (dados_mesmo_storage s s1).
Qed.

Lemma executar_efeito ch s :
  invariante s → invariante (executar amb ch s) ∧ efeito amb ch s (executar amb ch s).
Proof.
  intros Hinv. set (P := λ s', invariante s' ∧ efeito amb ch s s').
  change (P (executar amb ch s)).
  assert (∀ s', storage s' = storage s → invariante s' → invariante s' ∧ mesmos_dados s s')
    as Hler.
  { intros s' Hst Hinv'. split; [done|]. by apply mesmos_dados_refl. }
  destruct ch; unfold executar, depois.
  - apply (wp_criar_paciente_spec _ _ _ _ (λ _, P)); [done|]. unfold P, efeito. eauto.
  - apply (wp_listar_pacientes amb (λ _, P)); [done|]. exact Hler.
  - apply (wp_buscar_paciente amb _ (λ _, P)); [done|]. exact Hler.
  - apply (wp_atualizar_paciente_spec _ _ _ _ _ (λ _, P)); [done|]. unfold P, efeito. eauto.
  - apply (wp_remover_paciente amb _ (λ _, P)); [done|]. unfold P, efeito. eauto.
  - apply (wp_criar_medico_spec _ _ _ _ (λ _, P)); [done|]. unfold P, efeito. eauto.
  - apply (wp_listar_medicos amb (λ _, P)); [done|]. exact Hler.
  - apply (wp_buscar_medico amb _ (λ _, P)); [done|]. exact Hler.
  - apply (wp_verificar_conflito amb _ _ _ _ (λ _, P)); [done|]. exact Hler.
  - apply (wp_agendar_consulta amb _ _ _ _ _ (λ _, P)); [done|]. unfold P, efeito. eauto.
  - apply (wp_listar_consultas amb (λ _, P)); [done|]. exact Hler.
  - unfold listar_consultas_paciente.
    apply (wp_bind _ _ (λ _, P)), (wp_listar_consultas amb); [done|].
    intros s' Hst Hinv'. apply wp_ret. by apply Hler.
  - unfold listar_consultas_medico.
    apply (wp_bind _ _ (λ _, P)), (wp_listar_consultas amb); [done|].
    intros s' Hst Hinv'. apply wp_ret. by apply Hler.
  - apply (wp_buscar_consulta amb _ (λ _, P)); [done|].
    intros s' Hst Hent _. apply Hler; [done|]. by apply (invariante_ext s).
  - apply (wp_atualizar_status_spec _ _ (λ _, P)); [done|]. unfold P, efeito. eauto.
  - apply (wp_atualizar_status_spec _ _ (λ _, P)); [done|]. unfold P, efeito. eauto.
  - unfold P, efeito. simpl. split; [|by apply mesmos_dados_refl].
    apply (invariante_sub s); [done| |done]. intros k v Hk. done.
Qed.
End EspecFacts.

(** ** What the methods of the service return in reachable states *)

Section MetodosTeoremas.
Variable amb : Ambiente.
Context `{!LeiturasOk amb}.
Implicit Types (s : Estado).

Lemma wp_resultado {A} (m : M A) (R : A → Estado → Prop) s :
  wp m (λ o s', ∃ r, o = Some r ∧ R r s') s → ∃ r, (m s).1 = Some r ∧ R r (m s).2.
Proof. done. Qed.

Lemma criar_paciente_resultado base_dir s nome cpf telefone email :
  alcancavel amb base_dir s →
  ∃ r, (criar_paciente amb nome cpf telefone email s).1 = Some r
       ∧ criar_paciente_spec amb s nome cpf telefone email r
           (criar_paciente amb nome cpf telefone email s).2.
Proof.
  intros Halc. apply wp_resultado, wp_criar_paciente_spec; [done| |].
  - by apply (alcancavel_invariante amb base_dir).
  - intros r s' _ Hspec. by exists r.
Qed.

Lemma criar_medico_resultado base_dir s nome crm especialidade horarios :
  alcancavel amb base_dir s →
  ∃ r, (criar_medico amb nome crm especialidade horarios s).1 = Some r
       ∧ criar_medico_spec amb s nome crm especialidade horarios r
           (criar_medico amb nome crm especialidade horarios s).2.
Proof.
  intros Halc. apply wp_resultado, wp_criar_medico_spec; [done| |].
  - by apply (alcancavel_invariante amb base_dir).
  - intros r s' _ Hspec. by exists r.
Qed.

Lemma atualizar_paciente_resultado base_dir s paciente_id nome cpf telefone email :
  alcancavel amb base_dir s →
  ∃ r, (atualizar_paciente amb paciente_id nome cpf telefone email s).1 = Some r
       ∧ atualizar_paciente_spec amb s paciente_id nome cpf telefone email r
           (atualizar_paciente amb paciente_id nome cpf telefone email s).2.
Proof.
  intros Halc. apply wp_resultado, wp_atualizar_paciente_spec; [done| |].
  - by apply (alcancavel_invariante amb base_dir).
  - intros r s' _ Hspec. by exists r.
Qed.

Lemma atualizar_status_resultado base_dir s consulta_id novo_status :
  alcancavel amb base_dir s →
  ∃ r, (atualizar_status_consulta amb consulta_id novo_status s).1 = Some r
       ∧ atualizar_status_spec amb s consulta_id novo_status r
           (atualizar_status_consulta amb consulta_id novo_status s).2.
Proof.
  intros Halc. apply wp_resultado, wp_atualizar_status_spec; [done| |].
  - by apply (alcancavel_invariante amb base_dir).
  - intros r s' _ Hspec. by exists r.
Qed.

Lemma omap_como_paciente (l : list registro) :
  Forall (λ r, is_Some (como_paciente r)) l → RPaciente <$> omap como_paciente l = l.
Proof.
  induction 1 as [|r l [p Hp] _ IH]; [done|]. simpl. rewrite Hp. simpl.
  apply como_paciente_RPaciente in Hp as [-> _]. f_equal. exact IH.
Qed.

Lemma omap_como_medico (l : list registro) :
  Forall (λ r, is_Some (como_medico r)) l → RMedico <$> omap como_medico l = l.
Proof.
  induction 1 as [|r l [p Hp] _ IH]; [done|]. simpl. rewrite Hp. simpl.
  apply como_medico_RMedico in Hp as [-> _]. f_equal. exact IH.
Qed.

Lemma omap_como_consulta (l : list registro) :
  Forall (λ r, is_Some (como_consulta r)) l → RConsulta <$> omap como_consulta l = l.
Proof.
  induction 1 as [|r l [p Hp] _ IH]; [done|]. simpl. rewrite Hp. simpl.
  apply como_consulta_RConsulta in Hp as [-> _]. f_equal. exact IH.
Qed.

Lemma paciente_de_registro s id :
  invariante s →
  match registro_de "pacientes" id s with
  | Some r => ∃ p, r = RPaciente p ∧ Paciente.id p = id ∧ paciente_de s id = Some p
  | None => paciente_de s id = None
  end.
Proof.
  intros [(Hp & _) _]. unfold paciente_de.
  destruct (registro_de "pacientes" id s) as [r|] eqn:Hr; [|done].
  pose proof (registro_de_id _ _ _ _ Hr) as Hid.
  rewrite registro_de_dados in Hr. apply find_elem_of in Hr.
  rewrite Forall_forall in Hp. destruct (Hp r Hr) as [p Hpp].
  pose proof Hpp as Hpp'. apply como_paciente_RPaciente in Hpp' as [-> _].
  exists p. simpl in Hid. split; [done|]. split; [congruence|done].
Qed.

Lemma medico_de_registro s id :
  invariante s →
  match registro_de "medicos" id s with
  | Some r => ∃ m, r = RMedico m ∧ Medico.id m = id ∧ medico_de s id = Some m
  | None => medico_de s id = None
  end.
Proof.
  intros [(_ & Hm & _) _]. unfold medico_de.
  destruct (registro_de "medicos" id s) as [r|] eqn:Hr; [|done].
  pose proof (registro_de_id _ _ _ _ Hr) as Hid.
  rewrite registro_de_dados in Hr. apply find_elem_of in Hr.
  rewrite Forall_forall in Hm. destruct (Hm r Hr) as [m Hmm].
  pose proof Hmm as Hmm'. apply como_medico_RMedico in Hmm' as [-> _].
  exists m. simpl in Hid. split; [done|]. split; [congruence|done].
Qed.

Lemma consulta_de_registro s id :
  invariante s →
  match registro_de "consultas" id s with
  | Some r => ∃ c, r = RConsulta c ∧ Consulta.id c = id ∧ consulta_de s id = Some c
  | None => consulta_de s id = None
  end.
Proof.
  intros [(_ & _ & Hc) _]. unfold consulta_de.
  destruct (registro_de "consultas" id s) as [r|] eqn:Hr; [|done].
  pose proof (registro_de_id _ _ _ _ Hr) as Hid.
  rewrite registro_de_dados in Hr. apply find_elem_of in Hr.
  rewrite Forall_forall in Hc. destruct (Hc r Hr) as [c Hcc].
  pose proof Hcc as Hcc'. apply como_consulta_RConsulta in Hcc' as [-> _].
  exists c. simpl in Hid. split; [done|]. split; [congruence|done].
Qed.

(** [buscar_consulta] does not go through the cache. *)
Lemma buscar_consulta_cache id s :
  cache_manager (buscar_consulta amb id s).2 = cache_manager s.
Proof.
  unfold buscar_consulta, storage_buscar_por_id, bind, ler_arquivo. simpl.
  destruct (JSONStorage.buscar_por_id _ _ _ _ _ _) as [[p|m|c]|]; simpl; try done.
  unfold Consulta_from_dict, bind, id_ou_novo. by destruct (Consulta.id c).
Qed.

Lemma tem_conflito_spec medico_id data hora consulta_id (cs : list Consulta.t) :
  tem_conflito medico_id data hora consulta_id cs = true
  ↔ ∃ c, c ∈ cs ∧ ¬ ignorada consulta_id c ∧ ocupa medico_id data hora c.
Proof.
  assert (∀ c, match consulta_id with
               | Some (String x i) => bool_decide (Consulta.id c = String x i)
               | _ => false
               end = true ↔ ignorada consulta_id c) as Hig.
  { intros c. unfold ignorada. destruct consulta_id as [[|x i]|].
    - split; [done|]. by intros (id & [= <-] & Hne & _).
    - rewrite bool_decide_eq_true. split.
      + intros Hc. by exists (String x i).
      + by intros (id & [= <-] & _ & Hc).
    - split; [done|]. by intros (id & ? & _). }
  unfold ocupa. induction cs as [|c cs IH]; simpl.
  - split; [done|]. intros (c & Hc & _). inversion Hc.
  - destruct (match consulta_id with
              | Some (String x i) => bool_decide (Consulta.id c = String x i)
              | _ => false
              end) eqn:Hc.
    { apply Hig in Hc. rewrite IH. split; intros (c' & Hc' & Hn & Hoc).
      - exists c'. split; [by right|done].
      - apply elem_of_cons in Hc' as [->|Hc']; [done|]. eauto. }
    assert (¬ ignorada consulta_id c) as Hnig.
    { intros H. apply Hig in H. congruence. }
    case_bool_decide as Hst; simpl.
    + rewrite IH. split; intros (c' & Hc' & Hn & Hoc).
      * exists c'. split; [by right|done].
      * apply elem_of_cons in Hc' as [->|Hc']; [tauto|]. eauto.
    + destruct (bool_decide (Consulta.medico_id c = medico_id)
                && bool_decide (Consulta.data c = data)
                && bool_decide (Consulta.hora c = hora)) eqn:Hm.
      * split; [|done]. intros _. exists c. split; [by left|]. split; [done|].
        apply andb_true_iff in Hm as [Hm H3]. apply andb_true_iff in Hm as [H1 H2].
        apply bool_decide_eq_true in H1, H2, H3. done.
      * rewrite IH. split; intros (c' & Hc' & Hn & Hoc).
        -- exists c'. split; [by right|done].
        -- apply elem_of_cons in Hc' as [->|Hc']; [|eauto].
           destruct Hoc as (_ & H1 & H2 & H3).
           rewrite !bool_decide_eq_true_2 in Hm by done. done.
Qed.
End MetodosTeoremas.

(** X15. In a reachable state, when the reads of the storage
    files are carried out, [criar_paciente] refuses a cpf that a stored
    patient has ("CPF já cadastrado") and stores nothing.  Otherwise it
    builds the patient with the id ["P"] followed by eight characters of a
    fresh uuid and with the date of the moment, and makes one write, its
    last reading of the environment: when that write succeeds the patient
    is appended to the patients and returned, when it fails the call
    returns "Erro ao salvar paciente" and stores nothing.  The doctors and
    the appointments are never touched. *)
Theorem criar_paciente_checks_cpf amb base_dir s nome cpf telefone email :
  LeiturasOk amb →
  alcancavel amb base_dir s →
  let chamada := criar_paciente amb nome cpf telefone email s in
  (cpf ∈ Paciente.cpf <$> pacientes s →
     chamada.1 = Some (false, CpfJaCadastrado, None) ∧ mesmos_dados s chamada.2)
  ∧ (cpf ∉ Paciente.cpf <$> pacientes s →
     ∃ n, (tique s ≤ n)%nat ∧ tique chamada.2 = S (S (S n)) ∧
       let p := Paciente.mk ("P" +:+ uuid8 amb n) nome cpf telefone email
                  (agora_iso amb (S n)) in
       if escrita_ok amb (leitura_da_escrita chamada.2) then
         chamada.1 = Some (true, PacienteCadastrado, Some p)
         ∧ pacientes_de chamada.2 = pacientes_de s ++ [RPaciente p]
         ∧ medicos_de chamada.2 = medicos_de s
         ∧ consultas_de chamada.2 = consultas_de s
       else chamada.1 = Some (false, ErroSalvarPaciente, None) ∧ mesmos_dados s chamada.2).
Proof.
  intros Hlei Halc chamada.
  destruct (criar_paciente_resultado amb base_dir s nome cpf telefone email Halc)
    as (r & Hr & Hspec).
  fold chamada in Hr, Hspec. unfold criar_paciente_spec in Hspec. split.
  - intros Hin. rewrite bool_decide_eq_true_2 in Hspec by done.
    destruct Hspec as [-> Hd]. done.
  - intros Hnin. rewrite bool_decide_eq_false_2 in Hspec by done.
    destruct Hspec as (n & Hn & Htq & Hspec). exists n. split; [done|]. split; [done|].
    unfold leitura_da_escrita. rewrite Htq. simpl.
    destruct (escrita_ok amb (S (S n))).
    + by destruct Hspec as (-> & ? & ? & ?).
    + by destruct Hspec as [-> ?].
Qed.

(** X16. The same for [criar_medico] and the crm: in a reachable
    state, when the reads of the storage files are carried out, a crm that
    a stored doctor has is refused ("CRM já cadastrado") and nothing is
    stored.  Otherwise the doctor, with the id ["M"] followed by eight
    characters of a fresh uuid and the list of times as given, is appended
    to the doctors when the write of the call succeeds; when it fails the
    call returns "Erro ao salvar médico" and stores nothing.  The patients
    and the appointments are never touched. *)
Theorem criar_medico_checks_crm amb base_dir s nome crm especialidade horarios :
  LeiturasOk amb →
  alcancavel amb base_dir s →
  let chamada := criar_medico amb nome crm especialidade horarios s in
  (crm ∈ Medico.crm <$> medicos s →
     chamada.1 = Some (false, CrmJaCadastrado, None) ∧ mesmos_dados s chamada.2)
  ∧ (crm ∉ Medico.crm <$> medicos s →
     ∃ n, (tique s ≤ n)%nat ∧ tique chamada.2 = S (S (S n)) ∧
       let m := Medico.mk ("M" +:+ uuid8 amb n) nome crm especialidade horarios
                  (agora_iso amb (S n)) in
       if escrita_ok amb (leitura_da_escrita chamada.2) then
         chamada.1 = Some (true, MedicoCadastrado, Some m)
         ∧ medicos_de chamada.2 = medicos_de s ++ [RMedico m]
         ∧ pacientes_de chamada.2 = pacientes_de s
         ∧ consultas_de chamada.2 = consultas_de s
       else chamada.1 = Some (false, ErroSalvarMedico, None) ∧ mesmos_dados s chamada.2).
Proof.
  intros Hlei Halc chamada.
  destruct (criar_medico_resultado amb base_dir s nome crm especialidade horarios Halc)
    as (r & Hr & Hspec).
  fold chamada in Hr, Hspec. unfold criar_medico_spec in Hspec. split.
  - intros Hin. rewrite bool_decide_eq_true_2 in Hspec by done.
    destruct Hspec as [-> Hd]. done.
  - intros Hnin. rewrite bool_decide_eq_false_2 in Hspec by done.
    destruct Hspec as (n & Hn & Htq & Hspec). exists n. split; [done|]. split; [done|].
    unfold leitura_da_escrita. rewrite Htq. simpl.
    destruct (escrita_ok amb (S (S n))).
    + by destruct Hspec as (-> & ? & ? & ?).
    + by destruct Hspec as [-> ?].
Qed.

(** X17. In a reachable state, when the reads of the
    storage files are carried out, [atualizar_paciente] returns "Paciente
    não encontrado" for an id that is not stored and writes nothing.  For a
    stored patient it makes one write, its last reading of the environment:
    when the write succeeds the record is replaced, in its place, by one
    with the new name, cpf, telephone and email and the old id and
    registration date; when it fails the call returns "Erro ao atualizar
    paciente" and stores nothing.  The other patients, the doctors and the
    appointments are never touched. *)
Theorem atualizar_paciente_replaces_record amb base_dir s
    paciente_id nome cpf telefone email :
  LeiturasOk amb →
  alcancavel amb base_dir s →
  let chamada := atualizar_paciente amb paciente_id nome cpf telefone email s in
  (paciente_de s paciente_id = None →
     chamada.1 = Some (false, PacienteNaoEncontrado) ∧ mesmos_dados s chamada.2)
  ∧ (∀ p, paciente_de s paciente_id = Some p →
       (tique s ≤ leitura_da_escrita chamada.2 < tique chamada.2)%nat ∧
       if escrita_ok amb (leitura_da_escrita chamada.2) then
         chamada.1 = Some (true, PacienteAtualizado)
         ∧ Paciente.id p = paciente_id
         ∧ substituido "pacientes" paciente_id (RPaciente p)
             (RPaciente (Paciente.mk (Paciente.id p) nome cpf telefone email
                           (Paciente.data_cadastro p))) s chamada.2
         ∧ medicos_de chamada.2 = medicos_de s
         ∧ consultas_de chamada.2 = consultas_de s
       else chamada.1 = Some (false, ErroAtualizarPaciente) ∧ mesmos_dados s chamada.2).
Proof.
  intros Hlei Halc chamada.
  destruct (atualizar_paciente_resultado amb base_dir s paciente_id nome cpf telefone email
              Halc) as (r & Hr & Hspec).
  fold chamada in Hr, Hspec. unfold atualizar_paciente_spec in Hspec. split.
  - intros Hp. rewrite Hp in Hspec. destruct Hspec as [-> Hd]. done.
  - intros p Hp. rewrite Hp in Hspec. destruct Hspec as (n & Hn & Htq & Hspec).
    unfold leitura_da_escrita. rewrite Htq. simpl. split; [lia|].
    destruct (escrita_ok amb n).
    + by destruct Hspec as (-> & ? & ? & ? & ?).
    + by destruct Hspec as [-> ?].
Qed.

(** X18. In a reachable state, when the reads of
    the storage files are carried out, [atualizar_status_consulta] returns
    "Consulta não encontrada" for an id that is not stored.  For a stored
    appointment and one of the four statuses it replaces the record, in its
    place, by one with the new status and the date of the moment as last
    update, whatever the old status was (a cancelled or done appointment
    can be set back to ['agendada']); the write is the call's last reading
    of the environment, and when it fails the call returns "Status
    inválido", the message it also returns for a status that is none of the
    four.  The patients and the doctors are never touched. *)
Theorem atualizar_status_consulta_sets_status amb base_dir s consulta_id novo_status :
  LeiturasOk amb →
  alcancavel amb base_dir s →
  let chamada := atualizar_status_consulta amb consulta_id novo_status s in
  (consulta_de s consulta_id = None →
     chamada.1 = Some (false, ConsultaNaoEncontrada) ∧ mesmos_dados s chamada.2)
  ∧ (∀ c, consulta_de s consulta_id = Some c →
       novo_status ∉ [Consulta.STATUS_AGENDADA; Consulta.STATUS_CONFIRMADA;
                      Consulta.STATUS_REALIZADA; Consulta.STATUS_CANCELADA] →
       chamada.1 = Some (false, StatusInvalido) ∧ mesmos_dados s chamada.2)
  ∧ (∀ c, consulta_de s consulta_id = Some c →
       novo_status ∈ [Consulta.STATUS_AGENDADA; Consulta.STATUS_CONFIRMADA;
                      Consulta.STATUS_REALIZADA; Consulta.STATUS_CANCELADA] →
       tique chamada.2 = S (S (tique s)) ∧
       if escrita_ok amb (leitura_da_escrita chamada.2) then
         chamada.1 = Some (true, StatusAtualizado novo_status)
         ∧ Consulta.id c = consulta_id
         ∧ substituido "consultas" consulta_id (RConsulta c)
             (RConsulta
                (Consulta.mk (Consulta.id c) (Consulta.paciente_id c) (Consulta.medico_id c)
                   (Consulta.data c) (Consulta.hora c) (Consulta.observacoes c)
                   novo_status (Consulta.data_criacao c) (agora_iso amb (tique s))))
             s chamada.2
         ∧ pacientes_de chamada.2 = pacientes_de s
         ∧ medicos_de chamada.2 = medicos_de s
       else chamada.1 = Some (false, StatusInvalido) ∧ mesmos_dados s chamada.2).
Proof.
  intros Hlei Halc chamada.
  destruct (atualizar_status_resultado amb base_dir s consulta_id novo_status Halc)
    as (r & Hr & Hspec).
  fold chamada in Hr, Hspec. unfold atualizar_status_spec in Hspec.
  split; [|split].
  - intros Hc. rewrite Hc in Hspec. destruct Hspec as [-> Hd]. done.
  - intros c Hc Hst. rewrite Hc in Hspec. unfold Consulta.status_valido in Hspec.
    rewrite bool_decide_eq_false_2 in Hspec by done. destruct Hspec as [-> Hd]. done.
  - intros c Hc Hst. rewrite Hc in Hspec.
    unfold Consulta.atualizar_status, Consulta.status_valido in Hspec.
    rewrite bool_decide_eq_true_2 in Hspec by done. simpl in Hspec.
    destruct Hspec as (Htq & Hspec). split; [done|].
    unfold leitura_da_escrita. rewrite Htq. simpl.
    destruct (escrita_ok amb (S (tique s))).
    + by destruct Hspec as (-> & ? & ? & ? & ?).
    + by destruct Hspec as [-> ?].
Qed.

(** X19. The cache is transparent for the three
    listings: in a reachable state, when the reads of the storage files are
    carried out, whatever the cache holds and whatever the clock says,
    [listar_pacientes], [listar_medicos] and [listar_consultas] return the
    records of the storage, all of them and in their order, and write
    nothing to the storage. *)
Theorem listings_return_the_stored_records amb base_dir s :
  LeiturasOk amb →
  alcancavel amb base_dir s →
  (∃ ps, (listar_pacientes amb s).1 = Some ps
         ∧ RPaciente <$> ps = JSONStorage.carregar json_load true "pacientes" (storage s)
         ∧ storage (listar_pacientes amb s).2 = storage s)
  ∧ (∃ ms, (listar_medicos amb s).1 = Some ms
         ∧ RMedico <$> ms = JSONStorage.carregar json_load true "medicos" (storage s)
         ∧ storage (listar_medicos amb s).2 = storage s)
  ∧ (∃ cs, (listar_consultas amb s).1 = Some cs
         ∧ RConsulta <$> cs = JSONStorage.carregar json_load true "consultas" (storage s)
         ∧ storage (listar_consultas amb s).2 = storage s).
Proof.
  intros Hlei Halc. pose proof (alcancavel_invariante amb base_dir s Halc) as Hinv.
  destruct Hinv as [(Hp & Hm & Hc) Hcoe].
  split; [|split].
  - apply (wp_resultado (listar_pacientes amb)
             (λ ps s', RPaciente <$> ps = dados "pacientes" s ∧ storage s' = storage s)).
    apply wp_listar_pacientes; [done..|]. intros s' Hst _.
    exists (pacientes s). split; [done|]. split; [by apply omap_como_paciente|done].
  - apply (wp_resultado (listar_medicos amb)
             (λ ms s', RMedico <$> ms = dados "medicos" s ∧ storage s' = storage s)).
    apply wp_listar_medicos; [done..|]. intros s' Hst _.
    exists (medicos s). split; [done|]. split; [by apply omap_como_medico|done].
  - apply (wp_resultado (listar_consultas amb)
             (λ cs s', RConsulta <$> cs = dados "consultas" s ∧ storage s' = storage s)).
    apply wp_listar_consultas; [done..|]. intros s' Hst _.
    exists (consultas s). split; [done|]. split; [by apply omap_como_consulta|done].
Qed.

(** X20. The cache is transparent for the lookups by
    id: in a reachable state, when the reads of the storage files are
    carried out, [buscar_paciente], [buscar_medico] and [buscar_consulta]
    return the first record of the storage under the id, or [None] when the
    storage holds no record under it, whatever the cache holds and whatever
    the clock says, and write nothing to the storage. *)
Theorem lookups_return_the_stored_record amb base_dir s id :
  LeiturasOk amb →
  alcancavel amb base_dir s →
  (match JSONStorage.buscar_por_id registro_id json_load true "pacientes" id (storage s) with
   | Some r => ∃ p, r = RPaciente p ∧ Paciente.id p = id
                    ∧ (buscar_paciente amb id s).1 = Some (Some p)
   | None => (buscar_paciente amb id s).1 = Some None
   end
   ∧ storage (buscar_paciente amb id s).2 = storage s)
  ∧ (match JSONStorage.buscar_por_id registro_id json_load true "medicos" id (storage s) with
     | Some r => ∃ m, r = RMedico m ∧ Medico.id m = id
                      ∧ (buscar_medico amb id s).1 = Some (Some m)
     | None => (buscar_medico amb id s).1 = Some None
     end
     ∧ storage (buscar_medico amb id s).2 = storage s)
  ∧ (match JSONStorage.buscar_por_id registro_id json_load true "consultas" id (storage s) with
     | Some r => ∃ c, r = RConsulta c ∧ Consulta.id c = id
                      ∧ (buscar_consulta amb id s).1 = Some (Some c)
     | None => (buscar_consulta amb id s).1 = Some None
     end
     ∧ storage (buscar_consulta amb id s).2 = storage s
     ∧ cache_manager (buscar_consulta amb id s).2 = cache_manager s).
Proof.
  intros Hlei Halc. pose proof (alcancavel_invariante amb base_dir s Halc) as Hinv.
  split; [|split].
  - assert ((buscar_paciente amb id s).1 = Some (paciente_de s id)
            ∧ storage (buscar_paciente amb id s).2 = storage s) as [Hr Hst].
    { by apply (wp_buscar_paciente amb id (λ o s', o = Some (paciente_de s id)
                                               ∧ storage s' = storage s)). }
    split; [|done]. pose proof (paciente_de_registro s id Hinv) as H.
    fold (registro_de "pacientes" id s).
    destruct (registro_de "pacientes" id s) as [r|].
    + destruct H as (p & -> & Hid & Hp). exists p. by rewrite Hr, Hp.
    + by rewrite Hr, H.
  - assert ((buscar_medico amb id s).1 = Some (medico_de s id)
            ∧ storage (buscar_medico amb id s).2 = storage s) as [Hr Hst].
    { by apply (wp_buscar_medico amb id (λ o s', o = Some (medico_de s id)
                                             ∧ storage s' = storage s)). }
    split; [|done]. pose proof (medico_de_registro s id Hinv) as H.
    fold (registro_de "medicos" id s).
    destruct (registro_de "medicos" id s) as [r|].
    + destruct H as (m & -> & Hid & Hm). exists m. by rewrite Hr, Hm.
    + by rewrite Hr, H.
  - assert ((buscar_consulta amb id s).1 = Some (consulta_de s id)
            ∧ storage (buscar_consulta amb id s).2 = storage s) as [Hr Hst].
    { by apply (wp_buscar_consulta amb id (λ o s', o = Some (consulta_de s id)
                                              ∧ storage s' = storage s)). }
    split; [|split; [done|apply buscar_consulta_cache]]. pose proof (consulta_de_registro s id Hinv) as H.
    fold (registro_de "consultas" id s).
    destruct (registro_de "consultas" id s) as [r|].
    + destruct H as (c & -> & Hid & Hc). exists c. by rewrite Hr, Hc.
    + by rewrite Hr, H.
Qed.

(** X21. [listar_consultas_paciente] and
    [listar_consultas_medico] return, in a reachable state and when the
    reads of the storage files are carried out, the stored appointments of
    the patient (of the doctor), in the order of the storage and whatever
    their status, and write nothing to the storage. *)
Theorem appointments_by_patient_and_doctor amb base_dir s id :
  LeiturasOk amb →
  alcancavel amb base_dir s →
  ∃ cs, RConsulta <$> cs = JSONStorage.carregar json_load true "consultas" (storage s)
    ∧ (listar_consultas_paciente amb id s).1
      = Some (List.filter (fun c => bool_decide (Consulta.paciente_id c = id)) cs)
    ∧ (listar_consultas_medico amb id s).1
      = Some (List.filter (fun c => bool_decide (Consulta.medico_id c = id)) cs)
    ∧ storage (listar_consultas_paciente amb id s).2 = storage s
    ∧ storage (listar_consultas_medico amb id s).2 = storage s.
Proof.
  intros Hlei Halc. pose proof (alcancavel_invariante amb base_dir s Halc) as Hinv.
  exists (consultas s). split; [apply omap_como_consulta, Hinv|].
  assert (wp (listar_consultas_paciente amb id)
            (λ o s', o = Some (List.filter (fun c => bool_decide (Consulta.paciente_id c = id))
                                 (consultas s)) ∧ storage s' = storage s) s) as [H1 H2].
  { unfold listar_consultas_paciente. apply wp_bind, wp_listar_consultas; [done..|].
    intros s' Hst _. by apply wp_ret. }
  assert (wp (listar_consultas_medico amb id)
            (λ o s', o = Some (List.filter (fun c => bool_decide (Consulta.medico_id c = id))
                                 (consultas s)) ∧ storage s' = storage s) s) as [H3 H4].
  { unfold listar_consultas_medico. apply wp_bind, wp_listar_consultas; [done..|].
    intros s' Hst _. by apply wp_ret. }
  done.
Qed.

(** X22. In a reachable state, when the reads
    of the storage files are carried out, [verificar_conflito] answers
    "Horário já ocupado para este médico" exactly when a stored appointment
    that is not cancelled has the doctor, date and time asked for, the
    appointment whose id is the [consulta_id] given being left out of the
    search (an empty [consulta_id] leaves none out); otherwise it answers
    "Horário disponível".  It writes nothing to the storage. *)
Theorem verificar_conflito_finds_live_appointments amb base_dir s
    medico_id data hora consulta_id :
  LeiturasOk amb →
  alcancavel amb base_dir s →
  let chamada := verificar_conflito amb medico_id data hora consulta_id s in
  storage chamada.2 = storage s
  ∧ (chamada.1 = Some (true, HorarioOcupado) ∨ chamada.1 = Some (false, HorarioDisponivel))
  ∧ (chamada.1 = Some (true, HorarioOcupado)
     ↔ ∃ c, c ∈ consultas s ∧ ¬ ignorada consulta_id c ∧ ocupa medico_id data hora c).
Proof.
  intros Hlei Halc. pose proof (alcancavel_invariante amb base_dir s Halc) as Hinv.
  assert (wp (verificar_conflito amb medico_id data hora consulta_id)
            (λ o s', o = Some (if tem_conflito medico_id data hora consulta_id (consultas s)
                               then (true, HorarioOcupado) else (false, HorarioDisponivel))
                     ∧ storage s' = storage s) s) as [H1 H2].
  { by apply wp_verificar_conflito. }
  simpl. split; [done|]. rewrite H1, <- tem_conflito_spec.
  destruct (tem_conflito medico_id data hora consulta_id (consultas s)).
  - split; [by left|done].
  - split; [by right|]. split; [intros [=]|done].
Qed.

(** X23. The handlers [except Exception] of the six methods that
    write never run in a reachable state, when the reads of the storage
    files are carried out: none of [criar_paciente], [atualizar_paciente],
    [remover_paciente], [criar_medico], [agendar_consulta] and
    [atualizar_status_consulta] raises or returns the message "Erro: ..." of
    its handler. *)
Theorem handlers_never_run amb base_dir s :
  LeiturasOk amb →
  alcancavel amb base_dir s →
  (∀ nome cpf telefone email,
     ∃ r, (criar_paciente amb nome cpf telefone email s).1 = Some r ∧ r.1.2 ≠ Erro)
  ∧ (∀ paciente_id nome cpf telefone email,
       ∃ r, (atualizar_paciente amb paciente_id nome cpf telefone email s).1 = Some r
            ∧ r.2 ≠ Erro)
  ∧ (∀ paciente_id, ∃ r, (remover_paciente amb paciente_id s).1 = Some r ∧ r.2 ≠ Erro)
  ∧ (∀ nome crm especialidade horarios,
       ∃ r, (criar_medico amb nome crm especialidade horarios s).1 = Some r ∧ r.1.2 ≠ Erro)
  ∧ (∀ paciente_id medico_id data hora observacoes,
       ∃ r, (agendar_consulta amb paciente_id medico_id data hora observacoes s).1 = Some r
            ∧ r.1.2 ≠ Erro)
  ∧ (∀ consulta_id novo_status,
       ∃ r, (atualizar_status_consulta amb consulta_id novo_status s).1 = Some r
            ∧ r.2 ≠ Erro).
Proof.
  intros Hlei Halc. pose proof (alcancavel_invariante amb base_dir s Halc) as Hinv.
  split; [|split; [|split; [|split; [|split]]]].
  - intros nome cpf telefone email.
    apply (wp_resultado _ (λ r _, r.1.2 ≠ Erro)), wp_criar_paciente_spec; [done..|].
    intros r s' _ Hspec. exists r. split; [done|]. unfold criar_paciente_spec in Hspec.
    destruct (bool_decide _); [by destruct Hspec as [-> _]|].
    destruct Hspec as (n & _ & _ & Hspec).
    destruct (escrita_ok amb _); by destruct Hspec as [-> _].
  - intros paciente_id nome cpf telefone email.
    apply (wp_resultado _ (λ r _, r.2 ≠ Erro)), wp_atualizar_paciente_spec; [done..|].
    intros r s' _ Hspec. exists r. split; [done|]. unfold atualizar_paciente_spec in Hspec.
    destruct (paciente_de s paciente_id); [|by destruct Hspec as [-> _]].
    destruct Hspec as (n & _ & _ & Hspec).
    destruct (escrita_ok amb _); by destruct Hspec as [-> _].
  - intros paciente_id.
    apply (wp_resultado _ (λ r _, r.2 ≠ Erro)), wp_remover_paciente; [done..|].
    intros r s' _ Hspec. exists r. split; [done|]. unfold remover_spec in Hspec.
    destruct (consultas_ativas s paciente_id); [|by destruct Hspec as [-> _]].
    destruct (bool_decide _); [|by destruct Hspec as [-> _]].
    destruct Hspec as (n & _ & _ & Hspec).
    destruct (escrita_ok amb _); by destruct Hspec as [-> _].
  - intros nome crm especialidade horarios.
    apply (wp_resultado _ (λ r _, r.1.2 ≠ Erro)), wp_criar_medico_spec; [done..|].
    intros r s' _ Hspec. exists r. split; [done|]. unfold criar_medico_spec in Hspec.
    destruct (bool_decide _); [by destruct Hspec as [-> _]|].
    destruct Hspec as (n & _ & _ & Hspec).
    destruct (escrita_ok amb _); by destruct Hspec as [-> _].
  - intros paciente_id medico_id data hora observacoes.
    apply (wp_resultado _ (λ r _, r.1.2 ≠ Erro)), wp_agendar_consulta; [done..|].
    intros r s' _ Hspec. exists r. split; [done|]. unfold agendar_spec in Hspec.
    destruct (paciente_de s paciente_id); [|by destruct Hspec as [-> _]].
    destruct (medico_de s medico_id); [|by destruct Hspec as [-> _]].
    destruct (bool_decide _); [|by destruct Hspec as [-> _]].
    destruct (tem_conflito _ _ _ _ _); [by destruct Hspec as [-> _]|].
    destruct Hspec as (n & _ & _ & Hspec).
    destruct (escrita_ok amb _); by destruct Hspec as [-> _].
  - intros consulta_id novo_status.
    apply (wp_resultado _ (λ r _, r.2 ≠ Erro)), wp_atualizar_status_spec; [done..|].
    intros r s' _ Hspec. exists r. split; [done|]. unfold atualizar_status_spec in Hspec.
    destruct (consulta_de s consulta_id); [|by destruct Hspec as [-> _]].
    destruct (Consulta.status_valido _); [|by destruct Hspec as [-> _]].
    destruct Hspec as [_ Hspec].
    destruct (escrita_ok amb _); by destruct Hspec as [-> _].
Qed.

(** ** Invariants of the stored data *)

Section InvariantesFacts.
Variable amb : Ambiente.
Context `{!LeiturasOk amb}.
Implicit Types (s : Estado).

Lemma consultas_dados s s' :
  dados "consultas" s' = dados "consultas" s → consultas s' = consultas s.
Proof. intros H. unfold consultas, consultas_de. by fold (dados "consultas" s'); rewrite H. Qed.

Lemma pacientes_dados s s' :
  dados "pacientes" s' = dados "pacientes" s → pacientes s' = pacientes s.
Proof. intros H. unfold pacientes, pacientes_de. by fold (dados "pacientes" s'); rewrite H. Qed.

Lemma consultas_substituido s s' id c c' :
  substituido "consultas" id (RConsulta c) (RConsulta c') s s' →
  Consulta.id c ≠ "" → Consulta.id c' = Consulta.id c →
  ∃ cs1 cs2, consultas s = cs1 ++ c :: cs2 ∧ consultas s' = cs1 ++ c' :: cs2.
Proof.
  intros (l1 & l2 & Hs & _ & Hs') Hid Hid'.
  exists (omap como_consulta l1), (omap como_consulta l2).
  unfold consultas, consultas_de. fold (dados "consultas" s) (dados "consultas" s').
  rewrite Hs, Hs', !omap_app. simpl. rewrite !decide_False by congruence. done.
Qed.

Lemma atualizar_status_campos agora novo_status c :
  let c' := (Consulta.atualizar_status agora novo_status c).2 in
  Consulta.id c' = Consulta.id c
  ∧ Consulta.paciente_id c' = Consulta.paciente_id c
  ∧ Consulta.medico_id c' = Consulta.medico_id c
  ∧ Consulta.data c' = Consulta.data c
  ∧ Consulta.hora c' = Consulta.hora c
  ∧ Consulta.observacoes c' = Consulta.observacoes c
  ∧ Consulta.data_criacao c' = Consulta.data_criacao c.
Proof. unfold Consulta.atualizar_status. by destruct (Consulta.status_valido novo_status). Qed.

Lemma consulta_de_id s id c : consulta_de s id = Some c → Consulta.id c ≠ "" ∧ Consulta.id c = id.
Proof.
  unfold consulta_de. destruct (registro_de "consultas" id s) as [r|] eqn:Hr; [|done].
  simpl. intros Hc. apply como_consulta_RConsulta in Hc as [-> Hne].
  apply registro_de_id in Hr. simpl in Hr. split; [done|congruence].
Qed.

(** *** One live appointment per slot *)

Lemma sem_conflitos_mesmas s s' :
  consultas s' = consultas s → sem_conflitos s → sem_conflitos s'.
Proof. unfold sem_conflitos. by intros ->. Qed.

Lemma sem_conflitos_nova s s' c :
  consultas s' = consultas s ++ [c] →
  ¬ horario_ocupado s (Consulta.medico_id c) (Consulta.data c) (Consulta.hora c) →
  sem_conflitos s → sem_conflitos s'.
Proof.
  intros Hcs Hlivre Hsem i j c1 c2 Hi Hj Hne H1 H2 (Hm & Hd & Hh).
  rewrite Hcs in Hi, Hj.
  apply lookup_app_Some in Hi as [Hi|[Hil Hi]], Hj as [Hj|[Hjl Hj]].
  - by apply (Hsem i j c1 c2).
  - apply list_lookup_singleton_Some in Hj as [_ <-].
    apply Hlivre. exists c1. split; [by eapply list_elem_of_lookup_2|done].
  - apply list_lookup_singleton_Some in Hi as [_ <-].
    apply Hlivre. exists c2. split; [by eapply list_elem_of_lookup_2|done].
  - apply list_lookup_singleton_Some in Hi as [Hi _], Hj as [Hj _]. lia.
Qed.

Lemma sem_conflitos_status s s' cs1 cs2 c c' :
  consultas s = cs1 ++ c :: cs2 → consultas s' = cs1 ++ c' :: cs2 →
  Consulta.medico_id c' = Consulta.medico_id c →
  Consulta.data c' = Consulta.data c →
  Consulta.hora c' = Consulta.hora c →
  (Consulta.status c' ≠ Consulta.STATUS_CANCELADA →
   Consulta.status c ≠ Consulta.STATUS_CANCELADA) →
  sem_conflitos s → sem_conflitos s'.
Proof.
  intros Hcs Hcs' Hm Hd Hh Hst Hsem i j c1 c2 Hi Hj Hne H1 H2 Hslot.
  rewrite Hcs' in Hi, Hj.
  assert (∀ k x, (cs1 ++ c' :: cs2) !! k = Some x →
            ∃ y, consultas s !! k = Some y
                 ∧ Consulta.medico_id y = Consulta.medico_id x
                 ∧ Consulta.data y = Consulta.data x
                 ∧ Consulta.hora y = Consulta.hora x
                 ∧ (Consulta.status x ≠ Consulta.STATUS_CANCELADA →
                    Consulta.status y ≠ Consulta.STATUS_CANCELADA)) as Hold.
  { intros k x Hk. rewrite Hcs.
    destruct (decide (k = length cs1)) as [->|Hk'].
    - rewrite list_lookup_middle in Hk by done. injection Hk as <-.
      exists c. by rewrite list_lookup_middle.
    - exists x. split; [|done].
      destruct (decide (k < length cs1)%nat).
      + rewrite lookup_app_l in Hk |- * by done. done.
      + rewrite lookup_app_r in Hk |- * by lia.
        destruct (k - length cs1)%nat as [|k0] eqn:Hk0; [lia|]. done. }
  destruct (Hold i c1 Hi) as (y1 & Hy1 & Hm1 & Hd1 & Hh1 & Hs1).
  destruct (Hold j c2 Hj) as (y2 & Hy2 & Hm2 & Hd2 & Hh2 & Hs2).
  apply (Hsem i j y1 y2); auto. destruct Hslot as (? & ? & ?). split; [|split]; congruence.
Qed.

Lemma efeito_sem_conflitos ch s s' :
  sem_mudar_status ch → efeito amb ch s s' → sem_conflitos s → sem_conflitos s'.
Proof.
  intros Hch Hef. destruct ch; simpl in Hch, Hef; try done;
    try (apply sem_conflitos_mesmas, consultas_dados, Hef, colecao_consultas).
  - destruct Hef as [r Hspec]. unfold criar_paciente_spec in Hspec.
    apply sem_conflitos_mesmas, consultas_dados.
    destruct (bool_decide _); [by apply Hspec, colecao_consultas|].
    destruct Hspec as (n & _ & _ & Hspec).
    destruct (escrita_ok amb _); [apply Hspec|by apply Hspec, colecao_consultas].
  - destruct Hef as [r Hspec]. unfold atualizar_paciente_spec in Hspec.
    apply sem_conflitos_mesmas, consultas_dados.
    destruct (paciente_de _ _); [|by apply Hspec, colecao_consultas].
    destruct Hspec as (n & _ & _ & Hspec).
    destruct (escrita_ok amb _); [apply Hspec|by apply Hspec, colecao_consultas].
  - destruct Hef as [r Hspec]. unfold remover_spec in Hspec.
    apply sem_conflitos_mesmas, consultas_dados.
    destruct (consultas_ativas _ _); [|by apply Hspec, colecao_consultas].
    case_bool_decide; [|by apply Hspec, colecao_consultas].
    destruct Hspec as (n & _ & _ & Hspec).
    destruct (escrita_ok amb _); [apply Hspec|by apply Hspec, colecao_consultas].
  - destruct Hef as [r Hspec]. unfold criar_medico_spec in Hspec.
    apply sem_conflitos_mesmas, consultas_dados.
    destruct (bool_decide _); [by apply Hspec, colecao_consultas|].
    destruct Hspec as (n & _ & _ & Hspec).
    destruct (escrita_ok amb _); [apply Hspec|by apply Hspec, colecao_consultas].
  - destruct Hef as [r Hspec]. unfold agendar_spec in Hspec.
    destruct (paciente_de _ _);
      [|by apply sem_conflitos_mesmas, consultas_dados, Hspec, colecao_consultas].
    destruct (medico_de _ _);
      [|by apply sem_conflitos_mesmas, consultas_dados, Hspec, colecao_consultas].
    destruct (bool_decide _);
      [|by apply sem_conflitos_mesmas, consultas_dados, Hspec, colecao_consultas].
    destruct (tem_conflito _ _ _ _ _) eqn:Htc;
      [by apply sem_conflitos_mesmas, consultas_dados, Hspec, colecao_consultas|].
    destruct Hspec as (n & _ & _ & Hspec).
    destruct (escrita_ok amb _);
      [|by apply sem_conflitos_mesmas, consultas_dados, Hspec, colecao_consultas].
    destruct Hspec as (_ & Hc & _).
    eapply sem_conflitos_nova.
    + eapply consultas_app; [|exact Hc]. done.
    + simpl. intros Hoc. apply tem_conflito_ocupa in Hoc. congruence.
  - destruct Hef as [r Hspec]. unfold atualizar_status_spec in Hspec.
    destruct (consulta_de s consulta_id) as [c|] eqn:Hc;
      [|by apply sem_conflitos_mesmas, consultas_dados, Hspec, colecao_consultas].
    simpl in Hspec. destruct Hspec as [_ Hspec].
    destruct (escrita_ok amb _);
      [|by apply sem_conflitos_mesmas, consultas_dados, Hspec, colecao_consultas].
    destruct Hspec as (_ & _ & Hsub & _).
    apply consulta_de_id in Hc as [Hne _].
    apply consultas_substituido in Hsub as (cs1 & cs2 & H1 & H2); [|done..].
    by apply (sem_conflitos_status s s' cs1 cs2 c _ H1 H2).
Qed.

Lemma sem_conflitos_inicial base_dir : sem_conflitos (estado_inicial base_dir).
Proof. intros i j c1 c2 Hi. done. Qed.

Lemma executar_todas_sem_conflitos (chs : list chamada) s :
  Forall sem_mudar_status chs → invariante s → sem_conflitos s →
  sem_conflitos (executar_todas amb chs s).
Proof.
  intros Hchs. unfold executar_todas. revert s.
  induction Hchs as [|ch chs Hch _ IH]; intros s0 Hinv Hsem; [done|]. simpl.
  destruct (executar_efeito amb ch s0 Hinv) as [Hinv' Hef].
  apply IH; [done|]. by apply (efeito_sem_conflitos ch s0).
Qed.

(** *** Distinct cpfs *)

Lemma omap_sublist {A B} (f : A → option B) (l1 l2 : list A) :
  l1 `sublist_of` l2 → omap f l1 `sublist_of` omap f l2.
Proof.
  induction 1 as [|x l1 l2 _ IH|x l1 l2 _ IH]; simpl.
  - constructor.
  - destruct (f x); [by constructor|done].
  - destruct (f x); [by constructor|done].
Qed.

Lemma List_filter_sublist {A} (p : A → bool) (l : list A) : List.filter p l `sublist_of` l.
Proof.
  induction l as [|x l IH]; simpl; [constructor|]. destruct (p x); by constructor.
Qed.

Lemma cpfs_mesmos s s' : pacientes s' = pacientes s → cpfs_distintos s → cpfs_distintos s'.
Proof. unfold cpfs_distintos. by intros ->. Qed.

Lemma efeito_cpfs ch s s' :
  sem_atualizar_paciente ch → efeito amb ch s s' → cpfs_distintos s → cpfs_distintos s'.
Proof.
  intros Hch Hef. destruct ch; simpl in Hch, Hef; try done;
    try (apply cpfs_mesmos, pacientes_dados, Hef, colecao_pacientes).
  - destruct Hef as [r Hspec]. unfold criar_paciente_spec in Hspec.
    case_bool_decide as Hcpf; [by apply cpfs_mesmos, pacientes_dados, Hspec, colecao_pacientes|].
    destruct Hspec as (n & _ & _ & Hspec).
    destruct (escrita_ok amb _);
      [|by apply cpfs_mesmos, pacientes_dados, Hspec, colecao_pacientes].
    destruct Hspec as (_ & Hp & _). unfold cpfs_distintos, pacientes, pacientes_de.
    fold (dados "pacientes" s) (dados "pacientes" s'). rewrite Hp, omap_app. simpl.
    rewrite fmap_app. intros Hnd. apply NoDup_app. split; [done|]. split.
    + intros x Hx Hx'. apply list_elem_of_singleton in Hx' as ->. done.
    + apply NoDup_singleton.
  - destruct Hef as [r Hspec]. unfold remover_spec in Hspec.
    destruct (consultas_ativas _ _);
      [|by apply cpfs_mesmos, pacientes_dados, Hspec, colecao_pacientes].
    case_bool_decide; [|by apply cpfs_mesmos, pacientes_dados, Hspec, colecao_pacientes].
    destruct Hspec as (n & _ & _ & Hspec).
    destruct (escrita_ok amb _);
      [|by apply cpfs_mesmos, pacientes_dados, Hspec, colecao_pacientes].
    destruct Hspec as (_ & Hp & _). unfold cpfs_distintos, pacientes, pacientes_de.
    fold (dados "pacientes" s) (dados "pacientes" s'). rewrite Hp. intros Hnd.
    eapply sublist_NoDup; [exact Hnd|].
    apply fmap_sublist, omap_sublist, List_filter_sublist.
  - destruct Hef as [r Hspec]. unfold criar_medico_spec in Hspec.
    apply cpfs_mesmos, pacientes_dados.
    destruct (bool_decide _); [by apply Hspec, colecao_pacientes|].
    destruct Hspec as (n & _ & _ & Hspec).
    destruct (escrita_ok amb _); [apply Hspec|by apply Hspec, colecao_pacientes].
  - destruct Hef as [r Hspec]. unfold agendar_spec in Hspec.
    apply cpfs_mesmos, pacientes_dados.
    destruct (paciente_de _ _); [|by apply Hspec, colecao_pacientes].
    destruct (medico_de _ _); [|by apply Hspec, colecao_pacientes].
    destruct (bool_decide _); [|by apply Hspec, colecao_pacientes].
    destruct (tem_conflito _ _ _ _ _); [by apply Hspec, colecao_pacientes|].
    destruct Hspec as (n & _ & _ & Hspec).
    destruct (escrita_ok amb _); [apply Hspec|by apply Hspec, colecao_pacientes].
  - destruct Hef as [r Hspec]. unfold atualizar_status_spec in Hspec.
    apply cpfs_mesmos, pacientes_dados.
    destruct (consulta_de _ _); [|by apply Hspec, colecao_pacientes].
    destruct (Consulta.status_valido _); [|by apply Hspec, colecao_pacientes].
    destruct Hspec as [_ Hspec].
    destruct (escrita_ok amb _); [apply Hspec|by apply Hspec, colecao_pacientes].
  - destruct Hef as [r Hspec]. unfold atualizar_status_spec in Hspec.
    apply cpfs_mesmos, pacientes_dados.
    destruct (consulta_de _ _); [|by apply Hspec, colecao_pacientes].
    destruct (Consulta.status_valido _); [|by apply Hspec, colecao_pacientes].
    destruct Hspec as [_ Hspec].
    destruct (escrita_ok amb _); [apply Hspec|by apply Hspec, colecao_pacientes].
Qed.

Lemma executar_todas_cpfs (chs : list chamada) s :
  Forall sem_atualizar_paciente chs → invariante s → cpfs_distintos s →
  cpfs_distintos (executar_todas amb chs s).
Proof.
  intros Hchs. unfold executar_todas. revert s.
  induction Hchs as [|ch chs Hch _ IH]; intros s0 Hinv Hnd; [done|]. simpl.
  destruct (executar_efeito amb ch s0 Hinv) as [Hinv' Hef].
  apply IH; [done|]. by apply (efeito_cpfs ch s0).
Qed.

(** *** Appointments and their doctors *)

Lemma medicos_integros_mesmos s s' :
  consultas s' = consultas s → dados "medicos" s' = dados "medicos" s →
  medicos_integros s → medicos_integros s'.
Proof.
  intros Hc Hm Hint c Hin. rewrite Hc in Hin. destruct (Hint c Hin) as (m & Hmd & Hh).
  exists m. split; [|done]. by rewrite (medico_de_dados s s').
Qed.

Lemma mesmos_dados_integros s s' :
  mesmos_dados s s' → medicos_integros s → medicos_integros s'.
Proof.
  intros H. apply medicos_integros_mesmos.
  - apply consultas_dados, H, colecao_consultas.
  - apply H, colecao_medicos.
Qed.

Lemma medico_de_app s s' id m m' :
  dados "medicos" s' = dados "medicos" s ++ [RMedico m'] →
  medico_de s id = Some m → medico_de s' id = Some m.
Proof.
  unfold medico_de. rewrite !registro_de_dados. intros ->.
  destruct (List.find _ (dados "medicos" s)) as [r|] eqn:Hr; [|done].
  by rewrite (find_app_Some _ _ _ _ Hr).
Qed.

Lemma status_medicos_integros s s' consulta_id c0 agora novo_status :
  consulta_de s consulta_id = Some c0 →
  substituido "consultas" consulta_id (RConsulta c0)
    (RConsulta (Consulta.atualizar_status agora novo_status c0).2) s s' →
  dados "medicos" s' = dados "medicos" s →
  medicos_integros s → medicos_integros s'.
Proof.
  intros Hc0 Hsub Hm.
  pose proof (atualizar_status_campos agora novo_status c0) as (Hi & _ & Hmi & _ & Hh & _).
  apply consulta_de_id in Hc0 as [Hne _].
  apply consultas_substituido in Hsub as (cs1 & cs2 & H1 & H2); [|done..].
  intros Hint c Hin. rewrite H2 in Hin.
  assert (∃ c1, c1 ∈ consultas s ∧ Consulta.medico_id c1 = Consulta.medico_id c
                ∧ Consulta.hora c1 = Consulta.hora c) as (c1 & Hc1 & Hm1 & Hh1).
  { rewrite H1. apply elem_of_app in Hin as [Hin|Hin].
    - exists c. split; [|done]. apply elem_of_app. by left.
    - apply elem_of_cons in Hin as [->|Hin].
      + exists c0. split; [|done]. apply elem_of_app. right. by left.
      + exists c. split; [|done]. apply elem_of_app. right. by right. }
  destruct (Hint c1 Hc1) as (m & Hmd & Hhm). exists m.
  rewrite <- Hm1, <- Hh1. split; [|done]. by rewrite (medico_de_dados s s').
Qed.

Lemma efeito_medicos_integros ch s s' :
  efeito amb ch s s' → medicos_integros s → medicos_integros s'.
Proof.
  intros Hef. destruct ch; simpl in Hef; try (by apply mesmos_dados_integros).
  - destruct Hef as [r Hspec]. unfold criar_paciente_spec in Hspec.
    destruct (bool_decide _); [by apply mesmos_dados_integros, Hspec|].
    destruct Hspec as (n & _ & _ & Hspec).
    destruct (escrita_ok amb _); [|by apply mesmos_dados_integros, Hspec].
    destruct Hspec as (_ & _ & Hm & Hc). by apply medicos_integros_mesmos; [apply consultas_dados|].
  - destruct Hef as [r Hspec]. unfold atualizar_paciente_spec in Hspec.
    destruct (paciente_de _ _); [|by apply mesmos_dados_integros, Hspec].
    destruct Hspec as (n & _ & _ & Hspec).
    destruct (escrita_ok amb _); [|by apply mesmos_dados_integros, Hspec].
    destruct Hspec as (_ & _ & _ & Hm & Hc).
    by apply medicos_integros_mesmos; [apply consultas_dados|].
  - destruct Hef as [r Hspec]. unfold remover_spec in Hspec.
    destruct (consultas_ativas _ _); [|by apply mesmos_dados_integros, Hspec].
    case_bool_decide; [|by apply mesmos_dados_integros, Hspec].
    destruct Hspec as (n & _ & _ & Hspec).
    destruct (escrita_ok amb _); [|by apply mesmos_dados_integros, Hspec].
    destruct Hspec as (_ & _ & Hm & Hc). by apply medicos_integros_mesmos; [apply consultas_dados|].
  - destruct Hef as [r Hspec]. unfold criar_medico_spec in Hspec.
    destruct (bool_decide _); [by apply mesmos_dados_integros, Hspec|].
    destruct Hspec as (n & _ & _ & Hspec).
    destruct (escrita_ok amb _); [|by apply mesmos_dados_integros, Hspec].
    destruct Hspec as (_ & Hm & _ & Hc). intros Hint c Hin.
    rewrite (consultas_dados s s' Hc) in Hin. destruct (Hint c Hin) as (m & Hmd & Hh).
    exists m. split; [|done]. by eapply medico_de_app.
  - destruct Hef as [r Hspec]. unfold agendar_spec in Hspec.
    destruct (paciente_de _ _); [|by apply mesmos_dados_integros, Hspec].
    destruct (medico_de s medico_id) as [medico|] eqn:Hmed;
      [|by apply mesmos_dados_integros, Hspec].
    case_bool_decide as Hhora; [|by apply mesmos_dados_integros, Hspec].
    destruct (tem_conflito _ _ _ _ _); [by apply mesmos_dados_integros, Hspec|].
    destruct Hspec as (n & _ & _ & Hspec).
    destruct (escrita_ok amb _); [|by apply mesmos_dados_integros, Hspec].
    destruct Hspec as (_ & Hc & _ & Hm). intros Hint c Hin.
    erewrite consultas_app in Hin; [| |exact Hc]; [|done].
    apply elem_of_app in Hin as [Hin|Hin].
    + destruct (Hint c Hin) as (m & Hmd & Hh). exists m. split; [|done].
      by rewrite (medico_de_dados s s').
    + apply list_elem_of_singleton in Hin as ->. simpl. exists medico.
      split; [|done]. by rewrite (medico_de_dados s s').
  - destruct Hef as [r Hspec]. unfold atualizar_status_spec in Hspec.
    destruct (consulta_de s consulta_id) as [c0|] eqn:Hc0;
      [|by apply mesmos_dados_integros, Hspec].
    destruct (Consulta.status_valido _); [|by apply mesmos_dados_integros, Hspec].
    destruct Hspec as [_ Hspec].
    destruct (escrita_ok amb _); [|by apply mesmos_dados_integros, Hspec].
    destruct Hspec as (_ & _ & Hsub & _ & Hm).
    by apply (status_medicos_integros s s' consulta_id c0 _ _ Hc0 Hsub).
  - destruct Hef as [r Hspec]. unfold atualizar_status_spec in Hspec.
    destruct (consulta_de s consulta_id) as [c0|] eqn:Hc0;
      [|by apply mesmos_dados_integros, Hspec].
    destruct (Consulta.status_valido _); [|by apply mesmos_dados_integros, Hspec].
    destruct Hspec as [_ Hspec].
    destruct (escrita_ok amb _); [|by apply mesmos_dados_integros, Hspec].
    destruct Hspec as (_ & _ & Hsub & _ & Hm).
    by apply (status_medicos_integros s s' consulta_id c0 _ _ Hc0 Hsub).
Qed.

Lemma alcancavel_medicos_integros base_dir s :
  alcancavel amb base_dir s → medicos_integros s.
Proof.
  intros [chs ->]. unfold executar_todas.
  assert (∀ s0, invariante s0 → medicos_integros s0 →
            medicos_integros (foldl (fun s' ch => executar amb ch s') s0 chs)) as H.
  { induction chs as [|ch chs IH]; intros s0 Hinv Hint; [done|]. simpl.
    destruct (executar_efeito amb ch s0 Hinv) as [Hinv' Hef].
    apply IH; [done|]. by apply (efeito_medicos_integros ch s0). }
  apply H; [apply invariante_inicial|]. intros c Hc. inversion Hc.
Qed.

(** *** Cancelling and booking again *)

Lemma consulta_de_elem s id c : consulta_de s id = Some c → c ∈ consultas s.
Proof.
  unfold consulta_de. destruct (registro_de "consultas" id s) as [r|] eqn:Hr; [|done].
  simpl. intros Hc. rewrite registro_de_dados in Hr. apply find_elem_of in Hr.
  unfold consultas, consultas_de. fold (dados "consultas" s).
  apply list_elem_of_omap. by exists r.
Qed.

Lemma substituido_posicao s s' id c c' :
  substituido "consultas" id (RConsulta c) (RConsulta c') s s' →
  consulta_de s id = Some c → Consulta.id c' = Consulta.id c →
  ∃ cs1 cs2, consultas s = cs1 ++ c :: cs2 ∧ consultas s' = cs1 ++ c' :: cs2.
Proof.
  intros Hsub Hc Hid. apply consulta_de_id in Hc as [Hne _].
  by apply (consultas_substituido s s' id).
Qed.
End InvariantesFacts.

(** X24. When the reads of the storage files are carried
    out, no sequence of calls without [atualizar_status_consulta] stores
    two live appointments for the same doctor, date and time: bookings are
    checked, and cancellations, like the calls on patients and doctors,
    cannot create a conflict.  (The sequence may cancel as often as it
    likes; what it may not do is set a status by
    [atualizar_status_consulta], the one call that can bring a cancelled
    appointment back.) *)
Theorem one_live_appointment_per_slot amb base_dir (chs : list chamada) :
  LeiturasOk amb →
  Forall sem_mudar_status chs →
  sem_conflitos (executar_todas amb chs (estado_inicial base_dir)).
Proof.
  intros Hlei Hchs. apply executar_todas_sem_conflitos; [done..| |].
  - apply invariante_inicial.
  - apply sem_conflitos_inicial.
Qed.

(** X25. When the reads of the storage files are carried
    out, no sequence of calls without [atualizar_paciente] stores two
    patients with the same cpf: [criar_paciente] checks the cpf, and
    removals keep the remaining cpfs distinct. *)
Theorem cpfs_distinct_without_updates amb base_dir (chs : list chamada) :
  LeiturasOk amb →
  Forall sem_atualizar_paciente chs →
  cpfs_distintos (executar_todas amb chs (estado_inicial base_dir)).
Proof.
  intros Hlei Hchs. apply executar_todas_cpfs; [done..| |].
  - apply invariante_inicial.
  - apply NoDup_nil_2.
Qed.

(** X26. In every state reached while the reads of the
    storage files are carried out, every stored appointment, whatever its
    status, is with a stored doctor and at one of that doctor's times:
    [agendar_consulta] checks both, and no call removes a doctor or changes
    a doctor's times or an appointment's doctor and time. *)
Theorem appointments_keep_their_doctor amb base_dir s :
  LeiturasOk amb →
  alcancavel amb base_dir s →
  ∀ c, c ∈ consultas s →
    ∃ m, medico_de s (Consulta.medico_id c) = Some m
         ∧ Consulta.hora c ∈ Medico.horarios_disponiveis m.
Proof. intros Hlei. by apply alcancavel_medicos_integros. Qed.

(** X27. Cancelling frees the slot.  In a reachable
    state without conflicts, when the reads and the writes of the storage
    files are carried out, [cancelar_consulta] of a stored live appointment
    succeeds, and right after it [agendar_consulta] for the doctor, date
    and time of the cancelled appointment succeeds for any stored
    patient. *)
Theorem cancelled_slot_can_be_booked_again amb base_dir s
    consulta_id c paciente_id observacoes :
  LeiturasOk amb →
  EscritasOk amb →
  alcancavel amb base_dir s →
  sem_conflitos s →
  consulta_de s consulta_id = Some c →
  Consulta.status c ≠ Consulta.STATUS_CANCELADA →
  is_Some (paciente_de s paciente_id) →
  let cancelamento := cancelar_consulta amb consulta_id s in
  let agendamento :=
    agendar_consulta amb paciente_id (Consulta.medico_id c) (Consulta.data c)
      (Consulta.hora c) observacoes cancelamento.2 in
  cancelamento.1 = Some (true, StatusAtualizado Consulta.STATUS_CANCELADA)
  ∧ ∃ nova,
      agendamento.1 = Some (true, ConsultaAgendada, Some nova)
      ∧ Consulta.paciente_id nova = paciente_id
      ∧ Consulta.medico_id nova = Consulta.medico_id c
      ∧ Consulta.data nova = Consulta.data c
      ∧ Consulta.hora nova = Consulta.hora c
      ∧ Consulta.status nova = Consulta.STATUS_AGENDADA
      ∧ nova ∈ consultas agendamento.2.
Proof.
  intros Hlei Hok Halc Hsem Hc Hlive Hp cancelamento agendamento.
  pose proof (alcancavel_invariante amb base_dir s Halc) as Hinv.
  destruct (alcancavel_medicos_integros amb base_dir s Halc c (consulta_de_elem s _ c Hc))
    as (m & Hm & Hh).
  destruct (wp_resultado (cancelar_consulta amb consulta_id)
              (λ r s', invariante s'
                 ∧ atualizar_status_spec amb s consulta_id Consulta.STATUS_CANCELADA r s') s)
    as (r & Hr & Hinv1 & Hspec).
  { apply wp_atualizar_status_spec; [done..|]. intros r s' ? ?. by exists r. }
  fold cancelamento in Hr, Hinv1, Hspec.
  unfold atualizar_status_spec in Hspec. rewrite Hc in Hspec. simpl in Hspec.
  rewrite (escritas_ok _) in Hspec. destruct Hspec as (_ & -> & _ & Hsub & Hdp & Hdm).
  split; [done|].
  set (c' := (Consulta.atualizar_status (agora_iso amb (tique s))
                Consulta.STATUS_CANCELADA c).2) in *.
  destruct (substituido_posicao s cancelamento.2 consulta_id c c' Hsub Hc eq_refl)
    as (cs1 & cs2 & H1 & H2).
  assert (¬ horario_ocupado cancelamento.2 (Consulta.medico_id c) (Consulta.data c)
            (Consulta.hora c)) as Hlivre.
  { intros (x & Hx & Hst & Hxm & Hxd & Hxh). rewrite H2 in Hx.
    apply list_elem_of_lookup_1 in Hx as [k Hk].
    destruct (decide (k = length cs1)) as [->|Hne].
    - rewrite list_lookup_middle in Hk by done. injection Hk as <-. by apply Hst.
    - apply (Hsem k (length cs1) x c); try done.
      + rewrite H1. destruct (decide (k < length cs1)%nat).
        * rewrite lookup_app_l in Hk |- * by done. done.
        * rewrite lookup_app_r in Hk |- * by lia.
          destruct (k - length cs1)%nat as [|k0] eqn:Hk0; [lia|]. done.
      + rewrite H1. by rewrite list_lookup_middle. }
  destruct (wp_resultado
              (agendar_consulta amb paciente_id (Consulta.medico_id c) (Consulta.data c)
                 (Consulta.hora c) observacoes)
              (λ r s', agendar_spec amb cancelamento.2 paciente_id (Consulta.medico_id c)
                         (Consulta.data c) (Consulta.hora c) observacoes r s')
              cancelamento.2) as (r & Hr' & Hspec).
  { apply wp_agendar_consulta; [done..|]. intros r s' ? ?. by exists r. }
  fold agendamento in Hr', Hspec. unfold agendar_spec in Hspec.
  destruct Hp as [p Hp].
  rewrite (paciente_de_dados s cancelamento.2), Hp in Hspec by done.
  rewrite (medico_de_dados s cancelamento.2), Hm in Hspec by done.
  rewrite bool_decide_eq_true_2 in Hspec by done.
  destruct (tem_conflito _ _ _ None (consultas cancelamento.2)) eqn:Htc.
  { exfalso. apply Hlivre. by apply tem_conflito_ocupa. }
  destruct Hspec as (n & _ & _ & Hspec). rewrite (escritas_ok _) in Hspec.
  destruct Hspec as (-> & Hdc & _).
  eexists. split; [exact Hr'|]. do 5 (split; [done|]).
  erewrite consultas_app; [| |exact Hdc]; [|done]. apply elem_of_app. right. by left.
Qed.

(** ** Two threads that book different slots *)

Section OutrosHorarios.
Variable amb : Ambiente.
Context `{!LeiturasOk amb} `{!EscritasOk amb}.
Implicit Types (s : Estado).

(** A booking that finds its slot free succeeds and takes no other slot. *)
Lemma agendar_secao_outro paciente_id medico_id data hora observacoes medico s :
  invariante s →
  is_Some (paciente_de s paciente_id) →
  medico_de s medico_id = Some medico →
  hora ∈ Medico.horarios_disponiveis medico →
  ¬ horario_ocupado s medico_id data hora →
  let r := correr (agendar_secao amb paciente_id medico_id data hora observacoes) s in
  sucesso r.1
  ∧ invariante r.2
  ∧ dados "pacientes" r.2 = dados "pacientes" s
  ∧ dados "medicos" r.2 = dados "medicos" s
  ∧ ∀ medico_id' data' hora',
      ¬ (medico_id' = medico_id ∧ data' = data ∧ hora' = hora) →
      ¬ horario_ocupado s medico_id' data' hora' →
      ¬ horario_ocupado r.2 medico_id' data' hora'.
Proof.
  intros Hinv [p Hp] Hm Hh Hlivre r.
  destruct (agendar_secao_spec amb paciente_id medico_id data hora observacoes s Hinv)
    as [Hinv' Hspec].
  fold r in Hinv', Hspec. unfold agendar_spec in Hspec. rewrite Hp, Hm in Hspec.
  rewrite bool_decide_eq_true_2 in Hspec by done.
  destruct (tem_conflito medico_id data hora None (consultas s)) eqn:Hc.
  { exfalso. apply Hlivre. by apply tem_conflito_ocupa. }
  destruct Hspec as (n & _ & _ & Hspec). rewrite (escritas_ok _) in Hspec.
  destruct Hspec as (Hr & Hdc & Hdp & Hdm).
  split; [by eexists|]. split; [done|]. split; [done|]. split; [done|].
  intros medico_id' data' hora' Hne Hlivre' (x & Hx & Hst & Hxm & Hxd & Hxh).
  erewrite consultas_app in Hx; [| |exact Hdc]; [|done].
  apply elem_of_app in Hx as [Hx|Hx].
  - apply Hlivre'. by exists x.
  - apply list_elem_of_singleton in Hx as ->. simpl in *. by apply Hne.
Qed.
End OutrosHorarios.

(** X28. Two threads that call [agendar_consulta]
    for two different slots (another doctor, date or time), each free and
    each at one of its doctor's times, for stored patients: when the reads
    and the writes of the storage files are carried out, every interleaving
    of their steps can be continued until both calls have returned, and
    whenever both have returned both have booked.  The lock orders the two
    calls, and the one that comes second is not refused. *)
Theorem concurrent_bookings_of_different_slots amb base_dir s
    paciente1 medico_id1 data1 hora1 obs1 medico1
    paciente2 medico_id2 data2 hora2 obs2 medico2 :
  LeiturasOk amb →
  EscritasOk amb →
  alcancavel amb base_dir s →
  is_Some (paciente_de s paciente1) →
  is_Some (paciente_de s paciente2) →
  medico_de s medico_id1 = Some medico1 →
  hora1 ∈ Medico.horarios_disponiveis medico1 →
  medico_de s medico_id2 = Some medico2 →
  hora2 ∈ Medico.horarios_disponiveis medico2 →
  ¬ horario_ocupado s medico_id1 data1 hora1 →
  ¬ horario_ocupado s medico_id2 data2 hora2 →
  ¬ (medico_id1 = medico_id2 ∧ data1 = data2 ∧ hora1 = hora2) →
  let apos agenda :=
    executar_agenda agenda
      (sistema_inicial s
         (agendar_secao amb paciente1 medico_id1 data1 hora1 obs1)
         (agendar_secao amb paciente2 medico_id2 data2 hora2 obs2)) in
  (∀ agenda, ∃ resto r1 r2,
      fio1 (apos (agenda ++ resto)) = Terminou r1
      ∧ fio2 (apos (agenda ++ resto)) = Terminou r2)
  ∧ (∀ agenda r1 r2,
      fio1 (apos agenda) = Terminou r1 →
      fio2 (apos agenda) = Terminou r2 →
      sucesso r1 ∧ sucesso r2).
Proof.
  intros Hlei Hok Halc Hp1 Hp2 Hm1 Hh1 Hm2 Hh2 Hl1 Hl2 Hne apos.
  split; [intros agenda; apply agenda_termina|].
  intros agenda r1 r2 Hf1 Hf2.
  pose proof (alcancavel_invariante amb base_dir s Halc) as Hinv.
  destruct (agenda_serializada s _ _ agenda r1 r2 Hf1 Hf2)
    as [(s1 & Hc1 & Hc2)|(s2 & Hc2 & Hc1)].
  - destruct (agendar_secao_outro amb paciente1 medico_id1 data1 hora1 obs1 medico1 s)
      as (Hs & Hinv1 & Hdp & Hdm & Hout); try done.
    rewrite Hc1 in Hs, Hinv1, Hdp, Hdm, Hout. simpl in *.
    split; [done|]. rewrite <- Hc2.
    apply (agendar_secao_outro amb paciente2 medico_id2 data2 hora2 obs2 medico2 s1); try done.
    + by rewrite (paciente_de_dados s s1).
    + by rewrite (medico_de_dados s s1).
    + apply Hout; [|done]. intros (? & ? & ?). apply Hne. by repeat split.
  - destruct (agendar_secao_outro amb paciente2 medico_id2 data2 hora2 obs2 medico2 s)
      as (Hs & Hinv2 & Hdp & Hdm & Hout); try done.
    rewrite Hc2 in Hs, Hinv2, Hdp, Hdm, Hout. simpl in *.
    split; [|done]. rewrite <- Hc1.
    apply (agendar_secao_outro amb paciente1 medico_id1 data1 hora1 obs1 medico1 s2); try done.
    + by rewrite (paciente_de_dados s s2).
    + by rewrite (medico_de_dados s s2).
    + by apply Hout.
Qed.

(** ** Concrete calls on the service *)

Lemma leituras_exemplo : LeiturasOk amb_exemplo.
Proof. intros n. reflexivity. Qed.

Lemma escritas_exemplo : EscritasOk amb_exemplo.
Proof. intros n. reflexivity. Qed.

Lemma alcancavel_cadastro : alcancavel amb_exemplo "/dados" estado_cadastro.
Proof. exists cadastro. reflexivity. Qed.

Lemma alcancavel_agendado : alcancavel amb_exemplo "/dados" estado_agendado.
Proof. eexists. reflexivity. Qed.

(** A second patient with Ana's cpf is refused. *)
Lemma criar_paciente_checks_cpf_witness :
  (criar_paciente amb_exemplo "Ana Maria" "111.111.111-11" "(85) 3" "am@test.com"
     estado_cadastro).1
  = Some (false, CpfJaCadastrado, None).
Proof.
  refine (proj1 (proj1 (criar_paciente_checks_cpf amb_exemplo "/dados" estado_cadastro
                          "Ana Maria" "111.111.111-11" "(85) 3" "am@test.com"
                          leituras_exemplo alcancavel_cadastro) _)).
  vm_compute. apply list_elem_of_here.
Defined.

(** A second doctor with the crm of Dr. Teste is refused. *)
Lemma criar_medico_checks_crm_witness :
  (criar_medico amb_exemplo "Dra. Outra" "12345-CE" "Pediatra" ["10:00"] estado_cadastro).1
  = Some (false, CrmJaCadastrado, None).
Proof.
  refine (proj1 (proj1 (criar_medico_checks_crm amb_exemplo "/dados" estado_cadastro
                          "Dra. Outra" "12345-CE" "Pediatra" ["10:00"]
                          leituras_exemplo alcancavel_cadastro) _)).
  vm_compute. apply list_elem_of_here.
Defined.

(** Bia changes her telephone. *)
Lemma atualizar_paciente_replaces_record_witness :
  (atualizar_paciente amb_exemplo "P00001007" "Bia" "222.222.222-22" "(85) 9"
     "bia@test.com" estado_cadastro).1
  = Some (true, PacienteAtualizado).
Proof.
  refine (proj1 (proj2 (proj2 (atualizar_paciente_replaces_record amb_exemplo "/dados"
                                 estado_cadastro "P00001007" "Bia" "222.222.222-22" "(85) 9"
                                 "bia@test.com" leituras_exemplo alcancavel_cadastro)
                          paciente_bia _))).
  vm_compute. reflexivity.
Defined.

(** Ana's appointment is confirmed. *)
Lemma atualizar_status_consulta_sets_status_witness :
  (atualizar_status_consulta amb_exemplo "C00001021" "confirmada" estado_agendado).1
  = Some (true, StatusAtualizado "confirmada").
Proof.
  refine (proj1 (proj2 (proj2 (proj2 (atualizar_status_consulta_sets_status amb_exemplo
                                        "/dados" estado_agendado "C00001021" "confirmada"
                                        leituras_exemplo alcancavel_agendado))
                          consulta_ana _ _))).
  - vm_compute. reflexivity.
  - apply list_elem_of_further, list_elem_of_here.
Defined.

Lemma listings_return_the_stored_records_witness :
  ∃ ps, (listar_pacientes amb_exemplo estado_cadastro).1 = Some ps
        ∧ RPaciente <$> ps
          = JSONStorage.carregar json_load true "pacientes" (storage estado_cadastro)
        ∧ storage (listar_pacientes amb_exemplo estado_cadastro).2 = storage estado_cadastro.
Proof.
  exact (proj1 (listings_return_the_stored_records amb_exemplo "/dados" estado_cadastro
                  leituras_exemplo alcancavel_cadastro)).
Defined.

Lemma lookups_return_the_stored_record_witness :
  storage (buscar_medico amb_exemplo "M00001012" estado_cadastro).2 = storage estado_cadastro.
Proof.
  destruct (lookups_return_the_stored_record amb_exemplo "/dados" estado_cadastro
              "M00001012" leituras_exemplo alcancavel_cadastro) as (_ & [_ H] & _).
  exact H.
Defined.

Lemma appointments_by_patient_and_doctor_witness :
  ∃ cs, RConsulta <$> cs
        = JSONStorage.carregar json_load true "consultas" (storage estado_agendado)
    ∧ (listar_consultas_paciente amb_exemplo "P00001002" estado_agendado).1
      = Some (List.filter (fun c => bool_decide (Consulta.paciente_id c = "P00001002")) cs)
    ∧ (listar_consultas_medico amb_exemplo "P00001002" estado_agendado).1
      = Some (List.filter (fun c => bool_decide (Consulta.medico_id c = "P00001002")) cs)
    ∧ storage (listar_consultas_paciente amb_exemplo "P00001002" estado_agendado).2
      = storage estado_agendado
    ∧ storage (listar_consultas_medico amb_exemplo "P00001002" estado_agendado).2
      = storage estado_agendado.
Proof.
  exact (appointments_by_patient_and_doctor amb_exemplo "/dados" estado_agendado "P00001002"
           leituras_exemplo alcancavel_agendado).
Defined.

(** The slot Ana holds is found taken. *)
Lemma verificar_conflito_finds_live_appointments_witness :
  (verificar_conflito amb_exemplo "M00001012" "2025-11-25" "09:00" None estado_agendado).1
  = Some (true, HorarioOcupado).
Proof.
  refine (proj2 (proj2 (proj2 (verificar_conflito_finds_live_appointments amb_exemplo
                                 "/dados" estado_agendado "M00001012" "2025-11-25" "09:00"
                                 None leituras_exemplo alcancavel_agendado))) _).
  exists consulta_ana. split; [|split].
  - vm_compute. apply list_elem_of_here.
  - intros (id & Hid & _). discriminate Hid.
  - repeat split. discriminate.
Defined.

Lemma handlers_never_run_witness :
  ∃ r, (remover_paciente amb_exemplo "P00001002" estado_agendado).1 = Some r ∧ r.2 ≠ Erro.
Proof.
  exact (proj1 (proj2 (proj2 (handlers_never_run amb_exemplo "/dados" estado_agendado
                                leituras_exemplo alcancavel_agendado))) "P00001002").
Defined.

Lemma one_live_appointment_per_slot_witness :
  sem_conflitos (executar_todas amb_exemplo remarcacao (estado_inicial "/dados")).
Proof.
  apply (one_live_appointment_per_slot amb_exemplo "/dados" remarcacao leituras_exemplo).
  repeat constructor.
Defined.

Lemma cpfs_distinct_without_updates_witness :
  cpfs_distintos (executar_todas amb_exemplo remarcacao (estado_inicial "/dados")).
Proof.
  apply (cpfs_distinct_without_updates amb_exemplo "/dados" remarcacao leituras_exemplo).
  repeat constructor.
Defined.

Lemma appointments_keep_their_doctor_witness :
  ∃ m, medico_de estado_agendado (Consulta.medico_id consulta_ana) = Some m
       ∧ Consulta.hora consulta_ana ∈ Medico.horarios_disponiveis m.
Proof.
  apply (appointments_keep_their_doctor amb_exemplo "/dados" estado_agendado
           leituras_exemplo alcancavel_agendado consulta_ana).
  vm_compute. apply list_elem_of_here.
Defined.

(** Ana cancels, and Bia books the slot. *)
Lemma cancelled_slot_can_be_booked_again_witness :
  (cancelar_consulta amb_exemplo "C00001021" estado_agendado).1
  = Some (true, StatusAtualizado Consulta.STATUS_CANCELADA).
Proof.
  refine (proj1 (cancelled_slot_can_be_booked_again amb_exemplo "/dados" estado_agendado
                   "C00001021" consulta_ana "P00001007" ""
                   leituras_exemplo escritas_exemplo alcancavel_agendado _ _ _ _)).
  - apply (@executar_todas_sem_conflitos amb_exemplo leituras_exemplo).
    + repeat constructor.
    + apply invariante_inicial.
    + apply sem_conflitos_inicial.
  - vm_compute. reflexivity.
  - discriminate.
  - exists paciente_bia. vm_compute. reflexivity.
Defined.

(** Ana asks for the 25th and Bia for the 26th, from two threads: some
    continuation of the empty interleaving ends with both booked. *)
Lemma concurrent_bookings_of_different_slots_witness :
  ∃ resto c1 c2,
    fio1 (executar_agenda resto
            (sistema_inicial estado_cadastro
               (agendar_secao amb_exemplo "P00001002" "M00001012" "2025-11-25" "09:00" "")
               (agendar_secao amb_exemplo "P00001007" "M00001012" "2025-11-26" "09:00" "")))
    = Terminou (true, ConsultaAgendada, Some c1)
    ∧ fio2 (executar_agenda resto
              (sistema_inicial estado_cadastro
                 (agendar_secao amb_exemplo "P00001002" "M00001012" "2025-11-25" "09:00" "")
                 (agendar_secao amb_exemplo "P00001007" "M00001012" "2025-11-26" "09:00" "")))
      = Terminou (true, ConsultaAgendada, Some c2).
Proof.
  destruct (concurrent_bookings_of_different_slots amb_exemplo "/dados" estado_cadastro
              "P00001002" "M00001012" "2025-11-25" "09:00" "" medico_teste
              "P00001007" "M00001012" "2025-11-26" "09:00" "" medico_teste
              leituras_exemplo escritas_exemplo alcancavel_cadastro) as [Htermina Hambos].
  - vm_compute. eauto.
  - vm_compute. eauto.
  - vm_compute. reflexivity.
  - by left.
  - vm_compute. reflexivity.
  - by left.
  - intros (c & Hc & _). vm_compute in Hc. inversion Hc.
  - intros (c & Hc & _). vm_compute in Hc. inversion Hc.
  - intros (_ & Hd & _). discriminate Hd.
  - destruct (Htermina []) as (resto & r1 & r2 & H1 & H2).
    destruct (Hambos _ _ _ H1 H2) as [[c1 ->] [c2 ->]].
    exists resto, c1, c2. exact (conj H1 H2).
Defined.
